(** * Match simulation core of kilocup: a shallow embedding

    The embedding follows [src/lib/game/math/vec2.ts], the physics module
    ([sim/physics.ts]), [sim/ai.ts], [engine/reset.ts] and [sim/step.ts].

    Conventions.
    - A JavaScript [number] that carries a coordinate, a speed or a timer is a
      real number ([R]): [Math.sqrt] is [sqrt], [Math.pow] is [Rpower],
      [Math.cos]/[Math.sin] are [cos]/[sin].  Rounding, NaN and the two
      infinities are outside this idealisation; an accumulator that starts at
      [Infinity] is an [option R] whose [None] is the infinity.
    - The score is an integer ([Z]).
    - [string | null] is [option string]; the truthiness test
      [if (s)] is [truthy], false on [null] and on the empty string.
    - [playersById] is the list of the player objects in insertion order (the
      order of [Object.values]); a player is found by its [id], the key under
      which [createMatch] stores it.  A team holds the ids of its players, so
      that the object shared by [playersById] and [team.players] exists once.
    - [playersById] and [teamsById] are plain objects.  A lookup under a
      stored id finds the stored object; under any other key it is
      [undefined], except under the names a plain object inherits from
      [Object.prototype] ([inheritedKey]), where it yields the inherited value.
      [getPlayer] and [getTeam] model the lookup for stored ids and for keys
      that are not inherited names; a statement about a key that is not
      stored says so.  The ids [createMatch] makes contain a colon and are not
      inherited names.
    - A mutation is a function from the old state to the new one.  A
      [TypeError] (reading a property of [undefined]) is [None].
    - [Math.random()] in the opponent controller reads an oracle
      [rnd : nat -> R], one index per call.
    - [engine.vfx] (confetti and banner timers, touched only by [stepVfx] and
      [triggerGoalVfx]) belongs to the presentation layer and is not part of
      the state modelled here. *)

From Stdlib Require Import Reals Lra List String ZArith Bool Lia.
Import ListNotations.
Open Scope R_scope.

(* ------------------------------------------------------------------ *)
(** ** Numbers and nullable strings *)

Definition Rltb (a b : R) : bool := if Rlt_dec a b then true else false.
Definition Rleb (a b : R) : bool := if Rle_dec a b then true else false.

(** [d < best] where [best] starts at [Infinity]. *)
Definition ltInf (d : R) (best : option R) : bool :=
  match best with
  | None => true
  | Some b => Rltb d b
  end.

Definition truthy (s : option string) : bool :=
  match s with
  | Some k => negb (String.eqb k EmptyString)
  | None => false
  end.

(** [a === b] for a nullable string and a string. *)
Definition optIs (a : option string) (b : string) : bool :=
  match a with
  | Some k => String.eqb k b
  | None => false
  end.

(** [clamp] of vec2.ts. *)
Definition clamp (x lo hi : R) : R := Rmax lo (Rmin hi x).

(** [Math.atan2(y, x)]. *)
Definition atan2 (y x : R) : R :=
  if Rlt_dec 0 x then atan (y / x)
  else if Rlt_dec x 0 then
    (if Rle_dec 0 y then atan (y / x) + PI else atan (y / x) - PI)
  else if Rlt_dec 0 y then PI / 2
  else if Rlt_dec y 0 then - (PI / 2)
  else 0.

(* ------------------------------------------------------------------ *)
(** ** vec2.ts *)

Record Vec2 := mkVec2 { vec_x : R; vec_y : R }.

Module V.
Definition v (x y : R) : Vec2 := mkVec2 x y.
Definition add (a b : Vec2) : Vec2 := mkVec2 (vec_x a + vec_x b) (vec_y a + vec_y b).
Definition sub (a b : Vec2) : Vec2 := mkVec2 (vec_x a - vec_x b) (vec_y a - vec_y b).
Definition mul (a : Vec2) (s : R) : Vec2 := mkVec2 (vec_x a * s) (vec_y a * s).
Definition dot (a b : Vec2) : R := vec_x a * vec_x b + vec_y a * vec_y b.
Definition lenSq (a : Vec2) : R := vec_x a * vec_x a + vec_y a * vec_y a.
Definition len (a : Vec2) : R := sqrt (lenSq a).
Definition norm (a : Vec2) : Vec2 :=
  let l := len a in
  if Rle_dec l 1e-9 then mkVec2 0 0 else mkVec2 (vec_x a / l) (vec_y a / l).
Definition distSq (a b : Vec2) : R := lenSq (sub a b).
Definition dist (a b : Vec2) : R := sqrt (distSq a b).
Definition clampLen (a : Vec2) (maxLen : R) : Vec2 :=
  let l := len a in
  if Rle_dec l maxLen then a
  else if Rle_dec l 1e-9 then mkVec2 0 0
  else let s := maxLen / l in mkVec2 (vec_x a * s) (vec_y a * s).
End V.

(* ------------------------------------------------------------------ *)
(** ** engineTypes.ts *)

Inductive PlayerRole := GK | DF | MF | FW.

Definition isGK (r : PlayerRole) : bool :=
  match r with GK => true | _ => false end.
Definition isDF (r : PlayerRole) : bool :=
  match r with DF => true | _ => false end.
Definition isMF (r : PlayerRole) : bool :=
  match r with MF => true | _ => false end.
Definition isFW (r : PlayerRole) : bool :=
  match r with FW => true | _ => false end.

Record Player := mkPlayer {
  p_id : string;
  p_name : string;
  p_role : PlayerRole;
  p_teamId : string;
  p_pos : Vec2;
  p_vel : Vec2;
  p_facingRad : R;
  p_stamina : R;
  p_hasBall : bool;
  p_maxSpeed : R;
  p_accel : R;
  p_kickPower : R
}.

Definition set_p_pos (p : Player) (v : Vec2) : Player :=
  mkPlayer (p_id p) (p_name p) (p_role p) (p_teamId p) v (p_vel p)
    (p_facingRad p) (p_stamina p) (p_hasBall p) (p_maxSpeed p) (p_accel p) (p_kickPower p).
Definition set_p_vel (p : Player) (v : Vec2) : Player :=
  mkPlayer (p_id p) (p_name p) (p_role p) (p_teamId p) (p_pos p) v
    (p_facingRad p) (p_stamina p) (p_hasBall p) (p_maxSpeed p) (p_accel p) (p_kickPower p).
Definition set_p_facingRad (p : Player) (a : R) : Player :=
  mkPlayer (p_id p) (p_name p) (p_role p) (p_teamId p) (p_pos p) (p_vel p)
    a (p_stamina p) (p_hasBall p) (p_maxSpeed p) (p_accel p) (p_kickPower p).
Definition set_p_hasBall (p : Player) (b : bool) : Player :=
  mkPlayer (p_id p) (p_name p) (p_role p) (p_teamId p) (p_pos p) (p_vel p)
    (p_facingRad p) (p_stamina p) b (p_maxSpeed p) (p_accel p) (p_kickPower p).

(** A team, reduced to what the simulation reads: its id and its roster. *)
Record Team := mkTeam {
  t_id : string;
  t_players : list string
}.

Record Ball := mkBall {
  b_pos : Vec2;
  b_vel : Vec2;
  b_radius : R;
  b_ownerPlayerId : option string;
  b_lastTouchTeamId : option string;
  b_lastKickPlayerId : option string;
  b_kickNoPickupMs : R
}.

Definition set_b_pos (b : Ball) (v : Vec2) : Ball :=
  mkBall v (b_vel b) (b_radius b) (b_ownerPlayerId b) (b_lastTouchTeamId b)
    (b_lastKickPlayerId b) (b_kickNoPickupMs b).
Definition set_b_vel (b : Ball) (v : Vec2) : Ball :=
  mkBall (b_pos b) v (b_radius b) (b_ownerPlayerId b) (b_lastTouchTeamId b)
    (b_lastKickPlayerId b) (b_kickNoPickupMs b).
Definition set_b_ownerPlayerId (b : Ball) (o : option string) : Ball :=
  mkBall (b_pos b) (b_vel b) (b_radius b) o (b_lastTouchTeamId b)
    (b_lastKickPlayerId b) (b_kickNoPickupMs b).
Definition set_b_lastTouchTeamId (b : Ball) (o : option string) : Ball :=
  mkBall (b_pos b) (b_vel b) (b_radius b) (b_ownerPlayerId b) o
    (b_lastKickPlayerId b) (b_kickNoPickupMs b).
Definition set_b_lastKickPlayerId (b : Ball) (o : option string) : Ball :=
  mkBall (b_pos b) (b_vel b) (b_radius b) (b_ownerPlayerId b) (b_lastTouchTeamId b)
    o (b_kickNoPickupMs b).
Definition set_b_kickNoPickupMs (b : Ball) (ms : R) : Ball :=
  mkBall (b_pos b) (b_vel b) (b_radius b) (b_ownerPlayerId b) (b_lastTouchTeamId b)
    (b_lastKickPlayerId b) ms.

Inductive Phase := PRE_KICKOFF | FIRST_HALF | HALF_TIME | SECOND_HALF | FULL_TIME.

Definition isFullTime (ph : Phase) : bool :=
  match ph with FULL_TIME => true | _ => false end.

Record MatchClock := mkClock {
  msElapsed : R;
  msTotal : R;
  phase : Phase
}.

Record Score := mkScore { home : Z; away : Z }.

Record Possession := mkPossession {
  pos_teamId : option string;
  pos_playerId : option string
}.

Record MatchState := mkMatch {
  m_id : string;
  homeTeamId : string;
  awayTeamId : string;
  score : Score;
  clock : MatchClock;
  ball : Ball;
  playersById : list Player;
  teamsById : list Team;
  humanTeamId : string;
  controlledPlayerId : string;
  possession : Possession;
  lastEventText : option string
}.

Definition set_score (m : MatchState) (s : Score) : MatchState :=
  mkMatch (m_id m) (homeTeamId m) (awayTeamId m) s (clock m) (ball m)
    (playersById m) (teamsById m) (humanTeamId m) (controlledPlayerId m)
    (possession m) (lastEventText m).
Definition set_clock (m : MatchState) (c : MatchClock) : MatchState :=
  mkMatch (m_id m) (homeTeamId m) (awayTeamId m) (score m) c (ball m)
    (playersById m) (teamsById m) (humanTeamId m) (controlledPlayerId m)
    (possession m) (lastEventText m).
Definition set_ball (m : MatchState) (b : Ball) : MatchState :=
  mkMatch (m_id m) (homeTeamId m) (awayTeamId m) (score m) (clock m) b
    (playersById m) (teamsById m) (humanTeamId m) (controlledPlayerId m)
    (possession m) (lastEventText m).
Definition set_players (m : MatchState) (ps : list Player) : MatchState :=
  mkMatch (m_id m) (homeTeamId m) (awayTeamId m) (score m) (clock m) (ball m)
    ps (teamsById m) (humanTeamId m) (controlledPlayerId m)
    (possession m) (lastEventText m).
Definition set_controlledPlayerId (m : MatchState) (k : string) : MatchState :=
  mkMatch (m_id m) (homeTeamId m) (awayTeamId m) (score m) (clock m) (ball m)
    (playersById m) (teamsById m) (humanTeamId m) k
    (possession m) (lastEventText m).
Definition set_possession (m : MatchState) (po : Possession) : MatchState :=
  mkMatch (m_id m) (homeTeamId m) (awayTeamId m) (score m) (clock m) (ball m)
    (playersById m) (teamsById m) (humanTeamId m) (controlledPlayerId m)
    po (lastEventText m).
Definition set_lastEventText (m : MatchState) (t : option string) : MatchState :=
  mkMatch (m_id m) (homeTeamId m) (awayTeamId m) (score m) (clock m) (ball m)
    (playersById m) (teamsById m) (humanTeamId m) (controlledPlayerId m)
    (possession m) t.

Record InputSnapshot := mkInput {
  moveVec : Vec2;
  sprint : bool;
  actionDown : bool;
  actionPressed : bool;
  actionReleased : bool;
  shootDown : bool;
  shootReleased : bool;
  pausePressed : bool
}.

Record EngineConfig := mkConfig {
  pitchW : R;
  pitchH : R;
  goalHalfW : R;
  goalDepth : R;
  simDtMs : R;
  maxFrameDtMs : R;
  uiHz : R;
  matchMsTotal : R
}.

Inductive EngineEvent :=
| GOAL (scoringTeamId : string) (sc : Score) (text : string)
| FULL_TIME_EVENT (sc : Score) (text : string).

Record CpuAiState := mkCpuAi {
  shootCooldownMs : R;
  dribbleJitterPhase : R;
  chaserPlayerId : option string
}.

Record EngineState := mkEngine {
  config : EngineConfig;
  e_match : MatchState;
  paused : bool;
  kickoffHoldMs : R;
  kickoffAwaitInput : bool;
  uiMsAcc : R;
  celebrationMs : R;
  switchCooldownMs : R;
  stealCooldownMs : R;
  shootChargeMs : R;
  actionChargeMs : R;
  cpuAi : CpuAiState
}.

Definition set_match (e : EngineState) (m : MatchState) : EngineState :=
  mkEngine (config e) m (paused e) (kickoffHoldMs e) (kickoffAwaitInput e) (uiMsAcc e)
    (celebrationMs e) (switchCooldownMs e) (stealCooldownMs e) (shootChargeMs e)
    (actionChargeMs e) (cpuAi e).
Definition set_kickoffHoldMs (e : EngineState) (ms : R) : EngineState :=
  mkEngine (config e) (e_match e) (paused e) ms (kickoffAwaitInput e) (uiMsAcc e)
    (celebrationMs e) (switchCooldownMs e) (stealCooldownMs e) (shootChargeMs e)
    (actionChargeMs e) (cpuAi e).
Definition set_kickoffAwaitInput (e : EngineState) (b : bool) : EngineState :=
  mkEngine (config e) (e_match e) (paused e) (kickoffHoldMs e) b (uiMsAcc e)
    (celebrationMs e) (switchCooldownMs e) (stealCooldownMs e) (shootChargeMs e)
    (actionChargeMs e) (cpuAi e).
Definition set_celebrationMs (e : EngineState) (ms : R) : EngineState :=
  mkEngine (config e) (e_match e) (paused e) (kickoffHoldMs e) (kickoffAwaitInput e) (uiMsAcc e)
    ms (switchCooldownMs e) (stealCooldownMs e) (shootChargeMs e)
    (actionChargeMs e) (cpuAi e).
Definition set_switchCooldownMs (e : EngineState) (ms : R) : EngineState :=
  mkEngine (config e) (e_match e) (paused e) (kickoffHoldMs e) (kickoffAwaitInput e) (uiMsAcc e)
    (celebrationMs e) ms (stealCooldownMs e) (shootChargeMs e)
    (actionChargeMs e) (cpuAi e).
Definition set_stealCooldownMs (e : EngineState) (ms : R) : EngineState :=
  mkEngine (config e) (e_match e) (paused e) (kickoffHoldMs e) (kickoffAwaitInput e) (uiMsAcc e)
    (celebrationMs e) (switchCooldownMs e) ms (shootChargeMs e)
    (actionChargeMs e) (cpuAi e).
Definition set_shootChargeMs (e : EngineState) (ms : R) : EngineState :=
  mkEngine (config e) (e_match e) (paused e) (kickoffHoldMs e) (kickoffAwaitInput e) (uiMsAcc e)
    (celebrationMs e) (switchCooldownMs e) (stealCooldownMs e) ms
    (actionChargeMs e) (cpuAi e).
Definition set_actionChargeMs (e : EngineState) (ms : R) : EngineState :=
  mkEngine (config e) (e_match e) (paused e) (kickoffHoldMs e) (kickoffAwaitInput e) (uiMsAcc e)
    (celebrationMs e) (switchCooldownMs e) (stealCooldownMs e) (shootChargeMs e)
    ms (cpuAi e).
Definition set_cpuAi (e : EngineState) (a : CpuAiState) : EngineState :=
  mkEngine (config e) (e_match e) (paused e) (kickoffHoldMs e) (kickoffAwaitInput e) (uiMsAcc e)
    (celebrationMs e) (switchCooldownMs e) (stealCooldownMs e) (shootChargeMs e)
    (actionChargeMs e) a.

(* ------------------------------------------------------------------ *)
(** ** The player store *)

Definition hasId (k : string) (p : Player) : bool := String.eqb (p_id p) k.


(** [playersById[k]], for a stored id or a key with [inheritedKey k = false]. *)
Definition getPlayer (ps : list Player) (k : string) : option Player :=
  find (hasId k) ps.

(** [playersById[k]] for a nullable key: [k ? playersById[k] : null]. *)
Definition getPlayerOpt (ps : list Player) (k : option string) : option Player :=
  if truthy k then
    match k with Some s => getPlayer ps s | None => None end
  else None.

(** Mutation of the object stored under [k]. *)
Definition updPlayer (k : string) (f : Player -> Player) (ps : list Player) : list Player :=
  map (fun p => if hasId k p then f p else p) ps.

Definition getTeam (ts : list Team) (k : string) : option Team :=
  find (fun t => String.eqb (t_id t) k) ts.

(** Resolve a roster to the player objects it holds. *)
Fixpoint resolve (ps : list Player) (ids : list string) : list Player :=
  match ids with
  | [] => []
  | k :: rest =>
      match getPlayer ps k with
      | Some p => p :: resolve ps rest
      | None => resolve ps rest
      end
  end.

(** [match.teamsById[teamId]?.players ?? []], as ids. *)
Definition getTeamPlayerIds (m : MatchState) (teamId : string) : list string :=
  match getTeam (teamsById m) teamId with
  | Some t => t_players t
  | None => []
  end.

Definition getTeamPlayers (m : MatchState) (teamId : string) : list Player :=
  resolve (playersById m) (getTeamPlayerIds m teamId).

Definition getOppPlayers (m : MatchState) (teamId : string) : list Player :=
  let oppId := if String.eqb teamId (homeTeamId m) then awayTeamId m else homeTeamId m in
  getTeamPlayers m oppId.

(** The loops of the form
    [let best = null; let bestD2 = Infinity;
     for (const p of players) { if (skip) continue; ...
       if (ok && d2 < bestD2) { bestD2 = d2; best = p; } }]
    share one shape: the first player, in iteration order, of least [d2]
    among the eligible ones.  [elig p] is the negation of the skip tests
    together with the range test, [d2 p] the squared distance. *)
Definition nearestStep (elig : Player -> bool) (d2 : Player -> R)
    (best : option (Player * R)) (p : Player) : option (Player * R) :=
  if elig p && ltInf (d2 p) (option_map snd best) then Some (p, d2 p) else best.

Definition nearestBy (elig : Player -> bool) (d2 : Player -> R) (ps : list Player)
    : option (Player * R) :=
  fold_left (nearestStep elig d2) ps None.

(* ------------------------------------------------------------------ *)
(** ** physics.ts *)

Definition PLAYER_RADIUS : R := 2.0.
Definition BALL_FRICTION_PER_SEC : R := 0.82.
Definition BALL_RESTITUTION : R := 0.55.
Definition BALL_CLAIM_SPEED_MAX : R := 7.5.
Definition BALL_CLAIM_DIST : R := PLAYER_RADIUS + 1.2 + 0.9.
Definition BALL_RELEASE_KICK_SPEED_MIN : R := 8.

Record GoalResult := mkGoal { scored : bool; g_scoringTeamId : option string }.

Definition integratePlayer (p : Player) (desiredVel : Vec2) (dt : R) : Player :=
  let dv := V.sub desiredVel (p_vel p) in
  let maxDv := p_accel p * dt in
  let dvClamped := V.clampLen dv maxDv in
  let vel1 := mkVec2 (vec_x (p_vel p) + vec_x dvClamped) (vec_y (p_vel p) + vec_y dvClamped) in
  let vLen := V.len vel1 in
  let desiredSpeed := V.len desiredVel in
  let speedCap := Rmax (p_maxSpeed p) desiredSpeed in
  let vel2 :=
    if Rlt_dec speedCap vLen then
      let s := speedCap / vLen in mkVec2 (vec_x vel1 * s) (vec_y vel1 * s)
    else vel1 in
  let pos2 := mkVec2 (vec_x (p_pos p) + vec_x vel2 * dt) (vec_y (p_pos p) + vec_y vel2 * dt) in
  let p1 := set_p_pos (set_p_vel p vel2) pos2 in
  if Rlt_dec 0.2 vLen then set_p_facingRad p1 (atan2 (vec_y vel2) (vec_x vel2)) else p1.

Definition containPlayerInPitch (cfg : EngineConfig) (p : Player) : Player :=
  let halfW := pitchW cfg / 2 in
  let halfH := pitchH cfg / 2 in
  set_p_pos p
    (mkVec2 (clamp (vec_x (p_pos p)) (- halfW + PLAYER_RADIUS) (halfW - PLAYER_RADIUS))
            (clamp (vec_y (p_pos p)) (- halfH + PLAYER_RADIUS) (halfH - PLAYER_RADIUS))).

Definition detectGoal (m : MatchState) (cfg : EngineConfig) (b : Ball) : GoalResult :=
  let halfW := pitchW cfg / 2 in
  let inMouth := Rleb (Rabs (vec_y (b_pos b))) (goalHalfW cfg) in
  if negb inMouth then mkGoal false None
  else if Rle_dec (vec_x (b_pos b)) (- halfW - b_radius b) then
    mkGoal true (Some (awayTeamId m))
  else if Rle_dec (halfW + b_radius b) (vec_x (b_pos b)) then
    mkGoal true (Some (homeTeamId m))
  else mkGoal false None.

Definition bounceBallOffPitch (cfg : EngineConfig) (b : Ball) : Ball :=
  let halfW := pitchW cfg / 2 in
  let halfH := pitchH cfg / 2 in
  let inMouthBand := Rleb (Rabs (vec_y (b_pos b))) (goalHalfW cfg) in
  let b1 :=
    if negb inMouthBand then
      if Rlt_dec (vec_x (b_pos b)) (- halfW + b_radius b) then
        set_b_vel (set_b_pos b (mkVec2 (- halfW + b_radius b) (vec_y (b_pos b))))
          (mkVec2 (Rabs (vec_x (b_vel b)) * BALL_RESTITUTION) (vec_y (b_vel b)))
      else if Rlt_dec (halfW - b_radius b) (vec_x (b_pos b)) then
        set_b_vel (set_b_pos b (mkVec2 (halfW - b_radius b) (vec_y (b_pos b))))
          (mkVec2 (- Rabs (vec_x (b_vel b)) * BALL_RESTITUTION) (vec_y (b_vel b)))
      else b
    else b in
  if Rlt_dec (vec_y (b_pos b1)) (- halfH + b_radius b1) then
    set_b_vel (set_b_pos b1 (mkVec2 (vec_x (b_pos b1)) (- halfH + b_radius b1)))
      (mkVec2 (vec_x (b_vel b1)) (Rabs (vec_y (b_vel b1)) * BALL_RESTITUTION))
  else if Rlt_dec (halfH - b_radius b1) (vec_y (b_pos b1)) then
    set_b_vel (set_b_pos b1 (mkVec2 (vec_x (b_pos b1)) (halfH - b_radius b1)))
      (mkVec2 (vec_x (b_vel b1)) (- Rabs (vec_y (b_vel b1)) * BALL_RESTITUTION))
  else b1.

Definition integrateFreeBall (m : MatchState) (cfg : EngineConfig) (b : Ball) (dt : R)
    : Ball * GoalResult :=
  let b1 := set_b_pos b (mkVec2 (vec_x (b_pos b) + vec_x (b_vel b) * dt)
                                (vec_y (b_pos b) + vec_y (b_vel b) * dt)) in
  let f := Rpower BALL_FRICTION_PER_SEC dt in
  let velx := vec_x (b_vel b1) * f in
  let vely := vec_y (b_vel b1) * f in
  let velx := if Rlt_dec (Rabs velx) 0.05 then 0 else velx in
  let vely := if Rlt_dec (Rabs vely) 0.05 then 0 else vely in
  let b2 := set_b_vel b1 (mkVec2 velx vely) in
  let goal := detectGoal m cfg b2 in
  if scored goal then (b2, goal)
  else (bounceBallOffPitch cfg b2, mkGoal false None).

Definition attachBallToOwner (b : Ball) (owner : Player) : Ball :=
  let front := mkVec2 (cos (p_facingRad owner)) (sin (p_facingRad owner)) in
  let offset := PLAYER_RADIUS + b_radius b * 0.85 in
  set_b_vel
    (set_b_pos b (mkVec2 (vec_x (p_pos owner) + vec_x front * offset)
                         (vec_y (p_pos owner) + vec_y front * offset)))
    (mkVec2 (vec_x (p_vel owner)) (vec_y (p_vel owner))).

(** The test that keeps the kicker away from their own kick:
    [ball.kickNoPickupMs > 0 && ball.lastKickPlayerId && p.id === ball.lastKickPlayerId]. *)
Definition kickImmune (b : Ball) (p : Player) : bool :=
  Rltb 0 (b_kickNoPickupMs b) && truthy (b_lastKickPlayerId b)
  && optIs (b_lastKickPlayerId b) (p_id p).

Definition clearHasBall (ps : list Player) : list Player :=
  map (fun p => set_p_hasBall p false) ps.

Definition noPossession : Possession := mkPossession None None.

Definition tryClaimBall (m : MatchState) : MatchState * Possession :=
  let b := ball m in
  if truthy (b_ownerPlayerId b) then (m, possession m)
  else
    let speed := V.len (b_vel b) in
    if Rlt_dec BALL_CLAIM_SPEED_MAX speed then (m, noPossession)
    else
      match nearestBy (fun p => negb (kickImmune b p))
                      (fun p => V.distSq (p_pos p) (b_pos b)) (playersById m) with
      | None => (m, noPossession)
      | Some (bestP, bestD2) =>
          if Rle_dec bestD2 (BALL_CLAIM_DIST * BALL_CLAIM_DIST) then
            let b1 := set_b_lastTouchTeamId (set_b_ownerPlayerId b (Some (p_id bestP)))
                        (Some (p_teamId bestP)) in
            let b2 := set_b_kickNoPickupMs (set_b_lastKickPlayerId b1 None) 0 in
            let ps := updPlayer (p_id bestP) (fun p => set_p_hasBall p true)
                        (clearHasBall (playersById m)) in
            (set_players (set_ball m b2) ps,
             mkPossession (Some (p_teamId bestP)) (Some (p_id bestP)))
          else (m, noPossession)
      end.

(** [kicker] is the kicking player object as it stands at the call. *)
Definition releaseBallWithKick (m : MatchState) (kicker : Player) (dir : Vec2) (speed : R)
    : MatchState :=
  let b := ball m in
  let dirN := V.norm dir in
  let kickSpeed := Rmax speed BALL_RELEASE_KICK_SPEED_MIN in
  let b1 := set_b_lastTouchTeamId (set_b_ownerPlayerId b None) (Some (p_teamId kicker)) in
  let b2 := set_b_kickNoPickupMs (set_b_lastKickPlayerId b1 (Some (p_id kicker))) 220 in
  let ps := updPlayer (p_id kicker) (fun p => set_p_hasBall p false) (playersById m) in
  let b3 := set_b_vel b2
              (mkVec2 (vec_x dirN * kickSpeed + vec_x (p_vel kicker) * 0.35)
                      (vec_y dirN * kickSpeed + vec_y (p_vel kicker) * 0.35)) in
  set_players (set_ball m b3) ps.

Inductive GoalSide := GoalLeft | GoalRight.

Definition getGoalCenter (cfg : EngineConfig) (side : GoalSide) : Vec2 :=
  let halfW := pitchW cfg / 2 in
  mkVec2 (match side with GoalLeft => - halfW | GoalRight => halfW end) 0.

Definition getAttackDirX (m : MatchState) (teamId : string) : R :=
  if String.eqb teamId (homeTeamId m) then 1 else -1.

(* ------------------------------------------------------------------ *)
(** ** ai.ts *)

Definition clamp01 (x : R) : R := Rmax 0 (Rmin 1 x).

(** [let best = Infinity; for (o of ...) { d = ...; if (d < best) best = d; }] *)
Definition minInf (ds : list R) : option R :=
  fold_left (fun best d => if ltInf d best then Some d else best) ds None.

(** [v < c] for a value that may be [Infinity]. *)
Definition infLt (v : option R) (c : R) : bool :=
  match v with
  | Some d => Rltb d c
  | None => false
  end.

Definition nearestOpponentDist (m : MatchState) (teamId : string) (pos : Vec2) : option R :=
  minInf (map (fun o => V.dist (p_pos o) pos) (getOppPlayers m teamId)).

Definition pointSegDistSq (p a b : Vec2) : R :=
  let ab := V.sub b a in
  let ap := V.sub p a in
  let abLenSq := V.lenSq ab in
  if Rle_dec abLenSq 1e-9 then V.lenSq ap
  else
    let t := clamp (V.dot ap ab / abLenSq) 0 1 in
    let closest := V.add a (V.mul ab t) in
    V.distSq p closest.

Definition pickCpuChaser (m : MatchState) (cpuTeam : Team) : option Player :=
  option_map fst
    (nearestBy (fun p => negb (isGK (p_role p)))
               (fun p => V.distSq (p_pos p) (b_pos (ball m)))
               (resolve (playersById m) (t_players cpuTeam))).

Definition cpuChaseBall (m : MatchState) (p : Player) : MatchState :=
  let toBall := V.sub (b_pos (ball m)) (p_pos p) in
  let dir := V.norm toBall in
  set_players m
    (updPlayer (p_id p)
       (fun q => set_p_facingRad
                   (set_p_vel q (mkVec2 (vec_x (p_vel q) + vec_x dir * 0.0001)
                                        (vec_y (p_vel q) + vec_y dir * 0.0001)))
                   (atan2 (vec_y dir) (vec_x dir)))
       (playersById m)).

(** The score of one pass candidate, [None] when the loop skips it. *)
Definition cpuPassScore (cfg : EngineConfig) (m : MatchState) (cpuTeam : Team)
    (owner : Player) (towardGoalDir : Vec2) (opp : list Player) (t : Player) : option R :=
  if isGK (p_role t) then None
  else if String.eqb (p_id t) (p_id owner) then None
  else
    let to := V.sub (p_pos t) (p_pos owner) in
    let dist := V.len to in
    if Rlt_dec dist 8 then None
    else
      let toN := V.norm to in
      let ahead := V.dot toN towardGoalDir in
      if Rlt_dec ahead 0.2 then None
      else
        let cover := nearestOpponentDist m (t_id cpuTeam) (p_pos t) in
        if infLt cover 5.2 then None
        else
          let laneMin :=
            minInf (map (fun o => sqrt (pointSegDistSq (p_pos o) (p_pos owner) (p_pos t))) opp) in
          let lanePenalty :=
            match laneMin with
            | Some l => if Rlt_dec l 6.5 then (6.5 - l) * 1.1 else 0
            | None => 0
            end in
          let centerBonus :=
            clamp01 (1 - Rabs (vec_y (p_pos t)) / (goalHalfW cfg * 1.35)) * 0.9 in
          Some (ahead * 2.2 + centerBonus - dist * 0.04 - lanePenalty).

(** [bestScore] starts at [-Infinity]: [None]. *)
Definition cpuPassStep (cfg : EngineConfig) (m : MatchState) (cpuTeam : Team)
    (owner : Player) (towardGoalDir : Vec2) (opp : list Player)
    (best : option (Player * R)) (t : Player) : option (Player * R) :=
  match cpuPassScore cfg m cpuTeam owner towardGoalDir opp t with
  | None => best
  | Some sc =>
      match best with
      | None => Some (t, sc)
      | Some (_, bs) => if Rlt_dec bs sc then Some (t, sc) else best
      end
  end.

Definition pickCpuPassTarget (cfg : EngineConfig) (m : MatchState) (cpuTeam : Team)
    (owner : Player) (towardGoalDir : Vec2) : option Player :=
  let oppId := if String.eqb (t_id cpuTeam) (homeTeamId m) then awayTeamId m else homeTeamId m in
  let opp := getTeamPlayers m oppId in
  match fold_left (cpuPassStep cfg m cpuTeam owner towardGoalDir opp)
                  (resolve (playersById m) (t_players cpuTeam)) None with
  | None => None
  | Some (best, bestScore) => if Rlt_dec bestScore 0.35 then None else Some best
  end.

(** [owner] is the ball owner as found in [playersById] at the start of
    [stepCpuAi]; [rnd 0], [rnd 1], ... are the successive results of
    [Math.random()]. *)
Definition cpuDribbleAndShoot (cfg : EngineConfig) (m : MatchState) (cpuTeam : Team)
    (owner : Player) (ai : CpuAiState) (rnd : nat -> R) : MatchState * CpuAiState :=
  let targetGoal := getGoalCenter cfg GoalLeft in
  let toGoal := V.sub targetGoal (p_pos owner) in
  let baseDir := V.norm toGoal in
  let jitter := sin (dribbleJitterPhase ai) * 0.22 in
  let dribbleDir := V.norm (mkVec2 (vec_x baseDir) (vec_y baseDir + jitter)) in
  let facing := atan2 (vec_y dribbleDir) (vec_x dribbleDir) in
  let m1 := set_players m (updPlayer (p_id owner) (fun q => set_p_facingRad q facing)
                             (playersById m)) in
  let owner1 := set_p_facingRad owner facing in
  let distToGoal := V.len toGoal in
  let alignedForShot := Rltb (Rabs (vec_y (p_pos owner1))) (goalHalfW cfg * 1.15) in
  let shouldShoot :=
    Rltb distToGoal (pitchW cfg * 0.32) && alignedForShot && Rleb (shootCooldownMs ai) 0 in
  if shouldShoot then
    let ai1 := mkCpuAi (900 + rnd 0%nat * 700) (dribbleJitterPhase ai) (chaserPlayerId ai) in
    (releaseBallWithKick m1 owner1 dribbleDir (p_kickPower owner1 * 1.18), ai1)
  else
    let underPressure := infLt (nearestOpponentDist m1 (p_teamId owner1) (p_pos owner1)) 7.0 in
    (* short-circuit evaluation decides how many random numbers are drawn *)
    let '(wantsPass, n) :=
      if negb (Rleb (shootCooldownMs ai) 0) then (false, 0%nat)
      else if underPressure then (true, 0%nat)
      else if negb alignedForShot then
        (if Rltb (rnd 0%nat) 0.22 then (true, 1%nat) else (Rltb (rnd 1%nat) 0.025, 2%nat))
      else (Rltb (rnd 0%nat) 0.025, 1%nat) in
    if wantsPass then
      match pickCpuPassTarget cfg m1 cpuTeam owner1 baseDir with
      | Some passTarget =>
          let ai1 := mkCpuAi (650 + rnd n * 550) (dribbleJitterPhase ai) (chaserPlayerId ai) in
          let to := V.sub (p_pos passTarget) (p_pos owner1) in
          let dist := V.len to in
          let dir := V.norm to in
          let distFactor := clamp01 (dist / 46) in
          (releaseBallWithKick m1 owner1 dir (p_kickPower owner1 * (0.78 + 0.42 * distFactor)), ai1)
      | None => (m1, ai)
      end
    else (m1, ai).

Definition stepCpuAi (cfg : EngineConfig) (m : MatchState) (dtMs : R) (ai : CpuAiState)
    (rnd : nat -> R) : MatchState * CpuAiState :=
  match getTeam (teamsById m) (awayTeamId m) with
  | None => (m, ai)
  | Some cpuTeam =>
      let ai1 := mkCpuAi (Rmax 0 (shootCooldownMs ai - dtMs))
                         (dribbleJitterPhase ai + dtMs / 1000 * 1.4) None in
      let ownerId := b_ownerPlayerId (ball m) in
      let cpuOwner := getPlayerOpt (playersById m) ownerId in
      match cpuOwner with
      | Some owner =>
          if String.eqb (p_teamId owner) (t_id cpuTeam) then
            cpuDribbleAndShoot cfg m cpuTeam owner ai1 rnd
          else
            match pickCpuChaser m cpuTeam with
            | None => (m, ai1)
            | Some chaser =>
                (cpuChaseBall m chaser,
                 mkCpuAi (shootCooldownMs ai1) (dribbleJitterPhase ai1) (Some (p_id chaser)))
            end
      | None =>
          match pickCpuChaser m cpuTeam with
          | None => (m, ai1)
          | Some chaser =>
              (cpuChaseBall m chaser,
               mkCpuAi (shootCooldownMs ai1) (dribbleJitterPhase ai1) (Some (p_id chaser)))
          end
      end
  end.

(* ------------------------------------------------------------------ *)
(** ** reset.ts *)

(** [for (const p of players) p.field = ...], over a roster. *)
Definition updPlayers (ks : list string) (f : Player -> Player) (ps : list Player)
    : list Player :=
  fold_left (fun acc k => updPlayer k f acc) ks ps.

Definition setPos (x y : R) (p : Player) : Player := set_p_pos p (mkVec2 x y).

Definition setPosOpt (o : option Player) (x y : R) (ps : list Player) : list Player :=
  match o with
  | Some p => updPlayer (p_id p) (setPos x y) ps
  | None => ps
  end.

Definition placeTeamKickoff (cfg : EngineConfig) (roster : list string) (side : GoalSide)
    (ps : list Player) : list Player :=
  let players := resolve ps roster in
  let xSign := match side with GoalLeft => -1 | GoalRight => 1 end in
  let x0 := xSign * pitchW cfg * 0.42 in
  let x1 := xSign * pitchW cfg * 0.22 in
  let x2 := xSign * pitchW cfg * 0.08 in
  let gk := find (fun p => isGK (p_role p)) players in
  let df := find (fun p => isDF (p_role p)) players in
  let mf := find (fun p => isMF (p_role p)) players in
  let fws := filter (fun p => isFW (p_role p)) players in
  let ps1 := setPosOpt gk x0 0 ps in
  let ps2 := setPosOpt df x1 (match side with GoalLeft => -12 | GoalRight => 12 end) ps1 in
  let ps3 := setPosOpt mf x2 0 ps2 in
  let ps4 := setPosOpt (nth_error fws 0) (xSign * pitchW cfg * 0.02) (-10) ps3 in
  let ps5 := setPosOpt (nth_error fws 1) (xSign * pitchW cfg * 0.02) 10 ps4 in
  updPlayers roster
    (fun p => set_p_facingRad p (match side with GoalLeft => 0 | GoalRight => PI end)) ps5.

(** [None] when a team lookup is [undefined] or the human roster is empty
    where [players[0].id] is read. *)
Definition resetToKickoff (cfg : EngineConfig) (m : MatchState) : option MatchState :=
  match getTeam (teamsById m) (homeTeamId m), getTeam (teamsById m) (awayTeamId m) with
  | Some homeT, Some awayT =>
      let b := mkBall (mkVec2 0 0) (mkVec2 0 0) (b_radius (ball m)) None None None 0 in
      let ps1 := updPlayers (t_players homeT ++ t_players awayT)
                   (fun p => set_p_hasBall (set_p_vel p (mkVec2 0 0)) false) (playersById m) in
      let ps2 := placeTeamKickoff cfg (t_players homeT) GoalLeft ps1 in
      let ps3 := placeTeamKickoff cfg (t_players awayT) GoalRight ps2 in
      let m1 := set_players (set_possession (set_ball m b) noPossession) ps3 in
      let keep :=
        match getPlayer ps3 (controlledPlayerId m1) with
        | Some c => String.eqb (p_teamId c) (humanTeamId m1) && negb (isGK (p_role c))
        | None => false
        end in
      if keep then Some m1
      else
        match getTeam (teamsById m1) (humanTeamId m1) with
        | None => None
        | Some humanTeam =>
            let hp := resolve ps3 (t_players humanTeam) in
            match find (fun p => isMF (p_role p)) hp with
            | Some mf => Some (set_controlledPlayerId m1 (p_id mf))
            | None =>
                match find (fun p => negb (isGK (p_role p))) hp with
                | Some q => Some (set_controlledPlayerId m1 (p_id q))
                | None =>
                    match hp with
                    | q :: _ => Some (set_controlledPlayerId m1 (p_id q))
                    | [] => None
                    end
                end
            end
        end
  | _, _ => None
  end.

(* ------------------------------------------------------------------ *)
(** ** step.ts: constants and helpers *)

Definition SPRINT_MULT : R := 1.35.
Definition SWITCH_COOLDOWN_MS : R := 250.
Definition AUTO_SWITCH_HYSTERESIS : R := 2.25.
Definition SHOOT_CHARGE_FULL_MS : R := 650.
Definition ACTION_CHARGE_FULL_MS : R := 520.
Definition ACTION_TAP_THRESHOLD_MS : R := 160.
Definition BALL_PICKUP_PAD : R := 0.35.
Definition BALL_STEAL_PAD : R := -0.85.
Definition STEAL_APPROACH_SPEED_MIN : R := 5.5.
Definition CPU_DEFENSE_SPEED_MULT : R := 0.65.

Definition facingVec (p : Player) : Vec2 :=
  mkVec2 (cos (p_facingRad p)) (sin (p_facingRad p)).

Definition pickKickDir (p : Player) (mv : Vec2) : Vec2 :=
  if Rlt_dec 0.04 (V.lenSq mv) then V.norm mv else V.norm (facingVec p).

(** One pass candidate: [{ p, dist, ahead, lateral }]. *)
Record Cand := mkCand {
  c_p : Player;
  c_dist : R;
  c_ahead : R;
  c_lateral : R
}.

(** [a || b] on numbers: [a] unless it is zero. *)
Definition orNum (a b : R) : R := if Req_dec_T a 0 then b else a.

(** [Array.prototype.sort] with a comparator: a stable sort, here by
    insertion.  For a comparator that is a total preorder, as the two below
    are, the result of a stable sort does not depend on the algorithm. *)
Fixpoint insertBy {A : Type} (cmp : A -> A -> R) (a : A) (l : list A) : list A :=
  match l with
  | [] => [a]
  | b :: rest => if Rle_dec (cmp a b) 0 then a :: l else b :: insertBy cmp a rest
  end.

Definition sortBy {A : Type} (cmp : A -> A -> R) (l : list A) : list A :=
  fold_right (insertBy cmp) [] l.

Definition cmpTap (a b : Cand) : R :=
  orNum (c_lateral a - c_lateral b)
    (orNum (c_ahead a - c_ahead b) (c_dist a - c_dist b)).

Definition cmpHold (a b : Cand) : R :=
  orNum (c_lateral a - c_lateral b)
    (orNum (c_ahead b - c_ahead a) (c_dist b - c_dist a)).

Definition minSelectableDist : R := 3.

(** The candidate the loop pushes for teammate [t], if any. *)
Definition passCand (kicker : Player) (aim : Vec2) (t : Player) : option Cand :=
  if String.eqb (p_id t) (p_id kicker) then None
  else
    let to := V.sub (p_pos t) (p_pos kicker) in
    let dist := V.len to in
    if Rlt_dec dist minSelectableDist then None
    else
      let ahead := V.dot to aim in
      let cross := vec_x to * vec_y aim - vec_y to * vec_x aim in
      let lateral := Rabs cross in
      Some (mkCand t dist ahead lateral).

Fixpoint passCands (kicker : Player) (aim : Vec2) (ts : list Player) : list Cand :=
  match ts with
  | [] => []
  | t :: rest =>
      match passCand kicker aim t with
      | Some c => c :: passCands kicker aim rest
      | None => passCands kicker aim rest
      end
  end.

(** [let bestLat = Infinity; for (const c of pool) bestLat = Math.min(bestLat, c.lateral)] *)
Definition bestLateral (pool : list Cand) : option R :=
  fold_left (fun best c =>
               match best with
               | None => Some (c_lateral c)
               | Some b => Some (Rmin b (c_lateral c))
               end) pool None.

Definition passPool (cands : list Cand) : list Cand :=
  let forward := filter (fun c => Rltb 1 (c_ahead c)) cands in
  match forward with
  | [] => cands
  | _ :: _ => forward
  end.

Definition laneBand (pool : list Cand) : list Cand :=
  match bestLateral pool with
  | None => pool
  | Some bestLat => filter (fun c => Rleb (c_lateral c) (bestLat + 2.25)) pool
  end.

Definition pickBestPassTarget (m : MatchState) (teamId : string) (kicker : Player)
    (aimDir : Vec2) (preferFar : bool) : option Player :=
  let teammates := getTeamPlayers m teamId in
  let aim := V.norm aimDir in
  if Rlt_dec (V.lenSq aim) 1e-6 then
    option_map fst
      (nearestBy (fun t => negb (String.eqb (p_id t) (p_id kicker)))
                 (fun t => V.distSq (p_pos t) (p_pos kicker)) teammates)
  else
    let cands := passCands kicker aim teammates in
    match cands with
    | [] => None
    | _ :: _ =>
        let band := laneBand (passPool cands) in
        if negb preferFar then option_map c_p (hd_error (sortBy cmpTap band))
        else option_map c_p (hd_error (sortBy cmpHold band))
    end.

Definition nonGK (p : Player) : bool := negb (isGK (p_role p)).

Definition pickBestSwitchCandidate (m : MatchState) (teamId : string) (currentId : string)
    : string :=
  let ballPos := b_pos (ball m) in
  match nearestBy nonGK (fun p => V.distSq (p_pos p) ballPos) (getTeamPlayers m teamId) with
  | Some (p, _) => p_id p
  | None => currentId
  end.

Definition pickDefensiveSwitchCandidate (m : MatchState) (teamId : string)
    (currentId : string) (aimDir : Vec2) : string :=
  let aim := V.norm aimDir in
  if Rlt_dec (V.lenSq aim) 1e-6 then pickBestSwitchCandidate m teamId currentId
  else
    let ballPos := b_pos (ball m) in
    let inDir (p : Player) : bool :=
      let fromBall := V.sub (p_pos p) ballPos in
      let fromBallN := V.norm fromBall in
      let c := V.dot fromBallN aim in
      negb (Rltb c 0.35) in
    let bestId :=
      match nearestBy (fun p => nonGK p && inDir p)
                      (fun p => V.distSq (p_pos p) ballPos) (getTeamPlayers m teamId) with
      | Some (p, _) => p_id p
      | None => currentId
      end in
    if negb (String.eqb bestId currentId) then bestId
    else pickBestSwitchCandidate m teamId currentId.

Definition resolveScoreSide (m : MatchState) (scoringTeam : string) : MatchState :=
  if String.eqb scoringTeam (homeTeamId m) then
    set_score m (mkScore (home (score m) + 1)%Z (away (score m)))
  else if String.eqb scoringTeam (awayTeamId m) then
    set_score m (mkScore (home (score m)) (away (score m) + 1)%Z)
  else m.

(** One iteration of the bump loop of [pushFreeBallByPlayers]. *)
Definition pushStep (dt : R) (b : Ball) (p : Player) : Ball :=
  let dx := vec_x (b_pos b) - vec_x (p_pos p) in
  let dy := vec_y (b_pos b) - vec_y (p_pos p) in
  let dist := sqrt (dx * dx + dy * dy) in
  let minDist := PLAYER_RADIUS + b_radius b in
  let overlap := minDist - dist in
  if Rle_dec overlap 0 then b
  else
    let nx := if Rlt_dec 1e-6 dist then dx / dist else 1 in
    let ny := if Rlt_dec 1e-6 dist then dy / dist else 0 in
    let pos1 := mkVec2 (vec_x (b_pos b) + nx * overlap) (vec_y (b_pos b) + ny * overlap) in
    let push := overlap / Rmax 1e-4 dt * 0.08 in
    let vel1 := mkVec2 (vec_x (b_vel b) + (nx * push + vec_x (p_vel p) * 0.35))
                       (vec_y (b_vel b) + (ny * push + vec_y (p_vel p) * 0.35)) in
    set_b_lastTouchTeamId (set_b_vel (set_b_pos b pos1) vel1) (Some (p_teamId p)).

Definition pushFreeBallByPlayers (m : MatchState) (cfg : EngineConfig) (dt : R) : MatchState :=
  if truthy (b_ownerPlayerId (ball m)) then m
  else set_ball m (bounceBallOffPitch cfg (fold_left (pushStep dt) (playersById m) (ball m))).

Definition setBallOwner (m : MatchState) (p : Player) : MatchState :=
  let b := set_b_lastTouchTeamId (set_b_ownerPlayerId (ball m) (Some (p_id p)))
             (Some (p_teamId p)) in
  let ps := updPlayer (p_id p) (fun q => set_p_hasBall q true) (clearHasBall (playersById m)) in
  set_possession (set_players (set_ball m b) ps)
    (mkPossession (Some (p_teamId p)) (Some (p_id p))).

Definition pickupEligible (b : Ball) (p : Player) : bool :=
  let contactR := PLAYER_RADIUS + b_radius b + BALL_PICKUP_PAD in
  negb (kickImmune b p) && Rleb (V.distSq (p_pos p) (b_pos b)) (contactR * contactR).

Definition tryImmediateBallPickup (m : MatchState) : MatchState * option Player :=
  let b := ball m in
  if truthy (b_ownerPlayerId b) then (m, None)
  else
    match nearestBy (pickupEligible b) (fun p => V.distSq (p_pos p) (b_pos b))
                    (playersById m) with
    | None => (m, None)
    | Some (best, _) => (setBallOwner m best, Some best)
    end.

(** [approach = V.dot(p.vel, V.norm(V.sub(ball.pos, p.pos)))] *)
Definition approachSpeed (b : Ball) (p : Player) : R :=
  V.dot (p_vel p) (V.norm (V.sub (b_pos b) (p_pos p))).

Definition stealEligible (b : Ball) (owner : Player) (p : Player) : bool :=
  let contactR := PLAYER_RADIUS + b_radius b + BALL_STEAL_PAD in
  negb (String.eqb (p_id p) (p_id owner))
  && negb (kickImmune b p)
  && negb (Rltb (approachSpeed b p) STEAL_APPROACH_SPEED_MIN)
  && Rleb (V.distSq (p_pos p) (b_pos b)) (contactR * contactR).

Definition tryStealOwnedBallByBallContact (m : MatchState) : MatchState * option Player :=
  let b := ball m in
  match getPlayerOpt (playersById m) (b_ownerPlayerId b) with
  | None => (m, None)
  | Some owner =>
      match nearestBy (stealEligible b owner) (fun p => V.distSq (p_pos p) (b_pos b))
                      (playersById m) with
      | None => (m, None)
      | Some (best, _) => (setBallOwner m best, Some best)
      end
  end.

Definition getTeamGoalkeeper (m : MatchState) (teamId : string) : option Player :=
  find (fun p => isGK (p_role p)) (getTeamPlayers m teamId).

Definition isDangerousShotTowardGoal (m : MatchState) (cfg : EngineConfig) (teamId : string)
    : bool :=
  let b := ball m in
  if truthy (b_ownerPlayerId b) then false
  else
    let halfW := pitchW cfg / 2 in
    let attackDirX := getAttackDirX m teamId in
    let defendDirX := - attackDirX in
    let toward := vec_x (b_vel b) * defendDirX in
    let speed := V.len (b_vel b) in
    if Rlt_dec toward 9.5 then false
    else if Rlt_dec speed 10.5 then false
    else
      let ownHalf :=
        if Req_dec_T defendDirX (-1) then Rltb (vec_x (b_pos b)) 0
        else Rltb 0 (vec_x (b_pos b)) in
      if negb ownHalf then false
      else
        let nearGoal := Rltb (halfW * 0.18) (Rabs (vec_x (b_pos b))) in
        let inChannel := Rltb (Rabs (vec_y (b_pos b))) (goalHalfW cfg * 1.75) in
        nearGoal && inChannel.

Definition roleAnchorY (p : Player) : R :=
  match p_role p with
  | GK | MF => 0
  | DF => (if Rle_dec 0 (vec_y (p_pos p)) then 1 else -1) * 12
  | FW => (if Rle_dec 0 (vec_y (p_pos p)) then 1 else -1) * 14
  end.

Definition roleBaseXFrac (r : PlayerRole) : R :=
  match r with
  | GK => 0.45
  | DF => 0.25
  | MF => 0.15
  | FW => 0.05
  end.

Definition pickTeamBallChaserId (m : MatchState) (teamId : string) : option string :=
  option_map (fun r => p_id (fst r))
    (nearestBy nonGK (fun p => V.distSq (p_pos p) (b_pos (ball m))) (getTeamPlayers m teamId)).

Definition byRole (r : PlayerRole) (gk df mf fw : R) : R :=
  match r with GK => gk | DF => df | MF => mf | FW => fw end.

Definition computeNpcDesiredVel (m : MatchState) (cfg : EngineConfig) (p : Player)
    (teamId : string) (teamHasPossession isBallOwner isChaser : bool) : Vec2 :=
  let halfW := pitchW cfg / 2 in
  let halfH := pitchH cfg / 2 in
  let attackDirX := getAttackDirX m teamId in
  let isRight := if Req_dec_T attackDirX 1 then true else false in
  let ownGoalX := if isRight then - halfW else halfW in
  let oppGoalX := - ownGoalX in
  let anchorX := - attackDirX * pitchW cfg * roleBaseXFrac (p_role p) in
  let anchorY := roleAnchorY p in
  let ballPos := b_pos (ball m) in
  let target :=
    if isGK (p_role p) then
      let x := ownGoalX + attackDirX * 4.0 in
      let farFromGoal := Rltb (pitchW cfg * 0.35) (Rabs (vec_x ballPos - ownGoalX)) in
      let yTrack := clamp (vec_y ballPos) (- goalHalfW cfg * 0.9) (goalHalfW cfg * 0.9) in
      let y := if farFromGoal then yTrack * 0.25 else yTrack in
      mkVec2 x y
    else if isChaser && negb teamHasPossession then
      mkVec2 (vec_x ballPos) (vec_y ballPos)
    else if teamHasPossession then
      if isBallOwner then
        mkVec2 (oppGoalX - attackDirX * 6)
               (clamp (vec_y ballPos * 0.15) (- goalHalfW cfg * 1.1) (goalHalfW cfg * 1.1))
      else
        let advance := byRole (p_role p) 7 7 14 22 in
        let x := vec_x ballPos + attackDirX * advance in
        let x :=
          if isDF (p_role p) then
            (if isRight then Rmin x (vec_x ballPos - 4) else Rmax x (vec_x ballPos + 4))
          else x in
        let y := clamp (anchorY * 0.75 + vec_y ballPos * 0.25) (- halfH + 4) (halfH - 4) in
        mkVec2 x y
    else
      let back := byRole (p_role p) 8 16 12 8 in
      let x := vec_x ballPos - attackDirX * back in
      let x := if isRight then Rmin x (vec_x ballPos - 1) else Rmax x (vec_x ballPos + 1) in
      let x :=
        if isDF (p_role p) then (if isRight then Rmin x 2 else Rmax x (-2)) else x in
      let ballFar := Rltb (28 * 28) (V.distSq (p_pos p) ballPos) in
      let yFollow := clamp (vec_y ballPos) (- halfH + 4) (halfH - 4) in
      let y :=
        if ballFar then clamp (anchorY * 0.9 + yFollow * 0.1) (- halfH + 4) (halfH - 4)
        else clamp (anchorY * 0.65 + yFollow * 0.35) (- halfH + 4) (halfH - 4) in
      mkVec2 x y in
  let leashX := byRole (p_role p) 6 18 28 36 in
  let leashY := byRole (p_role p) 10 16 22 26 in
  let tx := clamp (vec_x target) (anchorX - leashX) (anchorX + leashX) in
  let ty := clamp (vec_y target) (anchorY - leashY) (anchorY + leashY) in
  let tx := clamp tx (- halfW + 4) (halfW - 4) in
  let ty := clamp ty (- halfH + 4) (halfH - 4) in
  let to := V.sub (mkVec2 tx ty) (p_pos p) in
  let d := V.len to in
  if Rlt_dec d 0.75 then mkVec2 0 0
  else
    let baseSpeedMult := byRole (p_role p) 0.62 0.78 0.86 0.9 in
    let speed := p_maxSpeed p * baseSpeedMult in
    V.mul (V.norm to) speed.

(* ------------------------------------------------------------------ *)
(** ** step.ts: [stepSim]

    The body of [stepSim] is cut at its comment banners into phases; each
    phase is a function on the engine state, and [stepSim] composes them in
    the order of the source. *)

Definition anyInput (input : InputSnapshot) : bool :=
  Rltb 0.01 (V.lenSq (moveVec input))
  || sprint input || actionDown input || actionPressed input || actionReleased input
  || shootDown input || shootReleased input || pausePressed input.

(** [match.controlledPlayerId = k; engine.switchCooldownMs = cd; engine.actionChargeMs = 0] *)
Definition switchControl (e : EngineState) (k : string) (cd : R) : EngineState :=
  set_actionChargeMs
    (set_switchCooldownMs (set_match e (set_controlledPlayerId (e_match e) k)) cd) 0.

Definition tickCooldowns (e : EngineState) (dtMs : R) : EngineState :=
  let e1 := set_switchCooldownMs e (Rmax 0 (switchCooldownMs e - dtMs)) in
  set_stealCooldownMs e1 (Rmax 0 (stealCooldownMs e1 - dtMs)).

(** "Offense rule: only ever control the player who has the ball". *)
Definition offenseRule (e : EngineState) : EngineState :=
  let m := e_match e in
  match getPlayerOpt (playersById m) (b_ownerPlayerId (ball m)) with
  | Some ownerPre =>
      if String.eqb (p_teamId ownerPre) (humanTeamId m)
         && negb (String.eqb (controlledPlayerId m) (p_id ownerPre))
      then switchControl e (p_id ownerPre) 120
      else e
  | None => e
  end.

(** [d2] of a looked-up player, [Infinity] when the lookup fails. *)
Definition distSqToBall (m : MatchState) (k : string) : option R :=
  option_map (fun p => V.distSq (p_pos p) (b_pos (ball m))) (getPlayer (playersById m) k).

(** [nxtD2 + h*h < curD2], either side possibly [Infinity]. *)
Definition closerByMargin (nxtD2 curD2 : option R) (margin : R) : bool :=
  match nxtD2, curD2 with
  | Some n, Some c => Rltb (n + margin) c
  | Some _, None => true
  | None, _ => false
  end.

(** "Auto-switch on loose ball". *)
Definition autoSwitchLooseBall (e : EngineState) : EngineState :=
  let m := e_match e in
  let cfg := config e in
  if negb (truthy (b_ownerPlayerId (ball m))) && Rleb (switchCooldownMs e) 0 then
    let gk := getTeamGoalkeeper m (humanTeamId m) in
    let shotIncoming := isDangerousShotTowardGoal m cfg (humanTeamId m) in
    match (if shotIncoming then gk else None) with
    | Some g =>
        if negb (String.eqb (controlledPlayerId m) (p_id g))
        then switchControl e (p_id g) 180
        else e
    | None =>
        let nextId := pickBestSwitchCandidate m (humanTeamId m) (controlledPlayerId m) in
        let curD2 := distSqToBall m (controlledPlayerId m) in
        let nxtD2 := distSqToBall m nextId in
        if negb (String.eqb nextId (controlledPlayerId m))
           && closerByMargin nxtD2 curD2 (AUTO_SWITCH_HYSTERESIS * AUTO_SWITCH_HYSTERESIS)
        then switchControl e nextId 180
        else e
    end
  else e.

(** "Human switching (defense only)". *)
Definition humanSwitch (e : EngineState) (input : InputSnapshot) (controlledHasBall : bool)
    : EngineState :=
  let m := e_match e in
  if actionPressed input && negb controlledHasBall && Rleb (switchCooldownMs e) 0 then
    let nextId :=
      pickDefensiveSwitchCandidate m (humanTeamId m) (controlledPlayerId m) (moveVec input) in
    switchControl e nextId SWITCH_COOLDOWN_MS
  else e.

(** "CPU AI". *)
Definition runCpuAi (e : EngineState) (dtMs : R) (rnd : nat -> R) : EngineState :=
  let '(m1, ai1) := stepCpuAi (config e) (e_match e) dtMs (cpuAi e) rnd in
  set_cpuAi (set_match e m1) ai1.

(** [integratePlayer(p, desired, dt); containPlayerInPitch(config, p)] on the
    object stored under [k]. *)
Definition movePlayer (cfg : EngineConfig) (k : string) (desired : Vec2) (dt : R)
    (ps : list Player) : list Player :=
  updPlayer k (fun q => containPlayerInPitch cfg (integratePlayer q desired dt)) ps.

(** "Human: controlled player uses input".  [controlled] is the object
    the source bound before the switching phases. *)
Definition moveControlled (e : EngineState) (input : InputSnapshot) (dt : R)
    (controlled : option Player) : EngineState :=
  let m := e_match e in
  let humanDir := V.norm (moveVec input) in
  match controlled with
  | Some c =>
      if String.eqb (p_teamId c) (humanTeamId m) then
        let speed := p_maxSpeed c * (if sprint input then SPRINT_MULT else 1) in
        let desired := V.mul humanDir speed in
        set_match e (set_players m (movePlayer (config e) (p_id c) desired dt (playersById m)))
      else e
  | None => e
  end.

Definition isOwner (owner : option Player) (p : Player) : bool :=
  match owner with
  | Some o => String.eqb (p_id o) (p_id p)
  | None => false
  end.

(** One iteration of the human NPC loop. *)
Definition humanNpcStep (cfg : EngineConfig) (dt : R) (humanHasPossession : bool)
    (owner : option Player) (humanChaserId : option string)
    (m : MatchState) (k : string) : MatchState :=
  match getPlayer (playersById m) k with
  | None => m
  | Some p =>
      if String.eqb (p_id p) (controlledPlayerId m) then m
      else
        let desired :=
          computeNpcDesiredVel m cfg p (humanTeamId m) humanHasPossession (isOwner owner p)
            (negb humanHasPossession && optIs humanChaserId (p_id p)) in
        set_players m (movePlayer cfg k desired dt (playersById m))
  end.

(** One iteration of the CPU loop. *)
Definition cpuNpcStep (cfg : EngineConfig) (dt : R) (cpuHasPossession : bool)
    (owner : option Player) (cpuChaserId : option string)
    (m : MatchState) (k : string) : MatchState :=
  match getPlayer (playersById m) k with
  | None => m
  | Some p =>
      let desired :=
        computeNpcDesiredVel m cfg p (awayTeamId m) cpuHasPossession (isOwner owner p)
          (negb cpuHasPossession && optIs cpuChaserId (p_id p)) in
      let desired :=
        if negb cpuHasPossession then V.mul desired CPU_DEFENSE_SPEED_MULT else desired in
      set_players m (movePlayer cfg k desired dt (playersById m))
  end.

(** "Human NPCs" and "CPU team". *)
Definition moveNpcs (e : EngineState) (dt : R) (possessionTeamId : option string)
    : EngineState :=
  let m := e_match e in
  let cfg := config e in
  let owner := getPlayerOpt (playersById m) (b_ownerPlayerId (ball m)) in
  let humanChaserId := pickTeamBallChaserId m (humanTeamId m) in
  let cpuChaserId := pickTeamBallChaserId m (awayTeamId m) in
  let humanHasPossession := optIs possessionTeamId (humanTeamId m) in
  let m1 := fold_left (humanNpcStep cfg dt humanHasPossession owner humanChaserId)
              (getTeamPlayerIds m (humanTeamId m)) m in
  let cpuHasPossession := optIs possessionTeamId (awayTeamId m) in
  let m2 := fold_left (cpuNpcStep cfg dt cpuHasPossession owner cpuChaserId)
              (getTeamPlayerIds m (awayTeamId m)) m1 in
  set_match e m2.

(** "Post-kick pickup protection countdown". *)
Definition tickKickImmunity (e : EngineState) (dtMs : R) : EngineState :=
  let m := e_match e in
  set_match e (set_ball m (set_b_kickNoPickupMs (ball m)
                             (Rmax 0 (b_kickNoPickupMs (ball m) - dtMs)))).

(** The steal, gated by the cooldown. *)
Definition stealPhase (e : EngineState) : EngineState :=
  if Rle_dec (stealCooldownMs e) 0 then
    match tryStealOwnedBallByBallContact (e_match e) with
    | (m1, Some _) =>
        set_stealCooldownMs (set_actionChargeMs (set_shootChargeMs (set_match e m1) 0) 0) 650
    | (m1, None) => set_match e m1
    end
  else e.

(** "If our GK gains possession, auto-switch to them immediately". *)
Definition gkPossessionSwitch (e : EngineState) (currentOwner : option Player) : EngineState :=
  let m := e_match e in
  match currentOwner with
  | Some o =>
      if String.eqb (p_teamId o) (humanTeamId m) && isGK (p_role o)
         && negb (String.eqb (controlledPlayerId m) (p_id o))
      then switchControl e (p_id o) 180
      else e
  | None => e
  end.

Definition isHumanControlledOwner (m : MatchState) (currentOwner : option Player) : bool :=
  match currentOwner with
  | Some o =>
      String.eqb (p_teamId o) (humanTeamId m) && String.eqb (p_id o) (controlledPlayerId m)
  | None => false
  end.

Definition chargeStep (full : R) (down released : bool) (dtMs : R) (c : R) : R :=
  if down then Rmin full (c + dtMs)
  else if negb released then 0
  else c.

(** [engine.actionChargeMs > ACTION_TAP_THRESHOLD_MS] *)
Definition passPreferFar (chargeMs : R) : bool := Rltb ACTION_TAP_THRESHOLD_MS chargeMs.

(** The pass branch of the release. *)
Definition passKick (e : EngineState) (o : Player) (aimDir : Vec2) : EngineState :=
  let m := e_match e in
  let preferFar := passPreferFar (actionChargeMs e) in
  let target := pickBestPassTarget m (humanTeamId m) o aimDir preferFar in
  let dir :=
    match target with
    | Some t => V.norm (V.sub (p_pos t) (p_pos o))
    | None => V.norm aimDir
    end in
  let dist :=
    match target with
    | Some t => V.len (V.sub (p_pos t) (p_pos o))
    | None => 18
    end in
  let distFactor := clamp (dist / 46) 0 1 in
  let t := clamp (actionChargeMs e / ACTION_CHARGE_FULL_MS) 0 1 in
  let chargeFactor := if preferFar then t else 0.25 in
  let m1 := releaseBallWithKick m o dir
              (p_kickPower o * (0.78 + 0.62 * chargeFactor) * (0.86 + 0.22 * distFactor)) in
  set_shootChargeMs (set_actionChargeMs (set_match e m1) 0) 0.

(** The shoot branch of the release. *)
Definition shootKick (e : EngineState) (o : Player) (aimDir : Vec2) : EngineState :=
  let m := e_match e in
  let t := clamp (shootChargeMs e / SHOOT_CHARGE_FULL_MS) 0 1 in
  let m1 := releaseBallWithKick m o aimDir (p_kickPower o * (1.05 + 0.75 * t)) in
  set_actionChargeMs (set_shootChargeMs (set_match e m1) 0) 0.

(** "Kick actions (human only when the BALL OWNER is the controlled player)". *)
Definition kickPhase (e : EngineState) (input : InputSnapshot) (dtMs : R)
    (currentOwner : option Player) : EngineState :=
  match currentOwner with
  | Some o =>
      if isHumanControlledOwner (e_match e) currentOwner then
        let aimDir := pickKickDir o (moveVec input) in
        let e1 := set_shootChargeMs e
                    (chargeStep SHOOT_CHARGE_FULL_MS (shootDown input) (shootReleased input)
                       dtMs (shootChargeMs e)) in
        let e2 := set_actionChargeMs e1
                    (chargeStep ACTION_CHARGE_FULL_MS (actionDown input) (actionReleased input)
                       dtMs (actionChargeMs e1)) in
        if actionReleased input then passKick e2 o aimDir
        else if shootReleased input then shootKick e2 o aimDir
        else e2
      else set_actionChargeMs e 0
  | None => set_actionChargeMs e 0
  end.

(** [if (ball.ownerPlayerId && currentOwner) attachBallToOwner(ball, currentOwner)] *)
Definition attachPhase (e : EngineState) (currentOwner : option Player) : EngineState :=
  let m := e_match e in
  match currentOwner with
  | Some o =>
      if truthy (b_ownerPlayerId (ball m))
      then set_match e (set_ball m (attachBallToOwner (ball m) o))
      else e
  | None => e
  end.

Definition currentOwnerOf (e : EngineState) : option Player :=
  getPlayerOpt (playersById (e_match e)) (b_ownerPlayerId (ball (e_match e))).

(** [ball.ownerPlayerId = null] for an owner id that names no player. *)
Definition dropOwner (e : EngineState) : EngineState :=
  let m := e_match e in
  set_match e (set_ball m (set_b_ownerPlayerId (ball m) None)).

(** The branch [if (ball.ownerPlayerId) { ... }] of "Ball: possession + movement". *)
Definition ownedBallPhase (e : EngineState) (input : InputSnapshot) (dtMs : R)
    : EngineState :=
  let m := e_match e in
  if truthy (b_ownerPlayerId (ball m)) then
    match getPlayerOpt (playersById m) (b_ownerPlayerId (ball m)) with
    | Some _ =>
        let e1 := stealPhase e in
        let currentOwner := currentOwnerOf e1 in
        let e2 := gkPossessionSwitch e1 currentOwner in
        let e3 := kickPhase e2 input dtMs currentOwner in
        attachPhase e3 currentOwner
    | None => dropOwner e
    end
  else e.

(** What the branch on a scored goal does before it returns. *)
Definition goalPhase (e : EngineState) (scoringTeam : string)
    : option (EngineState * list EngineEvent) :=
  let m1 := resolveScoreSide (e_match e) scoringTeam in
  let m2 := set_lastEventText m1 (Some "GOAL!"%string) in
  let e1 := set_kickoffAwaitInput
              (set_kickoffHoldMs (set_celebrationMs (set_match e m2) 1400) 650) false in
  let ev := GOAL scoringTeam (score m2) "GOAL!"%string in
  match resetToKickoff (config e1) m2 with
  | Some m3 => Some (set_match e1 m3, [ev])
  | None => None
  end.

(** "Immediate pickup if someone touches the ball this tick" and
    "Possession claim fallback". *)
Definition pickupPhase (e : EngineState) : EngineState :=
  let m1 := fst (tryImmediateBallPickup (e_match e)) in
  if negb (truthy (b_ownerPlayerId (ball m1))) then
    let '(m2, po) := tryClaimBall m1 in
    let m3 := set_possession m2 po in
    if truthy (pos_playerId po)
    then set_match e (set_ball m3 (set_b_ownerPlayerId (ball m3) (pos_playerId po)))
    else set_match e m3
  else set_match e m1.

(** "Maintain possession info while owned". *)
Definition maintainPossession (e : EngineState) : EngineState :=
  let m := e_match e in
  match getPlayerOpt (playersById m) (b_ownerPlayerId (ball m)) with
  | Some o => set_match e (set_possession m (mkPossession (Some (p_teamId o)) (Some (p_id o))))
  | None => e
  end.

(** The result of the free-ball branch: a goal ends the tick ([inl]),
    otherwise the tick goes on ([inr]). *)
Definition freeBallPhase (e : EngineState) (dt : R)
    : option (EngineState * list EngineEvent + EngineState) :=
  let m := e_match e in
  let '(b1, goal) := integrateFreeBall m (config e) (ball m) dt in
  let e1 := set_match e (set_ball m b1) in
  match (if scored goal && truthy (g_scoringTeamId goal) then g_scoringTeamId goal else None) with
  | Some team =>
      match goalPhase e1 team with
      | Some r => Some (inl r)
      | None => None
      end
  | None =>
      let e2 := set_match e1 (pushFreeBallByPlayers (e_match e1) (config e1) dt) in
      Some (inr (pickupPhase e2))
  end.

(** "Auto-switch when human team gains possession". *)
Definition finalGain (e : EngineState) (prevOwnerTeamId : option string) : EngineState :=
  let m := e_match e in
  if truthy (b_ownerPlayerId (ball m)) then
    match getPlayerOpt (playersById m) (b_ownerPlayerId (ball m)) with
    | Some newOwner =>
        let gained :=
          String.eqb (p_teamId newOwner) (humanTeamId m)
          && negb (optIs prevOwnerTeamId (humanTeamId m)) in
        if gained && negb (String.eqb (controlledPlayerId m) (p_id newOwner))
        then switchControl e (p_id newOwner) 220
        else e
    | None => e
    end
  else e.

(** The values [stepSim] binds before the switching phases. *)
Definition prevOwnerTeamIdOf (e : EngineState) : option string :=
  option_map p_teamId (currentOwnerOf e).

Definition possessionTeamIdOf (e : EngineState) : option string :=
  match pos_teamId (possession (e_match e)) with
  | Some t => Some t
  | None => b_lastTouchTeamId (ball (e_match e))
  end.

Definition controlledOf (e : EngineState) : option Player :=
  getPlayer (playersById (e_match e)) (controlledPlayerId (e_match e)).

Definition controlledHasBallOf (e : EngineState) (controlled : option Player) : bool :=
  match controlled with
  | Some c => optIs (b_ownerPlayerId (ball (e_match e))) (p_id c)
  | None => false
  end.

(** The tick from "Switch cooldown" to the end of the function. *)
Definition playTick (e : EngineState) (input : InputSnapshot) (dtMs : R) (rnd : nat -> R)
    : option (EngineState * list EngineEvent) :=
  let dt := dtMs / 1000 in
  let e1 := tickCooldowns e dtMs in
  let prevOwnerTeamId := prevOwnerTeamIdOf e1 in
  let possessionTeamId := possessionTeamIdOf e1 in
  let e2 := offenseRule e1 in
  let controlled := controlledOf e2 in
  let controlledHasBall := controlledHasBallOf e2 controlled in
  let e3 := autoSwitchLooseBall e2 in
  let e4 := humanSwitch e3 input controlledHasBall in
  let e5 := runCpuAi e4 dtMs rnd in
  let e6 := moveControlled e5 input dt controlled in
  let e7 := moveNpcs e6 dt possessionTeamId in
  let e8 := tickKickImmunity e7 dtMs in
  let e9 := ownedBallPhase e8 input dtMs in
  if negb (truthy (b_ownerPlayerId (ball (e_match e9)))) then
    match freeBallPhase e9 dt with
    | None => None
    | Some (inl r) => Some r
    | Some (inr e10) => Some (finalGain e10 prevOwnerTeamId, [])
    end
  else Some (finalGain (maintainPossession e9) prevOwnerTeamId, []).

Definition stepSim (e : EngineState) (input : InputSnapshot) (dtMs : R) (rnd : nat -> R)
    : option (EngineState * list EngineEvent) :=
  let m := e_match e in
  if isFullTime (phase (clock m)) then Some (e, [])
  else
    let e1 := set_celebrationMs e (Rmax 0 (celebrationMs e - dtMs)) in
    if Rlt_dec 0 (kickoffHoldMs e1) then
      let e2 := set_kickoffHoldMs e1 (Rmax 0 (kickoffHoldMs e1 - dtMs)) in
      let e3 := if Rle_dec (kickoffHoldMs e2) 0 then set_kickoffAwaitInput e2 true else e2 in
      Some (e3, [])
    else if kickoffAwaitInput e1 then
      if anyInput input then
        Some (set_match (set_kickoffAwaitInput e1 false) (set_lastEventText (e_match e1) None), [])
      else Some (e1, [])
    else
      let c := clock m in
      let c1 := mkClock (Rmin (msTotal c) (msElapsed c + dtMs)) (msTotal c) (phase c) in
      if Rle_dec (msTotal c1) (msElapsed c1) then
        let m1 := set_lastEventText (set_clock m (mkClock (msElapsed c1) (msTotal c1) FULL_TIME))
                    (Some "FULL TIME"%string) in
        Some (set_match e1 m1, [FULL_TIME_EVENT (score m1) "FULL TIME"%string])
      else playTick (set_match e1 (set_clock m c1)) input dtMs rnd.

(** [engine.step]'s host loop: one [stepSim] per entry, events appended. *)
Record Tick := mkTick { tk_input : InputSnapshot; tk_dtMs : R; tk_rnd : nat -> R }.

Fixpoint runSim (e : EngineState) (ticks : list Tick)
    : option (EngineState * list EngineEvent) :=
  match ticks with
  | [] => Some (e, [])
  | t :: rest =>
      match stepSim e (tk_input t) (tk_dtMs t) (tk_rnd t) with
      | None => None
      | Some (e1, evs) =>
          match runSim e1 rest with
          | None => None
          | Some (e2, evs2) => Some (e2, evs ++ evs2)
          end
      end
  end.


(* ------------------------------------------------------------------ *)
(** ** defaultConfig.ts, createMatch.ts, createEngine.ts *)

Definition DEFAULT_ENGINE_CONFIG : EngineConfig :=
  mkConfig 120 80 10 4 (1000 / 60) 100 10 (3 * 60 * 1000).

(** The part of [MatchSetup] the simulation reads: the opposing team's id and
    its three-letter code (names, flags and kit colours are presentation). *)
Record MatchSetup := mkSetup { away_id : string; away_code3 : string }.

Definition pId (teamId : string) (n : string) : string := (teamId ++ ":p" ++ n)%string.

Definition makePlayer (id name : string) (role : PlayerRole) (teamId : string) (pos : Vec2)
    (maxSpeed accel kickPower : R) : Player :=
  mkPlayer id name role teamId (mkVec2 (vec_x pos) (vec_y pos)) (mkVec2 0 0) 0 1 false
    maxSpeed accel kickPower.

Definition homePlayers (cfg : EngineConfig) (homeT : string) : list Player :=
  [ makePlayer (pId homeT "1") "Kilo GK" GK homeT (mkVec2 (- pitchW cfg * 0.45) 0) 14 60 26;
    makePlayer (pId homeT "2") "Kilo DF" DF homeT (mkVec2 (- pitchW cfg * 0.25) (-12)) 16 70 28;
    makePlayer (pId homeT "3") "Kilo MF" MF homeT (mkVec2 (- pitchW cfg * 0.15) 0) 18 75 30;
    makePlayer (pId homeT "4") "Kilo FW1" FW homeT (mkVec2 (- pitchW cfg * 0.05) (-14)) 20 85 32;
    makePlayer (pId homeT "5") "Kilo FW2" FW homeT (mkVec2 (- pitchW cfg * 0.05) 14) 20 85 32 ].

Definition awayPlayers (cfg : EngineConfig) (awayT code3 : string) : list Player :=
  map (fun p => set_p_facingRad p PI)
  [ makePlayer (pId awayT "1") (code3 ++ " GK") GK awayT (mkVec2 (pitchW cfg * 0.45) 0) 14 60 26;
    makePlayer (pId awayT "2") (code3 ++ " DF") DF awayT (mkVec2 (pitchW cfg * 0.25) 12) 16 70 28;
    makePlayer (pId awayT "3") (code3 ++ " MF") MF awayT (mkVec2 (pitchW cfg * 0.15) 0) 18 75 30;
    makePlayer (pId awayT "4") (code3 ++ " FW1") FW awayT (mkVec2 (pitchW cfg * 0.05) 14) 20 85 32;
    makePlayer (pId awayT "5") (code3 ++ " FW2") FW awayT (mkVec2 (pitchW cfg * 0.05) (-14)) 20 85 32 ].

(** [teamsById] and [playersById] are objects: a second write under the same
    key replaces the first, which is what happens when the opposing team is
    given the id of the home team. *)
Definition createMatch (cfg : EngineConfig) (setup : option MatchSetup) : MatchState :=
  let homeT := "kilo"%string in
  let away := match setup with Some s => s | None => mkSetup "cpu" "CPU" end in
  let awayT := away_id away in
  let hp := homePlayers cfg homeT in
  let ap := awayPlayers cfg awayT (away_code3 away) in
  let homeTeam := mkTeam homeT (map p_id hp) in
  let awayTeam := mkTeam awayT (map p_id ap) in
  let clash := String.eqb awayT homeT in
  mkMatch "match:single" homeT awayT (mkScore 0 0)
    (mkClock 0 (matchMsTotal cfg) FIRST_HALF)
    (mkBall (mkVec2 0 0) (mkVec2 0 0) 1.2 None None None 0)
    (if clash then ap else hp ++ ap)
    (if clash then [awayTeam] else [homeTeam; awayTeam])
    homeT (pId homeT "3") noPossession None.

(** [jitter0] is the result of the call of [Math.random()] in
    [createCpuAiState]. *)
Definition createEngine (setup : option MatchSetup) (jitter0 : R) : option EngineState :=
  let cfg := DEFAULT_ENGINE_CONFIG in
  match resetToKickoff cfg (createMatch cfg setup) with
  | Some m =>
      Some (mkEngine cfg m false 0 false 0 0 0 0 0 0 (mkCpuAi 0 (jitter0 * PI * 2) None))
  | None => None
  end.

(* ------------------------------------------------------------------ *)
(** ** Example states *)

(** The match [createMatch] builds for the default configuration. *)
Definition match0 : MatchState := createMatch DEFAULT_ENGINE_CONFIG None.

(** The home midfielder running towards its own goal at 20 units per second. *)
Definition mfBackwards : Player :=
  mkPlayer "kilo:p3" "Kilo MF" MF "kilo" (mkVec2 (-18) 0) (mkVec2 (-20) 0) 0 1 true 18 75 30.

(** [match0] with the home midfielder standing on the ball and owning it. *)
Definition matchOwned : MatchState :=
  set_ball
    (set_players match0
       (updPlayer "kilo:p3" (fun p => set_p_hasBall (set_p_pos p (mkVec2 0 0)) true)
          (playersById match0)))
    (set_b_ownerPlayerId (ball match0) (Some "kilo:p3"%string)).

Definition mfAtBall : Player :=
  mkPlayer "kilo:p3" "Kilo MF" MF "kilo" (mkVec2 0 0) (mkVec2 0 0) 0 1 true 18 75 30.

(* ------------------------------------------------------------------ *)
(** ** Invariants of the match state *)

(** What never changes in a player, and the same with the possession flag. *)
Definition p_static (p : Player) : string * string * PlayerRole :=
  (p_id p, p_teamId p, p_role p).

Definition p_core (p : Player) : string * string * PlayerRole * bool :=
  (p_id p, p_teamId p, p_role p, p_hasBall p).

Definition statics (m : MatchState) : list (string * string * PlayerRole) :=
  map p_static (playersById m).

Definition cores (m : MatchState) : list (string * string * PlayerRole * bool) :=
  map p_core (playersById m).

Definition s_id (s : string * string * PlayerRole) : string := fst (fst s).
Definition s_team (s : string * string * PlayerRole) : string := snd (fst s).

(** The part of a match that [stepSim] never writes. *)
Definition frame (m : MatchState)
    : string * string * string * list Team * list (string * string * PlayerRole) :=
  (homeTeamId m, awayTeamId m, humanTeamId m, teamsById m, statics m).

(** Well-formedness, as [createMatch] establishes it: player ids are distinct
    and not empty; the human team is not the opposing team; the home, away
    and human teams exist; every roster entry names a player of that team;
    the human roster holds a player who is not a goalkeeper. *)
Definition wfFrame
    (f : string * string * string * list Team * list (string * string * PlayerRole)) : Prop :=
  let '(h, a, hu, ts, ss) := f in
  NoDup (map s_id ss)
  /\ (forall s, In s ss -> s_id s <> EmptyString)
  /\ hu <> a
  /\ (exists t, getTeam ts h = Some t)
  /\ (exists t, getTeam ts a = Some t)
  /\ (exists t k r, getTeam ts hu = Some t /\ In k (t_players t)
        /\ In (k, hu, r) ss /\ r <> GK)
  /\ (forall t k, In t ts -> In k (t_players t) ->
        exists r, In (k, t_id t, r) ss).

Definition wf (m : MatchState) : Prop := wfFrame (frame m).

(** Ownership: a player flagged [hasBall] is the ball's owner, and the owner
    id names a stored player who carries the flag. *)
Definition own_inv (m : MatchState) : Prop :=
  (forall c, In c (cores m) -> snd c = true -> b_ownerPlayerId (ball m) = Some (s_id (fst c)))
  /\ (forall k, b_ownerPlayerId (ball m) = Some k ->
        exists c, In c (cores m) /\ s_id (fst c) = k /\ snd c = true).


(** The controlled player exists and is on the human team. *)
Definition ctrl_inv (m : MatchState) : Prop :=
  exists r, In (controlledPlayerId m, humanTeamId m, r) (statics m).

(** A charge counter is non-zero only while the controlled player owns the
    ball. *)
Definition charge_inv (e : EngineState) : Prop :=
  shootChargeMs e <> 0 \/ actionChargeMs e <> 0 ->
  b_ownerPlayerId (ball (e_match e)) = Some (controlledPlayerId (e_match e)).

Definition Inv (e : EngineState) : Prop :=
  wf (e_match e) /\ own_inv (e_match e) /\ ctrl_inv (e_match e) /\ charge_inv e.

(** Control passes to another player, or the ball changes owner. *)
Definition changed (a b : EngineState) : Prop :=
  controlledPlayerId (e_match b) <> controlledPlayerId (e_match a)
  \/ b_ownerPlayerId (ball (e_match b)) <> b_ownerPlayerId (ball (e_match a)).

Definition cleared (e : EngineState) : Prop :=
  shootChargeMs e = 0 /\ actionChargeMs e = 0.

(* ------------------------------------------------------------------ *)
(** ** The states a tick goes through

    [stepTrace] lists the engine state at the start of [stepSim] and after
    each phase, in order; its last element is the state [stepSim] returns. *)

Definition ownedTrace (e : EngineState) (input : InputSnapshot) (dtMs : R)
    : list EngineState :=
  let m := e_match e in
  if truthy (b_ownerPlayerId (ball m)) then
    match getPlayerOpt (playersById m) (b_ownerPlayerId (ball m)) with
    | Some _ =>
        let e1 := stealPhase e in
        let currentOwner := currentOwnerOf e1 in
        let e2 := gkPossessionSwitch e1 currentOwner in
        let e3 := kickPhase e2 input dtMs currentOwner in
        [e1; e2; e3; attachPhase e3 currentOwner]
    | None => [dropOwner e]
    end
  else [].

Definition freeTrace (e : EngineState) (dt : R) (prevOwnerTeamId : option string)
    : list EngineState :=
  let m := e_match e in
  let '(b1, goal) := integrateFreeBall m (config e) (ball m) dt in
  let e1 := set_match e (set_ball m b1) in
  match (if scored goal && truthy (g_scoringTeamId goal) then g_scoringTeamId goal else None) with
  | Some team =>
      match goalPhase e1 team with
      | Some (e2, _) => [e1; e2]
      | None => [e1]
      end
  | None =>
      let e2 := set_match e1 (pushFreeBallByPlayers (e_match e1) (config e1) dt) in
      let e3 := pickupPhase e2 in
      [e1; e2; e3; finalGain e3 prevOwnerTeamId]
  end.

Definition playTrace (e : EngineState) (input : InputSnapshot) (dtMs : R) (rnd : nat -> R)
    : list EngineState :=
  let dt := dtMs / 1000 in
  let e1 := tickCooldowns e dtMs in
  let prevOwnerTeamId := prevOwnerTeamIdOf e1 in
  let possessionTeamId := possessionTeamIdOf e1 in
  let e2 := offenseRule e1 in
  let controlled := controlledOf e2 in
  let controlledHasBall := controlledHasBallOf e2 controlled in
  let e3 := autoSwitchLooseBall e2 in
  let e4 := humanSwitch e3 input controlledHasBall in
  let e5 := runCpuAi e4 dtMs rnd in
  let e6 := moveControlled e5 input dt controlled in
  let e7 := moveNpcs e6 dt possessionTeamId in
  let e8 := tickKickImmunity e7 dtMs in
  let e9 := ownedBallPhase e8 input dtMs in
  [e; e1; e2; e3; e4; e5; e6; e7; e8] ++ ownedTrace e8 input dtMs
  ++ (if negb (truthy (b_ownerPlayerId (ball (e_match e9)))) then
        freeTrace e9 dt prevOwnerTeamId
      else [maintainPossession e9; finalGain (maintainPossession e9) prevOwnerTeamId]).

Definition stepTrace (e : EngineState) (input : InputSnapshot) (dtMs : R) (rnd : nat -> R)
    : list EngineState :=
  let m := e_match e in
  if isFullTime (phase (clock m)) then [e]
  else
    let e1 := set_celebrationMs e (Rmax 0 (celebrationMs e - dtMs)) in
    if Rlt_dec 0 (kickoffHoldMs e1) then
      let e2 := set_kickoffHoldMs e1 (Rmax 0 (kickoffHoldMs e1 - dtMs)) in
      [e; if Rle_dec (kickoffHoldMs e2) 0 then set_kickoffAwaitInput e2 true else e2]
    else if kickoffAwaitInput e1 then
      if anyInput input then
        [e; set_match (set_kickoffAwaitInput e1 false) (set_lastEventText (e_match e1) None)]
      else [e; e1]
    else
      let c := clock m in
      let c1 := mkClock (Rmin (msTotal c) (msElapsed c + dtMs)) (msTotal c) (phase c) in
      if Rle_dec (msTotal c1) (msElapsed c1) then
        [e; set_match e1
              (set_lastEventText (set_clock m (mkClock (msElapsed c1) (msTotal c1) FULL_TIME))
                 (Some "FULL TIME"%string))]
      else e :: playTrace (set_match e1 (set_clock m c1)) input dtMs rnd.

(** [a] is followed by [b] in [l]. *)
Definition consecutive {A : Type} (l : list A) (a b : A) : Prop :=
  exists l1 l2, l = l1 ++ a :: b :: l2.


(** Two match states that differ only in what moves: positions, velocities,
    facings, the ball's kinematics and timers, score, clock, possession and
    event text. *)
Definition keq (m m' : MatchState) : Prop :=
  frame m' = frame m
  /\ cores m' = cores m
  /\ b_ownerPlayerId (ball m') = b_ownerPlayerId (ball m)
  /\ controlledPlayerId m' = controlledPlayerId m.

Definition eeq (e e' : EngineState) : Prop :=
  keq (e_match e) (e_match e')
  /\ shootChargeMs e' = shootChargeMs e
  /\ actionChargeMs e' = actionChargeMs e.

(** The controlled player is a goalkeeper. *)
Definition gkControlled (m : MatchState) : Prop :=
  exists t, In (controlledPlayerId m, t, GK) (statics m).

(** What lets control pass to the goalkeeper between [a] and [b]: a
    dangerous shot at [a], or the goalkeeper owning the ball at [b]. *)
Definition gkExcuse (a b : EngineState) : Prop :=
  isDangerousShotTowardGoal (e_match a) (config a) (humanTeamId (e_match a)) = true
  \/ b_ownerPlayerId (ball (e_match b)) = Some (controlledPlayerId (e_match b)).

(** One phase keeps the invariants; if it changes the controlled player or
    the owner it leaves both counters at zero; if it passes control to a
    goalkeeper it has the excuse above. *)
Definition okStep (a b : EngineState) : Prop :=
  Inv a ->
  Inv b
  /\ (changed a b -> cleared b)
  /\ (controlledPlayerId (e_match b) <> controlledPlayerId (e_match a) ->
      gkControlled (e_match b) -> gkExcuse a b).

(** A list of states in which each one follows from the one before by such
    a phase, starting after [a]. *)
Inductive okChain : EngineState -> list EngineState -> Prop :=
| okChain_nil a : okChain a []
| okChain_cons a b l : okStep a b -> okChain b l -> okChain a (b :: l).

(** The number of [FULL_TIME] events in an event list. *)
Fixpoint countFullTime (evs : list EngineEvent) : nat :=
  match evs with
  | [] => 0
  | FULL_TIME_EVENT _ _ :: rest => S (countFullTime rest)
  | GOAL _ _ _ :: rest => countFullTime rest
  end.

Definition clockOf (e : EngineState) : MatchClock := clock (e_match e).

Definition EMPTY_INPUT : InputSnapshot :=
  mkInput (mkVec2 0 0) false false false false false false false.

(** An engine on [match0], all timers at zero. *)
Definition engine0 : EngineState :=
  mkEngine DEFAULT_ENGINE_CONFIG match0 false 0 false 0 0 0 0 0 0 (mkCpuAi 0 0 None).

(** One tick as long as the whole match. *)
Definition tickWholeMatch : Tick := mkTick EMPTY_INPUT (3 * 60 * 1000) (fun _ => 0).

(** The id [createMatch] gives the opposing team. *)
Definition setupAwayId (setup : option MatchSetup) : string :=
  match setup with Some s => away_id s | None => "cpu"%string end.

(** One tick of the fixed timestep with no input. *)
Definition tickIdle : Tick := mkTick EMPTY_INPUT (1000 / 60) (fun _ => 0).

(** The same input with the shoot-release edge cleared. *)
Definition withoutShootRelease (input : InputSnapshot) : InputSnapshot :=
  mkInput (moveVec input) (sprint input) (actionDown input) (actionPressed input)
    (actionReleased input) (shootDown input) false (pausePressed input).

(** Both release edges set, nothing held, no direction. *)
Definition bothReleased : InputSnapshot :=
  mkInput (mkVec2 0 0) false false false true false true false.

(** An engine in which the controlled home midfielder owns the ball, with
    300 ms of pass charge and 400 ms of shoot charge. *)
Definition engineOwned : EngineState :=
  mkEngine DEFAULT_ENGINE_CONFIG matchOwned false 0 false 0 0 0 0 400 300 (mkCpuAi 0 0 None).

(** [match0] with the ball at the centre spot owned by the away midfielder,
    and the home midfielder, who kicked it 120 ms ago, two units left of the
    ball and running into it at 10 units per second. *)
Definition matchSteal : MatchState :=
  set_ball
    (set_players match0
       (updPlayer "cpu:p3" (fun p => set_p_hasBall p true)
          (updPlayer "kilo:p3"
             (fun p => set_p_vel (set_p_pos p (mkVec2 (-2) 0)) (mkVec2 10 0))
             (playersById match0))))
    (mkBall (mkVec2 0 0) (mkVec2 0 0) 1.2 (Some "cpu:p3"%string) (Some "cpu"%string)
       (Some "kilo:p3"%string) 100).

Definition mfClosingIn : Player :=
  mkPlayer "kilo:p3" "Kilo MF" MF "kilo" (mkVec2 (-2) 0) (mkVec2 10 0) 0 1 false 18 75 30.



(** The facts carried through a tick in which a human player [g] of role
    [r] owns the ball: the invariants, the owner, a running steal cooldown
    and [g] in control. *)
Definition holds (g : string) (r : PlayerRole) (x : EngineState) : Prop :=
  Inv x
  /\ b_ownerPlayerId (ball (e_match x)) = Some g
  /\ 0 < stealCooldownMs x
  /\ controlledPlayerId (e_match x) = g
  /\ In (g, humanTeamId (e_match x), r) (statics (e_match x)).

(** What a phase other than the kick phase does to the counters: each is
    kept or set to zero. *)
Definition keptOrZero (a b : EngineState) : Prop :=
  (shootChargeMs b = shootChargeMs a \/ shootChargeMs b = 0)
  /\ (actionChargeMs b = actionChargeMs a \/ actionChargeMs b = 0).

(** What the kick phase does to them: kept, set to zero, or one charge
    step. *)
Definition kickCharges (input : InputSnapshot) (dtMs : R) (a b : EngineState) : Prop :=
  (shootChargeMs b = shootChargeMs a \/ shootChargeMs b = 0
   \/ shootChargeMs b
      = chargeStep SHOOT_CHARGE_FULL_MS (shootDown input) (shootReleased input) dtMs
          (shootChargeMs a))
  /\ (actionChargeMs b = actionChargeMs a \/ actionChargeMs b = 0
      \/ actionChargeMs b
         = chargeStep ACTION_CHARGE_FULL_MS (actionDown input) (actionReleased input) dtMs
             (actionChargeMs a)).

(** Counters that hold nothing from before the tick: each is zero, or its
    button is down and it holds one charge step from zero. *)
Definition freshCharges (input : InputSnapshot) (dtMs : R) (e : EngineState) : Prop :=
  (shootChargeMs e = 0
   \/ (shootDown input = true /\ shootChargeMs e = Rmin SHOOT_CHARGE_FULL_MS (0 + dtMs)))
  /\ (actionChargeMs e = 0
      \/ (actionDown input = true
          /\ actionChargeMs e = Rmin ACTION_CHARGE_FULL_MS (0 + dtMs))).

(** The shoot button held, nothing else. *)
Definition holdShoot : InputSnapshot :=
  mkInput (mkVec2 0 0) false false false false true false false.


(** [match0] after a pass of the controlled midfielder that the first forward
    picked up in the tick of the kick: the forward owns the ball, three units
    in front of it, and the midfielder is still the controlled player. *)
Definition matchHandover : MatchState :=
  set_possession
    (set_ball
       (set_players match0
          (updPlayer "kilo:p4" (fun p => set_p_hasBall p true) (playersById match0)))
       (mkBall (mkVec2 (-3) (-14)) (mkVec2 0 0) 1.2 (Some "kilo:p4"%string)
          (Some "kilo"%string) (Some "kilo:p3"%string) 200))
    (mkPossession (Some "kilo"%string) (Some "kilo:p4"%string)).

(** An engine on it with no charge and 300 ms of steal cooldown left. *)
Definition engineHandover : EngineState :=
  mkEngine DEFAULT_ENGINE_CONFIG matchHandover false 0 false 0 0 0 300 0 0 (mkCpuAi 0 0 None).

(** The order of the tap sort: by lateral deviation, then by projection on
    the aim direction, then by distance. *)
Definition tapLe (a b : Cand) : Prop :=
  c_lateral a < c_lateral b
  \/ (c_lateral a = c_lateral b
      /\ (c_ahead a < c_ahead b \/ (c_ahead a = c_ahead b /\ c_dist a <= c_dist b))).

(** A passer at the centre spot aiming along +x with two team-mates straight
    ahead, 10 and 30 units away. *)
Definition passerP : Player :=
  mkPlayer "kilo:p3" "Kilo MF" MF "kilo" (mkVec2 0 0) (mkVec2 0 0) 0 1 true 18 75 30.
Definition nearP : Player :=
  mkPlayer "kilo:p4" "Kilo FW1" FW "kilo" (mkVec2 10 0) (mkVec2 0 0) 0 1 false 20 85 32.
Definition farP : Player :=
  mkPlayer "kilo:p5" "Kilo FW2" FW "kilo" (mkVec2 30 0) (mkVec2 0 0) 0 1 false 20 85 32.

Definition matchPass : MatchState :=
  mkMatch "match:single" "kilo" "cpu" (mkScore 0 0)
    (mkClock 0 (matchMsTotal DEFAULT_ENGINE_CONFIG) FIRST_HALF)
    (mkBall (mkVec2 0 0) (mkVec2 0 0) 1.2 (Some "kilo:p3"%string) (Some "kilo"%string) None 0)
    [passerP; nearP; farP]
    [mkTeam "kilo" ["kilo:p3"%string; "kilo:p4"%string; "kilo:p5"%string]; mkTeam "cpu" []]
    "kilo" "kilo:p3" (mkPossession (Some "kilo"%string) (Some "kilo:p3"%string)) None.

(** An engine on [matchPass] with the given pass charge, and the input of a
    pass release while pointing along the x axis. *)
Definition enginePass (chargeMs : R) : EngineState :=
  mkEngine DEFAULT_ENGINE_CONFIG matchPass false 0 false 0 0 0 0 0 chargeMs (mkCpuAi 0 0 None).

Definition passRelease : InputSnapshot :=
  mkInput (mkVec2 1 0) false false false true false false false.

(* ------------------------------------------------------------------ *)
(** ** createEngine.ts: the [step] closure

    [input] is the snapshot object the host shares with the engine; the
    closure clears its edge-triggered fields after a step, so the snapshot
    is returned next to the events. *)

Definition set_paused (e : EngineState) (b : bool) : EngineState :=
  mkEngine (config e) (e_match e) b (kickoffHoldMs e) (kickoffAwaitInput e) (uiMsAcc e)
    (celebrationMs e) (switchCooldownMs e) (stealCooldownMs e) (shootChargeMs e)
    (actionChargeMs e) (cpuAi e).

Definition clearEdgeInputs (input : InputSnapshot) : InputSnapshot :=
  mkInput (moveVec input) (sprint input) (actionDown input) false false
    (shootDown input) false false.

Definition engineStep (e : EngineState) (input : InputSnapshot) (dtMs : R) (rnd : nat -> R)
    : option (EngineState * InputSnapshot * list EngineEvent) :=
  let kickoffActive := Rltb 0 (kickoffHoldMs e) || kickoffAwaitInput e in
  let e1 := if negb kickoffActive && pausePressed input
            then set_paused e (negb (paused e)) else e in
  if paused e1 then Some (e1, clearEdgeInputs input, [])
  else
    match stepSim e1 input dtMs rnd with
    | Some (e2, events) => Some (e2, clearEdgeInputs input, events)
    | None => None
    end.

(* ------------------------------------------------------------------ *)
(** ** What a tick leaves alone, and what it counts *)

(** The score and the three team ids; with them the configuration and the
    pause flag. *)
Definition mledger (m : MatchState) : Score * string * string * string :=
  (score m, homeTeamId m, awayTeamId m, humanTeamId m).

Definition ledger (e : EngineState)
    : EngineConfig * bool * (Score * string * string * string) :=
  (config e, paused e, mledger (e_match e)).

(** The host loop over [engine.step]: the host rewrites the shared snapshot
    before each call. *)
Fixpoint runEngine (e : EngineState) (ticks : list Tick) : option EngineState :=
  match ticks with
  | [] => Some e
  | t :: rest =>
      match engineStep e (tk_input t) (tk_dtMs t) (tk_rnd t) with
      | Some (e1, _, _) => runEngine e1 rest
      | None => None
      end
  end.

(** The positions of the stored players, in store order. *)
Definition places (m : MatchState) : list Vec2 := map p_pos (playersById m).

(** The player's centre is at least one radius inside every edge. *)
Definition inPitch (cfg : EngineConfig) (pos : Vec2) : Prop :=
  Rabs (vec_x pos) <= pitchW cfg / 2 - PLAYER_RADIUS
  /\ Rabs (vec_y pos) <= pitchH cfg / 2 - PLAYER_RADIUS.

(** The number of [GOAL] events for [team]. *)
Fixpoint goalsFor (team : string) (evs : list EngineEvent) : Z :=
  match evs with
  | [] => 0%Z
  | GOAL t _ _ :: rest => ((if String.eqb t team then 1 else 0) + goalsFor team rest)%Z
  | FULL_TIME_EVENT _ _ :: rest => goalsFor team rest
  end.

Definition isGoalEvent (ev : EngineEvent) : bool :=
  match ev with
  | GOAL _ _ _ => true
  | FULL_TIME_EVENT _ _ => false
  end.

(** One tick of the fixed timestep in which only the pause key went down. *)
Definition tickPause : Tick :=
  mkTick (mkInput (mkVec2 0 0) false false false false false false true) (1000 / 60)
         (fun _ => 0).
(* ================================================================== *)
(** * Properties *)

(* ------------------------------------------------------------------ *)
(** ** Comparisons and vectors *)

Ltac break_match :=
  repeat match goal with
         | |- context [match ?x with _ => _ end] => destruct x
         end.


Lemma Rltb_true a b : Rltb a b = true <-> a < b.
Proof. unfold Rltb; destruct (Rlt_dec a b); split; intros; try discriminate; tauto. Qed.

Lemma Rltb_false a b : Rltb a b = false <-> b <= a.
Proof. unfold Rltb; destruct (Rlt_dec a b); split; intros; try discriminate; lra. Qed.

Lemma Rleb_true a b : Rleb a b = true <-> a <= b.
Proof. unfold Rleb; destruct (Rle_dec a b); split; intros; try discriminate; tauto. Qed.

Lemma Rleb_false a b : Rleb a b = false <-> b < a.
Proof. unfold Rleb; destruct (Rle_dec a b); split; intros; try discriminate; lra. Qed.

Lemma truthy_some k : truthy (Some k) = true <-> k <> EmptyString.
Proof.
  simpl. destruct (String.eqb_spec k EmptyString); simpl; split; intros; congruence.
Qed.

Lemma optIs_true a b : optIs a b = true <-> a = Some b.
Proof.
  destruct a as [k|]; simpl.
  - destruct (String.eqb_spec k b); split; intros; congruence.
  - split; intros; discriminate.
Qed.

Lemma lenSq_nonneg a : 0 <= V.lenSq a.
Proof. unfold V.lenSq. nra. Qed.

Lemma len_nonneg a : 0 <= V.len a.
Proof. apply sqrt_pos. Qed.

Lemma len_sq a : V.len a * V.len a = V.lenSq a.
Proof. unfold V.len. apply sqrt_sqrt, lenSq_nonneg. Qed.

(** A vector longer than the guard of [V.norm] normalises to a unit vector. *)
Lemma norm_unit a : 1e-9 < V.len a -> V.lenSq (V.norm a) = 1.
Proof.
  intros H. unfold V.norm. destruct (Rle_dec (V.len a) 1e-9) as [Hl|Hl]; [lra|].
  unfold V.lenSq at 1; simpl.
  pose proof (len_sq a) as Hs. unfold V.lenSq in Hs.
  assert (Hne : V.len a <> 0) by lra.
  field_simplify_eq; [|exact Hne]. lra.
Qed.

Lemma norm_zero a : V.len a <= 1e-9 -> V.norm a = mkVec2 0 0.
Proof.
  intros H. unfold V.norm. destruct (Rle_dec (V.len a) 1e-9); [reflexivity|lra].
Qed.

(* ------------------------------------------------------------------ *)
(** ** The nearest-player loop *)

Section Nearest.
Variable elig : Player -> bool.
Variable d2 : Player -> R.

Lemma nearest_fold_origin ps : forall acc p d,
  fold_left (nearestStep elig d2) ps acc = Some (p, d) ->
  acc = Some (p, d) \/ (In p ps /\ elig p = true /\ d = d2 p).
Proof.
  induction ps as [|q ps IH]; simpl; intros acc p d H.
  - now left.
  - apply IH in H. destruct H as [H|H].
    + unfold nearestStep in H.
      destruct (elig q) eqn:Eq; simpl in H; [|now left].
      destruct (ltInf (d2 q) (option_map snd acc)); [|now left].
      inversion H; subst. right. auto.
    + right. tauto.
Qed.

Lemma nearest_fold_none ps : forall acc,
  fold_left (nearestStep elig d2) ps acc = None ->
  acc = None /\ forall q, In q ps -> elig q = false.
Proof.
  induction ps as [|q ps IH]; simpl; intros acc H.
  - split; [assumption | intros q []].
  - apply IH in H. destruct H as [H Hall].
    unfold nearestStep in H.
    destruct (elig q) eqn:Eq; simpl in H.
    + destruct acc as [[p0 d0]|]; simpl in H.
      * destruct (Rltb (d2 q) d0); discriminate.
      * discriminate.
    + split; [assumption|]. intros q' [<-|Hin]; auto.
Qed.

Lemma nearest_fold_skip ps : forall acc,
  (forall q, In q ps -> elig q = false) ->
  fold_left (nearestStep elig d2) ps acc = acc.
Proof.
  induction ps as [|q ps IH]; simpl; intros acc H; [reflexivity|].
  unfold nearestStep at 2. rewrite (H q (or_introl eq_refl)). simpl.
  apply IH. intros; apply H; now right.
Qed.

Lemma nearest_fold_least ps : forall acc p d,
  fold_left (nearestStep elig d2) ps acc = Some (p, d) ->
  (forall p0 d0, acc = Some (p0, d0) -> d <= d0)
  /\ (forall q, In q ps -> elig q = true -> d <= d2 q).
Proof.
  induction ps as [|q ps IH]; simpl; intros acc p d H.
  - split; [|intros q []]. intros p0 d0 E. rewrite E in H. inversion H; lra.
  - apply IH in H. destruct H as [Hacc Hrest].
    unfold nearestStep in Hacc.
    destruct (elig q) eqn:Eq; simpl in Hacc.
    + destruct acc as [[p0 d0]|]; simpl in Hacc.
      * destruct (Rltb (d2 q) d0) eqn:El.
        -- apply Rltb_true in El. pose proof (Hacc _ _ eq_refl).
           split.
           ++ intros p1 d1 E; inversion E; subst; lra.
           ++ intros q' [<-|Hin] He; auto.
        -- apply Rltb_false in El. pose proof (Hacc _ _ eq_refl).
           split.
           ++ intros p1 d1 E; inversion E; subst; lra.
           ++ intros q' [<-|Hin] He; auto. lra.
      * pose proof (Hacc _ _ eq_refl). split; [intros ? ? E; discriminate|].
        intros q' [<-|Hin] He; auto.
    + split; [exact Hacc|]. intros q' [<-|Hin] He; auto. congruence.
Qed.

Lemma nearestBy_some ps p d :
  nearestBy elig d2 ps = Some (p, d) ->
  In p ps /\ elig p = true /\ d = d2 p /\ (forall q, In q ps -> elig q = true -> d <= d2 q).
Proof.
  unfold nearestBy. intros H.
  destruct (nearest_fold_origin _ _ _ _ H) as [E|(Hin & He & Hd)]; [discriminate|].
  destruct (nearest_fold_least _ _ _ _ H) as [_ Hl]. auto.
Qed.

Lemma nearestBy_none ps :
  nearestBy elig d2 ps = None <-> (forall q, In q ps -> elig q = false).
Proof.
  unfold nearestBy. split.
  - intros H. apply nearest_fold_none in H. tauto.
  - intros H. now apply nearest_fold_skip.
Qed.

Lemma nearestBy_exists ps q :
  In q ps -> elig q = true -> exists p d, nearestBy elig d2 ps = Some (p, d).
Proof.
  intros Hin He. destruct (nearestBy elig d2 ps) as [[p d]|] eqn:E; [eauto|].
  rewrite nearestBy_none in E. rewrite (E q Hin) in He. discriminate.
Qed.
End Nearest.

(* ------------------------------------------------------------------ *)
(** ** Goal detection *)

Lemma detectGoal_scored_iff m cfg b :
  scored (detectGoal m cfg b) = true <->
  Rabs (vec_y (b_pos b)) <= goalHalfW cfg
  /\ (vec_x (b_pos b) <= - (pitchW cfg / 2) - b_radius b
      \/ pitchW cfg / 2 + b_radius b <= vec_x (b_pos b)).
Proof.
  unfold detectGoal.
  destruct (Rleb (Rabs (vec_y (b_pos b))) (goalHalfW cfg)) eqn:Em; simpl.
  - apply Rleb_true in Em.
    destruct (Rle_dec (vec_x (b_pos b)) (- (pitchW cfg / 2) - b_radius b)); simpl.
    + split; auto.
    + destruct (Rle_dec (pitchW cfg / 2 + b_radius b) (vec_x (b_pos b))); simpl.
      * split; auto.
      * split; [discriminate|]. intros [_ [H|H]]; lra.
  - apply Rleb_false in Em. split; [discriminate|]. intros [H _]; lra.
Qed.

(** C2. [detectGoal] reports a goal exactly when the ball's |y| is within
    the goal half-width and its x lies at or beyond the pitch half-width plus
    the ball radius on either end.  The home team attacks +x, and on a pitch
    whose half-width plus ball radius is positive a ball beyond the -x
    boundary scores for the away team, a ball beyond the +x boundary for the
    home team. *)
Theorem detectGoal_side_correct m cfg b :
  0 < pitchW cfg / 2 + b_radius b ->
  getAttackDirX m (homeTeamId m) = 1
  /\ (scored (detectGoal m cfg b) = true <->
      Rabs (vec_y (b_pos b)) <= goalHalfW cfg
      /\ (vec_x (b_pos b) <= - (pitchW cfg / 2) - b_radius b
          \/ pitchW cfg / 2 + b_radius b <= vec_x (b_pos b)))
  /\ (Rabs (vec_y (b_pos b)) <= goalHalfW cfg ->
      vec_x (b_pos b) <= - (pitchW cfg / 2) - b_radius b ->
      detectGoal m cfg b = mkGoal true (Some (awayTeamId m)))
  /\ (Rabs (vec_y (b_pos b)) <= goalHalfW cfg ->
      pitchW cfg / 2 + b_radius b <= vec_x (b_pos b) ->
      detectGoal m cfg b = mkGoal true (Some (homeTeamId m))).
Proof.
  intros Hpos. split; [|split; [apply detectGoal_scored_iff|split]].
  - unfold getAttackDirX. now rewrite String.eqb_refl.
  - intros Hy Hx. unfold detectGoal.
    apply Rleb_true in Hy. rewrite Hy. simpl.
    destruct (Rle_dec (vec_x (b_pos b)) (- (pitchW cfg / 2) - b_radius b)); [reflexivity|lra].
  - intros Hy Hx. unfold detectGoal.
    apply Rleb_true in Hy. rewrite Hy. simpl.
    destruct (Rle_dec (vec_x (b_pos b)) (- (pitchW cfg / 2) - b_radius b)); [lra|].
    destruct (Rle_dec (pitchW cfg / 2 + b_radius b) (vec_x (b_pos b))); [reflexivity|lra].
Qed.

Lemma detectGoal_side_correct_witness :
  let m := createMatch DEFAULT_ENGINE_CONFIG None in
  let b := set_b_pos (ball m) (mkVec2 (-62) 0) in
  detectGoal m DEFAULT_ENGINE_CONFIG b = mkGoal true (Some "cpu"%string).
Proof.
  intros m b.
  assert (Hpos : 0 < pitchW DEFAULT_ENGINE_CONFIG / 2 + b_radius b) by (simpl; lra).
  destruct (detectGoal_side_correct m DEFAULT_ENGINE_CONFIG b Hpos) as (_ & _ & Haway & _).
  apply Haway; simpl.
  - rewrite Rabs_R0. lra.
  - lra.
Defined.

(* ------------------------------------------------------------------ *)
(** ** Kick release *)

Lemma norm_x_axis : V.norm (mkVec2 1 0) = mkVec2 1 0.
Proof.
  unfold V.norm, V.len, V.lenSq; simpl.
  replace (1 * 1 + 0 * 0) with 1 by lra. rewrite sqrt_1.
  destruct (Rle_dec 1 1e-9); [lra|]. f_equal; lra.
Qed.

Lemma releaseBallWithKick_vel m kicker dir speed :
  b_vel (ball (releaseBallWithKick m kicker dir speed)) =
  V.add (V.mul (V.norm dir) (Rmax speed BALL_RELEASE_KICK_SPEED_MIN))
        (V.mul (p_vel kicker) 0.35).
Proof. reflexivity. Qed.

(** C5, counterexample.  The midfielder runs backwards at 20 and kicks
    forwards with [speed = 0]: the ball leaves at speed 1, below the minimum
    kick speed 8. *)
Lemma releaseBallWithKick_below_min :
  V.len (b_vel (ball (releaseBallWithKick match0 mfBackwards (mkVec2 1 0) 0)))
  < BALL_RELEASE_KICK_SPEED_MIN.
Proof.
  rewrite releaseBallWithKick_vel, norm_x_axis.
  unfold V.len, V.lenSq, V.add, V.mul, BALL_RELEASE_KICK_SPEED_MIN; simpl.
  rewrite Rmax_right by lra.
  replace ((1 * 8 + -20 * 0.35) * (1 * 8 + -20 * 0.35) + (0 * 8 + 0 * 0.35) * (0 * 8 + 0 * 0.35))
    with 1 by lra.
  rewrite sqrt_1. lra.
Qed.

(** C5, as amended.  The released velocity is the normalised direction times
    [max(speed, minimum kick speed)] plus 35% of the kicker's velocity; when
    the direction is longer than the guard of [V.norm] and the kicker does
    not move against it, its magnitude is at least the minimum kick speed,
    whatever [speed] is (0 included). *)
Theorem releaseBallWithKick_velocity m kicker dir speed :
  b_vel (ball (releaseBallWithKick m kicker dir speed)) =
    V.add (V.mul (V.norm dir) (Rmax speed BALL_RELEASE_KICK_SPEED_MIN))
          (V.mul (p_vel kicker) 0.35)
  /\ (1e-9 < V.len dir -> 0 <= V.dot (V.norm dir) (p_vel kicker) ->
      BALL_RELEASE_KICK_SPEED_MIN <= V.len (b_vel (ball (releaseBallWithKick m kicker dir speed)))).
Proof.
  split; [reflexivity|]. intros Hlen Hdot.
  rewrite releaseBallWithKick_vel.
  pose proof (norm_unit dir Hlen) as Hu.
  set (n := V.norm dir) in *. set (u := p_vel kicker) in *.
  set (k := Rmax speed BALL_RELEASE_KICK_SPEED_MIN).
  assert (Hk : BALL_RELEASE_KICK_SPEED_MIN <= k) by apply Rmax_r.
  unfold BALL_RELEASE_KICK_SPEED_MIN in *.
  assert (Hsq : 8 * 8 <= V.lenSq (V.add (V.mul n k) (V.mul u 0.35))).
  { unfold V.lenSq, V.add, V.mul, V.dot in *; simpl in *.
    assert (Hkk : 8 * 8 <= k * k) by nra.
    assert (Hd : 0 <= k * (vec_x n * vec_x u + vec_y n * vec_y u)) by (apply Rmult_le_pos; lra).
    nra. }
  unfold V.len. rewrite <- (sqrt_square 8) by lra.
  apply sqrt_le_1_alt. exact Hsq.
Qed.

Lemma releaseBallWithKick_velocity_witness :
  BALL_RELEASE_KICK_SPEED_MIN
  <= V.len (b_vel (ball (releaseBallWithKick match0
                           (set_p_vel mfBackwards (mkVec2 0 0)) (mkVec2 1 0) 0))).
Proof.
  apply (releaseBallWithKick_velocity match0 (set_p_vel mfBackwards (mkVec2 0 0)) (mkVec2 1 0) 0).
  - unfold V.len, V.lenSq; simpl. replace (1 * 1 + 0 * 0) with 1 by lra.
    rewrite sqrt_1. lra.
  - rewrite norm_x_axis. unfold V.dot; simpl. lra.
Defined.

(* ------------------------------------------------------------------ *)
(** ** Kick immunity *)

Lemma kickImmune_kicker b p k :
  k <> EmptyString -> 0 < b_kickNoPickupMs b -> b_lastKickPlayerId b = Some k ->
  p_id p = k -> kickImmune b p = true.
Proof.
  intros Hk Hms Hlast Hid. unfold kickImmune. rewrite Hlast.
  assert (E1 : Rltb 0 (b_kickNoPickupMs b) = true) by now apply Rltb_true.
  assert (E2 : truthy (Some k) = true) by now apply truthy_some.
  rewrite E1, E2. simpl. rewrite Hid. apply String.eqb_refl.
Qed.

Lemma kickImmune_other b p k :
  b_lastKickPlayerId b = Some k -> p_id p <> k -> kickImmune b p = false.
Proof.
  intros Hlast Hid. unfold kickImmune. rewrite Hlast. simpl.
  destruct (String.eqb_spec k (p_id p)); [congruence|].
  now rewrite andb_false_r.
Qed.

Lemma tryImmediateBallPickup_some m m' p :
  tryImmediateBallPickup m = (m', Some p) ->
  truthy (b_ownerPlayerId (ball m)) = false
  /\ In p (playersById m) /\ pickupEligible (ball m) p = true /\ m' = setBallOwner m p.
Proof.
  unfold tryImmediateBallPickup.
  destruct (truthy (b_ownerPlayerId (ball m))); [discriminate|].
  destruct (nearestBy _ _ _) as [[q d]|] eqn:E; [|discriminate].
  intros H; inversion H; subst. apply nearestBy_some in E. tauto.
Qed.

Lemma tryImmediateBallPickup_none m m' :
  tryImmediateBallPickup m = (m', None) -> m' = m.
Proof.
  unfold tryImmediateBallPickup.
  destruct (truthy (b_ownerPlayerId (ball m))); [congruence|].
  destruct (nearestBy _ _ _) as [[q d]|]; congruence.
Qed.

(** What [tryClaimBall] does when it claims, and that it changes nothing
    when it does not. *)
Lemma tryClaimBall_cases m :
  tryClaimBall m = (m, possession m) /\ truthy (b_ownerPlayerId (ball m)) = true
  \/ tryClaimBall m = (m, noPossession) /\ truthy (b_ownerPlayerId (ball m)) = false
  \/ exists p,
       truthy (b_ownerPlayerId (ball m)) = false
       /\ In p (playersById m) /\ kickImmune (ball m) p = false
       /\ V.distSq (p_pos p) (b_pos (ball m)) <= BALL_CLAIM_DIST * BALL_CLAIM_DIST
       /\ tryClaimBall m =
          (set_players
             (set_ball m
                (set_b_kickNoPickupMs
                   (set_b_lastKickPlayerId
                      (set_b_lastTouchTeamId (set_b_ownerPlayerId (ball m) (Some (p_id p)))
                         (Some (p_teamId p))) None) 0))
             (updPlayer (p_id p) (fun q => set_p_hasBall q true) (clearHasBall (playersById m))),
           mkPossession (Some (p_teamId p)) (Some (p_id p))).
Proof.
  unfold tryClaimBall.
  destruct (truthy (b_ownerPlayerId (ball m))) eqn:Et; [now left|].
  right.
  destruct (Rlt_dec BALL_CLAIM_SPEED_MAX (V.len (b_vel (ball m)))); [now left|].
  destruct (nearestBy _ _ _) as [[p d]|] eqn:E; [|now left].
  destruct (Rle_dec d (BALL_CLAIM_DIST * BALL_CLAIM_DIST)) as [Hd|Hd]; [|now left].
  right. exists p. apply nearestBy_some in E. destruct E as (Hin & He & -> & _).
  apply negb_true_iff in He. auto.
Qed.

(** C6. [releaseBallWithKick] frees the ball, records the kicker and arms
    the immunity countdown; and in every state in which the ball is free, the
    countdown is positive and the kicker is the recorded last kicker, neither
    [tryClaimBall] nor [tryImmediateBallPickup] gives the ball to the kicker,
    and when every other player is out of contact range the ball stays
    free. *)
Theorem kicker_cannot_reclaim m kicker dir speed m2 :
  p_id kicker <> EmptyString ->
  truthy (b_ownerPlayerId (ball m2)) = false ->
  0 < b_kickNoPickupMs (ball m2) ->
  b_lastKickPlayerId (ball m2) = Some (p_id kicker) ->
  let m1 := releaseBallWithKick m kicker dir speed in
  (b_ownerPlayerId (ball m1) = None
   /\ b_lastKickPlayerId (ball m1) = Some (p_id kicker)
   /\ 0 < b_kickNoPickupMs (ball m1))
  /\ (forall p, snd (tryImmediateBallPickup m2) = Some p -> p_id p <> p_id kicker)
  /\ b_ownerPlayerId (ball (fst (tryImmediateBallPickup m2))) <> Some (p_id kicker)
  /\ pos_playerId (snd (tryClaimBall m2)) <> Some (p_id kicker)
  /\ b_ownerPlayerId (ball (fst (tryClaimBall m2))) <> Some (p_id kicker)
  /\ ((forall q, In q (playersById m2) -> p_id q <> p_id kicker ->
         (PLAYER_RADIUS + b_radius (ball m2) + BALL_PICKUP_PAD)
         * (PLAYER_RADIUS + b_radius (ball m2) + BALL_PICKUP_PAD)
         < V.distSq (p_pos q) (b_pos (ball m2))) ->
      tryImmediateBallPickup m2 = (m2, None))
  /\ ((forall q, In q (playersById m2) -> p_id q <> p_id kicker ->
         BALL_CLAIM_DIST * BALL_CLAIM_DIST < V.distSq (p_pos q) (b_pos (ball m2))) ->
      tryClaimBall m2 = (m2, noPossession)).
Proof.
  intros Hid Hfree Hms Hlast m1.
  assert (Himm : forall p, p_id p = p_id kicker -> kickImmune (ball m2) p = true).
  { intros p Hp. eapply kickImmune_kicker; eauto. }
  assert (Hown : b_ownerPlayerId (ball m2) <> Some (p_id kicker)).
  { intros E. rewrite E in Hfree. apply truthy_some in Hid. congruence. }
  split; [|split; [|split; [|split; [|split; [|split]]]]].
  - repeat split; simpl; lra.
  - intros p Hp.
    destruct (tryImmediateBallPickup m2) as [m' o] eqn:E. simpl in Hp. subst o.
    apply tryImmediateBallPickup_some in E. destruct E as (_ & _ & He & _).
    unfold pickupEligible in He. apply andb_true_iff in He. destruct He as [He _].
    intros Hp. rewrite (Himm p Hp) in He. discriminate.
  - destruct (tryImmediateBallPickup m2) as [m' [p|]] eqn:E; simpl.
    + apply tryImmediateBallPickup_some in E. destruct E as (_ & _ & He & ->).
      simpl. unfold pickupEligible in He. apply andb_true_iff in He. destruct He as [He _].
      intros Hp. inversion Hp as [Hp']. rewrite (Himm p Hp') in He. discriminate.
    + apply tryImmediateBallPickup_none in E. now subst.
  - destruct (tryClaimBall_cases m2) as [[E Ht]|[[E _]|(p & _ & _ & Hi & _ & E)]];
      rewrite E; simpl; try congruence.
    intros Hp. inversion Hp as [Hp']. rewrite (Himm p Hp') in Hi. discriminate.
  - destruct (tryClaimBall_cases m2) as [[E Ht]|[[E _]|(p & _ & _ & Hi & _ & E)]];
      rewrite E; simpl; try congruence.
    intros Hp. inversion Hp as [Hp']. rewrite (Himm p Hp') in Hi. discriminate.
  - intros Hfar. unfold tryImmediateBallPickup. rewrite Hfree.
    destruct (nearestBy _ _ _) as [[p d]|] eqn:E; [|reflexivity].
    apply nearestBy_some in E. destruct E as (Hin & He & _).
    unfold pickupEligible in He. apply andb_true_iff in He. destruct He as [Hi Hr].
    apply Rleb_true in Hr.
    destruct (string_dec (p_id p) (p_id kicker)) as [Hp|Hp].
    + rewrite (Himm p Hp) in Hi. discriminate.
    + specialize (Hfar p Hin Hp). lra.
  - intros Hfar.
    destruct (tryClaimBall_cases m2) as [[E Ht]|[[E _]|(p & _ & Hin & Hi & Hr & E)]];
      try congruence.
    destruct (string_dec (p_id p) (p_id kicker)) as [Hp|Hp].
    + rewrite (Himm p Hp) in Hi. discriminate.
    + specialize (Hfar p Hin Hp). lra.
Qed.

Lemma kicker_cannot_reclaim_witness :
  let m1 := releaseBallWithKick matchOwned mfAtBall (mkVec2 1 0) 0 in
  tryImmediateBallPickup m1 = (m1, None) /\ tryClaimBall m1 = (m1, noPossession).
Proof.
  intros m1.
  assert (Hid : p_id mfAtBall <> EmptyString) by discriminate.
  assert (Hfree : truthy (b_ownerPlayerId (ball m1)) = false) by reflexivity.
  assert (Hms : 0 < b_kickNoPickupMs (ball m1)) by (simpl; lra).
  assert (Hlast : b_lastKickPlayerId (ball m1) = Some (p_id mfAtBall)) by reflexivity.
  destruct (kicker_cannot_reclaim matchOwned mfAtBall (mkVec2 1 0) 0 m1 Hid Hfree Hms Hlast)
    as (_ & _ & _ & _ & _ & Hpick & Hclaim).
  split; [apply Hpick | apply Hclaim]; intros q Hin Hq; simpl in Hin;
    unfold V.distSq, V.lenSq, V.sub, BALL_CLAIM_DIST, PLAYER_RADIUS, BALL_PICKUP_PAD;
    repeat (destruct Hin as [<-|Hin]; [simpl in *; try congruence; try lra|]);
    try contradiction.
Defined.

(* ------------------------------------------------------------------ *)
(** ** The player store *)

Lemma getPlayer_some ps k p : getPlayer ps k = Some p -> In p ps /\ p_id p = k.
Proof.
  unfold getPlayer. intros H. apply find_some in H. destruct H as [Hin Hid].
  unfold hasId in Hid. apply String.eqb_eq in Hid. auto.
Qed.

Lemma getPlayer_none ps k : getPlayer ps k = None -> forall p, In p ps -> p_id p <> k.
Proof.
  unfold getPlayer. intros H p Hin Hid.
  pose proof (find_none _ _ H p Hin) as Hn. unfold hasId in Hn.
  rewrite Hid, String.eqb_refl in Hn. discriminate.
Qed.

Lemma getPlayerOpt_some ps o p :
  getPlayerOpt ps o = Some p ->
  o = Some (p_id p) /\ p_id p <> EmptyString /\ getPlayer ps (p_id p) = Some p /\ In p ps.
Proof.
  unfold getPlayerOpt. destruct (truthy o) eqn:Et; [|discriminate].
  destruct o as [k|]; [|discriminate]. intros H.
  destruct (getPlayer_some _ _ _ H) as [Hin Hid]. subst k.
  apply truthy_some in Et. auto.
Qed.

Lemma getPlayerOpt_truthy ps k :
  truthy (Some k) = true -> getPlayerOpt ps (Some k) = getPlayer ps k.
Proof. unfold getPlayerOpt. now intros ->. Qed.

Lemma getPlayerOpt_falsy ps o : truthy o = false -> getPlayerOpt ps o = None.
Proof. unfold getPlayerOpt. now intros ->. Qed.

Lemma getPlayer_static ps ps' k :
  map p_static ps' = map p_static ps ->
  option_map p_static (getPlayer ps' k) = option_map p_static (getPlayer ps k).
Proof.
  revert ps'. induction ps as [|p ps IH]; intros [|p' ps'] H; try discriminate; [reflexivity|].
  simpl in H.
  assert (Hp : p_static p' = p_static p) by congruence.
  assert (Hps : map p_static ps' = map p_static ps) by congruence.
  assert (Hid : p_id p' = p_id p) by (unfold p_static in Hp; congruence).
  unfold getPlayer, hasId in *. simpl. rewrite Hid.
  destruct (String.eqb (p_id p) k); simpl; [now rewrite Hp|]. now apply IH.
Qed.

Lemma getPlayer_core ps ps' k :
  map p_core ps' = map p_core ps ->
  option_map p_core (getPlayer ps' k) = option_map p_core (getPlayer ps k).
Proof.
  revert ps'. induction ps as [|p ps IH]; intros [|p' ps'] H; try discriminate; [reflexivity|].
  simpl in H.
  assert (Hp : p_core p' = p_core p) by congruence.
  assert (Hps : map p_core ps' = map p_core ps) by congruence.
  assert (Hid : p_id p' = p_id p) by (unfold p_core in Hp; congruence).
  unfold getPlayer, hasId in *. simpl. rewrite Hid.
  destruct (String.eqb (p_id p) k); simpl; [now rewrite Hp|]. now apply IH.
Qed.

Lemma cores_statics ps ps' :
  map p_core ps' = map p_core ps -> map p_static ps' = map p_static ps.
Proof.
  intros H.
  assert (E : forall l, map p_static l = map fst (map p_core l)).
  { intros l. rewrite map_map. reflexivity. }
  rewrite !E. now rewrite H.
Qed.

Lemma updPlayer_core k f ps :
  (forall p, p_core (f p) = p_core p) -> map p_core (updPlayer k f ps) = map p_core ps.
Proof.
  intros Hf. unfold updPlayer. rewrite map_map. apply map_ext.
  intros p. destruct (hasId k p); auto.
Qed.

Lemma updPlayer_static k f ps :
  (forall p, p_static (f p) = p_static p) -> map p_static (updPlayer k f ps) = map p_static ps.
Proof.
  intros Hf. unfold updPlayer. rewrite map_map. apply map_ext.
  intros p. destruct (hasId k p); auto.
Qed.

Lemma updPlayers_core ks f : forall ps,
  (forall p, p_core (f p) = p_core p) -> map p_core (updPlayers ks f ps) = map p_core ps.
Proof.
  unfold updPlayers. induction ks as [|k ks IH]; simpl; intros ps Hf; [reflexivity|].
  rewrite IH by assumption. now apply updPlayer_core.
Qed.

Lemma updPlayers_static ks f : forall ps,
  (forall p, p_static (f p) = p_static p) -> map p_static (updPlayers ks f ps) = map p_static ps.
Proof.
  unfold updPlayers. induction ks as [|k ks IH]; simpl; intros ps Hf; [reflexivity|].
  rewrite IH by assumption. now apply updPlayer_static.
Qed.

Lemma clearHasBall_static ps : map p_static (clearHasBall ps) = map p_static ps.
Proof. unfold clearHasBall. rewrite map_map. now apply map_ext. Qed.

Lemma movePlayer_core cfg k desired dt ps :
  map p_core (movePlayer cfg k desired dt ps) = map p_core ps.
Proof.
  apply updPlayer_core. intros p. unfold containPlayerInPitch, integratePlayer.
  destruct (Rlt_dec _ _); reflexivity.
Qed.

Lemma resolve_in ps ids p : In p (resolve ps ids) -> In p ps /\ In (p_id p) ids.
Proof.
  induction ids as [|k ids IH]; simpl; [tauto|].
  destruct (getPlayer ps k) as [q|] eqn:E.
  - intros [<-|H].
    + apply getPlayer_some in E. destruct E; auto.
    + apply IH in H. tauto.
  - intros H. apply IH in H. tauto.
Qed.

Lemma getTeam_some ts k t : getTeam ts k = Some t -> In t ts /\ t_id t = k.
Proof.
  unfold getTeam. intros H. apply find_some in H. destruct H as [Hin Hid].
  apply String.eqb_eq in Hid. auto.
Qed.

(** With distinct ids, a static entry determines the stored player. *)
Lemma static_lookup ps k t r :
  NoDup (map s_id (map p_static ps)) -> In (k, t, r) (map p_static ps) ->
  exists p, getPlayer ps k = Some p /\ p_static p = (k, t, r) /\ In p ps.
Proof.
  induction ps as [|q ps IH]; simpl; intros Hnd Hin; [contradiction|].
  inversion Hnd as [|? ? Hnot Hnd']; subst.
  unfold getPlayer; simpl. unfold hasId at 1.
  destruct Hin as [Hq|Hin].
  - assert (Hid : p_id q = k) by (unfold p_static in Hq; congruence).
    rewrite Hid, String.eqb_refl. eauto.
  - destruct (String.eqb_spec (p_id q) k) as [Hid|Hid].
    + exfalso. apply Hnot. unfold s_id at 1, p_static at 1; simpl. rewrite Hid.
      change k with (s_id (k, t, r)). now apply in_map.
    + destruct (IH Hnd' Hin) as (p & Hg & Hs & Hp). exists p. auto.
Qed.

Lemma lookup_static ps k p :
  getPlayer ps k = Some p -> In (p_static p) (map p_static ps).
Proof. intros H. apply getPlayer_some in H. apply in_map. tauto. Qed.

(** Two stored players with the same id are the same entry. *)
Lemma nodup_same_id ps p q :
  NoDup (map p_id ps) -> In p ps -> In q ps -> p_id p = p_id q -> p = q.
Proof.
  induction ps as [|x ps IH]; simpl; intros Hnd Hp Hq Hid; [contradiction|].
  inversion Hnd as [|? ? Hnot Hnd']; subst.
  destruct Hp as [<-|Hp], Hq as [<-|Hq]; auto.
  - exfalso. apply Hnot. rewrite Hid. now apply in_map.
  - exfalso. apply Hnot. rewrite <- Hid. now apply in_map.
Qed.

Lemma statics_ids ps : map s_id (map p_static ps) = map p_id ps.
Proof. rewrite map_map. reflexivity. Qed.

(* ------------------------------------------------------------------ *)
(** ** Transport of the invariants along what only moves *)

Lemma keq_refl m : keq m m.
Proof. repeat split. Qed.

Lemma keq_trans m1 m2 m3 : keq m1 m2 -> keq m2 m3 -> keq m1 m3.
Proof.
  intros (A1 & B1 & C1 & D1) (A2 & B2 & C2 & D2). repeat split; congruence.
Qed.

Lemma eeq_refl e : eeq e e.
Proof. split; [apply keq_refl|split; reflexivity]. Qed.

Lemma eeq_trans e1 e2 e3 : eeq e1 e2 -> eeq e2 e3 -> eeq e1 e3.
Proof.
  intros (K1 & S1 & A1) (K2 & S2 & A2).
  split; [eapply keq_trans; eauto|split; congruence].
Qed.

Lemma frame_statics m m' : frame m' = frame m -> statics m' = statics m.
Proof. unfold frame. congruence. Qed.

Lemma frame_human m m' : frame m' = frame m -> humanTeamId m' = humanTeamId m.
Proof. unfold frame. congruence. Qed.

Lemma frame_away m m' : frame m' = frame m -> awayTeamId m' = awayTeamId m.
Proof. unfold frame. congruence. Qed.

Lemma frame_home m m' : frame m' = frame m -> homeTeamId m' = homeTeamId m.
Proof. unfold frame. congruence. Qed.

Lemma frame_teams m m' : frame m' = frame m -> teamsById m' = teamsById m.
Proof. unfold frame. congruence. Qed.

Lemma wf_frame m m' : frame m' = frame m -> wf m -> wf m'.
Proof. unfold wf. now intros ->. Qed.

Lemma own_inv_same m m' :
  cores m' = cores m -> b_ownerPlayerId (ball m') = b_ownerPlayerId (ball m) ->
  own_inv m -> own_inv m'.
Proof. unfold own_inv. now intros -> ->. Qed.

Lemma ctrl_inv_same m m' :
  frame m' = frame m -> controlledPlayerId m' = controlledPlayerId m ->
  ctrl_inv m -> ctrl_inv m'.
Proof.
  unfold ctrl_inv. intros Hf Hc. rewrite (frame_statics _ _ Hf), (frame_human _ _ Hf), Hc.
  auto.
Qed.

Lemma Inv_eeq e e' : eeq e e' -> Inv e -> Inv e'.
Proof.
  intros ((Hf & Hc & Ho & Hk) & Hs & Ha) (Hwf & Hown & Hctl & Hch).
  split; [|split; [|split]].
  - eapply wf_frame; eauto.
  - eapply own_inv_same; eauto.
  - eapply ctrl_inv_same; eauto.
  - unfold charge_inv in *. rewrite Hs, Ha, Ho, Hk. exact Hch.
Qed.

Lemma eeq_unchanged e e' : eeq e e' -> ~ changed e e'.
Proof.
  intros ((Hf & Hc & Ho & Hk) & _) [H|H]; congruence.
Qed.

Lemma okStep_eeq a b : eeq a b -> okStep a b.
Proof.
  intros H Hi. split; [eapply Inv_eeq; eauto|]. split.
  - intros Hc. exfalso. eapply eeq_unchanged; eauto.
  - intros Hc. exfalso. destruct H as ((_ & _ & _ & Hk) & _). congruence.
Qed.

(** A phase that leaves the controlled player alone. *)
Lemma okStep_same_control a b :
  controlledPlayerId (e_match b) = controlledPlayerId (e_match a) ->
  (Inv a -> Inv b /\ (changed a b -> cleared b)) -> okStep a b.
Proof.
  intros Hk H Hi. destruct (H Hi) as [H1 H2]. split; [exact H1|]. split; [exact H2|].
  intros Hc. congruence.
Qed.

(** Unfolding of [wf]. *)
Lemma wf_nodup m : wf m -> NoDup (map p_id (playersById m)).
Proof.
  unfold wf, frame, wfFrame. intros (H & _). unfold statics in H.
  now rewrite statics_ids in H.
Qed.

Lemma wf_ids m p : wf m -> In p (playersById m) -> p_id p <> EmptyString.
Proof.
  unfold wf, frame, wfFrame. intros (_ & H & _) Hin.
  apply (H (p_static p)). unfold statics. now apply in_map.
Qed.

Lemma wf_human_away m : wf m -> humanTeamId m <> awayTeamId m.
Proof. unfold wf, frame, wfFrame. tauto. Qed.

Lemma static_unique ss s s' :
  NoDup (map s_id ss) -> In s ss -> In s' ss -> s_id s = s_id s' -> s = s'.
Proof.
  induction ss as [|x ss IH]; simpl; intros Hnd Hs Hs' Hid; [contradiction|].
  inversion Hnd as [|? ? Hnot Hnd']; subst.
  destruct Hs as [<-|Hs], Hs' as [<-|Hs']; auto.
  - exfalso. apply Hnot. rewrite Hid. now apply in_map.
  - exfalso. apply Hnot. rewrite <- Hid. now apply in_map.
Qed.

Lemma wf_static_unique m s s' :
  wf m -> In s (statics m) -> In s' (statics m) -> s_id s = s_id s' -> s = s'.
Proof.
  unfold wf, frame, wfFrame. intros (H & _). now apply static_unique.
Qed.

(** A member of a team's roster is a stored player of that team. *)
Lemma teamPlayers_static m t p :
  wf m -> In p (getTeamPlayers m t) ->
  In p (playersById m) /\ p_teamId p = t.
Proof.
  intros Hwf Hin. unfold getTeamPlayers, getTeamPlayerIds in Hin.
  destruct (getTeam (teamsById m) t) as [T|] eqn:Et; [|simpl in Hin; contradiction].
  apply resolve_in in Hin. destruct Hin as [Hp Hk].
  apply getTeam_some in Et. destruct Et as [HT Hid].
  split; [assumption|].
  pose proof Hwf as Hwf'. unfold wf, frame, wfFrame in Hwf'.
  destruct Hwf' as (_ & _ & _ & _ & _ & _ & Hroster).
  destruct (Hroster T (p_id p) HT Hk) as [r Hr].
  assert (Hs : In (p_static p) (statics m)) by (unfold statics; now apply in_map).
  pose proof (wf_static_unique m _ _ Hwf Hs Hr eq_refl) as E.
  unfold p_static in E. congruence.
Qed.

Lemma ctrl_inv_intro m p :
  In p (playersById m) -> p_teamId p = humanTeamId m ->
  exists r, In (p_id p, humanTeamId m, r) (statics m).
Proof.
  intros Hin Ht. exists (p_role p). rewrite <- Ht.
  change (p_id p, p_teamId p, p_role p) with (p_static p).
  unfold statics. now apply in_map.
Qed.

Lemma ctrl_inv_lookup m :
  wf m -> ctrl_inv m ->
  exists p, getPlayer (playersById m) (controlledPlayerId m) = Some p
            /\ p_id p = controlledPlayerId m /\ p_teamId p = humanTeamId m
            /\ In p (playersById m).
Proof.
  intros Hwf [r Hr]. unfold statics in Hr.
  pose proof Hwf as Hwf'. unfold wf, frame, wfFrame in Hwf'. destruct Hwf' as (Hnd & _).
  destruct (static_lookup _ _ _ _ Hnd Hr) as (p & Hg & Hs & Hin).
  exists p. unfold p_static in Hs. repeat split; auto; congruence.
Qed.

Lemma ctrl_nonempty m : wf m -> ctrl_inv m -> controlledPlayerId m <> EmptyString.
Proof.
  intros Hwf Hc. destruct (ctrl_inv_lookup m Hwf Hc) as (p & _ & Hid & _ & Hin).
  rewrite <- Hid. eapply wf_ids; eauto.
Qed.

(** While the ball is free both counters are zero. *)
Lemma free_cleared e :
  Inv e -> truthy (b_ownerPlayerId (ball (e_match e))) = false -> cleared e.
Proof.
  intros (Hwf & _ & Hctl & Hch) Hfree.
  assert (Hz : ~ (shootChargeMs e <> 0 \/ actionChargeMs e <> 0)).
  { intros H. apply Hch in H. rewrite H in Hfree.
    pose proof (ctrl_nonempty _ Hwf Hctl) as Hne. apply truthy_some in Hne. congruence. }
  unfold cleared. split.
  - destruct (Req_dec_T (shootChargeMs e) 0); [assumption|exfalso; auto].
  - destruct (Req_dec_T (actionChargeMs e) 0); [assumption|exfalso; auto].
Qed.

Lemma own_inv_free m :
  wf m -> own_inv m -> truthy (b_ownerPlayerId (ball m)) = false ->
  b_ownerPlayerId (ball m) = None /\ forall c, In c (cores m) -> snd c = false.
Proof.
  intros Hwf [H1 H2] Hfree.
  assert (Hn : b_ownerPlayerId (ball m) = None).
  { destruct (b_ownerPlayerId (ball m)) as [k|] eqn:E; [|reflexivity].
    destruct (H2 k eq_refl) as (c & Hc & Hid & _).
    unfold cores in Hc. apply in_map_iff in Hc. destruct Hc as (p & <- & Hp).
    pose proof (wf_ids m p Hwf Hp) as Hne. simpl in Hid. unfold s_id in Hid; simpl in Hid.
    subst k. apply truthy_some in Hne. congruence. }
  split; [assumption|]. intros c Hc.
  destruct (snd c) eqn:E; [|reflexivity].
  specialize (H1 c Hc E). congruence.
Qed.

Lemma own_inv_owner m k :
  wf m -> own_inv m -> b_ownerPlayerId (ball m) = Some k ->
  exists p, getPlayerOpt (playersById m) (Some k) = Some p /\ p_id p = k
            /\ p_hasBall p = true /\ In p (playersById m).
Proof.
  intros Hwf [_ H2] Ho. destruct (H2 k Ho) as (c & Hc & Hid & Hf).
  unfold cores in Hc. apply in_map_iff in Hc. destruct Hc as (p & <- & Hp).
  simpl in Hid, Hf. unfold s_id in Hid; simpl in Hid.
  assert (Hne : truthy (Some k) = true).
  { apply truthy_some. rewrite <- Hid. eapply wf_ids; eauto. }
  rewrite (getPlayerOpt_truthy _ _ Hne).
  destruct (getPlayer (playersById m) k) as [q|] eqn:Eq.
  - destruct (getPlayer_some _ _ _ Eq) as [Hq Hqid].
    assert (q = p).
    { eapply nodup_same_id; eauto using wf_nodup. congruence. }
    subst q. eauto.
  - exfalso. eapply getPlayer_none; eauto.
Qed.

(* ------------------------------------------------------------------ *)
(** ** Giving and releasing the ball *)

Lemma give_cores ps k c :
  In c (map p_core (updPlayer k (fun q => set_p_hasBall q true) (clearHasBall ps))) ->
  (snd c = true <-> s_id (fst c) = k).
Proof.
  unfold updPlayer, clearHasBall. rewrite !map_map. intros Hc.
  apply in_map_iff in Hc. destruct Hc as (q & <- & _).
  unfold hasId, s_id; simpl.
  destruct (String.eqb_spec (p_id q) k); simpl; split; intros; congruence.
Qed.

Lemma give_cores_in ps p :
  In p ps ->
  In (p_static p, true)
     (map p_core (updPlayer (p_id p) (fun q => set_p_hasBall q true) (clearHasBall ps))).
Proof.
  intros Hin. unfold updPlayer, clearHasBall. rewrite !map_map.
  apply in_map_iff. exists p. split; [|assumption].
  unfold hasId; simpl. now rewrite String.eqb_refl.
Qed.

Lemma give_statics ps k :
  map p_static (updPlayer k (fun q => set_p_hasBall q true) (clearHasBall ps))
  = map p_static ps.
Proof.
  rewrite updPlayer_static by reflexivity. apply clearHasBall_static.
Qed.

Lemma setBallOwner_spec m p :
  In p (playersById m) ->
  own_inv (setBallOwner m p)
  /\ frame (setBallOwner m p) = frame m
  /\ controlledPlayerId (setBallOwner m p) = controlledPlayerId m
  /\ b_ownerPlayerId (ball (setBallOwner m p)) = Some (p_id p).
Proof.
  intros Hin. split; [|split; [|split]]; try reflexivity.
  - split.
    + intros c Hc Hf. unfold cores in Hc; simpl in Hc.
      apply give_cores in Hc. simpl. f_equal. symmetry. now apply Hc.
    + intros k Hk. simpl in Hk. inversion Hk; subst k.
      exists (p_static p, true). split; [|split; reflexivity].
      unfold cores; simpl. now apply give_cores_in.
  - unfold frame, statics; simpl. now rewrite give_statics.
Qed.

Lemma release_statics ps k :
  map p_static (updPlayer k (fun q => set_p_hasBall q false) ps) = map p_static ps.
Proof. now apply updPlayer_static. Qed.

Lemma releaseBallWithKick_spec m kicker dir speed :
  own_inv m ->
  (forall k, b_ownerPlayerId (ball m) = Some k -> k = p_id kicker) ->
  own_inv (releaseBallWithKick m kicker dir speed)
  /\ frame (releaseBallWithKick m kicker dir speed) = frame m
  /\ controlledPlayerId (releaseBallWithKick m kicker dir speed) = controlledPlayerId m
  /\ b_ownerPlayerId (ball (releaseBallWithKick m kicker dir speed)) = None.
Proof.
  intros [H1 H2] Hk. split; [|split; [|split]]; try reflexivity.
  - split.
    + intros c Hc Hf. exfalso. unfold cores in Hc; simpl in Hc.
      unfold updPlayer in Hc. rewrite map_map in Hc. apply in_map_iff in Hc.
      destruct Hc as (q & <- & Hq).
      unfold hasId in Hf. destruct (String.eqb_spec (p_id q) (p_id kicker)) as [E|E];
        simpl in Hf; [discriminate|].
      assert (Hqc : In (p_core q) (cores m)) by (unfold cores; now apply in_map).
      specialize (H1 _ Hqc Hf). apply Hk in H1. simpl in H1. unfold s_id in H1; simpl in H1.
      congruence.
    + intros k Hk'. simpl in Hk'. discriminate.
  - unfold frame, statics; simpl. now rewrite release_statics.
Qed.


Lemma tryClaimBall_spec m :
  own_inv m -> truthy (b_ownerPlayerId (ball m)) = false ->
  own_inv (fst (tryClaimBall m))
  /\ frame (fst (tryClaimBall m)) = frame m
  /\ controlledPlayerId (fst (tryClaimBall m)) = controlledPlayerId m
  /\ (tryClaimBall m = (m, noPossession)
      \/ exists p, In p (playersById m)
           /\ b_ownerPlayerId (ball (fst (tryClaimBall m))) = Some (p_id p)
           /\ pos_playerId (snd (tryClaimBall m)) = Some (p_id p)).
Proof.
  intros Hown Hfree.
  destruct (tryClaimBall_cases m) as [[E Ht]|[[E _]|(p & _ & Hin & _ & _ & E)]];
    [congruence| |]; rewrite E; simpl.
  - split; [exact Hown|]. split; [reflexivity|]. split; [reflexivity|]. now left.
  - split; [|split; [|split]]; try reflexivity.
    + split.
      * intros c Hc Hf. unfold cores in Hc; simpl in Hc.
        apply give_cores in Hc. simpl. f_equal. symmetry. now apply Hc.
      * intros k Hk. simpl in Hk. inversion Hk; subst k.
        exists (p_static p, true). split; [|split; reflexivity].
        unfold cores; simpl. now apply give_cores_in.
    + unfold frame, statics; simpl. now rewrite give_statics.
    + right. exists p. auto.
Qed.

Lemma trySteal_some m m' p :
  tryStealOwnedBallByBallContact m = (m', Some p) ->
  In p (playersById m) /\ m' = setBallOwner m p
  /\ exists owner, getPlayerOpt (playersById m) (b_ownerPlayerId (ball m)) = Some owner
                   /\ stealEligible (ball m) owner p = true.
Proof.
  unfold tryStealOwnedBallByBallContact.
  destruct (getPlayerOpt _ _) as [owner|]; [|discriminate].
  destruct (nearestBy _ _ _) as [[q d]|] eqn:E; [|discriminate].
  intros H; inversion H; subst. apply nearestBy_some in E.
  destruct E as (Hin & He & _). eauto.
Qed.

Lemma trySteal_none m m' :
  tryStealOwnedBallByBallContact m = (m', None) -> m' = m.
Proof.
  unfold tryStealOwnedBallByBallContact.
  destruct (getPlayerOpt _ _) as [owner|]; [|congruence].
  destruct (nearestBy _ _ _) as [[q d]|]; congruence.
Qed.

(* ------------------------------------------------------------------ *)
(** ** The phases of a tick, one by one *)

Lemma switchControl_ok e k cd :
  (exists r, In (k, humanTeamId (e_match e), r) (statics (e_match e))) ->
  (k <> controlledPlayerId (e_match e) -> shootChargeMs e = 0) ->
  (k <> controlledPlayerId (e_match e) ->
   (exists t, In (k, t, GK) (statics (e_match e))) ->
   isDangerousShotTowardGoal (e_match e) (config e) (humanTeamId (e_match e)) = true
   \/ b_ownerPlayerId (ball (e_match e)) = Some k) ->
  okStep e (switchControl e k cd).
Proof.
  intros Hk Hs Hgk (Hwf & Hown & Hctl & Hch).
  split; [split; [|split; [|split]]|split].
  - exact Hwf.
  - exact Hown.
  - exact Hk.
  - unfold charge_inv; simpl. intros [H|H]; [|lra].
    destruct (string_dec k (controlledPlayerId (e_match e))) as [->|Hne].
    + apply Hch. now left.
    + now apply Hs in Hne.
  - intros [Hc|Hc]; simpl in Hc; [|congruence].
    split; simpl; [now apply Hs|reflexivity].
  - simpl. intros Hc Hg. unfold gkExcuse. simpl. now apply Hgk.
Qed.

(** A player found by a search among the non-goalkeepers is not listed as a
    goalkeeper. *)
Lemma nonGK_not_gk m p :
  wf m -> In p (playersById m) -> nonGK p = true ->
  ~ exists t, In (p_id p, t, GK) (statics m).
Proof.
  intros Hwf Hin Hn [t Ht].
  assert (Hs : In (p_static p) (statics m)) by (unfold statics; now apply in_map).
  pose proof (wf_static_unique m _ _ Hwf Hs Ht eq_refl) as E.
  unfold p_static in E. inversion E as [[Ht' Hr]].
  unfold nonGK in Hn. rewrite Hr in Hn. discriminate.
Qed.

Lemma tickCooldowns_eeq e dtMs : eeq e (tickCooldowns e dtMs).
Proof. repeat split. Qed.

Lemma owner_is_controlled e o :
  Inv e -> getPlayerOpt (playersById (e_match e)) (b_ownerPlayerId (ball (e_match e))) = Some o ->
  shootChargeMs e <> 0 \/ actionChargeMs e <> 0 ->
  p_id o = controlledPlayerId (e_match e) /\ p_teamId o = humanTeamId (e_match e).
Proof.
  intros (Hwf & Hown & Hctl & Hch) Ho Hne.
  apply Hch in Hne. apply getPlayerOpt_some in Ho. destruct Ho as (Ho & _ & _ & Hin).
  assert (Hid : p_id o = controlledPlayerId (e_match e)) by congruence.
  split; [assumption|].
  destruct (ctrl_inv_lookup _ Hwf Hctl) as (p & _ & Hpid & Hpt & Hpin).
  assert (o = p) by (eapply nodup_same_id; eauto using wf_nodup; congruence).
  congruence.
Qed.

Lemma shoot_zero_or e : shootChargeMs e = 0 \/ shootChargeMs e <> 0.
Proof. destruct (Req_dec_T (shootChargeMs e) 0); auto. Qed.

Lemma offenseRule_ok e : okStep e (offenseRule e).
Proof.
  unfold offenseRule.
  destruct (getPlayerOpt _ _) as [o|] eqn:Eo; [|apply okStep_eeq, eeq_refl].
  destruct (String.eqb (p_teamId o) (humanTeamId (e_match e))
            && negb (String.eqb (controlledPlayerId (e_match e)) (p_id o))) eqn:Ec;
    [|apply okStep_eeq, eeq_refl].
  apply andb_true_iff in Ec. destruct Ec as [Et Ei].
  apply String.eqb_eq in Et. apply negb_true_iff, String.eqb_neq in Ei.
  intros Hinv. apply switchControl_ok; [| | |exact Hinv].
  - apply getPlayerOpt_some in Eo. destruct Eo as (_ & _ & _ & Hin).
    now apply ctrl_inv_intro.
  - intros _. destruct (shoot_zero_or e) as [Hz|Hnz]; [assumption|].
    destruct (owner_is_controlled e o Hinv Eo (or_introl Hnz)). congruence.
  - intros _ _. right. apply getPlayerOpt_some in Eo. tauto.
Qed.

Lemma nearest_team_member m t elig d2 p d :
  wf m -> nearestBy elig d2 (getTeamPlayers m t) = Some (p, d) ->
  In p (playersById m) /\ p_teamId p = t.
Proof.
  intros Hwf H. apply nearestBy_some in H. destruct H as (Hin & _).
  now apply teamPlayers_static.
Qed.

Lemma pickBestSwitchCandidate_human m cur :
  wf m -> ctrl_inv m -> cur = controlledPlayerId m ->
  exists r, In (pickBestSwitchCandidate m (humanTeamId m) cur, humanTeamId m, r) (statics m).
Proof.
  intros Hwf Hctl ->. unfold pickBestSwitchCandidate.
  destruct (nearestBy _ _ _) as [[p d]|] eqn:E; [|exact Hctl].
  destruct (nearest_team_member _ _ _ _ _ _ Hwf E). now apply ctrl_inv_intro.
Qed.

Lemma pickBestSwitchCandidate_nonGK m t cur :
  wf m -> pickBestSwitchCandidate m t cur <> cur ->
  ~ exists t', In (pickBestSwitchCandidate m t cur, t', GK) (statics m).
Proof.
  intros Hwf. unfold pickBestSwitchCandidate.
  destruct (nearestBy _ _ _) as [[p d]|] eqn:E; [|congruence].
  intros _. destruct (nearest_team_member _ _ _ _ _ _ Hwf E) as [Hin _].
  apply nearestBy_some in E. destruct E as (_ & He & _).
  now apply nonGK_not_gk.
Qed.

Lemma pickDefensiveSwitchCandidate_nonGK m t cur aim :
  wf m -> pickDefensiveSwitchCandidate m t cur aim <> cur ->
  ~ exists t', In (pickDefensiveSwitchCandidate m t cur aim, t', GK) (statics m).
Proof.
  intros Hwf. unfold pickDefensiveSwitchCandidate.
  destruct (Rlt_dec _ _); [now apply pickBestSwitchCandidate_nonGK|].
  destruct (nearestBy _ _ _) as [[p d]|] eqn:E.
  - destruct (negb _); [|now apply pickBestSwitchCandidate_nonGK].
    intros _. destruct (nearest_team_member _ _ _ _ _ _ Hwf E) as [Hin _].
    apply nearestBy_some in E. destruct E as (_ & He & _).
    apply andb_true_iff in He. destruct He as [He _]. now apply nonGK_not_gk.
  - rewrite String.eqb_refl. simpl. now apply pickBestSwitchCandidate_nonGK.
Qed.

Lemma pickDefensiveSwitchCandidate_human m cur aim :
  wf m -> ctrl_inv m -> cur = controlledPlayerId m ->
  exists r,
    In (pickDefensiveSwitchCandidate m (humanTeamId m) cur aim, humanTeamId m, r) (statics m).
Proof.
  intros Hwf Hctl Hcur. unfold pickDefensiveSwitchCandidate.
  destruct (Rlt_dec _ _); [now apply pickBestSwitchCandidate_human|].
  destruct (nearestBy _ _ _) as [[p d]|] eqn:E.
  - destruct (negb _); [|now apply pickBestSwitchCandidate_human].
    destruct (nearest_team_member _ _ _ _ _ _ Hwf E). now apply ctrl_inv_intro.
  - rewrite String.eqb_refl. simpl. now apply pickBestSwitchCandidate_human.
Qed.

Lemma autoSwitchLooseBall_ok e : okStep e (autoSwitchLooseBall e).
Proof.
  unfold autoSwitchLooseBall.
  destruct (negb (truthy _) && _) eqn:Eg; [|apply okStep_eeq, eeq_refl].
  apply andb_true_iff in Eg. destruct Eg as [Efree _]. apply negb_true_iff in Efree.
  intros Hinv. pose proof (free_cleared e Hinv Efree) as [Hs _].
  pose proof Hinv as (Hwf & _ & Hctl & _).
  destruct (if isDangerousShotTowardGoal _ _ _ then _ else None) as [g|] eqn:Eg.
  - destruct (negb _); [|now apply okStep_eeq; [apply eeq_refl|]].
    destruct (isDangerousShotTowardGoal _ _ _) eqn:Ed; [|discriminate].
    apply switchControl_ok; auto.
    unfold getTeamGoalkeeper in Eg. apply find_some in Eg. destruct Eg as [Hin _].
    apply teamPlayers_static in Hin; [|assumption]. destruct Hin. now apply ctrl_inv_intro.
  - destruct (negb _ && _); [|now apply okStep_eeq; [apply eeq_refl|]].
    apply switchControl_ok; auto.
    + now apply pickBestSwitchCandidate_human.
    + intros Hne Hg. exfalso.
      eapply pickBestSwitchCandidate_nonGK; eauto.
Qed.

Lemma humanSwitch_ok e input chb :
  (Inv e -> shootChargeMs e <> 0 -> chb = true) -> okStep e (humanSwitch e input chb).
Proof.
  intros Hchb. unfold humanSwitch.
  destruct (actionPressed input && negb chb && _) eqn:Eg; [|apply okStep_eeq, eeq_refl].
  apply andb_true_iff in Eg. destruct Eg as [Eg _].
  apply andb_true_iff in Eg. destruct Eg as [_ Eg]. apply negb_true_iff in Eg.
  intros Hinv. pose proof Hinv as (Hwf & _ & Hctl & _).
  apply switchControl_ok; auto.
  - now apply pickDefensiveSwitchCandidate_human.
  - intros _. destruct (shoot_zero_or e) as [Hz|Hnz]; [assumption|].
    apply Hchb in Hnz; [congruence|assumption].
  - intros Hne Hg. exfalso.
    eapply pickDefensiveSwitchCandidate_nonGK; eauto.
Qed.

Lemma autoSwitchLooseBall_cases e :
  autoSwitchLooseBall e = e
  \/ (truthy (b_ownerPlayerId (ball (e_match e))) = false
      /\ ball (e_match (autoSwitchLooseBall e)) = ball (e_match e)).
Proof.
  unfold autoSwitchLooseBall.
  destruct (negb (truthy _) && _) eqn:Eg; [|now left].
  apply andb_true_iff in Eg. destruct Eg as [Efree _]. apply negb_true_iff in Efree.
  right. split; [assumption|].
  destruct (if isDangerousShotTowardGoal _ _ _ then _ else None).
  - destruct (negb _); reflexivity.
  - destruct (negb _ && _); reflexivity.
Qed.

Lemma humanSwitch_after_auto e input :
  okStep (autoSwitchLooseBall e)
    (humanSwitch (autoSwitchLooseBall e) input (controlledHasBallOf e (controlledOf e))).
Proof.
  apply humanSwitch_ok. intros Hinv Hnz.
  pose proof Hinv as (Hwf & Hown & Hctl & Hch).
  pose proof (Hch (or_introl Hnz)) as Ho.
  assert (Ht : truthy (b_ownerPlayerId (ball (e_match (autoSwitchLooseBall e)))) = true).
  { rewrite Ho. apply truthy_some. now apply ctrl_nonempty. }
  destruct (autoSwitchLooseBall_cases e) as [E|[Hfree Hb]].
  - rewrite E in *. destruct (ctrl_inv_lookup _ Hwf Hctl) as (p & Hg & Hid & _).
    unfold controlledOf. rewrite Hg. simpl. rewrite Ho, Hid. apply String.eqb_refl.
  - rewrite Hb in Ht. congruence.
Qed.

Lemma set_players_keq m ps :
  map p_core ps = map p_core (playersById m) -> keq m (set_players m ps).
Proof.
  intros H. split; [|split; [|split]]; try reflexivity.
  - unfold frame, statics; simpl. now rewrite (cores_statics _ _ H).
  - exact H.
Qed.

Lemma set_ball_keq m b :
  b_ownerPlayerId b = b_ownerPlayerId (ball m) -> keq m (set_ball m b).
Proof. intros H. repeat split; auto. Qed.

Lemma cpuChaseBall_keq m p : keq m (cpuChaseBall m p).
Proof. apply set_players_keq. now apply updPlayer_core. Qed.

Lemma cpuDribbleAndShoot_cases cfg m team owner ai rnd :
  keq m (fst (cpuDribbleAndShoot cfg m team owner ai rnd))
  \/ exists m1 o1 dir speed,
       keq m m1 /\ p_id o1 = p_id owner
       /\ fst (cpuDribbleAndShoot cfg m team owner ai rnd) = releaseBallWithKick m1 o1 dir speed.
Proof.
  unfold cpuDribbleAndShoot.
  set (facing := atan2 _ _).
  set (m1 := set_players m _).
  assert (Hk : keq m m1) by (apply set_players_keq; now apply updPlayer_core).
  destruct (Rltb _ _ && _ && _).
  - right. simpl. do 4 eexists. split; [exact Hk|]. split; [|reflexivity]. reflexivity.
  - destruct (if negb _ then _ else _) as [wantsPass n].
    destruct wantsPass; [|now left].
    destruct (pickCpuPassTarget _ _ _ _ _) as [t|]; [|now left].
    right. simpl. do 4 eexists. split; [exact Hk|]. split; [|reflexivity]. reflexivity.
Qed.

Lemma stepCpuAi_cases cfg m dtMs ai rnd :
  keq m (fst (stepCpuAi cfg m dtMs ai rnd))
  \/ exists owner m1 o1 dir speed,
       getPlayerOpt (playersById m) (b_ownerPlayerId (ball m)) = Some owner
       /\ p_teamId owner = awayTeamId m
       /\ keq m m1 /\ p_id o1 = p_id owner
       /\ fst (stepCpuAi cfg m dtMs ai rnd) = releaseBallWithKick m1 o1 dir speed.
Proof.
  unfold stepCpuAi.
  destruct (getTeam _ _) as [team|] eqn:Et; [|left; apply keq_refl].
  apply getTeam_some in Et. destruct Et as [_ Etid].
  destruct (getPlayerOpt _ _) as [owner|] eqn:Eo.
  - destruct (String.eqb_spec (p_teamId owner) (t_id team)) as [Eteam|Eteam].
    + destruct (cpuDribbleAndShoot_cases cfg m team owner
                  (mkCpuAi (Rmax 0 (shootCooldownMs ai - dtMs))
                     (dribbleJitterPhase ai + dtMs / 1000 * 1.4) None) rnd)
        as [H|(m1 & o1 & dir & speed & Hk & Hid & E)]; [now left|].
      right. exists owner, m1, o1, dir, speed.
      split; [reflexivity|]. split; [congruence|]. split; [exact Hk|].
      split; [exact Hid|exact E].
    + destruct (pickCpuChaser m team); simpl; left;
        [apply cpuChaseBall_keq|apply keq_refl].
  - destruct (pickCpuChaser m team); simpl; left;
      [apply cpuChaseBall_keq|apply keq_refl].
Qed.

Lemma runCpuAi_match e dtMs rnd :
  e_match (runCpuAi e dtMs rnd) = fst (stepCpuAi (config e) (e_match e) dtMs (cpuAi e) rnd)
  /\ shootChargeMs (runCpuAi e dtMs rnd) = shootChargeMs e
  /\ actionChargeMs (runCpuAi e dtMs rnd) = actionChargeMs e.
Proof. unfold runCpuAi. destruct (stepCpuAi _ _ _ _ _); repeat split. Qed.

Lemma runCpuAi_ok e dtMs rnd : okStep e (runCpuAi e dtMs rnd).
Proof.
  destruct (runCpuAi_match e dtMs rnd) as (Em & Es & Ea).
  destruct (stepCpuAi_cases (config e) (e_match e) dtMs (cpuAi e) rnd)
    as [Hk|(owner & m1 & o1 & dir & speed & Ho & Ht & Hk & Hid & E)].
  - apply okStep_eeq. split; [now rewrite Em|auto].
  - intros Hinv. pose proof Hinv as (Hwf & Hown & Hctl & Hch).
    assert (Hcl : cleared e).
    { unfold cleared.
      destruct (Req_dec_T (shootChargeMs e) 0) as [Hs|Hs];
        [destruct (Req_dec_T (actionChargeMs e) 0) as [Ha|Ha]; [auto|]|].
      - destruct (owner_is_controlled e owner Hinv Ho (or_intror Ha)) as [_ Hh].
        exfalso. apply (wf_human_away _ Hwf). congruence.
      - destruct (owner_is_controlled e owner Hinv Ho (or_introl Hs)) as [_ Hh].
        exfalso. apply (wf_human_away _ Hwf). congruence. }
    destruct Hk as (Hf1 & Hc1 & Ho1 & Hk1).
    assert (Hown1 : own_inv m1) by (eapply own_inv_same; eauto).
    assert (Hkk : forall k, b_ownerPlayerId (ball m1) = Some k -> k = p_id o1).
    { intros k Hk. rewrite Ho1 in Hk. apply getPlayerOpt_some in Ho. destruct Ho as (Ho & _).
      congruence. }
    destruct (releaseBallWithKick_spec m1 o1 dir speed Hown1 Hkk) as (Hown' & Hf' & Hc' & Ho').
    rewrite <- E, <- Em in Hown', Hf', Hc', Ho'.
    destruct Hcl as [Hs0 Ha0].
    split; [split; [|split; [|split]]|split].
    + eapply wf_frame; [|exact Hwf]. congruence.
    + exact Hown'.
    + eapply ctrl_inv_same; [| |exact Hctl]; congruence.
    + unfold charge_inv. rewrite Es, Ea. intros [H|H]; congruence.
    + intros _. split; congruence.
    + intros Hne. exfalso. apply Hne. congruence.
Qed.

Lemma moveControlled_eeq e input dt c : eeq e (moveControlled e input dt c).
Proof.
  unfold moveControlled. destruct c as [c|]; [|apply eeq_refl].
  destruct (String.eqb _ _); [|apply eeq_refl].
  split; [|split; reflexivity]. simpl.
  apply set_players_keq. apply movePlayer_core.
Qed.

Lemma humanNpcStep_keq cfg dt hp owner ch m k :
  keq m (humanNpcStep cfg dt hp owner ch m k).
Proof.
  unfold humanNpcStep. destruct (getPlayer _ _); [|apply keq_refl].
  destruct (String.eqb _ _); [apply keq_refl|].
  apply set_players_keq. apply movePlayer_core.
Qed.

Lemma cpuNpcStep_keq cfg dt hp owner ch m k :
  keq m (cpuNpcStep cfg dt hp owner ch m k).
Proof.
  unfold cpuNpcStep. destruct (getPlayer _ _); [|apply keq_refl].
  apply set_players_keq. apply movePlayer_core.
Qed.

Lemma fold_keq (f : MatchState -> string -> MatchState) ks :
  (forall m k, keq m (f m k)) -> forall m, keq m (fold_left f ks m).
Proof.
  intros Hf. induction ks as [|k ks IH]; simpl; intros m; [apply keq_refl|].
  eapply keq_trans; [apply Hf|apply IH].
Qed.

Lemma moveNpcs_eeq e dt poss : eeq e (moveNpcs e dt poss).
Proof.
  unfold moveNpcs. split; [|split; reflexivity]. simpl.
  eapply keq_trans; apply fold_keq; intros; [apply humanNpcStep_keq|apply cpuNpcStep_keq].
Qed.

Lemma tickKickImmunity_eeq e dtMs : eeq e (tickKickImmunity e dtMs).
Proof. repeat split. Qed.

Lemma stealPhase_ok e : okStep e (stealPhase e).
Proof.
  unfold stealPhase. destruct (Rle_dec _ _); [|apply okStep_eeq, eeq_refl].
  destruct (tryStealOwnedBallByBallContact (e_match e)) as [m1 [p|]] eqn:E.
  - apply trySteal_some in E. destruct E as (Hin & -> & _).
    intros (Hwf & Hown & Hctl & Hch).
    destruct (setBallOwner_spec (e_match e) p Hin) as (Hown' & Hf' & Hc' & Ho').
    split; [split; [|split; [|split]]|split].
    + eapply wf_frame; eauto.
    + exact Hown'.
    + eapply ctrl_inv_same; eauto.
    + unfold charge_inv; simpl. intros [H|H]; lra.
    + intros _. split; reflexivity.
    + intros Hne. exfalso. apply Hne. exact Hc'.
  - apply trySteal_none in E. subst m1. apply okStep_eeq. repeat split.
Qed.

Lemma gkPossessionSwitch_ok e :
  okStep e (gkPossessionSwitch e (currentOwnerOf e)).
Proof.
  unfold gkPossessionSwitch.
  destruct (currentOwnerOf e) as [o|] eqn:Eo; [|apply okStep_eeq, eeq_refl].
  destruct (String.eqb _ _ && _ && _) eqn:Ec; [|apply okStep_eeq, eeq_refl].
  apply andb_true_iff in Ec. destruct Ec as [Ec Ei].
  apply andb_true_iff in Ec. destruct Ec as [Et _].
  apply String.eqb_eq in Et. apply negb_true_iff, String.eqb_neq in Ei.
  intros Hinv. apply switchControl_ok; [| | |exact Hinv].
  - apply getPlayerOpt_some in Eo. destruct Eo as (_ & _ & _ & Hin).
    now apply ctrl_inv_intro.
  - intros _. destruct (shoot_zero_or e) as [Hz|Hnz]; [assumption|].
    destruct (owner_is_controlled e o Hinv Eo (or_introl Hnz)). congruence.
  - intros _ _. right. apply getPlayerOpt_some in Eo. tauto.
Qed.

Lemma currentOwnerOf_gk e co :
  currentOwnerOf (gkPossessionSwitch e co) = currentOwnerOf e.
Proof.
  unfold gkPossessionSwitch. destruct co as [o|]; [|reflexivity].
  destruct (_ && _); reflexivity.
Qed.

Lemma kick_release_ok e e' o dir speed :
  Inv e -> currentOwnerOf e = Some o ->
  e_match e' = releaseBallWithKick (e_match e) o dir speed ->
  cleared e' ->
  Inv e' /\ (changed e e' -> cleared e')
  /\ controlledPlayerId (e_match e') = controlledPlayerId (e_match e).
Proof.
  intros (Hwf & Hown & Hctl & Hch) Ho Em Hcl.
  assert (Hkk : forall k, b_ownerPlayerId (ball (e_match e)) = Some k -> k = p_id o).
  { intros k Hk. apply getPlayerOpt_some in Ho. destruct Ho as (Ho & _). congruence. }
  destruct (releaseBallWithKick_spec (e_match e) o dir speed Hown Hkk) as (Hown' & Hf' & Hc' & Ho').
  rewrite <- Em in Hown', Hf', Hc', Ho'.
  split; [split; [|split; [|split]]|auto].
  - eapply wf_frame; eauto.
  - exact Hown'.
  - eapply ctrl_inv_same; eauto.
  - destruct Hcl as [Hs0 Ha0]. unfold charge_inv. intros [H|H]; congruence.
Qed.

Lemma kickPhase_control e input dtMs co :
  controlledPlayerId (e_match (kickPhase e input dtMs co)) = controlledPlayerId (e_match e).
Proof. unfold kickPhase. break_match; reflexivity. Qed.

Lemma kickPhase_ok e input dtMs :
  okStep e (kickPhase e input dtMs (currentOwnerOf e)).
Proof.
  apply okStep_same_control; [apply kickPhase_control|].
  intros Hinv. pose proof Hinv as (Hwf & Hown & Hctl & Hch).
  unfold kickPhase. destruct (currentOwnerOf e) as [o|] eqn:Eo.
  - destruct (isHumanControlledOwner (e_match e) (Some o)) eqn:Eh.
    + simpl in Eh. apply andb_true_iff in Eh. destruct Eh as [Et Ei].
      apply String.eqb_eq in Et, Ei.
      set (e1 := set_shootChargeMs e _). set (e2 := set_actionChargeMs e1 _).
      assert (Hinv2 : Inv e2).
      { split; [|split; [|split]]; auto.
        unfold charge_inv. intros _. simpl.
        apply getPlayerOpt_some in Eo. destruct Eo as (Eo & _). congruence. }
      assert (Ho2 : currentOwnerOf e2 = Some o) by exact Eo.
      destruct (actionReleased input); [|destruct (shootReleased input)].
      * destruct (kick_release_ok e2 (passKick e2 o (pickKickDir o (moveVec input))) o
                    _ _ Hinv2 Ho2 eq_refl) as (Hi & Hc & _); [split; reflexivity|].
        split; [exact Hi|]. intros _. split; reflexivity.
      * destruct (kick_release_ok e2 (shootKick e2 o (pickKickDir o (moveVec input))) o
                    _ _ Hinv2 Ho2 eq_refl) as (Hi & Hc & _); [split; reflexivity|].
        split; [exact Hi|]. intros _. split; reflexivity.
      * split; [exact Hinv2|]. intros [H|H]; simpl in H; congruence.
    + assert (Hs : shootChargeMs e = 0).
      { destruct (shoot_zero_or e) as [Hz|Hnz]; [assumption|].
        destruct (owner_is_controlled e o Hinv Eo (or_introl Hnz)) as [Hi Ht].
        simpl in Eh. rewrite Hi, Ht, !String.eqb_refl in Eh. discriminate. }
      split; [split; [|split; [|split]]; auto|].
      * unfold charge_inv; simpl. intros [H|H]; [congruence|lra].
      * intros [H|H]; simpl in H; congruence.
  - assert (Hs : shootChargeMs e = 0).
    { destruct (shoot_zero_or e) as [Hz|Hnz]; [assumption|].
      pose proof (Hch (or_introl Hnz)) as Ho.
      destruct (own_inv_owner _ _ Hwf Hown Ho) as (p & Hp & _).
      unfold currentOwnerOf in Eo. rewrite Ho in Eo. congruence. }
    split; [split; [|split; [|split]]; auto|].
    + unfold charge_inv; simpl. intros [H|H]; [congruence|lra].
    + intros [H|H]; simpl in H; congruence.
Qed.

Lemma attachPhase_eeq e co : eeq e (attachPhase e co).
Proof.
  unfold attachPhase. destruct co as [o|]; [|apply eeq_refl].
  destruct (truthy _); [|apply eeq_refl]. repeat split.
Qed.

Lemma maintainPossession_eeq e : eeq e (maintainPossession e).
Proof.
  unfold maintainPossession. destruct (getPlayerOpt _ _); [|apply eeq_refl]. repeat split.
Qed.

Lemma finalGain_ok e prev : okStep e (finalGain e prev).
Proof.
  unfold finalGain. destruct (truthy _); [|apply okStep_eeq, eeq_refl].
  destruct (getPlayerOpt _ _) as [o|] eqn:Eo; [|apply okStep_eeq, eeq_refl].
  destruct (_ && _ && _) eqn:Ec; [|apply okStep_eeq, eeq_refl].
  apply andb_true_iff in Ec. destruct Ec as [Ec Ei].
  apply andb_true_iff in Ec. destruct Ec as [Et _].
  apply String.eqb_eq in Et. apply negb_true_iff, String.eqb_neq in Ei.
  intros Hinv. apply switchControl_ok; [| | |exact Hinv].
  - apply getPlayerOpt_some in Eo. destruct Eo as (_ & _ & _ & Hin).
    now apply ctrl_inv_intro.
  - intros _. destruct (shoot_zero_or e) as [Hz|Hnz]; [assumption|].
    destruct (owner_is_controlled e o Hinv Eo (or_introl Hnz)). congruence.
  - intros _ _. right. apply getPlayerOpt_some in Eo. tauto.
Qed.

(* ------------------------------------------------------------------ *)
(** ** Kickoff reset and the goal branch *)

Lemma setPosOpt_core o x y ps : map p_core (setPosOpt o x y ps) = map p_core ps.
Proof. destruct o; simpl; [now apply updPlayer_core|reflexivity]. Qed.

Lemma placeTeamKickoff_core cfg roster side ps :
  map p_core (placeTeamKickoff cfg roster side ps) = map p_core ps.
Proof.
  unfold placeTeamKickoff.
  rewrite updPlayers_core by reflexivity.
  now rewrite !setPosOpt_core.
Qed.

Lemma updPlayer_flags k f ps :
  (forall p, p_static (f p) = p_static p /\ (p_hasBall (f p) = true -> p_hasBall p = true)) ->
  forall c, In c (map p_core (updPlayer k f ps)) -> snd c = true -> In c (map p_core ps).
Proof.
  intros Hf c Hc Ht. unfold updPlayer in Hc. rewrite map_map in Hc.
  apply in_map_iff in Hc. destruct Hc as (q & <- & Hq).
  apply in_map_iff. exists q. split; [|assumption].
  destruct (hasId k q); [|reflexivity].
  destruct (Hf q) as [Hs Hb]. simpl in Ht. specialize (Hb Ht).
  unfold p_core, p_static in *. simpl in Ht. rewrite Ht, Hb.
  inversion Hs. reflexivity.
Qed.

Lemma updPlayers_flags ks f :
  (forall p, p_static (f p) = p_static p /\ (p_hasBall (f p) = true -> p_hasBall p = true)) ->
  forall ps c, In c (map p_core (updPlayers ks f ps)) -> snd c = true -> In c (map p_core ps).
Proof.
  intros Hf. unfold updPlayers.
  induction ks as [|k ks IH]; simpl; intros ps c Hc Ht; [assumption|].
  apply IH in Hc; [|assumption]. eapply updPlayer_flags; eauto.
Qed.

Lemma resolve_nonempty ps ids k p :
  In k ids -> getPlayer ps k = Some p -> resolve ps ids <> [].
Proof.
  induction ids as [|k' ids IH]; simpl; [tauto|].
  intros [->|Hin] Hg.
  - rewrite Hg. discriminate.
  - destruct (getPlayer ps k'); [discriminate|]. now apply IH.
Qed.

Lemma resetToKickoff_spec cfg m :
  wf m ->
  exists m', resetToKickoff cfg m = Some m'
    /\ frame m' = frame m
    /\ b_ownerPlayerId (ball m') = None
    /\ ctrl_inv m'
    /\ (forall c, In c (cores m') -> snd c = true -> In c (cores m))
    /\ (controlledPlayerId m' = controlledPlayerId m \/ ~ gkControlled m').
Proof.
  intros Hwf. pose proof Hwf as Hwf0.
  unfold wf, frame, wfFrame in Hwf0.
  destruct Hwf0 as (Hnd & _ & _ & [homeT Hh] & [awayT Ha]
                    & (humanT & k0 & r0 & Hhu & Hk0 & Hs0 & Hr0) & Hroster).
  unfold resetToKickoff. rewrite Hh, Ha.
  set (ps1 := updPlayers _ _ _).
  set (ps3 := placeTeamKickoff _ _ _ (placeTeamKickoff _ _ _ ps1)).
  set (m1 := set_players _ ps3).
  assert (Hcore3 : map p_core ps3 = map p_core ps1).
  { unfold ps3. now rewrite !placeTeamKickoff_core. }
  assert (Hstat1 : map p_static ps1 = map p_static (playersById m)).
  { unfold ps1. now apply updPlayers_static. }
  assert (Hstat3 : map p_static ps3 = map p_static (playersById m)).
  { rewrite (cores_statics _ _ Hcore3). exact Hstat1. }
  assert (Hframe : frame m1 = frame m).
  { unfold frame, statics; simpl. now rewrite Hstat3. }
  assert (Hflags : forall c, In c (cores m1) -> snd c = true -> In c (cores m)).
  { intros c Hc Ht. unfold cores in *; simpl in Hc. rewrite Hcore3 in Hc.
    unfold ps1 in Hc. eapply updPlayers_flags; eauto.
    intros p. split; [reflexivity|]. simpl. discriminate. }
  assert (Hwf1 : wf m1) by (eapply wf_frame; eauto).
  assert (Hpick : forall q, In q (resolve ps3 (t_players humanT)) -> nonGK q = true ->
            exists m', Some (set_controlledPlayerId m1 (p_id q)) = Some m'
              /\ frame m' = frame m /\ b_ownerPlayerId (ball m') = None /\ ctrl_inv m'
              /\ (forall c, In c (cores m') -> snd c = true -> In c (cores m))
              /\ (controlledPlayerId m' = controlledPlayerId m \/ ~ gkControlled m')).
  { intros q Hq Hngk. eexists. split; [reflexivity|].
    assert (Hq' : In q (getTeamPlayers m1 (humanTeamId m1))).
    { unfold getTeamPlayers, getTeamPlayerIds. simpl. now rewrite Hhu. }
    apply teamPlayers_static in Hq'; [|assumption]. destruct Hq' as [Hin Ht].
    split; [exact Hframe|]. split; [reflexivity|]. split; [|split; [exact Hflags|]].
    - unfold ctrl_inv. simpl. apply (ctrl_inv_intro m1); assumption.
    - right. unfold gkControlled. simpl.
      apply (nonGK_not_gk m1 q Hwf1 Hin Hngk). }
  destruct (match getPlayer ps3 (controlledPlayerId m1) with
            | Some c => _ | None => false end) eqn:Ekeep.
  - exists m1. split; [reflexivity|]. split; [exact Hframe|]. split; [reflexivity|].
    split; [|split; [exact Hflags|now left]].
    destruct (getPlayer ps3 (controlledPlayerId m1)) as [c|] eqn:Ec; [|discriminate].
    apply andb_true_iff in Ekeep. destruct Ekeep as [Et _]. apply String.eqb_eq in Et.
    destruct (getPlayer_some _ _ _ Ec) as [Hin Hid].
    unfold ctrl_inv. rewrite <- Hid. apply ctrl_inv_intro; assumption.
  - simpl. rewrite Hhu.
    destruct (find (fun p => isMF (p_role p)) _) as [q|] eqn:E1.
    { apply find_some in E1. destruct E1 as [Hq Hmf]. apply Hpick; [assumption|].
      unfold nonGK. destruct (p_role q); simpl in *; congruence. }
    destruct (find (fun p => negb (isGK (p_role p))) _) as [q|] eqn:E2.
    { apply find_some in E2. destruct E2 as [Hq Hn]. now apply Hpick. }
    exfalso.
    unfold statics in Hs0. rewrite <- Hstat3 in Hs0.
    assert (Hnd3 : NoDup (map s_id (map p_static ps3))).
    { rewrite Hstat3. exact Hnd. }
    destruct (static_lookup _ _ _ _ Hnd3 Hs0) as (p & Hg & Hps & Hpin).
    assert (Hp : In p (resolve ps3 (t_players humanT))).
    { clear - Hg Hk0. induction (t_players humanT) as [|k ks IH]; simpl in *; [tauto|].
      destruct Hk0 as [->|Hk0].
      - rewrite Hg. now left.
      - destruct (getPlayer ps3 k); [right|]; auto. }
    pose proof (find_none _ _ E2 p Hp) as Hn. simpl in Hn.
    unfold p_static in Hps. inversion Hps as [[Hid Ht Hr]].
    apply negb_false_iff in Hn. destruct (p_role p); simpl in Hn; congruence.
Qed.

Lemma bounce_owner cfg b :
  b_ownerPlayerId (bounceBallOffPitch cfg b) = b_ownerPlayerId b.
Proof.
  unfold bounceBallOffPitch.
  repeat match goal with
         | |- context [if ?c then _ else _] => destruct c
         end; reflexivity.
Qed.

Lemma integrateFreeBall_owner m cfg b dt :
  b_ownerPlayerId (fst (integrateFreeBall m cfg b dt)) = b_ownerPlayerId b.
Proof.
  unfold integrateFreeBall.
  destruct (scored _); simpl; [reflexivity|]. now rewrite bounce_owner.
Qed.

Lemma pushStep_owner dt b p : b_ownerPlayerId (pushStep dt b p) = b_ownerPlayerId b.
Proof. unfold pushStep. destruct (Rle_dec _ _); reflexivity. Qed.

Lemma pushFold_owner dt ps : forall b,
  b_ownerPlayerId (fold_left (pushStep dt) ps b) = b_ownerPlayerId b.
Proof.
  induction ps as [|p ps IH]; simpl; intros b; [reflexivity|].
  rewrite IH. apply pushStep_owner.
Qed.

Lemma pushFreeBallByPlayers_keq m cfg dt : keq m (pushFreeBallByPlayers m cfg dt).
Proof.
  unfold pushFreeBallByPlayers. destruct (truthy _); [apply keq_refl|].
  apply set_ball_keq. rewrite bounce_owner. apply pushFold_owner.
Qed.

Lemma resolveScoreSide_keq m t : keq m (resolveScoreSide m t).
Proof.
  unfold resolveScoreSide.
  destruct (String.eqb _ _); [repeat split|].
  destruct (String.eqb _ _); [repeat split|apply keq_refl].
Qed.

Lemma goalPhase_ok e team :
  truthy (b_ownerPlayerId (ball (e_match e))) = false -> Inv e ->
  exists e' evs, goalPhase e team = Some (e', evs)
    /\ Inv e' /\ cleared e'
    /\ (controlledPlayerId (e_match e') = controlledPlayerId (e_match e)
        \/ ~ gkControlled (e_match e')).
Proof.
  intros Hfree Hinv. pose proof Hinv as (Hwf & Hown & Hctl & Hch).
  destruct (free_cleared e Hinv Hfree) as [Hs Ha].
  destruct (own_inv_free _ Hwf Hown Hfree) as [Hnone Hflags].
  unfold goalPhase.
  set (m2 := set_lastEventText (resolveScoreSide (e_match e) team) _).
  assert (Hk : keq (e_match e) m2).
  { eapply keq_trans; [apply resolveScoreSide_keq|]. repeat split. }
  destruct Hk as (Hf2 & Hc2 & Ho2 & Hk2).
  assert (Hwf2 : wf m2) by (eapply wf_frame; eauto).
  destruct (resetToKickoff_spec (config e) m2 Hwf2)
    as (m3 & E & Hf3 & Ho3 & Hctl3 & Hfl3 & Hgk3).
  simpl. rewrite E. do 2 eexists. split; [reflexivity|].
  split; [split; [|split; [|split]]|split].
  - simpl. eapply wf_frame; [|exact Hwf]. congruence.
  - simpl. split.
    + intros c Hc Ht. exfalso. apply Hfl3 in Hc; [|assumption].
      rewrite Hc2 in Hc. apply Hflags in Hc. congruence.
    + intros k Hk. congruence.
  - exact Hctl3.
  - unfold charge_inv; simpl. intros [H|H]; congruence.
  - split; assumption.
  - simpl. destruct Hgk3 as [Hk|Hk]; [left; congruence|now right].
Qed.

Lemma pickupPhase_charges e :
  shootChargeMs (pickupPhase e) = shootChargeMs e
  /\ actionChargeMs (pickupPhase e) = actionChargeMs e.
Proof.
  unfold pickupPhase. destruct (negb _); [|split; reflexivity].
  destruct (tryClaimBall _) as [m2 po]. destruct (truthy _); split; reflexivity.
Qed.

Lemma tryImmediateBallPickup_spec m :
  own_inv m ->
  own_inv (fst (tryImmediateBallPickup m))
  /\ frame (fst (tryImmediateBallPickup m)) = frame m
  /\ controlledPlayerId (fst (tryImmediateBallPickup m)) = controlledPlayerId m
  /\ (fst (tryImmediateBallPickup m) = m
      \/ exists p, snd (tryImmediateBallPickup m) = Some p
                   /\ b_ownerPlayerId (ball (fst (tryImmediateBallPickup m))) = Some (p_id p)).
Proof.
  intros Hown. destruct (tryImmediateBallPickup m) as [m' [p|]] eqn:E; simpl.
  - apply tryImmediateBallPickup_some in E. destruct E as (_ & Hin & _ & ->).
    destruct (setBallOwner_spec m p Hin) as (H1 & H2 & H3 & H4).
    split; [exact H1|]. split; [exact H2|]. split; [exact H3|]. right. eauto.
  - apply tryImmediateBallPickup_none in E. subst.
    split; [exact Hown|]. split; [reflexivity|]. split; [reflexivity|]. now left.
Qed.

Lemma pickupPhase_ok e :
  truthy (b_ownerPlayerId (ball (e_match e))) = false -> okStep e (pickupPhase e).
Proof.
  intros Hfree Hinv. cut (Inv (pickupPhase e)
                          /\ (changed e (pickupPhase e) -> cleared (pickupPhase e))
                          /\ controlledPlayerId (e_match (pickupPhase e))
                             = controlledPlayerId (e_match e)).
  { intros (A & B & C). split; [exact A|]. split; [exact B|]. intros Hne. congruence. }
  pose proof Hinv as (Hwf & Hown & Hctl & Hch).
  destruct (free_cleared e Hinv Hfree) as [Hs Ha].
  destruct (pickupPhase_charges e) as [Es Ea].
  assert (Hcl : cleared (pickupPhase e)) by (split; congruence).
  assert (Hm : own_inv (e_match (pickupPhase e))
               /\ frame (e_match (pickupPhase e)) = frame (e_match e)
               /\ controlledPlayerId (e_match (pickupPhase e)) = controlledPlayerId (e_match e)).
  { unfold pickupPhase.
    destruct (tryImmediateBallPickup_spec (e_match e) Hown) as (H1 & H2 & H3 & _).
    set (m1 := fst (tryImmediateBallPickup (e_match e))) in *.
    destruct (negb (truthy (b_ownerPlayerId (ball m1)))) eqn:Ef; [|simpl; auto].
    apply negb_true_iff in Ef.
    destruct (tryClaimBall_spec m1 H1 Ef) as (G1 & G2 & G3 & G4).
    destruct (tryClaimBall m1) as [m2 po] eqn:Ec. simpl in *.
    destruct G4 as [G4|(p & Hin & Ho & Hp)].
    - inversion G4; subst m2 po. simpl.
      split; [exact H1|]. split; [exact H2|exact H3].
    - rewrite Hp. assert (Ht : truthy (Some (p_id p)) = true).
      { apply truthy_some. apply (wf_ids m1); [|assumption]. eapply wf_frame; eauto. }
      rewrite Ht. simpl. rewrite <- Ho.
      split; [|split].
      + eapply own_inv_same; [| |exact G1]; reflexivity.
      + change (frame m2 = frame (e_match e)). congruence.
      + congruence. }
  destruct Hm as (H1 & H2 & H3).
  split; [split; [|split; [|split]]|auto].
  - eapply wf_frame; eauto.
  - exact H1.
  - eapply ctrl_inv_same; eauto.
  - destruct Hcl as [Hs' Ha']. unfold charge_inv. intros [H|H]; congruence.
Qed.

Lemma dropOwner_ok e :
  truthy (b_ownerPlayerId (ball (e_match e))) = true ->
  getPlayerOpt (playersById (e_match e)) (b_ownerPlayerId (ball (e_match e))) = None ->
  okStep e (dropOwner e).
Proof.
  intros Ht Hn (Hwf & Hown & _). exfalso.
  destruct (b_ownerPlayerId (ball (e_match e))) as [k|] eqn:Ek; [|discriminate].
  destruct (own_inv_owner _ _ Hwf Hown Ek) as (p & Hp & _). congruence.
Qed.

(* ------------------------------------------------------------------ *)
(** ** Chains of phases *)

Lemma last_cons_default {A} (l : list A) (a b : A) : last (a :: l) b = last l a.
Proof.
  revert a b. induction l as [|x l IH]; intros a b; [reflexivity|].
  change (last (a :: x :: l) b) with (last (x :: l) b). rewrite !IH. reflexivity.
Qed.

Lemma okChain_app a l1 : forall l2,
  okChain a l1 -> okChain (last l1 a) l2 -> okChain a (l1 ++ l2).
Proof.
  intros l2 H. induction H as [a|a b l Hs Hl IH]; intros H2; [assumption|].
  rewrite last_cons_default in H2.
  simpl. constructor; [assumption|]. now apply IH.
Qed.

Lemma okChain_sound a l :
  okChain a l -> Inv a ->
  Inv (last l a)
  /\ forall x y, consecutive (a :: l) x y ->
       Inv x /\ Inv y /\ (changed x y -> cleared y)
       /\ (controlledPlayerId (e_match y) <> controlledPlayerId (e_match x) ->
           gkControlled (e_match y) -> gkExcuse x y).
Proof.
  intros H. induction H as [a|a b l Hs Hl IH]; intros Hinv.
  - split; [assumption|]. intros x y (l1 & l2 & E).
    destruct l1 as [|z [|z' l1]]; discriminate.
  - destruct (Hs Hinv) as (Hb & Hc & Hg). destruct (IH Hb) as [Hlast Hcons].
    split.
    + now rewrite last_cons_default.
    + intros x y (l1 & l2 & E). destruct l1 as [|z l1]; simpl in E.
      * inversion E; subst. auto.
      * inversion E as [[Hz E']]. apply Hcons. now exists l1, l2.
Qed.

Lemma okChain_single a b : okStep a b -> okChain a [b].
Proof. intros H. constructor; [assumption|constructor]. Qed.

Lemma ownedTrace_last e input dtMs :
  last (ownedTrace e input dtMs) e = ownedBallPhase e input dtMs.
Proof.
  unfold ownedTrace, ownedBallPhase.
  destruct (truthy _); [|reflexivity].
  destruct (getPlayerOpt _ _); reflexivity.
Qed.

Lemma ownedTrace_chain e input dtMs : okChain e (ownedTrace e input dtMs).
Proof.
  unfold ownedTrace.
  destruct (truthy _) eqn:Et; [|constructor].
  destruct (getPlayerOpt _ _) eqn:Eo.
  - constructor; [apply stealPhase_ok|].
    constructor; [apply gkPossessionSwitch_ok|].
    constructor.
    + pose proof (kickPhase_ok (gkPossessionSwitch (stealPhase e)
                                  (currentOwnerOf (stealPhase e))) input dtMs) as Hk.
      rewrite currentOwnerOf_gk in Hk. exact Hk.
    + apply okChain_single. apply okStep_eeq, attachPhase_eeq.
  - apply okChain_single. now apply dropOwner_ok.
Qed.

Lemma integrate_eeq e dt :
  eeq e (set_match e (set_ball (e_match e)
           (fst (integrateFreeBall (e_match e) (config e) (ball (e_match e)) dt)))).
Proof.
  split; [|split; reflexivity]. simpl. apply set_ball_keq. apply integrateFreeBall_owner.
Qed.

Lemma push_eeq e dt :
  eeq e (set_match e (pushFreeBallByPlayers (e_match e) (config e) dt)).
Proof. split; [|split; reflexivity]. simpl. apply pushFreeBallByPlayers_keq. Qed.

Lemma eeq_free e e' :
  eeq e e' -> truthy (b_ownerPlayerId (ball (e_match e))) = false ->
  truthy (b_ownerPlayerId (ball (e_match e'))) = false.
Proof. intros ((_ & _ & Ho & _) & _) H. now rewrite Ho. Qed.

Lemma freeTrace_chain e dt prev :
  truthy (b_ownerPlayerId (ball (e_match e))) = false ->
  okChain e (freeTrace e dt prev).
Proof.
  intros Hfree. unfold freeTrace.
  pose proof (integrate_eeq e dt) as He1.
  destruct (integrateFreeBall _ _ _ _) as [b1 goal]. simpl in He1.
  set (e1 := set_match e (set_ball (e_match e) b1)) in *.
  pose proof (eeq_free _ _ He1 Hfree) as Hfree1.
  destruct (if scored goal && _ then _ else None) as [team|].
  - destruct (goalPhase e1 team) as [[e2 evs]|] eqn:Eg.
    + constructor; [now apply okStep_eeq|]. apply okChain_single.
      intros Hinv1.
      destruct (goalPhase_ok e1 team Hfree1 Hinv1) as (e' & evs' & E & Hi & Hc & Hg).
      rewrite Eg in E. inversion E; subst.
      split; [exact Hi|]. split; [auto|].
      intros Hne Hgk. exfalso. destruct Hg as [Hg|Hg]; [congruence|auto].
    + apply okChain_single. now apply okStep_eeq.
  - pose proof (push_eeq e1 dt) as He2.
    constructor; [now apply okStep_eeq|].
    constructor; [now apply okStep_eeq|].
    constructor; [apply pickupPhase_ok; eapply eeq_free; eauto|].
    apply okChain_single. apply finalGain_ok.
Qed.

Lemma freeTrace_last e dt prev :
  match freeBallPhase e dt with
  | Some (inl (e', _)) => last (freeTrace e dt prev) e = e'
  | Some (inr e') => last (freeTrace e dt prev) e = finalGain e' prev
  | None => True
  end.
Proof.
  unfold freeBallPhase, freeTrace.
  destruct (integrateFreeBall _ _ _ _) as [b1 goal].
  destruct (if scored goal && _ then _ else None) as [team|].
  - destruct (goalPhase _ team) as [[e2 evs]|]; [reflexivity|exact I].
  - reflexivity.
Qed.

Lemma freeBallPhase_total e dt :
  truthy (b_ownerPlayerId (ball (e_match e))) = false -> Inv e ->
  exists r, freeBallPhase e dt = Some r.
Proof.
  intros Hfree Hinv. unfold freeBallPhase.
  pose proof (integrate_eeq e dt) as He1.
  destruct (integrateFreeBall _ _ _ _) as [b1 goal]. simpl in He1.
  set (e1 := set_match e (set_ball (e_match e) b1)) in *.
  destruct (if scored goal && _ then _ else None) as [team|]; [|eauto].
  destruct (goalPhase_ok e1 team) as (e' & evs & E & _).
  - eapply eeq_free; eauto.
  - eapply Inv_eeq; eauto.
  - rewrite E. eauto.
Qed.

(* ------------------------------------------------------------------ *)
(** ** The clock is written by the clock phase only *)

Lemma setBallOwner_clock m p : clock (setBallOwner m p) = clock m.
Proof. reflexivity. Qed.

Lemma tryClaimBall_clock m : clock (fst (tryClaimBall m)) = clock m.
Proof. unfold tryClaimBall. break_match; reflexivity. Qed.

Lemma tryImmediateBallPickup_clock m : clock (fst (tryImmediateBallPickup m)) = clock m.
Proof. unfold tryImmediateBallPickup. break_match; reflexivity. Qed.

Lemma trySteal_clock m : clock (fst (tryStealOwnedBallByBallContact m)) = clock m.
Proof. unfold tryStealOwnedBallByBallContact. break_match; reflexivity. Qed.

Lemma stepCpuAi_clock cfg m dtMs ai rnd : clock (fst (stepCpuAi cfg m dtMs ai rnd)) = clock m.
Proof.
  unfold stepCpuAi, cpuDribbleAndShoot. break_match; reflexivity.
Qed.

Lemma resetToKickoff_clock cfg m m' : resetToKickoff cfg m = Some m' -> clock m' = clock m.
Proof.
  unfold resetToKickoff. break_match; intros H; inversion H; reflexivity.
Qed.

Lemma fold_clock (f : MatchState -> string -> MatchState) ks :
  (forall m k, clock (f m k) = clock m) -> forall m, clock (fold_left f ks m) = clock m.
Proof.
  intros Hf. induction ks as [|k ks IH]; simpl; intros m; [reflexivity|].
  now rewrite IH.
Qed.

Lemma tickCooldowns_clock e dtMs : clockOf (tickCooldowns e dtMs) = clockOf e.
Proof. reflexivity. Qed.

Lemma offenseRule_clock e : clockOf (offenseRule e) = clockOf e.
Proof. unfold offenseRule. break_match; reflexivity. Qed.

Lemma autoSwitchLooseBall_clock e : clockOf (autoSwitchLooseBall e) = clockOf e.
Proof. unfold autoSwitchLooseBall. break_match; reflexivity. Qed.

Lemma humanSwitch_clock e input chb : clockOf (humanSwitch e input chb) = clockOf e.
Proof. unfold humanSwitch. break_match; reflexivity. Qed.

Lemma runCpuAi_clock e dtMs rnd : clockOf (runCpuAi e dtMs rnd) = clockOf e.
Proof.
  unfold clockOf. destruct (runCpuAi_match e dtMs rnd) as [-> _]. apply stepCpuAi_clock.
Qed.

Lemma moveControlled_clock e input dt c : clockOf (moveControlled e input dt c) = clockOf e.
Proof. unfold moveControlled. break_match; reflexivity. Qed.

Lemma moveNpcs_clock e dt poss : clockOf (moveNpcs e dt poss) = clockOf e.
Proof.
  unfold moveNpcs, clockOf. simpl.
  rewrite fold_clock; [rewrite fold_clock; [reflexivity|]|].
  - intros m k. unfold humanNpcStep. break_match; reflexivity.
  - intros m k. unfold cpuNpcStep. break_match; reflexivity.
Qed.

Lemma stealPhase_clock e : clockOf (stealPhase e) = clockOf e.
Proof.
  unfold stealPhase, clockOf. destruct (Rle_dec _ _); [|reflexivity].
  pose proof (trySteal_clock (e_match e)) as H.
  destruct (tryStealOwnedBallByBallContact _) as [m1 [p|]]; exact H.
Qed.

Lemma gkPossessionSwitch_clock e co : clockOf (gkPossessionSwitch e co) = clockOf e.
Proof. unfold gkPossessionSwitch. break_match; reflexivity. Qed.

Lemma kickPhase_clock e input dtMs co : clockOf (kickPhase e input dtMs co) = clockOf e.
Proof. unfold kickPhase. break_match; reflexivity. Qed.

Lemma attachPhase_clock e co : clockOf (attachPhase e co) = clockOf e.
Proof. unfold attachPhase. break_match; reflexivity. Qed.

Lemma ownedBallPhase_clock e input dtMs : clockOf (ownedBallPhase e input dtMs) = clockOf e.
Proof.
  unfold ownedBallPhase. destruct (truthy _); [|reflexivity].
  destruct (getPlayerOpt _ _); [|reflexivity].
  now rewrite attachPhase_clock, kickPhase_clock, gkPossessionSwitch_clock, stealPhase_clock.
Qed.

Lemma pickupPhase_clock e : clockOf (pickupPhase e) = clockOf e.
Proof.
  unfold pickupPhase, clockOf.
  pose proof (tryImmediateBallPickup_clock (e_match e)) as H1.
  set (m1 := fst (tryImmediateBallPickup (e_match e))) in *.
  destruct (negb _); [|exact H1].
  pose proof (tryClaimBall_clock m1) as H2.
  destruct (tryClaimBall m1) as [m2 po]. simpl in H2.
  destruct (truthy _); simpl; congruence.
Qed.

Lemma finalGain_clock e prev : clockOf (finalGain e prev) = clockOf e.
Proof. unfold finalGain. break_match; reflexivity. Qed.

Lemma maintainPossession_clock e : clockOf (maintainPossession e) = clockOf e.
Proof. unfold maintainPossession. break_match; reflexivity. Qed.

Lemma resolveScoreSide_clock m t : clock (resolveScoreSide m t) = clock m.
Proof. unfold resolveScoreSide. break_match; reflexivity. Qed.

Lemma goalPhase_clock e team e' evs :
  goalPhase e team = Some (e', evs) ->
  clockOf e' = clockOf e /\ exists sc txt, evs = [GOAL team sc txt].
Proof.
  unfold goalPhase. destruct (resetToKickoff _ _) as [m3|] eqn:E; [|discriminate].
  intros H; inversion H; subst. split; [|eauto].
  apply resetToKickoff_clock in E. unfold clockOf. simpl. rewrite E.
  apply resolveScoreSide_clock.
Qed.

Lemma pushFreeBallByPlayers_clock m cfg dt : clock (pushFreeBallByPlayers m cfg dt) = clock m.
Proof. unfold pushFreeBallByPlayers. break_match; reflexivity. Qed.

Lemma freeBallPhase_clock e dt :
  match freeBallPhase e dt with
  | Some (inl (e', evs)) =>
      clockOf e' = clockOf e /\ exists team sc txt, evs = [GOAL team sc txt]
  | Some (inr e') => clockOf e' = clockOf e
  | None => True
  end.
Proof.
  unfold freeBallPhase.
  destruct (integrateFreeBall _ _ _ _) as [b1 goal].
  destruct (if scored goal && _ then _ else None) as [team|].
  - destruct (goalPhase _ team) as [[e2 evs]|] eqn:Eg; [|exact I].
    apply goalPhase_clock in Eg. destruct Eg as [Hc (sc & txt & ->)]. split; [exact Hc|eauto].
  - rewrite pickupPhase_clock. unfold clockOf. simpl.
    now rewrite pushFreeBallByPlayers_clock.
Qed.

Lemma playTick_clock e input dtMs rnd e' evs :
  playTick e input dtMs rnd = Some (e', evs) ->
  clockOf e' = clockOf e /\ countFullTime evs = 0%nat.
Proof.
  unfold playTick.
  set (e8 := tickKickImmunity _ _).
  assert (H8 : clockOf e8 = clockOf e).
  { unfold e8. change (clockOf (tickKickImmunity ?x dtMs)) with (clockOf x).
    now rewrite moveNpcs_clock, moveControlled_clock, runCpuAi_clock, humanSwitch_clock,
      autoSwitchLooseBall_clock, offenseRule_clock, tickCooldowns_clock. }
  pose proof (ownedBallPhase_clock e8 input dtMs) as H9.
  set (e9 := ownedBallPhase e8 input dtMs) in *.
  destruct (negb _).
  - pose proof (freeBallPhase_clock e9 (dtMs / 1000)) as Hf.
    destruct (freeBallPhase e9 (dtMs / 1000)) as [[[e10 evs10]|e10]|]; [| |discriminate].
    + intros H; inversion H; subst. destruct Hf as [Hc (team & sc & txt & ->)].
      split; [congruence|reflexivity].
    + intros H; inversion H; subst. rewrite finalGain_clock. split; [congruence|reflexivity].
  - intros H; inversion H; subst. rewrite finalGain_clock, maintainPossession_clock.
    split; [congruence|reflexivity].
Qed.

(* ------------------------------------------------------------------ *)
(** ** Full time *)

Lemma stepSim_clock e input dtMs rnd e' evs :
  stepSim e input dtMs rnd = Some (e', evs) ->
  msTotal (clockOf e') = msTotal (clockOf e)
  /\ (isFullTime (phase (clockOf e)) = true -> e' = e /\ evs = [])
  /\ (msElapsed (clockOf e) <= msTotal (clockOf e) ->
      msElapsed (clockOf e') <= msTotal (clockOf e'))
  /\ countFullTime evs
     = (if negb (isFullTime (phase (clockOf e))) && isFullTime (phase (clockOf e'))
        then 1%nat else 0%nat)
  /\ (countFullTime evs = 1%nat ->
      msElapsed (clockOf e') = msTotal (clockOf e')
      /\ msTotal (clockOf e) <= msElapsed (clockOf e) + dtMs
      /\ evs = [FULL_TIME_EVENT (score (e_match e')) "FULL TIME"%string]).
Proof.
  unfold stepSim, clockOf.
  destruct (isFullTime (phase (clock (e_match e)))) eqn:Eft.
  { intros H; inversion H; subst. rewrite Eft. simpl.
    repeat split; auto; try discriminate. }
  simpl negb. cbv zeta.
  destruct (Rlt_dec 0 _).
  { intros H; inversion H; subst; clear H.
    destruct (Rle_dec _ 0); simpl; rewrite Eft; simpl;
      repeat split; auto; try discriminate. }
  destruct (kickoffAwaitInput _).
  { destruct (anyInput input); intros H; inversion H; subst; simpl; rewrite Eft; simpl;
      repeat split; auto; try discriminate. }
  match goal with |- context [Rle_dec ?a ?b] => destruct (Rle_dec a b) as [Hend|Hend] end.
  - intros H; inversion H; subst; clear H. simpl in *.
    split; [reflexivity|]. split; [discriminate|].
    assert (Hmin : Rmin (msTotal (clock (e_match e)))
                        (msElapsed (clock (e_match e)) + dtMs)
                   = msTotal (clock (e_match e))).
    { apply Rle_antisym; [apply Rmin_l|exact Hend]. }
    split; [intros _; rewrite Hmin; lra|].
    split; [reflexivity|]. intros _.
    split; [exact Hmin|]. split; [|reflexivity].
    rewrite <- Hmin at 1. apply Rmin_r.
  - intros H. apply playTick_clock in H. destruct H as [Hc Hn].
    unfold clockOf in Hc. simpl in Hc. rewrite Hc. simpl. rewrite Eft. simpl.
    split; [reflexivity|]. split; [discriminate|].
    split; [intros _; apply Rmin_l|].
    split; [exact Hn|]. intros H1. rewrite Hn in H1. discriminate.
Qed.

Lemma stepSim_phase_mono e input dtMs rnd e' evs :
  stepSim e input dtMs rnd = Some (e', evs) ->
  isFullTime (phase (clockOf e)) = true -> isFullTime (phase (clockOf e')) = true.
Proof.
  intros H Hft. destruct (stepSim_clock _ _ _ _ _ _ H) as (_ & Hsame & _).
  destruct (Hsame Hft) as [-> _]. exact Hft.
Qed.

Lemma countFullTime_app a b :
  countFullTime (a ++ b) = (countFullTime a + countFullTime b)%nat.
Proof. induction a as [|[? ? ?|? ?] a IHa]; simpl; auto. Qed.

Lemma runSim_clock e ticks e' evs :
  runSim e ticks = Some (e', evs) ->
  msElapsed (clockOf e) <= msTotal (clockOf e) ->
  msElapsed (clockOf e') <= msTotal (clockOf e')
  /\ msTotal (clockOf e') = msTotal (clockOf e)
  /\ countFullTime evs
     = (if negb (isFullTime (phase (clockOf e))) && isFullTime (phase (clockOf e'))
        then 1%nat else 0%nat)
  /\ (isFullTime (phase (clockOf e)) = true -> e' = e /\ evs = []).
Proof.
  revert e e' evs.
  induction ticks as [|t ticks IH]; intros e e' evs Hrun Hle.
  - simpl in Hrun. inversion Hrun; subst. simpl.
    split; [exact Hle|]. split; [reflexivity|]. split; [|auto].
    destruct (isFullTime (phase (clockOf e'))); reflexivity.
  - simpl in Hrun.
    destruct (stepSim e (tk_input t) (tk_dtMs t) (tk_rnd t)) as [[e1 evs1]|] eqn:E1;
      [|discriminate].
    destruct (runSim e1 ticks) as [[e2 evs2]|] eqn:E2; [|discriminate].
    inversion Hrun; subst; clear Hrun.
    destruct (stepSim_clock _ _ _ _ _ _ E1) as (Ht1 & Hsame1 & Hle1 & Hcnt1 & _).
    destruct (IH e1 e' evs2 E2 (Hle1 Hle)) as (Hle2 & Ht2 & Hcnt2 & Hsame2).
    split; [exact Hle2|]. split; [congruence|]. split.
    + rewrite countFullTime_app, Hcnt1, Hcnt2.
      destruct (isFullTime (phase (clockOf e))) eqn:E0; simpl.
      * destruct (Hsame1 eq_refl) as [-> _]. rewrite E0. reflexivity.
      * destruct (isFullTime (phase (clockOf e1))) eqn:E1'; simpl.
        -- destruct (Hsame2 eq_refl) as [-> _]. rewrite E1'. reflexivity.
        -- destruct (isFullTime (phase (clockOf e'))); reflexivity.
    + intros Hft. destruct (Hsame1 Hft) as [-> ->].
      destruct (Hsame2 Hft) as [-> ->]. auto.
Qed.

(** The tick that reaches the total: outside a kickoff pause and before full
    time, a call whose time step takes the elapsed time to the total returns
    the [FULL_TIME] event and nothing else, sets the phase, stops the clock at
    the total and leaves players, ball and score as they were. *)
Lemma stepSim_reaches_total e input dtMs rnd :
  isFullTime (phase (clockOf e)) = false ->
  kickoffHoldMs e <= 0 ->
  kickoffAwaitInput e = false ->
  msTotal (clockOf e) <= msElapsed (clockOf e) + dtMs ->
  exists e1,
    stepSim e input dtMs rnd
    = Some (e1, [FULL_TIME_EVENT (score (e_match e)) "FULL TIME"%string])
    /\ clockOf e1 = mkClock (msTotal (clockOf e)) (msTotal (clockOf e)) FULL_TIME
    /\ playersById (e_match e1) = playersById (e_match e)
    /\ ball (e_match e1) = ball (e_match e)
    /\ score (e_match e1) = score (e_match e).
Proof.
  unfold clockOf. intros Hft Hk Ha Hend.
  assert (Hmin : Rmin (msTotal (clock (e_match e)))
                      (msElapsed (clock (e_match e)) + dtMs)
                 = msTotal (clock (e_match e))).
  { apply Rle_antisym; [apply Rmin_l|]. apply Rmin_glb; lra. }
  unfold stepSim. rewrite Hft. cbv zeta.
  change (kickoffHoldMs (set_celebrationMs e ?c)) with (kickoffHoldMs e).
  change (kickoffAwaitInput (set_celebrationMs e ?c)) with (kickoffAwaitInput e).
  destruct (Rlt_dec 0 (kickoffHoldMs e)) as [H|_]; [lra|]. rewrite Ha.
  cbn [msTotal msElapsed].
  destruct (Rle_dec _ _) as [_|H]; [|exfalso; apply H; rewrite Hmin; lra].
  eexists. split; [reflexivity|]. simpl. rewrite Hmin. auto.
Qed.

(** A tick of a kickoff pause leaves the clock alone and emits nothing. *)
Lemma stepSim_kickoff_clock e input dtMs rnd e1 evs1 :
  stepSim e input dtMs rnd = Some (e1, evs1) ->
  0 < kickoffHoldMs e \/ kickoffAwaitInput e = true ->
  clockOf e1 = clockOf e /\ evs1 = [].
Proof.
  unfold stepSim, clockOf.
  destruct (isFullTime _); [intros H _; inversion H; auto|].
  cbv zeta.
  change (kickoffHoldMs (set_celebrationMs e ?c)) with (kickoffHoldMs e).
  change (kickoffAwaitInput (set_celebrationMs e ?c)) with (kickoffAwaitInput e).
  destruct (Rlt_dec 0 (kickoffHoldMs e)) as [Hk|Hk].
  { intros H _; inversion H; subst. split; [|reflexivity].
    destruct (Rle_dec _ 0); reflexivity. }
  destruct (kickoffAwaitInput e).
  { destruct (anyInput input); intros H _; inversion H; auto. }
  intros _ [H|H]; [contradiction|discriminate].
Qed.

(** A call that emits no [FULL_TIME] event leaves the phase as it was. *)
Lemma stepSim_phase e input dtMs rnd e1 evs1 :
  stepSim e input dtMs rnd = Some (e1, evs1) ->
  countFullTime evs1 = 0%nat ->
  phase (clockOf e1) = phase (clockOf e).
Proof.
  unfold stepSim, clockOf.
  destruct (isFullTime _); [intros H _; inversion H; auto|].
  cbv zeta.
  destruct (Rlt_dec 0 _).
  { intros H _; inversion H; subst. destruct (Rle_dec _ 0); reflexivity. }
  destruct (kickoffAwaitInput _).
  { destruct (anyInput input); intros H _; inversion H; auto. }
  destruct (Rle_dec _ _).
  - intros H; inversion H; subst. simpl. discriminate.
  - intros H _. apply playTick_clock in H. destruct H as [Hc _].
    unfold clockOf in Hc. simpl in Hc. rewrite Hc. reflexivity.
Qed.

(** C7. Along any run of [stepSim] calls a clock that starts within the total
    stays within it, and the run emits exactly one [FULL_TIME] event if it
    takes the match from a phase other than full time to full time, and none
    otherwise. For a single call: at phase [FULL_TIME] it returns the engine
    state unchanged with no event; before full time and outside a kickoff
    pause, a time step that takes the elapsed time to the total makes the call
    return exactly the [FULL_TIME] event, with the phase set, the clock at
    the total and players, ball and score untouched; a call emits the event
    only in that case; and a tick of a kickoff pause, or one whose time step
    stays short of the total, emits none and leaves the phase as it was. *)
Theorem full_time_once e ticks e' evs :
  runSim e ticks = Some (e', evs) ->
  msElapsed (clockOf e) <= msTotal (clockOf e) ->
  msElapsed (clockOf e') <= msTotal (clockOf e')
  /\ msTotal (clockOf e') = msTotal (clockOf e)
  /\ countFullTime evs
     = (if negb (isFullTime (phase (clockOf e))) && isFullTime (phase (clockOf e'))
        then 1%nat else 0%nat)
  /\ (isFullTime (phase (clockOf e)) = true -> e' = e /\ evs = [])
  /\ (forall input dtMs rnd,
        isFullTime (phase (clockOf e)) = false ->
        kickoffHoldMs e <= 0 ->
        kickoffAwaitInput e = false ->
        msTotal (clockOf e) <= msElapsed (clockOf e) + dtMs ->
        exists e1,
          stepSim e input dtMs rnd
          = Some (e1, [FULL_TIME_EVENT (score (e_match e)) "FULL TIME"%string])
          /\ clockOf e1 = mkClock (msTotal (clockOf e)) (msTotal (clockOf e)) FULL_TIME
          /\ playersById (e_match e1) = playersById (e_match e)
          /\ ball (e_match e1) = ball (e_match e)
          /\ score (e_match e1) = score (e_match e))
  /\ (forall input dtMs rnd e1 evs1,
        stepSim e input dtMs rnd = Some (e1, evs1) ->
        (isFullTime (phase (clockOf e)) = true -> e1 = e /\ evs1 = [])
        /\ (countFullTime evs1 = 1%nat ->
            isFullTime (phase (clockOf e)) = false
            /\ isFullTime (phase (clockOf e1)) = true
            /\ msElapsed (clockOf e1) = msTotal (clockOf e1)
            /\ msTotal (clockOf e) <= msElapsed (clockOf e) + dtMs
            /\ kickoffHoldMs e <= 0 /\ kickoffAwaitInput e = false
            /\ evs1 = [FULL_TIME_EVENT (score (e_match e1)) "FULL TIME"%string])
        /\ (0 < kickoffHoldMs e \/ kickoffAwaitInput e = true
            \/ msElapsed (clockOf e) + dtMs < msTotal (clockOf e) ->
            countFullTime evs1 = 0%nat
            /\ phase (clockOf e1) = phase (clockOf e))).
Proof.
  intros Hrun Hle.
  destruct (runSim_clock _ _ _ _ Hrun Hle) as (A & B & C & D).
  split; [exact A|]. split; [exact B|]. split; [exact C|]. split; [exact D|].
  split; [intros input dtMs rnd; apply stepSim_reaches_total|].
  intros input dtMs rnd e1 evs1 H.
  destruct (stepSim_clock _ _ _ _ _ _ H) as (_ & Hsame & _ & Hcnt & Hone).
  assert (Hpause : 0 < kickoffHoldMs e \/ kickoffAwaitInput e = true ->
                   clockOf e1 = clockOf e /\ evs1 = [])
    by (apply (stepSim_kickoff_clock _ _ _ _ _ _ H)).
  split; [exact Hsame|]. split.
  - intros H1. rewrite H1 in Hcnt.
    destruct (isFullTime (phase (clockOf e))) eqn:E0; [discriminate|].
    destruct (isFullTime (phase (clockOf e1))) eqn:E1; [|discriminate].
    destruct (Hone H1) as (Ha & Hb & Hc).
    assert (Hnp : ~ (0 < kickoffHoldMs e \/ kickoffAwaitInput e = true)).
    { intros Hp. destruct (Hpause Hp) as [Hcl _]. rewrite Hcl in E1. congruence. }
    repeat split; auto.
    + destruct (Rle_dec (kickoffHoldMs e) 0); [assumption|]. exfalso. apply Hnp. left; lra.
    + destruct (kickoffAwaitInput e); [exfalso; apply Hnp; auto|reflexivity].
  - intros Hcase.
    assert (Hz : countFullTime evs1 = 0%nat).
    { destruct Hcase as [Hp|[Hp|Hp]].
      - destruct (Hpause (or_introl Hp)) as [_ ->]. reflexivity.
      - destruct (Hpause (or_intror Hp)) as [_ ->]. reflexivity.
      - destruct (countFullTime evs1) as [|[|n]] eqn:En; [reflexivity| |].
        + destruct (Hone eq_refl) as (_ & Hb & _). lra.
        + destruct (negb _ && _) in Hcnt; discriminate. }
    split; [exact Hz|]. exact (stepSim_phase _ _ _ _ _ _ H Hz).
Qed.

Lemma stepSim_engine0_whole_match :
  exists e', stepSim engine0 EMPTY_INPUT (3 * 60 * 1000) (fun _ => 0)
             = Some (e', [FULL_TIME_EVENT (mkScore 0 0) "FULL TIME"%string])
             /\ phase (clockOf e') = FULL_TIME.
Proof.
  unfold stepSim. simpl.
  destruct (Rlt_dec 0 0) as [H|_]; [lra|].
  match goal with |- context [Rle_dec ?a ?b] => destruct (Rle_dec a b) as [_|H] end.
  - eexists. split; reflexivity.
  - exfalso. apply H. rewrite Rmin_left; lra.
Qed.

Lemma full_time_once_witness :
  exists e' evs,
    runSim engine0 [tickWholeMatch; tickIdle; tickIdle] = Some (e', evs)
    /\ evs = [FULL_TIME_EVENT (mkScore 0 0) "FULL TIME"%string]
    /\ countFullTime evs = 1%nat
    /\ phase (clockOf e') = FULL_TIME.
Proof.
  destruct stepSim_engine0_whole_match as (e' & E & Hph).
  exists e', [FULL_TIME_EVENT (mkScore 0 0) "FULL TIME"%string].
  assert (Hidle : forall t, stepSim e' (tk_input t) (tk_dtMs t) (tk_rnd t) = Some (e', [])).
  { intros t. unfold stepSim. unfold clockOf in Hph. rewrite Hph. reflexivity. }
  assert (Hrun : runSim engine0 [tickWholeMatch; tickIdle; tickIdle]
                 = Some (e', [FULL_TIME_EVENT (mkScore 0 0) "FULL TIME"%string])).
  { cbn [runSim]. change (tk_input tickWholeMatch) with EMPTY_INPUT.
    change (tk_dtMs tickWholeMatch) with (3 * 60 * 1000).
    change (tk_rnd tickWholeMatch) with (fun _ : nat => 0).
    rewrite E, !Hidle. reflexivity. }
  split; [exact Hrun|]. split; [reflexivity|].
  assert (Hle : msElapsed (clockOf engine0) <= msTotal (clockOf engine0)) by (simpl; lra).
  destruct (full_time_once engine0 _ e' _ Hrun Hle) as (_ & _ & Hcnt & _).
  split; [|exact Hph].
  rewrite Hcnt, Hph. reflexivity.
Defined.

(* ------------------------------------------------------------------ *)
(** ** The whole tick *)

Lemma last_app_nonempty {A} (l1 l2 : list A) d :
  l2 <> [] -> last (l1 ++ l2) d = last l2 d.
Proof.
  intros Hne. induction l1 as [|a l1 IH]; [reflexivity|].
  simpl app. destruct (l1 ++ l2) eqn:E.
  - destruct l1; simpl in E; [congruence|discriminate].
  - rewrite <- IH. reflexivity.
Qed.

Lemma last_nonempty_default {A} (l : list A) d d' : l <> [] -> last l d = last l d'.
Proof.
  destruct l as [|a l]; [congruence|]. intros _. now rewrite !last_cons_default.
Qed.

Lemma freeTrace_nonempty e dt prev : freeTrace e dt prev <> [].
Proof.
  unfold freeTrace. destruct (integrateFreeBall _ _ _ _) as [b1 goal].
  destruct (if scored goal && _ then _ else None) as [team|]; [|discriminate].
  destruct (goalPhase _ _) as [[? ?]|]; discriminate.
Qed.

Lemma playTrace_chain e input dtMs rnd : okChain e (tl (playTrace e input dtMs rnd)).
Proof.
  unfold playTrace.
  set (e1 := tickCooldowns e dtMs).
  set (e2 := offenseRule e1).
  set (e3 := autoSwitchLooseBall e2).
  set (e4 := humanSwitch e3 input _).
  set (e5 := runCpuAi e4 dtMs rnd).
  set (e6 := moveControlled e5 input _ _).
  set (e7 := moveNpcs e6 _ _).
  set (e8 := tickKickImmunity e7 dtMs).
  set (e9 := ownedBallPhase e8 input dtMs).
  change (okChain e ([e1; e2; e3; e4; e5; e6; e7; e8]
                     ++ (ownedTrace e8 input dtMs
                         ++ (if negb (truthy (b_ownerPlayerId (ball (e_match e9))))
                             then freeTrace e9 (dtMs / 1000) (prevOwnerTeamIdOf e1)
                             else [maintainPossession e9;
                                   finalGain (maintainPossession e9) (prevOwnerTeamIdOf e1)])))).
  apply okChain_app.
  - constructor; [apply okStep_eeq, tickCooldowns_eeq|].
    constructor; [apply offenseRule_ok|].
    constructor; [apply autoSwitchLooseBall_ok|].
    constructor; [apply humanSwitch_after_auto|].
    constructor; [apply runCpuAi_ok|].
    constructor; [apply okStep_eeq, moveControlled_eeq|].
    constructor; [apply okStep_eeq, moveNpcs_eeq|].
    apply okChain_single. apply okStep_eeq, tickKickImmunity_eeq.
  - simpl last. apply okChain_app; [apply ownedTrace_chain|].
    rewrite ownedTrace_last. fold e9.
    destruct (negb _) eqn:Ef.
    + apply negb_true_iff in Ef. now apply freeTrace_chain.
    + constructor; [apply okStep_eeq, maintainPossession_eeq|].
      apply okChain_single. apply finalGain_ok.
Qed.

Lemma playTrace_head e input dtMs rnd :
  playTrace e input dtMs rnd = e :: tl (playTrace e input dtMs rnd).
Proof. reflexivity. Qed.

(** Under the invariants a tick does not throw, its result is the last state
    of the trace, and the invariants hold again. *)
Lemma playTick_spec e input dtMs rnd :
  Inv e ->
  exists e' evs, playTick e input dtMs rnd = Some (e', evs)
    /\ last (playTrace e input dtMs rnd) e = e' /\ Inv e'.
Proof.
  intros Hinv.
  destruct (okChain_sound _ _ (playTrace_chain e input dtMs rnd) Hinv) as [Hlast _].
  assert (Hl : last (playTrace e input dtMs rnd) e
               = last (tl (playTrace e input dtMs rnd)) e).
  { rewrite playTrace_head at 1. now rewrite last_cons_default. }
  rewrite <- Hl in Hlast. clear Hl.
  revert Hlast. unfold playTrace, playTick.
  set (e1 := tickCooldowns e dtMs).
  set (e2 := offenseRule e1).
  set (e3 := autoSwitchLooseBall e2).
  set (e4 := humanSwitch e3 input _).
  set (e5 := runCpuAi e4 dtMs rnd).
  set (e6 := moveControlled e5 input _ _).
  set (e7 := moveNpcs e6 _ _).
  set (e8 := tickKickImmunity e7 dtMs).
  set (e9 := ownedBallPhase e8 input dtMs).
  assert (Hinv9 : Inv e9).
  { assert (Hc : okChain e ([e1; e2; e3; e4; e5; e6; e7; e8] ++ ownedTrace e8 input dtMs)).
    { apply okChain_app; [|apply ownedTrace_chain].
      constructor; [apply okStep_eeq, tickCooldowns_eeq|].
      constructor; [apply offenseRule_ok|].
      constructor; [apply autoSwitchLooseBall_ok|].
      constructor; [apply humanSwitch_after_auto|].
      constructor; [apply runCpuAi_ok|].
      constructor; [apply okStep_eeq, moveControlled_eeq|].
      constructor; [apply okStep_eeq, moveNpcs_eeq|].
      apply okChain_single. apply okStep_eeq, tickKickImmunity_eeq. }
    destruct (okChain_sound _ _ Hc Hinv) as [H9 _].
    destruct (ownedTrace e8 input dtMs) eqn:Eot.
    - pose proof (ownedTrace_last e8 input dtMs) as Hl. rewrite Eot in Hl. simpl in Hl.
      unfold e9. rewrite <- Hl. rewrite app_nil_r in H9. exact H9.
    - rewrite last_app_nonempty in H9 by discriminate.
      pose proof (ownedTrace_last e8 input dtMs) as Hl. rewrite Eot in Hl.
      unfold e9. rewrite <- Hl.
      rewrite (last_nonempty_default _ e8 e) by discriminate. exact H9. }
  destruct (negb (truthy (b_ownerPlayerId (ball (e_match e9))))) eqn:Ef.
  - apply negb_true_iff in Ef.
    destruct (freeBallPhase_total e9 (dtMs / 1000) Ef Hinv9) as [r Er].
    pose proof (freeTrace_last e9 (dtMs / 1000) (prevOwnerTeamIdOf e1)) as Hfl.
    rewrite Er in *.
    rewrite app_assoc, last_app_nonempty by apply freeTrace_nonempty.
    rewrite (last_nonempty_default _ e e9) by apply freeTrace_nonempty.
    destruct r as [[e10 evs10]|e10]; rewrite Hfl; intros Hlast; do 2 eexists;
      (split; [reflexivity|split; [reflexivity|exact Hlast]]).
  - rewrite app_assoc, last_app_nonempty by discriminate.
    simpl last. intros Hlast. do 2 eexists.
    split; [reflexivity|split; [reflexivity|exact Hlast]].
Qed.

Lemma stepTrace_head e input dtMs rnd :
  stepTrace e input dtMs rnd = e :: tl (stepTrace e input dtMs rnd).
Proof. unfold stepTrace. break_match; reflexivity. Qed.

Lemma stepTrace_chain e input dtMs rnd : okChain e (tl (stepTrace e input dtMs rnd)).
Proof.
  unfold stepTrace.
  destruct (isFullTime _); [constructor|].
  cbv zeta. destruct (Rlt_dec 0 _).
  { simpl tl. apply okChain_single, okStep_eeq.
    destruct (Rle_dec _ 0); repeat split. }
  destruct (kickoffAwaitInput _).
  { destruct (anyInput input); simpl tl; apply okChain_single, okStep_eeq; repeat split. }
  match goal with |- context [Rle_dec ?a ?b] => destruct (Rle_dec a b) end.
  - simpl tl. apply okChain_single, okStep_eeq. repeat split.
  - simpl tl. rewrite playTrace_head.
    constructor; [apply okStep_eeq; repeat split|apply playTrace_chain].
Qed.

(** Under the invariants [stepSim] does not throw, returns the last state of
    its trace, and the invariants hold again. *)
Lemma stepSim_spec e input dtMs rnd :
  Inv e ->
  exists e' evs, stepSim e input dtMs rnd = Some (e', evs)
    /\ last (stepTrace e input dtMs rnd) e = e' /\ Inv e'.
Proof.
  intros Hinv.
  destruct (okChain_sound _ _ (stepTrace_chain e input dtMs rnd) Hinv) as [Hlast _].
  assert (Hl : last (stepTrace e input dtMs rnd) e
               = last (tl (stepTrace e input dtMs rnd)) e).
  { rewrite stepTrace_head at 1. now rewrite last_cons_default. }
  rewrite <- Hl in Hlast. clear Hl. revert Hlast.
  unfold stepTrace, stepSim.
  destruct (isFullTime _); [intros; do 2 eexists; split; [reflexivity|auto]|].
  cbv zeta. destruct (Rlt_dec 0 _).
  { intros; do 2 eexists; split; [reflexivity|auto]. }
  destruct (kickoffAwaitInput _).
  { destruct (anyInput input); intros; do 2 eexists; (split; [reflexivity|auto]). }
  match goal with |- context [Rle_dec ?a ?b] => destruct (Rle_dec a b) end.
  { intros; do 2 eexists; split; [reflexivity|auto]. }
  intros _.
  set (ec := set_match _ _).
  assert (Hc : Inv ec) by (eapply Inv_eeq; [|exact Hinv]; repeat split).
  destruct (playTick_spec ec input dtMs rnd Hc) as (e' & evs & E & Hl & Hi).
  exists e', evs. split; [exact E|]. split; [|exact Hi].
  rewrite last_cons_default. rewrite playTrace_head in Hl |- *.
  rewrite last_cons_default in Hl |- *. exact Hl.
Qed.




(* ------------------------------------------------------------------ *)
(** ** The initial state *)

Lemma str_length_app s x :
  String.length (s ++ x) = (String.length s + String.length x)%nat.
Proof. induction s as [|c s IH]; simpl; [reflexivity|now rewrite IH]. Qed.

Lemma str_app_inj s : forall t x y,
  String.length x = String.length y -> (s ++ x)%string = (t ++ y)%string -> s = t /\ x = y.
Proof.
  induction s as [|c s IH]; intros [|d t] x y Hlen H; simpl in H.
  - auto.
  - exfalso. subst x. simpl in Hlen. rewrite str_length_app in Hlen. lia.
  - exfalso. subst y. simpl in Hlen. rewrite str_length_app in Hlen. lia.
  - inversion H as [[Hc Hs]]. destruct (IH t x y Hlen Hs) as [-> ->]. auto.
Qed.

Lemma pId_inj t1 n1 t2 n2 :
  String.length n1 = String.length n2 -> pId t1 n1 = pId t2 n2 -> t1 = t2 /\ n1 = n2.
Proof.
  unfold pId. intros Hlen H.
  apply str_app_inj in H; [|simpl; now rewrite Hlen].
  destruct H as [Ht Hn]. inversion Hn. auto.
Qed.

Lemma pId_nonempty t n : pId t n <> EmptyString.
Proof.
  unfold pId. intros H. apply (f_equal String.length) in H.
  rewrite str_length_app in H. simpl in H. lia.
Qed.

Lemma createMatch_frame cfg setup :
  setupAwayId setup <> "kilo"%string ->
  let a := setupAwayId setup in
  frame (createMatch cfg setup) =
  ("kilo"%string, a, "kilo"%string,
   [mkTeam "kilo" [pId "kilo" "1"; pId "kilo" "2"; pId "kilo" "3"; pId "kilo" "4"; pId "kilo" "5"];
    mkTeam a [pId a "1"; pId a "2"; pId a "3"; pId a "4"; pId a "5"]],
   [(pId "kilo" "1", "kilo"%string, GK); (pId "kilo" "2", "kilo"%string, DF);
    (pId "kilo" "3", "kilo"%string, MF); (pId "kilo" "4", "kilo"%string, FW);
    (pId "kilo" "5", "kilo"%string, FW);
    (pId a "1", a, GK); (pId a "2", a, DF); (pId a "3", a, MF); (pId a "4", a, FW);
    (pId a "5", a, FW)]).
Proof.
  intros Hne a. unfold frame, statics, createMatch.
  assert (E : String.eqb (away_id match setup with
                                  | Some s => s
                                  | None => mkSetup "cpu" "CPU"
                                  end) "kilo" = false).
  { apply String.eqb_neq. destruct setup; exact Hne. }
  cbv zeta. rewrite E.
  assert (Ea : away_id match setup with Some s => s | None => mkSetup "cpu" "CPU" end = a).
  { destruct setup; reflexivity. }
  rewrite Ea. reflexivity.
Qed.

Ltac pid_neq :=
  match goal with
  | H : pId _ _ = pId _ _ |- _ =>
      apply pId_inj in H; [destruct H; congruence|reflexivity]
  end.

Lemma createMatch_wf cfg setup :
  setupAwayId setup <> "kilo"%string -> wf (createMatch cfg setup).
Proof.
  intros Hne. unfold wf. rewrite createMatch_frame by assumption.
  set (a := setupAwayId setup) in *. unfold wfFrame.
  assert (Hka : String.eqb "kilo" a = false).
  { apply String.eqb_neq. congruence. }
  split; [|split; [|split; [|split; [|split; [|split]]]]].
  - cbn [map s_id fst].
    repeat (constructor; [cbn [In]; intros H;
                          repeat (destruct H as [H|H]; [try pid_neq|]); try contradiction|]).
    constructor.
  - intros s Hs. cbn [In] in Hs.
    repeat (destruct Hs as [<-|Hs]; [apply pId_nonempty|]). contradiction.
  - congruence.
  - eexists. unfold getTeam. cbn [find t_id]. rewrite String.eqb_refl. reflexivity.
  - eexists. unfold getTeam. cbn [find t_id]. rewrite Hka, String.eqb_refl. reflexivity.
  - do 3 eexists. unfold getTeam. cbn [find t_id]. rewrite String.eqb_refl.
    split; [reflexivity|]. cbn [t_players]. split; [right; left; reflexivity|].
    split; [right; left; reflexivity|discriminate].
  - intros t k Ht Hk. cbn [In] in Ht.
    destruct Ht as [<-|[<-|[]]]; cbn [t_players t_id In] in *;
      repeat (destruct Hk as [<-|Hk]; [eexists; cbn [In]; tauto|]); contradiction.
Qed.

Lemma createMatch_flags cfg setup c :
  In c (cores (createMatch cfg setup)) -> snd c = false.
Proof.
  unfold cores, createMatch. cbv zeta.
  destruct (String.eqb _ _); simpl; intros H;
    repeat (destruct H as [<-|H]; [reflexivity|]); contradiction.
Qed.




(* ------------------------------------------------------------------ *)
(** ** Ball ownership *)







Lemma engine0_Inv : Inv engine0.
Proof.
  assert (Hwf : wf match0) by (apply createMatch_wf; discriminate).
  split; [exact Hwf|]. split; [|split].
  - split.
    + intros c Hc Ht. apply createMatch_flags in Hc. congruence.
    + intros k Hk. discriminate.
  - exists MF. unfold match0. unfold statics. simpl. tauto.
  - unfold charge_inv; simpl. intros [H|H]; lra.
Qed.



(* ------------------------------------------------------------------ *)
(** ** Charges and the controlled player *)




(* ------------------------------------------------------------------ *)
(** ** Pass and shoot released in the same tick *)

Lemma anyInput_withoutShootRelease input :
  actionReleased input = true -> anyInput (withoutShootRelease input) = anyInput input.
Proof.
  intros H. unfold anyInput, withoutShootRelease. simpl. rewrite H.
  destruct (Rltb _ _), (sprint input), (actionDown input), (actionPressed input),
    (shootDown input), (shootReleased input), (pausePressed input); reflexivity.
Qed.

Lemma kickPhase_withoutShootRelease e input dtMs co :
  actionReleased input = true ->
  kickPhase e (withoutShootRelease input) dtMs co = kickPhase e input dtMs co.
Proof.
  intros H. unfold kickPhase. destruct co as [o|]; [|reflexivity].
  destruct (isHumanControlledOwner _ _); [|reflexivity].
  simpl. rewrite H. reflexivity.
Qed.

Lemma stepSim_withoutShootRelease e input dtMs rnd :
  actionReleased input = true ->
  stepSim e (withoutShootRelease input) dtMs rnd = stepSim e input dtMs rnd.
Proof.
  intros H. unfold stepSim. rewrite (anyInput_withoutShootRelease _ H).
  destruct (isFullTime _); [reflexivity|]. cbv zeta.
  destruct (Rlt_dec 0 _); [reflexivity|].
  destruct (kickoffAwaitInput _); [reflexivity|].
  match goal with |- context [Rle_dec ?a ?b] => destruct (Rle_dec a b) end; [reflexivity|].
  unfold playTick, ownedBallPhase. cbv zeta.
  change (moveVec (withoutShootRelease input)) with (moveVec input).
  change (actionPressed (withoutShootRelease input)) with (actionPressed input).
  change (sprint (withoutShootRelease input)) with (sprint input).
  assert (Hh : forall x chb, humanSwitch x (withoutShootRelease input) chb
                             = humanSwitch x input chb) by reflexivity.
  assert (Hm : forall x dt c, moveControlled x (withoutShootRelease input) dt c
                              = moveControlled x input dt c) by reflexivity.
  rewrite Hh, Hm.
  set (e8 := tickKickImmunity _ _).
  destruct (truthy (b_ownerPlayerId (ball (e_match e8)))); [|reflexivity].
  destruct (getPlayerOpt _ _); [|reflexivity].
  rewrite (kickPhase_withoutShootRelease _ _ _ _ H). reflexivity.
Qed.

(** C10. When the pass-release edge and the shoot-release edge are both
    set, [stepSim] does what it does with the shoot-release edge cleared;
    and in the kick phase, for a ball owner who is the controlled human
    player, the kick is the pass: the ball is freed with the owner recorded
    as last kicker, its velocity is the unit vector towards the selected pass
    target (the aim direction when there is none) times a speed not below the
    minimum kick speed, plus 35% of the owner's velocity, and both charge
    counters are zero afterwards. *)
Theorem pass_release_wins e input dtMs rnd o :
  actionReleased input = true -> shootReleased input = true ->
  isHumanControlledOwner (e_match e) (Some o) = true ->
  let aimDir := pickKickDir o (moveVec input) in
  let charge := chargeStep ACTION_CHARGE_FULL_MS (actionDown input) true dtMs (actionChargeMs e) in
  let target := pickBestPassTarget (e_match e) (humanTeamId (e_match e)) o aimDir
                  (passPreferFar charge) in
  let dir := match target with
             | Some t => V.norm (V.sub (p_pos t) (p_pos o))
             | None => V.norm aimDir
             end in
  let e' := kickPhase e input dtMs (Some o) in
  stepSim e input dtMs rnd = stepSim e (withoutShootRelease input) dtMs rnd
  /\ e' = kickPhase e (withoutShootRelease input) dtMs (Some o)
  /\ shootChargeMs e' = 0 /\ actionChargeMs e' = 0
  /\ b_ownerPlayerId (ball (e_match e')) = None
  /\ b_lastKickPlayerId (ball (e_match e')) = Some (p_id o)
  /\ exists speed,
       BALL_RELEASE_KICK_SPEED_MIN <= speed
       /\ b_vel (ball (e_match e')) = V.add (V.mul (V.norm dir) speed) (V.mul (p_vel o) 0.35).
Proof.
  intros Ha Hs Hh aimDir charge target dir e'.
  split; [symmetry; now apply stepSim_withoutShootRelease|].
  split; [symmetry; now apply kickPhase_withoutShootRelease|].
  unfold e', kickPhase. rewrite Hh, Ha.
  unfold passKick. cbn [shootChargeMs actionChargeMs set_shootChargeMs set_actionChargeMs
                        e_match set_match].
  split; [reflexivity|]. split; [reflexivity|].
  split; [reflexivity|]. split; [reflexivity|].
  eexists. split; [|rewrite releaseBallWithKick_vel; reflexivity].
  apply Rmax_r.
Qed.

Lemma pass_release_wins_witness :
  kickPhase engineOwned bothReleased (1000 / 60) (Some mfAtBall)
  = kickPhase engineOwned (withoutShootRelease bothReleased) (1000 / 60) (Some mfAtBall)
  /\ b_ownerPlayerId (ball (e_match (kickPhase engineOwned bothReleased (1000 / 60)
                                      (Some mfAtBall)))) = None.
Proof.
  destruct (pass_release_wins engineOwned bothReleased (1000 / 60) (fun _ => 0) mfAtBall
              eq_refl eq_refl eq_refl) as (_ & H1 & _ & _ & H2 & _).
  split; [exact H1|exact H2].
Defined.

(* ------------------------------------------------------------------ *)
(** ** Steals *)

Lemma approach_standing_still b p :
  p_vel p = mkVec2 0 0 -> approachSpeed b p = 0.
Proof. intros H. unfold approachSpeed, V.dot. rewrite H. simpl. lra. Qed.

Lemma stealEligible_spec b owner p :
  stealEligible b owner p = true <->
  p_id p <> p_id owner
  /\ kickImmune b p = false
  /\ STEAL_APPROACH_SPEED_MIN <= approachSpeed b p
  /\ V.distSq (p_pos p) (b_pos b)
     <= (PLAYER_RADIUS + b_radius b + BALL_STEAL_PAD) * (PLAYER_RADIUS + b_radius b + BALL_STEAL_PAD).
Proof.
  unfold stealEligible. rewrite !andb_true_iff, !negb_true_iff.
  rewrite String.eqb_neq, Rltb_false, Rleb_true. tauto.
Qed.

Lemma stealPhase_cooldown e : 0 < stealCooldownMs e -> stealPhase e = e.
Proof. intros H. unfold stealPhase. destruct (Rle_dec _ _); [lra|reflexivity]. Qed.

Lemma stealPhase_arms e m' p :
  stealCooldownMs e <= 0 ->
  tryStealOwnedBallByBallContact (e_match e) = (m', Some p) ->
  stealCooldownMs (stealPhase e) = 650
  /\ b_ownerPlayerId (ball (e_match (stealPhase e))) = Some (p_id p).
Proof.
  intros Hc E. unfold stealPhase. destruct (Rle_dec _ _); [|lra].
  rewrite E. simpl. apply trySteal_some in E. destruct E as (_ & -> & _). auto.
Qed.

Lemma len_x_axis a : 0 <= a -> V.len (mkVec2 a 0) = a.
Proof.
  intros H. unfold V.len, V.lenSq; simpl.
  replace (a * a + 0 * 0) with (a * a) by lra. now apply sqrt_square.
Qed.

Lemma norm_x_pos a : 1e-9 < a -> V.norm (mkVec2 a 0) = mkVec2 1 0.
Proof.
  intros H. unfold V.norm. rewrite len_x_axis by lra.
  destruct (Rle_dec a 1e-9); [lra|]. simpl. f_equal; field; lra.
Qed.

(** C3, counterexample.  The home midfielder is two units from the ball,
    inside the steal radius 2.35, and closes in at 10 units per second, above
    the minimum approach speed 5.5; that player is the last kicker and the kick
    immunity has 100 ms left, so the steal does not happen. *)
Lemma steal_refused_to_immune_kicker :
  In mfClosingIn (playersById matchSteal)
  /\ STEAL_APPROACH_SPEED_MIN <= approachSpeed (ball matchSteal) mfClosingIn
  /\ V.distSq (p_pos mfClosingIn) (b_pos (ball matchSteal))
     <= (PLAYER_RADIUS + b_radius (ball matchSteal) + BALL_STEAL_PAD)
        * (PLAYER_RADIUS + b_radius (ball matchSteal) + BALL_STEAL_PAD)
  /\ tryStealOwnedBallByBallContact matchSteal = (matchSteal, None).
Proof.
  split; [simpl; tauto|]. split; [|split].
  - unfold approachSpeed, STEAL_APPROACH_SPEED_MIN. simpl.
    replace (V.sub (mkVec2 0 0) (mkVec2 (-2) 0)) with (mkVec2 2 0)
      by (unfold V.sub; simpl; f_equal; lra).
    rewrite norm_x_pos by lra. unfold V.dot; simpl. lra.
  - unfold V.distSq, V.lenSq, V.sub, PLAYER_RADIUS, BALL_STEAL_PAD; simpl. lra.
  - unfold tryStealOwnedBallByBallContact.
    change (getPlayerOpt (playersById matchSteal) (b_ownerPlayerId (ball matchSteal)))
      with (getPlayer (playersById matchSteal) "cpu:p3").
    destruct (getPlayer (playersById matchSteal) "cpu:p3") as [owner|] eqn:Eo;
      [|reflexivity].
    destruct (getPlayer_some _ _ _ Eo) as [_ Hoid].
    destruct (nearestBy _ _ _) as [[q d]|] eqn:E; [|reflexivity].
    exfalso. apply nearestBy_some in E. destruct E as (Hin & He & _).
    apply stealEligible_spec in He. destruct He as (Hid & Himm & _ & Hd).
    rewrite Hoid in Hid.
    unfold V.distSq, V.lenSq, V.sub, PLAYER_RADIUS, BALL_STEAL_PAD in Hd.
    simpl in Hin.
    repeat (destruct Hin as [<-|Hin]; [simpl in *; try congruence; try lra|]);
      try contradiction.
    rewrite (kickImmune_kicker _ _ "kilo:p3") in Himm;
      [discriminate|discriminate|simpl; lra|reflexivity|reflexivity].
Qed.

(** C3, as amended.  [tryStealOwnedBallByBallContact] gives the ball only to
    a player other than the owner who is not the kick-immune last kicker,
    whose distance to the ball is within the steal radius and whose velocity
    component towards the ball is at least the minimum approach speed; a
    player standing still never gets it; when some player meets these
    conditions the steal happens and the nearest such player becomes the
    owner.  In [stepSim] the steal runs only when the steal cooldown, which
    each played tick lowers by [dtMs], has reached zero, and a steal sets it
    to 650 ms. *)
Theorem steal_rule m :
  (forall m' p, tryStealOwnedBallByBallContact m = (m', Some p) ->
     exists owner,
       getPlayerOpt (playersById m) (b_ownerPlayerId (ball m)) = Some owner
       /\ In p (playersById m)
       /\ p_id p <> p_id owner
       /\ kickImmune (ball m) p = false
       /\ STEAL_APPROACH_SPEED_MIN <= approachSpeed (ball m) p
       /\ V.distSq (p_pos p) (b_pos (ball m))
          <= (PLAYER_RADIUS + b_radius (ball m) + BALL_STEAL_PAD)
             * (PLAYER_RADIUS + b_radius (ball m) + BALL_STEAL_PAD)
       /\ m' = setBallOwner m p)
  /\ (forall p, p_vel p = mkVec2 0 0 -> snd (tryStealOwnedBallByBallContact m) <> Some p)
  /\ (forall owner p,
        getPlayerOpt (playersById m) (b_ownerPlayerId (ball m)) = Some owner ->
        In p (playersById m) -> stealEligible (ball m) owner p = true ->
        exists q, snd (tryStealOwnedBallByBallContact m) = Some q
          /\ stealEligible (ball m) owner q = true
          /\ V.distSq (p_pos q) (b_pos (ball m)) <= V.distSq (p_pos p) (b_pos (ball m))
          /\ b_ownerPlayerId (ball (fst (tryStealOwnedBallByBallContact m))) = Some (p_id q))
  /\ (forall e, e_match e = m ->
        (0 < stealCooldownMs e -> stealPhase e = e)
        /\ (stealCooldownMs e <= 0 ->
            forall m' p, tryStealOwnedBallByBallContact m = (m', Some p) ->
              stealCooldownMs (stealPhase e) = 650
              /\ b_ownerPlayerId (ball (e_match (stealPhase e))) = Some (p_id p)))
  /\ (forall e dtMs,
        stealCooldownMs (tickCooldowns e dtMs) = Rmax 0 (stealCooldownMs e - dtMs)).
Proof.
  split; [|split; [|split; [|split]]].
  - intros m' p E. apply trySteal_some in E.
    destruct E as (Hin & Hm & owner & Ho & He).
    apply stealEligible_spec in He. destruct He as (H1 & H2 & H3 & H4).
    exists owner. repeat split; assumption.
  - intros p Hv E.
    destruct (tryStealOwnedBallByBallContact m) as [m' o] eqn:Es. simpl in E. subst o.
    apply trySteal_some in Es. destruct Es as (_ & _ & owner & _ & He).
    apply stealEligible_spec in He. destruct He as (_ & _ & H3 & _).
    rewrite (approach_standing_still _ _ Hv) in H3.
    unfold STEAL_APPROACH_SPEED_MIN in H3. lra.
  - intros owner p Ho Hin He. unfold tryStealOwnedBallByBallContact. rewrite Ho.
    destruct (nearestBy_exists _ (fun q => V.distSq (p_pos q) (b_pos (ball m))) _ _ Hin He)
      as (q & d & E).
    rewrite E. simpl. apply nearestBy_some in E. destruct E as (_ & Hq & -> & Hmin).
    exists q. repeat split; auto.
  - intros e <-. split; [apply stealPhase_cooldown|].
    intros Hc m' p E. eapply stealPhase_arms; eauto.
  - reflexivity.
Qed.

(* ------------------------------------------------------------------ *)
(** ** A human owner takes control *)

Lemma owner_lookup e g r :
  Inv e -> b_ownerPlayerId (ball (e_match e)) = Some g ->
  In (g, humanTeamId (e_match e), r) (statics (e_match e)) ->
  exists o, currentOwnerOf e = Some o /\ p_id o = g /\ p_teamId o = humanTeamId (e_match e)
            /\ truthy (Some g) = true.
Proof.
  intros (Hwf & Hown & _) Ho Hs.
  destruct (own_inv_owner _ _ Hwf Hown Ho) as (o & Hg & Hid & _ & Hin).
  exists o. unfold currentOwnerOf. rewrite Ho. split; [exact Hg|]. split; [exact Hid|].
  split.
  - assert (Hso : In (p_static o) (statics (e_match e))) by (unfold statics; now apply in_map).
    pose proof (wf_static_unique _ _ _ Hwf Hso Hs) as E.
    unfold p_static in E. specialize (E Hid). congruence.
  - apply truthy_some. rewrite <- Hid. eapply wf_ids; eauto.
Qed.

Lemma holds_eeq g r x y :
  eeq x y -> stealCooldownMs y = stealCooldownMs x -> holds g r x -> holds g r y.
Proof.
  intros Heq Hst (Hinv & Ho & Hc & Hk & Hr).
  pose proof Heq as ((Hf & _ & Ho' & Hk') & _).
  split; [eapply Inv_eeq; eauto|]. split; [congruence|]. split; [lra|]. split; [congruence|].
  rewrite (frame_statics _ _ Hf), (frame_human _ _ Hf). exact Hr.
Qed.

Lemma offenseRule_holds g r e :
  Inv e -> b_ownerPlayerId (ball (e_match e)) = Some g -> 0 < stealCooldownMs e ->
  In (g, humanTeamId (e_match e), r) (statics (e_match e)) ->
  holds g r (offenseRule e).
Proof.
  intros Hinv Ho Hc Hr.
  destruct (owner_lookup e g r Hinv Ho Hr) as (o & Hco & Hid & Ht & _).
  pose proof (offenseRule_ok e Hinv) as (Hinv' & _).
  unfold holds. split; [exact Hinv'|]. clear Hinv'.
  unfold offenseRule. unfold currentOwnerOf in Hco. rewrite Hco, Ht, String.eqb_refl. simpl.
  destruct (String.eqb_spec (controlledPlayerId (e_match e)) (p_id o)) as [E|E]; simpl.
  - split; [exact Ho|]. split; [exact Hc|]. split; [congruence|exact Hr].
  - split; [exact Ho|]. split; [exact Hc|]. split; [exact Hid|exact Hr].
Qed.

Lemma runCpuAi_holds g r e dtMs rnd : holds g r e -> holds g r (runCpuAi e dtMs rnd).
Proof.
  intros (Hinv & Ho & Hc & Hk & Hr).
  pose proof (runCpuAi_ok e dtMs rnd Hinv) as (Hinv' & _).
  destruct (runCpuAi_match e dtMs rnd) as (Em & _ & _).
  assert (Hst : stealCooldownMs (runCpuAi e dtMs rnd) = stealCooldownMs e).
  { unfold runCpuAi. destruct (stepCpuAi _ _ _ _ _). reflexivity. }
  destruct (stepCpuAi_cases (config e) (e_match e) dtMs (cpuAi e) rnd)
    as [Hkeq|(owner & m1 & o1 & dir & speed & Hown & Ht & _)].
  - rewrite <- Em in Hkeq. destruct Hkeq as (Hf & _ & Ho' & Hk').
    split; [exact Hinv'|]. split; [congruence|]. split; [lra|]. split; [congruence|].
    rewrite (frame_statics _ _ Hf), (frame_human _ _ Hf). exact Hr.
  - exfalso. destruct (owner_lookup e g r Hinv Ho Hr) as (o & Hco & _ & Hto & _).
    unfold currentOwnerOf in Hco. rewrite Hco in Hown. inversion Hown; subst owner.
    destruct Hinv as (Hwf & _). apply (wf_human_away _ Hwf). congruence.
Qed.

Lemma ownedBallPhase_holds g r e input dtMs :
  actionReleased input = false -> shootReleased input = false ->
  holds g r e ->
  b_ownerPlayerId (ball (e_match (ownedBallPhase e input dtMs))) = Some g
  /\ controlledPlayerId (e_match (ownedBallPhase e input dtMs)) = g
  /\ playersById (e_match (ownedBallPhase e input dtMs)) = playersById (e_match e)
  /\ humanTeamId (e_match (ownedBallPhase e input dtMs)) = humanTeamId (e_match e).
Proof.
  intros Ha Hs (Hinv & Ho & Hc & Hk & Hr).
  destruct (owner_lookup e g r Hinv Ho Hr) as (o & Hco & Hid & Ht & Htr).
  unfold ownedBallPhase. rewrite Ho, Htr.
  pose proof Hco as Hco'. unfold currentOwnerOf in Hco'. rewrite Ho in Hco'. rewrite Hco'.
  rewrite (stealPhase_cooldown e Hc). rewrite Hco.
  unfold gkPossessionSwitch. rewrite Hk, Hid, String.eqb_refl.
  simpl negb. rewrite andb_false_r.
  unfold kickPhase, isHumanControlledOwner. rewrite Ht, Hid, Hk, !String.eqb_refl.
  simpl andb. cbv iota. rewrite Ha, Hs.
  unfold attachPhase. cbn [e_match set_actionChargeMs set_shootChargeMs].
  rewrite Ho, Htr. simpl. auto.
Qed.

Lemma playTick_owner_in_control e input dtMs rnd g r :
  Inv e ->
  b_ownerPlayerId (ball (e_match e)) = Some g ->
  In (g, humanTeamId (e_match e), r) (statics (e_match e)) ->
  dtMs < stealCooldownMs e ->
  actionPressed input = false -> actionReleased input = false ->
  shootReleased input = false ->
  exists e', playTick e input dtMs rnd = Some (e', [])
    /\ controlledPlayerId (e_match e') = g
    /\ b_ownerPlayerId (ball (e_match e')) = Some g
    /\ In (g, humanTeamId (e_match e'), r) (statics (e_match e')).
Proof.
  intros Hinv Ho Hr Hdt Hp Ha Hs. unfold playTick.
  set (e1 := tickCooldowns e dtMs).
  assert (H1 : Inv e1 /\ 0 < stealCooldownMs e1).
  { split; [eapply Inv_eeq; [apply tickCooldowns_eeq|exact Hinv]|].
    unfold e1, tickCooldowns; simpl. rewrite Rmax_right; lra. }
  destruct H1 as [Hinv1 Hc1].
  pose proof (offenseRule_holds g r e1 Hinv1 Ho Hc1 Hr) as H2.
  set (e2 := offenseRule e1) in *.
  assert (E3 : autoSwitchLooseBall e2 = e2).
  { destruct (autoSwitchLooseBall_cases e2) as [E|[Hfree _]]; [exact E|].
    destruct H2 as (Hinv2 & Ho2 & _ & _ & Hr2).
    destruct (owner_lookup e2 g r Hinv2 Ho2 Hr2) as (_ & _ & _ & _ & Htr).
    rewrite Ho2 in Hfree. congruence. }
  rewrite E3.
  assert (E4 : forall chb, humanSwitch e2 input chb = e2).
  { intros chb. unfold humanSwitch. rewrite Hp. reflexivity. }
  rewrite E4.
  pose proof (runCpuAi_holds g r e2 dtMs rnd H2) as H5.
  set (e5 := runCpuAi e2 dtMs rnd) in *.
  set (e6 := moveControlled e5 input _ _).
  assert (H6 : holds g r e6).
  { eapply holds_eeq; [apply moveControlled_eeq| |exact H5].
    unfold e6, moveControlled. break_match; reflexivity. }
  set (e7 := moveNpcs e6 _ _).
  assert (H7 : holds g r e7).
  { eapply holds_eeq; [apply moveNpcs_eeq|reflexivity|exact H6]. }
  set (e8 := tickKickImmunity e7 dtMs).
  assert (H8 : holds g r e8).
  { eapply holds_eeq; [apply tickKickImmunity_eeq|reflexivity|exact H7]. }
  destruct (ownedBallPhase_holds g r e8 input dtMs Ha Hs H8) as (Ho9 & Hk9 & Hps9 & Hh9).
  set (e9 := ownedBallPhase e8 input dtMs) in *.
  destruct H8 as (Hinv8 & Ho8 & _ & _ & Hr8).
  destruct (owner_lookup e8 g r Hinv8 Ho8 Hr8) as (o & Hco & Hid & _ & Htr).
  rewrite Ho9, Htr. simpl negb. cbv iota.
  eexists. split; [reflexivity|].
  assert (Hlook : getPlayerOpt (playersById (e_match e9)) (Some g) = Some o).
  { rewrite Hps9. unfold currentOwnerOf in Hco. now rewrite Ho8 in Hco. }
  unfold finalGain, maintainPossession. rewrite Ho9, Hlook.
  cbn [e_match set_match ball set_possession playersById controlledPlayerId humanTeamId].
  rewrite Ho9, Htr, Hlook, Hk9, Hid, String.eqb_refl. simpl negb. rewrite andb_false_r.
  cbn [e_match set_match ball set_possession controlledPlayerId humanTeamId].
  split; [exact Hk9|]. split; [exact Ho9|].
  unfold statics. cbn [playersById set_possession]. rewrite Hps9, Hh9. exact Hr8.
Qed.



(* ------------------------------------------------------------------ *)
(** ** Charges across a tick *)

Lemma changed_dec a b : changed a b \/ ~ changed a b.
Proof.
  unfold changed.
  destruct (string_dec (controlledPlayerId (e_match b)) (controlledPlayerId (e_match a)))
    as [E1|E1]; [|now left; left].
  assert (D : forall x y : option string, {x = y} + {x <> y})
    by (decide equality; apply string_dec).
  destruct (D (b_ownerPlayerId (ball (e_match b))) (b_ownerPlayerId (ball (e_match a))))
    as [E2|E2]; [|now left; right].
  right. intros [H|H]; contradiction.
Qed.

Lemma changed_via e0 x y : changed e0 y -> changed e0 x \/ changed x y.
Proof.
  intros Hy. destruct (changed_dec e0 x) as [H|H]; [now left|right].
  unfold changed in *.
  destruct (string_dec (controlledPlayerId (e_match x)) (controlledPlayerId (e_match e0)))
    as [E1|E1]; [|exfalso; apply H; now left].
  assert (D : forall a b : option string, {a = b} + {a <> b})
    by (decide equality; apply string_dec).
  destruct (D (b_ownerPlayerId (ball (e_match x))) (b_ownerPlayerId (ball (e_match e0))))
    as [E2|E2]; [|exfalso; apply H; now right].
  rewrite E1, E2. exact Hy.
Qed.

Lemma cleared_fresh input dtMs x : cleared x -> freshCharges input dtMs x.
Proof. intros [H1 H2]. split; now left. Qed.

Lemma eeq_kept a b : eeq a b -> keptOrZero a b.
Proof. intros (_ & H1 & H2). split; now left. Qed.

Lemma step_cleared e0 x y :
  okStep x y -> keptOrZero x y ->
  Inv x /\ (changed e0 x -> cleared x) -> Inv y /\ (changed e0 y -> cleared y).
Proof.
  intros Hok [Hs Ha] [Hinv HP]. destruct (Hok Hinv) as (Hinv' & Hcl & _).
  split; [exact Hinv'|]. intros Hy.
  destruct (changed_via e0 x y Hy) as [H|H]; [|now apply Hcl].
  destruct (HP H) as [C1 C2]. split.
  - destruct Hs as [Hs|Hs]; congruence.
  - destruct Ha as [Ha|Ha]; congruence.
Qed.

Lemma step_fresh input dtMs e0 x y :
  okStep x y -> keptOrZero x y ->
  Inv x /\ (changed e0 x -> freshCharges input dtMs x) ->
  Inv y /\ (changed e0 y -> freshCharges input dtMs y).
Proof.
  intros Hok [Hs Ha] [Hinv HP]. destruct (Hok Hinv) as (Hinv' & Hcl & _).
  split; [exact Hinv'|]. intros Hy.
  destruct (changed_via e0 x y Hy) as [H|H]; [|now apply cleared_fresh, Hcl].
  destruct (HP H) as [C1 C2]. split.
  - destruct Hs as [Hs|Hs]; [rewrite Hs; exact C1|now left].
  - destruct Ha as [Ha|Ha]; [rewrite Ha; exact C2|now left].
Qed.

Lemma chargeStep_zero full down released dtMs :
  chargeStep full down released dtMs 0 = 0
  \/ (down = true /\ chargeStep full down released dtMs 0 = Rmin full (0 + dtMs)).
Proof.
  unfold chargeStep. destruct down; [right; auto|left]. destruct (negb released); reflexivity.
Qed.

Lemma step_kick input dtMs e0 x y :
  okStep x y -> kickCharges input dtMs x y ->
  Inv x /\ (changed e0 x -> cleared x) ->
  Inv y /\ (changed e0 y -> freshCharges input dtMs y).
Proof.
  intros Hok [Hs Ha] [Hinv HP]. destruct (Hok Hinv) as (Hinv' & Hcl & _).
  split; [exact Hinv'|]. intros Hy.
  destruct (changed_via e0 x y Hy) as [H|H]; [|now apply cleared_fresh, Hcl].
  destruct (HP H) as [C1 C2]. split.
  - destruct Hs as [Hs|[Hs|Hs]]; [left; congruence|now left|].
    rewrite Hs, C1. apply chargeStep_zero.
  - destruct Ha as [Ha|[Ha|Ha]]; [left; congruence|now left|].
    rewrite Ha, C2. apply chargeStep_zero.
Qed.

Lemma weaken_fresh input dtMs e0 x :
  Inv x /\ (changed e0 x -> cleared x) ->
  Inv x /\ (changed e0 x -> freshCharges input dtMs x).
Proof. intros [H1 H2]. split; [exact H1|]. intros H. now apply cleared_fresh, H2. Qed.

(** What each phase does to the counters. *)
Lemma switchControl_kept e k cd : keptOrZero e (switchControl e k cd).
Proof. split; [now left|now right]. Qed.

Lemma offenseRule_kept e : keptOrZero e (offenseRule e).
Proof. unfold offenseRule. break_match; try apply switchControl_kept; split; now left. Qed.

Lemma autoSwitchLooseBall_kept e : keptOrZero e (autoSwitchLooseBall e).
Proof.
  unfold autoSwitchLooseBall. break_match; try apply switchControl_kept; split; now left.
Qed.

Lemma humanSwitch_kept e input chb : keptOrZero e (humanSwitch e input chb).
Proof. unfold humanSwitch. break_match; try apply switchControl_kept; split; now left. Qed.

Lemma runCpuAi_kept e dtMs rnd : keptOrZero e (runCpuAi e dtMs rnd).
Proof. destruct (runCpuAi_match e dtMs rnd) as (_ & H1 & H2). split; now left. Qed.

Lemma stealPhase_kept e : keptOrZero e (stealPhase e).
Proof.
  unfold stealPhase. destruct (Rle_dec _ _); [|split; now left].
  destruct (tryStealOwnedBallByBallContact _) as [m1 [p|]]; split; simpl; auto.
Qed.

Lemma gkPossessionSwitch_kept e co : keptOrZero e (gkPossessionSwitch e co).
Proof.
  unfold gkPossessionSwitch. break_match; try apply switchControl_kept; split; now left.
Qed.

Lemma dropOwner_kept e : keptOrZero e (dropOwner e).
Proof. split; now left. Qed.

Lemma pickupPhase_kept e : keptOrZero e (pickupPhase e).
Proof. unfold pickupPhase. break_match; split; now left. Qed.

Lemma finalGain_kept e prev : keptOrZero e (finalGain e prev).
Proof. unfold finalGain. break_match; try apply switchControl_kept; split; now left. Qed.

Lemma kickPhase_charges e input dtMs co : kickCharges input dtMs e (kickPhase e input dtMs co).
Proof.
  unfold kickCharges, kickPhase. destruct co as [o|]; [|split; [now left|right; now left]].
  destruct (isHumanControlledOwner _ _); [|split; [now left|right; now left]].
  destruct (actionReleased input) eqn:Ea.
  { unfold passKick. split; right; left; reflexivity. }
  destruct (shootReleased input) eqn:Es.
  { unfold shootKick. split; right; left; reflexivity. }
  split; right; right; reflexivity.
Qed.

Lemma ownedBallPhase_fresh input dtMs e0 x :
  Inv x /\ (changed e0 x -> cleared x) ->
  Inv (ownedBallPhase x input dtMs)
  /\ (changed e0 (ownedBallPhase x input dtMs) ->
      freshCharges input dtMs (ownedBallPhase x input dtMs)).
Proof.
  intros H. unfold ownedBallPhase.
  destruct (truthy _) eqn:Et; [|now apply weaken_fresh].
  destruct (getPlayerOpt _ _) eqn:Eo.
  - apply (step_cleared e0 _ _ (stealPhase_ok x) (stealPhase_kept x)) in H.
    set (e1 := stealPhase x) in *.
    apply (step_cleared e0 _ _ (gkPossessionSwitch_ok e1)
             (gkPossessionSwitch_kept e1 (currentOwnerOf e1))) in H.
    pose proof (kickPhase_ok (gkPossessionSwitch e1 (currentOwnerOf e1)) input dtMs) as Hk.
    rewrite currentOwnerOf_gk in Hk.
    set (e2 := gkPossessionSwitch e1 (currentOwnerOf e1)) in *.
    apply (step_kick input dtMs e0 _ _ Hk (kickPhase_charges e2 input dtMs _)) in H.
    set (e3 := kickPhase e2 input dtMs (currentOwnerOf e1)) in *.
    apply (step_fresh input dtMs e0 e3 (attachPhase e3 (currentOwnerOf e1))); auto.
    + apply okStep_eeq, attachPhase_eeq.
    + apply eeq_kept, attachPhase_eeq.
  - apply weaken_fresh.
    apply (step_cleared e0 x); auto using dropOwner_ok, dropOwner_kept.
Qed.

Lemma freeBallPhase_fresh input dtMs dt e0 x :
  truthy (b_ownerPlayerId (ball (e_match x))) = false ->
  Inv x /\ (changed e0 x -> freshCharges input dtMs x) ->
  match freeBallPhase x dt with
  | Some (inl (e', _)) => freshCharges input dtMs e'
  | Some (inr e') => Inv e' /\ (changed e0 e' -> freshCharges input dtMs e')
  | None => True
  end.
Proof.
  intros Hfree H. unfold freeBallPhase.
  pose proof (integrate_eeq x dt) as He1.
  destruct (integrateFreeBall _ _ _ _) as [b1 goal]. simpl in He1.
  set (e1 := set_match x (set_ball (e_match x) b1)) in *.
  pose proof (eeq_free _ _ He1 Hfree) as Hfree1.
  apply (step_fresh input dtMs e0 x e1 (okStep_eeq _ _ He1) (eeq_kept _ _ He1)) in H.
  destruct (if scored goal && _ then _ else None) as [team|].
  - destruct H as [Hinv1 _].
    destruct (goalPhase_ok e1 team Hfree1 Hinv1) as (e' & evs & E & _ & Hc & _).
    rewrite E. now apply cleared_fresh.
  - pose proof (push_eeq e1 dt) as He2.
    set (e2 := set_match e1 _) in *.
    apply (step_fresh input dtMs e0 e1 e2 (okStep_eeq _ _ He2) (eeq_kept _ _ He2)) in H.
    apply (step_fresh input dtMs e0 e2 (pickupPhase e2)); auto using pickupPhase_kept.
    apply pickupPhase_ok. eapply eeq_free; eauto.
Qed.

Lemma playTick_fresh e input dtMs rnd e' evs :
  Inv e -> playTick e input dtMs rnd = Some (e', evs) ->
  changed e e' -> freshCharges input dtMs e'.
Proof.
  intros Hinv. unfold playTick.
  assert (H0 : Inv e /\ (changed e e -> cleared e)).
  { split; [exact Hinv|]. intros [H|H]; congruence. }
  apply (step_cleared e e _ (okStep_eeq _ _ (tickCooldowns_eeq e dtMs))
           (eeq_kept _ _ (tickCooldowns_eeq e dtMs))) in H0.
  set (e1 := tickCooldowns e dtMs) in *.
  apply (step_cleared e e1 _ (offenseRule_ok e1) (offenseRule_kept e1)) in H0.
  set (e2 := offenseRule e1) in *.
  apply (step_cleared e e2 _ (autoSwitchLooseBall_ok e2) (autoSwitchLooseBall_kept e2)) in H0.
  apply (step_cleared e _ _ (humanSwitch_after_auto e2 input)
           (humanSwitch_kept _ input _)) in H0.
  set (e4 := humanSwitch (autoSwitchLooseBall e2) input _) in *.
  apply (step_cleared e e4 _ (runCpuAi_ok e4 dtMs rnd) (runCpuAi_kept e4 dtMs rnd)) in H0.
  set (e5 := runCpuAi e4 dtMs rnd) in *.
  pose proof (moveControlled_eeq e5 input (dtMs / 1000) (controlledOf e2)) as E6.
  apply (step_cleared e e5 _ (okStep_eeq _ _ E6) (eeq_kept _ _ E6)) in H0.
  set (e6 := moveControlled e5 input _ _) in *.
  pose proof (moveNpcs_eeq e6 (dtMs / 1000) (possessionTeamIdOf e1)) as E7.
  apply (step_cleared e e6 _ (okStep_eeq _ _ E7) (eeq_kept _ _ E7)) in H0.
  set (e7 := moveNpcs e6 _ _) in *.
  pose proof (tickKickImmunity_eeq e7 dtMs) as E8.
  apply (step_cleared e e7 _ (okStep_eeq _ _ E8) (eeq_kept _ _ E8)) in H0.
  set (e8 := tickKickImmunity e7 dtMs) in *.
  apply (ownedBallPhase_fresh input dtMs) in H0.
  set (e9 := ownedBallPhase e8 input dtMs) in *.
  destruct (negb _) eqn:Ef.
  - apply negb_true_iff in Ef.
    pose proof (freeBallPhase_fresh input dtMs (dtMs / 1000) e e9 Ef H0) as Hf.
    destruct (freeBallPhase e9 (dtMs / 1000)) as [[[e10 evs10]|e10]|]; [| |discriminate].
    + intros H; inversion H; subst. intros _. exact Hf.
    + intros H; inversion H; subst.
      apply (step_fresh input dtMs e e10 _ (finalGain_ok e10 (prevOwnerTeamIdOf e1))
               (finalGain_kept e10 _)) in Hf.
      apply Hf.
  - intros H; inversion H; subst.
    pose proof (maintainPossession_eeq e9) as E10.
    apply (step_fresh input dtMs e e9 _ (okStep_eeq _ _ E10) (eeq_kept _ _ E10)) in H0.
    apply (step_fresh input dtMs e _ _ (finalGain_ok _ (prevOwnerTeamIdOf e1))
             (finalGain_kept _ _)) in H0.
    apply H0.
Qed.

Lemma stepSim_fresh e input dtMs rnd e' evs :
  Inv e -> stepSim e input dtMs rnd = Some (e', evs) ->
  changed e e' -> freshCharges input dtMs e'.
Proof.
  intros Hinv. unfold stepSim.
  destruct (isFullTime _).
  { intros H; inversion H; subst. intros [C|C]; congruence. }
  cbv zeta. destruct (Rlt_dec 0 _).
  { intros H; inversion H; subst. destruct (Rle_dec _ 0); intros [C|C]; exfalso; apply C;
      reflexivity. }
  destruct (kickoffAwaitInput _).
  { destruct (anyInput input); intros H; inversion H; subst; intros [C|C]; exfalso; apply C;
      reflexivity. }
  destruct (Rle_dec _ _).
  { intros H; inversion H; subst. intros [C|C]; exfalso; apply C; reflexivity. }
  set (ec := set_match _ _). intros H Hch.
  assert (Hc : Inv ec) by (eapply Inv_eeq; [|exact Hinv]; repeat split).
  apply (playTick_fresh ec input dtMs rnd e' evs Hc H).
  exact Hch.
Qed.

Lemma shoot_switchControl e k cd : shootChargeMs (switchControl e k cd) = shootChargeMs e.
Proof. reflexivity. Qed.

Lemma shoot_offenseRule e : shootChargeMs (offenseRule e) = shootChargeMs e.
Proof. unfold offenseRule. break_match; reflexivity. Qed.

Lemma shoot_finalGain e prev : shootChargeMs (finalGain e prev) = shootChargeMs e.
Proof. unfold finalGain. break_match; reflexivity. Qed.

Lemma ownedBallPhase_holds_shoot g r e input dtMs :
  actionReleased input = false -> shootReleased input = false ->
  holds g r e ->
  shootChargeMs (ownedBallPhase e input dtMs)
  = chargeStep SHOOT_CHARGE_FULL_MS (shootDown input) false dtMs (shootChargeMs e).
Proof.
  intros Ha Hs (Hinv & Ho & Hc & Hk & Hr).
  destruct (owner_lookup e g r Hinv Ho Hr) as (o & Hco & Hid & Ht & Htr).
  unfold ownedBallPhase. rewrite Ho, Htr.
  pose proof Hco as Hco'. unfold currentOwnerOf in Hco'. rewrite Ho in Hco'. rewrite Hco'.
  rewrite (stealPhase_cooldown e Hc). rewrite Hco.
  unfold gkPossessionSwitch. rewrite Hk, Hid, String.eqb_refl.
  simpl negb. rewrite andb_false_r.
  unfold kickPhase, isHumanControlledOwner. rewrite Ht, Hid, Hk, !String.eqb_refl.
  simpl andb. cbv iota. rewrite Ha, Hs.
  unfold attachPhase. cbn [e_match set_actionChargeMs set_shootChargeMs].
  rewrite Ho, Htr. reflexivity.
Qed.

Lemma playTick_owner_shoot e input dtMs rnd g r e' evs :
  Inv e ->
  b_ownerPlayerId (ball (e_match e)) = Some g ->
  In (g, humanTeamId (e_match e), r) (statics (e_match e)) ->
  dtMs < stealCooldownMs e ->
  actionPressed input = false -> actionReleased input = false ->
  shootReleased input = false ->
  playTick e input dtMs rnd = Some (e', evs) ->
  shootChargeMs e'
  = chargeStep SHOOT_CHARGE_FULL_MS (shootDown input) false dtMs (shootChargeMs e).
Proof.
  intros Hinv Ho Hr Hdt Hp Ha Hs. unfold playTick.
  set (e1 := tickCooldowns e dtMs).
  assert (H1 : Inv e1 /\ 0 < stealCooldownMs e1).
  { split; [eapply Inv_eeq; [apply tickCooldowns_eeq|exact Hinv]|].
    unfold e1, tickCooldowns; simpl. rewrite Rmax_right; lra. }
  destruct H1 as [Hinv1 Hc1].
  pose proof (offenseRule_holds g r e1 Hinv1 Ho Hc1 Hr) as H2.
  assert (S2 : shootChargeMs (offenseRule e1) = shootChargeMs e)
    by (rewrite shoot_offenseRule; reflexivity).
  set (e2 := offenseRule e1) in *.
  assert (E3 : autoSwitchLooseBall e2 = e2).
  { destruct (autoSwitchLooseBall_cases e2) as [E|[Hfree _]]; [exact E|].
    destruct H2 as (Hinv2 & Ho2 & _ & _ & Hr2).
    destruct (owner_lookup e2 g r Hinv2 Ho2 Hr2) as (_ & _ & _ & _ & Htr).
    rewrite Ho2 in Hfree. congruence. }
  rewrite E3.
  assert (E4 : forall chb, humanSwitch e2 input chb = e2).
  { intros chb. unfold humanSwitch. rewrite Hp. reflexivity. }
  rewrite E4.
  pose proof (runCpuAi_holds g r e2 dtMs rnd H2) as H5.
  destruct (runCpuAi_match e2 dtMs rnd) as (_ & S5 & _).
  set (e5 := runCpuAi e2 dtMs rnd) in *.
  pose proof (moveControlled_eeq e5 input (dtMs / 1000) (controlledOf e2)) as E6.
  set (e6 := moveControlled e5 input _ _) in *.
  assert (H6 : holds g r e6).
  { eapply holds_eeq; [exact E6| |exact H5].
    unfold e6, moveControlled. break_match; reflexivity. }
  pose proof (moveNpcs_eeq e6 (dtMs / 1000) (possessionTeamIdOf e1)) as E7.
  set (e7 := moveNpcs e6 _ _) in *.
  assert (H7 : holds g r e7).
  { eapply holds_eeq; [exact E7|reflexivity|exact H6]. }
  pose proof (tickKickImmunity_eeq e7 dtMs) as E8.
  set (e8 := tickKickImmunity e7 dtMs) in *.
  assert (H8 : holds g r e8).
  { eapply holds_eeq; [exact E8|reflexivity|exact H7]. }
  assert (S8 : shootChargeMs e8 = shootChargeMs e).
  { destruct E6 as (_ & A6 & _). destruct E7 as (_ & A7 & _). destruct E8 as (_ & A8 & _).
    congruence. }
  pose proof (ownedBallPhase_holds_shoot g r e8 input dtMs Ha Hs H8) as S9.
  destruct (ownedBallPhase_holds g r e8 input dtMs Ha Hs H8) as (Ho9 & _).
  set (e9 := ownedBallPhase e8 input dtMs) in *.
  destruct H8 as (Hinv8 & Ho8 & _ & _ & Hr8).
  destruct (owner_lookup e8 g r Hinv8 Ho8 Hr8) as (o & Hco & Hid & _ & Htr).
  rewrite Ho9, Htr. simpl negb. cbv iota.
  intros H; inversion H; subst.
  rewrite shoot_finalGain.
  destruct (maintainPossession_eeq e9) as (_ & A10 & _). rewrite A10, S9, S8. reflexivity.
Qed.

Lemma engineHandover_Inv : Inv engineHandover.
Proof.
  assert (Hwf : wf matchHandover).
  { apply (wf_frame match0); [|apply createMatch_wf; discriminate].
    unfold frame, statics, matchHandover. simpl. reflexivity. }
  split; [exact Hwf|]. split; [|split].
  - split.
    + intros c Hc Ht. unfold cores, engineHandover, matchHandover in Hc. simpl in Hc.
      repeat (destruct Hc as [<-|Hc]; [simpl in *; try discriminate; try reflexivity|]).
      contradiction.
    + intros k Hk. simpl in Hk. inversion Hk; subst k.
      exists ("kilo:p4"%string, "kilo"%string, FW, true).
      split; [|split; reflexivity]. unfold cores. simpl. tauto.
  - exists MF. unfold statics. simpl. tauto.
  - unfold charge_inv; simpl. intros [H|H]; lra.
Qed.

Lemma engineHandover_tick :
  controlledPlayerId (e_match engineHandover) = "kilo:p3"%string
  /\ shootChargeMs engineHandover = 0 /\ actionChargeMs engineHandover = 0
  /\ exists e',
       stepSim engineHandover holdShoot (1000 / 60) (fun _ => 0) = Some (e', [])
       /\ controlledPlayerId (e_match e') = "kilo:p4"%string
       /\ b_ownerPlayerId (ball (e_match e')) = Some "kilo:p4"%string
       /\ changed engineHandover e'
       /\ shootChargeMs e' = 1000 / 60
       /\ shootChargeMs e' <> 0.
Proof.
  split; [reflexivity|]. split; [reflexivity|]. split; [reflexivity|].
  unfold stepSim.
  change (isFullTime (phase (clock (e_match engineHandover)))) with false. cbv iota zeta.
  change (kickoffHoldMs (set_celebrationMs engineHandover
                           (Rmax 0 (celebrationMs engineHandover - 1000 / 60)))) with 0.
  destruct (Rlt_dec 0 0) as [H|_]; [lra|].
  change (kickoffAwaitInput (set_celebrationMs engineHandover
                               (Rmax 0 (celebrationMs engineHandover - 1000 / 60))))
    with false.
  cbv iota.
  match goal with |- context [Rle_dec ?a ?b] => destruct (Rle_dec a b) as [H|_] end.
  { exfalso. simpl in H. rewrite Rmin_right in H; lra. }
  match goal with |- context [playTick ?x _ _ _] => set (ec := x) end.
  assert (Hinv : Inv ec).
  { eapply Inv_eeq; [|exact engineHandover_Inv]. repeat split. }
  assert (Hst : In ("kilo:p4"%string, humanTeamId (e_match ec), FW) (statics (e_match ec))).
  { unfold statics. simpl. tauto. }
  assert (Hdt : 1000 / 60 < stealCooldownMs ec) by (simpl; lra).
  destruct (playTick_owner_in_control ec holdShoot (1000 / 60) (fun _ => 0)
              "kilo:p4" FW Hinv eq_refl Hst Hdt eq_refl eq_refl eq_refl)
    as (e' & E & Hk & Ho & Hr).
  pose proof (playTick_owner_shoot ec holdShoot (1000 / 60) (fun _ => 0)
                "kilo:p4" FW e' [] Hinv eq_refl Hst Hdt eq_refl eq_refl eq_refl E) as Hs.
  exists e'. split; [exact E|]. split; [exact Hk|]. split; [exact Ho|].
  assert (Hv : shootChargeMs e' = 1000 / 60).
  { rewrite Hs. unfold chargeStep, holdShoot. cbn [shootDown].
    change (shootChargeMs ec) with 0. unfold SHOOT_CHARGE_FULL_MS.
    rewrite Rmin_right; lra. }
  split; [left; rewrite Hk; discriminate|]. split; [exact Hv|]. rewrite Hv. lra.
Qed.

(** C8, amended.  In a state that satisfies the invariants [stepSim] returns
    the last state of its trace.  Between any two consecutive states of the
    trace (the states before and after one phase of the tick): if the
    controlled player or the ball's owner differs, both charge counters are
    zero in the later state.  If the controlled player or the owner at the end
    of the tick differs from the one at its start, each counter at the end is
    zero, or its button is down and it holds the one charge step the tick made
    from zero after the change.  In every state of the trace a counter is
    non-zero only while the controlled player owns the ball, so what a release
    fires was accumulated under that player as owner. *)
Theorem charges_cleared_on_change e input dtMs rnd :
  Inv e ->
  (exists e' evs, stepSim e input dtMs rnd = Some (e', evs)
                  /\ last (stepTrace e input dtMs rnd) e = e'
                  /\ (changed e e' ->
                      (shootChargeMs e' = 0
                       \/ (shootDown input = true
                           /\ shootChargeMs e' = Rmin SHOOT_CHARGE_FULL_MS (0 + dtMs)))
                      /\ (actionChargeMs e' = 0
                          \/ (actionDown input = true
                              /\ actionChargeMs e'
                                 = Rmin ACTION_CHARGE_FULL_MS (0 + dtMs))))
                  /\ charge_inv e')
  /\ (forall a b, consecutive (stepTrace e input dtMs rnd) a b ->
        (changed a b -> shootChargeMs b = 0 /\ actionChargeMs b = 0)
        /\ charge_inv a /\ charge_inv b).
Proof.
  intros Hinv. split.
  - destruct (stepSim_spec e input dtMs rnd Hinv) as (e' & evs & E & Hl & Hi).
    exists e', evs. split; [exact E|]. split; [exact Hl|]. split; [|apply Hi].
    exact (stepSim_fresh e input dtMs rnd e' evs Hinv E).
  - intros a b Hab. rewrite stepTrace_head in Hab.
    destruct (okChain_sound _ _ (stepTrace_chain e input dtMs rnd) Hinv) as [_ Hc].
    destruct (Hc a b Hab) as (Ha & Hb & Hcl & _).
    split; [exact Hcl|]. split; [apply Ha|apply Hb].
Qed.

(** C8, as stated, fails for the state at the end of the tick.  The first
    forward owns the ball and the midfielder is controlled, both counters at
    zero, the shoot button held.  In one tick the offense rule passes control
    to the forward, and the kick phase of the same tick charges the shot for
    the new controlled owner: control has passed to a different player and the
    shoot counter ends the tick at the length of the time step. *)
Lemma handover_then_recharge :
  controlledPlayerId (e_match engineHandover) = "kilo:p3"%string
  /\ shootChargeMs engineHandover = 0 /\ actionChargeMs engineHandover = 0
  /\ exists e',
       stepSim engineHandover holdShoot (1000 / 60) (fun _ => 0) = Some (e', [])
       /\ controlledPlayerId (e_match e') = "kilo:p4"%string
       /\ b_ownerPlayerId (ball (e_match e')) = Some "kilo:p4"%string
       /\ changed engineHandover e'
       /\ shootChargeMs e' = 1000 / 60
       /\ shootChargeMs e' <> 0.
Proof. exact engineHandover_tick. Qed.

Lemma charges_cleared_on_change_witness :
  Inv engineHandover
  /\ exists e',
       stepSim engineHandover holdShoot (1000 / 60) (fun _ => 0) = Some (e', [])
       /\ changed engineHandover e'
       /\ shootChargeMs e' = Rmin SHOOT_CHARGE_FULL_MS (0 + 1000 / 60)
       /\ actionChargeMs e' = 0
       /\ charge_inv e'.
Proof.
  split; [exact engineHandover_Inv|].
  destruct (charges_cleared_on_change engineHandover holdShoot (1000 / 60) (fun _ => 0)
              engineHandover_Inv) as [(e' & evs & E & _ & Hfresh & Hci) _].
  destruct engineHandover_tick as (_ & _ & _ & e1 & E1 & _ & _ & Hch & Hv & Hnz).
  assert (He : e' = e1) by congruence. subst e1.
  exists e'. split; [exact E1|]. split; [exact Hch|].
  destruct (Hfresh Hch) as [[Hs|[_ Hs]] [Ha|[Ha _]]]; try contradiction;
    try discriminate.
  split; [exact Hs|]. split; [exact Ha|exact Hci].
Defined.

(* ------------------------------------------------------------------ *)
(** ** Pass target selection *)

Section SortHead.
Variable A : Type.
Variable cmp : A -> A -> R.
Hypothesis cmp_trans : forall a b c, cmp a b <= 0 -> cmp b c <= 0 -> cmp a c <= 0.
Hypothesis cmp_total : forall a b, 0 < cmp a b -> cmp b a <= 0.

Lemma cmp_refl a : cmp a a <= 0.
Proof. destruct (Rle_dec (cmp a a) 0) as [H|H]; [exact H|]. apply cmp_total. lra. Qed.

Lemma insertBy_in a l x : In x (insertBy cmp a l) <-> x = a \/ In x l.
Proof.
  induction l as [|b l IH]; simpl.
  - intuition congruence.
  - destruct (Rle_dec (cmp a b) 0); simpl; [intuition congruence|].
    rewrite IH. intuition congruence.
Qed.

Lemma sortBy_in l x : In x (sortBy cmp l) <-> In x l.
Proof.
  induction l as [|a l IH]; simpl; [tauto|].
  rewrite insertBy_in, IH. intuition congruence.
Qed.

(** The first element of the sorted list is a least element. *)
Lemma sortBy_hd l h :
  hd_error (sortBy cmp l) = Some h -> In h l /\ forall x, In x l -> cmp h x <= 0.
Proof.
  revert h. induction l as [|a l IH]; simpl; intros h H; [discriminate|].
  destruct (sortBy cmp l) as [|b s] eqn:Es; simpl in H.
  - inversion H; subst h. split; [now left|].
    assert (Hl : l = []).
    { destruct l as [|y l']; [reflexivity|].
      assert (In y (sortBy cmp (y :: l'))) by (apply sortBy_in; now left).
      rewrite Es in H0. contradiction. }
    subst l. intros x [<-|[]]. apply cmp_refl.
  - destruct (IH b eq_refl) as [Hb Hmin].
    destruct (Rle_dec (cmp a b) 0) as [Hab|Hab]; simpl in H; inversion H; subst h.
    + split; [now left|]. intros x [<-|Hx]; [apply cmp_refl|].
      eapply cmp_trans; [exact Hab|now apply Hmin].
    + split; [now right|]. intros x [<-|Hx]; [apply cmp_total; lra|now apply Hmin].
Qed.

Lemma sortBy_nonempty l : l <> [] -> exists h, hd_error (sortBy cmp l) = Some h.
Proof.
  destruct l as [|a l]; [congruence|]. intros _. simpl.
  destruct (sortBy cmp l) as [|b s]; simpl; [eauto|].
  destruct (Rle_dec (cmp a b) 0); simpl; eauto.
Qed.
End SortHead.

Lemma orNum_le a b : orNum a b <= 0 <-> a < 0 \/ (a = 0 /\ b <= 0).
Proof. unfold orNum. destruct (Req_dec_T a 0); split; intros; lra. Qed.

Lemma orNum_pos a b : 0 < orNum a b <-> 0 < a \/ (a = 0 /\ 0 < b).
Proof. unfold orNum. destruct (Req_dec_T a 0); split; intros; lra. Qed.

Lemma cmpTap_le a b : cmpTap a b <= 0 <-> tapLe a b.
Proof.
  unfold cmpTap, tapLe. rewrite !orNum_le. split; intros H; lra.
Qed.

Lemma cmpTap_trans a b c : cmpTap a b <= 0 -> cmpTap b c <= 0 -> cmpTap a c <= 0.
Proof. rewrite !cmpTap_le. unfold tapLe. intros; lra. Qed.

Lemma cmpTap_total a b : 0 < cmpTap a b -> cmpTap b a <= 0.
Proof.
  unfold cmpTap. rewrite !orNum_pos, !orNum_le. intros; lra.
Qed.

Lemma cmpHold_trans a b c : cmpHold a b <= 0 -> cmpHold b c <= 0 -> cmpHold a c <= 0.
Proof. unfold cmpHold. rewrite !orNum_le. intros; lra. Qed.

Lemma cmpHold_total a b : 0 < cmpHold a b -> cmpHold b a <= 0.
Proof.
  unfold cmpHold. rewrite !orNum_pos, !orNum_le. intros; lra.
Qed.

Lemma passCands_in kicker aim ts c :
  In c (passCands kicker aim ts) <-> exists t, In t ts /\ passCand kicker aim t = Some c.
Proof.
  induction ts as [|t ts IH]; simpl.
  - split; [tauto|]. intros (t & [] & _).
  - destruct (passCand kicker aim t) as [c0|] eqn:E; simpl; rewrite IH; split.
    + intros [<-|(t' & Hin & Ht')]; [exists t; auto|exists t'; auto].
    + intros (t' & [<-|Hin] & Ht'); [left; congruence|right; eauto].
    + intros (t' & Hin & Ht'). exists t'; auto.
    + intros (t' & [<-|Hin] & Ht'); [congruence|eauto].
Qed.

Lemma passCand_some kicker aim t c :
  passCand kicker aim t = Some c <->
  p_id t <> p_id kicker
  /\ minSelectableDist <= V.len (V.sub (p_pos t) (p_pos kicker))
  /\ c = mkCand t (V.len (V.sub (p_pos t) (p_pos kicker)))
                  (V.dot (V.sub (p_pos t) (p_pos kicker)) aim)
                  (Rabs (vec_x (V.sub (p_pos t) (p_pos kicker)) * vec_y aim
                         - vec_y (V.sub (p_pos t) (p_pos kicker)) * vec_x aim)).
Proof.
  unfold passCand.
  destruct (String.eqb_spec (p_id t) (p_id kicker)) as [E|E].
  - split; [discriminate|]. intros (H & _). congruence.
  - destruct (Rlt_dec _ minSelectableDist) as [Hd|Hd].
    + split; [discriminate|]. intros (_ & H & _). lra.
    + split.
      * intros H; inversion H. repeat split; auto. lra.
      * intros (_ & _ & ->). reflexivity.
Qed.

Lemma passPool_forward cands :
  (exists c, In c cands /\ 1 < c_ahead c) ->
  forall c, In c (passPool cands) <-> In c cands /\ 1 < c_ahead c.
Proof.
  intros (c0 & Hin0 & Ha0) c. unfold passPool.
  destruct (filter _ cands) as [|f fs] eqn:E.
  - exfalso. assert (In c0 (filter (fun c => Rltb 1 (c_ahead c)) cands)).
    { apply filter_In. split; [assumption|now apply Rltb_true]. }
    rewrite E in H. contradiction.
  - rewrite <- E. rewrite filter_In, Rltb_true. tauto.
Qed.

Lemma passPool_fallback cands :
  (forall c, In c cands -> c_ahead c <= 1) -> passPool cands = cands.
Proof.
  intros H. unfold passPool.
  destruct (filter _ cands) as [|f fs] eqn:E; [reflexivity|].
  exfalso. assert (Hf : In f (filter (fun c => Rltb 1 (c_ahead c)) cands)).
  { rewrite E. now left. }
  apply filter_In in Hf. destruct Hf as [Hin Ha]. apply Rltb_true in Ha.
  specialize (H f Hin). lra.
Qed.

Lemma passPool_nonempty cands : cands <> [] -> passPool cands <> [].
Proof.
  intros H. unfold passPool. destruct (filter _ cands); [assumption|discriminate].
Qed.

Lemma bestLateral_fold pool : forall acc,
  match fold_left (fun best c =>
                     match best with
                     | None => Some (c_lateral c)
                     | Some b => Some (Rmin b (c_lateral c))
                     end) pool acc with
  | None => acc = None /\ pool = []
  | Some b =>
      (forall c, In c pool -> b <= c_lateral c)
      /\ (forall a, acc = Some a -> b <= a)
      /\ (acc = Some b \/ exists c, In c pool /\ c_lateral c = b)
  end.
Proof.
  induction pool as [|c pool IH]; simpl; intros acc.
  - destruct acc as [a|]; [|auto]. split; [tauto|]. split; [|now left].
    intros a' E; inversion E; lra.
  - specialize (IH (match acc with
                    | None => Some (c_lateral c)
                    | Some b => Some (Rmin b (c_lateral c))
                    end)).
    destruct (fold_left _ pool _) as [b|].
    + destruct IH as (H1 & H2 & H3). split; [|split].
      * intros c' [<-|Hin]; [|now apply H1].
        destruct acc as [a|]; [|now apply H2].
        pose proof (H2 _ eq_refl). pose proof (Rmin_r a (c_lateral c)). lra.
      * intros a ->. pose proof (H2 _ eq_refl). pose proof (Rmin_l a (c_lateral c)). lra.
      * destruct H3 as [H3|(c' & Hin & Hc')]; [|right; eauto].
        destruct acc as [a|].
        -- inversion H3 as [Hb]. unfold Rmin. destruct (Rle_dec a (c_lateral c)).
           ++ now left.
           ++ right. exists c. auto.
        -- inversion H3. right. exists c. auto.
    + destruct IH as [IH _]. destruct acc; discriminate.
Qed.

Lemma laneBand_in pool c :
  pool <> [] ->
  (In c (laneBand pool) <->
   In c pool
   /\ exists best, bestLateral pool = Some best
        /\ (forall c', In c' pool -> best <= c_lateral c')
        /\ (exists c', In c' pool /\ c_lateral c' = best)
        /\ c_lateral c <= best + 2.25).
Proof.
  intros Hne. unfold laneBand, bestLateral.
  pose proof (bestLateral_fold pool None) as H.
  destruct (fold_left _ pool None) as [b|].
  - destruct H as (H1 & _ & H3). destruct H3 as [H3|H3]; [discriminate|].
    rewrite filter_In, Rleb_true. split.
    + intros [Hin Hle]. split; [assumption|]. exists b. auto.
    + intros (Hin & best & E & _ & _ & Hle). inversion E; subst. auto.
  - destruct H as [_ H]. contradiction.
Qed.

Lemma laneBand_min pool c :
  In c pool -> (forall c', In c' pool -> c_lateral c <= c_lateral c') -> In c (laneBand pool).
Proof.
  intros Hin Hmin.
  assert (Hne : pool <> []) by (intros E; rewrite E in Hin; contradiction).
  pose proof (bestLateral_fold pool None) as H. unfold laneBand, bestLateral.
  destruct (fold_left _ pool None) as [b|].
  - destruct H as (H1 & _ & H3). apply filter_In. split; [assumption|].
    apply Rleb_true. specialize (H1 c Hin). destruct H3 as [H3|(c' & Hc' & E)]; [discriminate|].
    specialize (Hmin c' Hc'). lra.
  - assumption.
Qed.

Lemma laneBand_nonempty pool : pool <> [] -> laneBand pool <> [].
Proof.
  intros Hne. pose proof (bestLateral_fold pool None) as H.
  unfold laneBand, bestLateral.
  destruct (fold_left _ pool None) as [b|]; [|assumption].
  destruct H as (H1 & _ & [H3|(c & Hin & E)]); [discriminate|].
  intros Hf. assert (Hc : In c (filter (fun c0 => Rleb (c_lateral c0) (b + 2.25)) pool)).
  { apply filter_In. split; [assumption|]. apply Rleb_true. lra. }
  rewrite Hf in Hc. contradiction.
Qed.

Lemma laneBand_sub pool c : In c (laneBand pool) -> In c pool.
Proof.
  unfold laneBand. destruct (bestLateral pool); [|auto].
  intros H. apply filter_In in H. tauto.
Qed.

(** A normalised aim that passes the guard of the selection is a unit vector. *)
Lemma aim_unit aimDir : 1e-6 <= V.lenSq (V.norm aimDir) -> V.lenSq (V.norm aimDir) = 1.
Proof.
  intros H. destruct (Rle_dec (V.len aimDir) 1e-9) as [Hl|Hl].
  - rewrite (norm_zero _ Hl) in H. unfold V.lenSq in H; simpl in H. lra.
  - apply norm_unit. lra.
Qed.

(** With a unit aim, distance, projection and lateral deviation of a candidate
    are the sides of a right triangle. *)
Lemma passCand_pythagoras kicker aim t c :
  V.lenSq aim = 1 -> passCand kicker aim t = Some c ->
  c_dist c * c_dist c = c_ahead c * c_ahead c + c_lateral c * c_lateral c.
Proof.
  intros Hu Hc. apply passCand_some in Hc. destruct Hc as (_ & _ & ->). simpl.
  rewrite len_sq.
  assert (Habs : forall x, Rabs x * Rabs x = x * x).
  { intros x. unfold Rabs. destruct (Rcase_abs x); lra. }
  rewrite Habs. unfold V.lenSq, V.dot, V.sub in *. simpl.
  set (tx := vec_x (p_pos t) - vec_x (p_pos kicker)).
  set (ty := vec_y (p_pos t) - vec_y (p_pos kicker)).
  transitivity ((tx * tx + ty * ty) * (vec_x aim * vec_x aim + vec_y aim * vec_y aim));
    [rewrite Hu; lra|ring].
Qed.

Lemma passCand_dist_nonneg kicker aim t c : passCand kicker aim t = Some c -> 0 <= c_dist c.
Proof.
  intros Hc. apply passCand_some in Hc. destruct Hc as (_ & _ & ->). simpl. apply len_nonneg.
Qed.

(** The head of the tap sort is least in the whole pool, not only in the band. *)
Lemma tap_head_least pool c :
  hd_error (sortBy cmpTap (laneBand pool)) = Some c ->
  In c pool /\ forall c', In c' pool -> tapLe c c'.
Proof.
  intros H.
  apply (sortBy_hd _ cmpTap cmpTap_trans cmpTap_total) in H. destruct H as [Hin Hmin].
  assert (Hp : In c pool) by now apply laneBand_sub.
  split; [assumption|]. intros c' Hc'.
  assert (Hne : pool <> []) by (intros E; rewrite E in Hp; contradiction).
  apply (laneBand_in pool c Hne) in Hin.
  destruct Hin as (_ & best & Eb & Hleast & (cb & Hcb & Elat) & Hband).
  assert (Hcbb : In cb (laneBand pool)).
  { apply laneBand_min; [assumption|]. intros x Hx. rewrite Elat. now apply Hleast. }
  pose proof (Hmin cb Hcbb) as Hc_cb. apply cmpTap_le in Hc_cb.
  assert (Hlat : c_lateral c = best).
  { pose proof (Hleast c Hp). unfold tapLe in Hc_cb. lra. }
  destruct (Rle_dec (c_lateral c') (best + 2.25)) as [Hb|Hb].
  - apply cmpTap_le, Hmin. apply (laneBand_in pool c' Hne). split; [assumption|].
    exists best. repeat split; eauto.
  - left. lra.
Qed.

Lemma pickBestPassTarget_aimed m teamId kicker aimDir preferFar :
  1e-6 <= V.lenSq (V.norm aimDir) ->
  pickBestPassTarget m teamId kicker aimDir preferFar =
  match passCands kicker (V.norm aimDir) (getTeamPlayers m teamId) with
  | [] => None
  | _ :: _ =>
      option_map c_p
        (hd_error (sortBy (if preferFar then cmpHold else cmpTap)
                     (laneBand (passPool
                        (passCands kicker (V.norm aimDir) (getTeamPlayers m teamId))))))
  end.
Proof.
  intros H. unfold pickBestPassTarget. cbv zeta.
  destruct (Rlt_dec (V.lenSq (V.norm aimDir)) 1e-6); [lra|].
  destruct (passCands _ _ _); [reflexivity|]. now destruct preferFar.
Qed.

Lemma pickBestPassTarget_aimed_some m teamId kicker aimDir preferFar t :
  1e-6 <= V.lenSq (V.norm aimDir) ->
  pickBestPassTarget m teamId kicker aimDir preferFar = Some t ->
  exists c,
    hd_error (sortBy (if preferFar then cmpHold else cmpTap)
                (laneBand (passPool
                   (passCands kicker (V.norm aimDir) (getTeamPlayers m teamId))))) = Some c
    /\ c_p c = t.
Proof.
  intros Haim H. rewrite (pickBestPassTarget_aimed _ _ _ _ _ Haim) in H.
  destruct (passCands kicker (V.norm aimDir) (getTeamPlayers m teamId)) as [|c0 cs];
    [discriminate|].
  destruct (hd_error _) as [c|]; [|discriminate].
  exists c. split; [reflexivity|]. now inversion H.
Qed.

Lemma forward_tap_by_distance kicker aim ts c c' :
  V.lenSq aim = 1 ->
  In c (passCands kicker aim ts) -> In c' (passCands kicker aim ts) ->
  1 < c_ahead c -> 1 < c_ahead c' ->
  tapLe c c' ->
  c_lateral c < c_lateral c' \/ (c_lateral c = c_lateral c' /\ c_dist c <= c_dist c').
Proof.
  intros Hu Hc Hc' Ha Ha' Hle.
  apply passCands_in in Hc. destruct Hc as (t & _ & Ht).
  apply passCands_in in Hc'. destruct Hc' as (t' & _ & Ht').
  pose proof (passCand_pythagoras _ _ _ _ Hu Ht) as Hp.
  pose proof (passCand_pythagoras _ _ _ _ Hu Ht') as Hp'.
  pose proof (passCand_dist_nonneg _ _ _ _ Ht) as Hd.
  pose proof (passCand_dist_nonneg _ _ _ _ Ht') as Hd'.
  destruct Hle as [Hlt|[Heq Hrest]]; [now left|]. right. split; [assumption|].
  destruct Hrest as [Hlt|[_ Hle]]; [|assumption].
  destruct (Rle_dec (c_dist c) (c_dist c')) as [Hok|Hno]; [assumption|exfalso].
  assert (H1 : c_ahead c * c_ahead c < c_ahead c' * c_ahead c') by nra.
  assert (H2 : c_dist c' * c_dist c' < c_dist c * c_dist c) by nra.
  rewrite Heq in Hp. lra.
Qed.

(** The order of the hold sort ranks lateral deviation first; depth along the
    aim only breaks ties between equal lateral deviations. *)
Lemma cmpHold_le a b :
  cmpHold a b <= 0 <->
  c_lateral a < c_lateral b
  \/ (c_lateral a = c_lateral b
      /\ (c_ahead b < c_ahead a \/ (c_ahead a = c_ahead b /\ c_dist b <= c_dist a))).
Proof.
  unfold cmpHold. rewrite !orNum_le. split; intros H; lra.
Qed.

(** The head of the hold sort: no band candidate of the same lateral
    deviation lies further along the aim, or as far along it and further
    away. *)
Lemma hold_head_deepest pool c :
  hd_error (sortBy cmpHold (laneBand pool)) = Some c ->
  In c (laneBand pool)
  /\ forall c', In c' (laneBand pool) -> c_lateral c' = c_lateral c ->
       c_ahead c' < c_ahead c \/ (c_ahead c' = c_ahead c /\ c_dist c' <= c_dist c).
Proof.
  intros H.
  apply (sortBy_hd _ cmpHold cmpHold_trans cmpHold_total) in H. destruct H as [Hin Hmin].
  split; [assumption|]. intros c' Hc' Hlat.
  pose proof (Hmin c' Hc') as Hle. apply cmpHold_le in Hle.
  destruct Hle as [Hlt|[_ [Hlt|[He Hd]]]]; [lra|now left|right; split; auto].
Qed.

Lemma forward_hold_by_distance kicker aim ts c c' :
  V.lenSq aim = 1 ->
  In c (passCands kicker aim ts) -> In c' (passCands kicker aim ts) ->
  1 < c_ahead c -> 1 < c_ahead c' ->
  c_lateral c' = c_lateral c ->
  c_ahead c' < c_ahead c \/ (c_ahead c' = c_ahead c /\ c_dist c' <= c_dist c) ->
  c_dist c' <= c_dist c.
Proof.
  intros Hu Hc Hc' Ha Ha' Heq Hle.
  apply passCands_in in Hc. destruct Hc as (t & _ & Ht).
  apply passCands_in in Hc'. destruct Hc' as (t' & _ & Ht').
  pose proof (passCand_pythagoras _ _ _ _ Hu Ht) as Hp.
  pose proof (passCand_pythagoras _ _ _ _ Hu Ht') as Hp'.
  pose proof (passCand_dist_nonneg _ _ _ _ Ht) as Hd.
  pose proof (passCand_dist_nonneg _ _ _ _ Ht') as Hd'.
  destruct Hle as [Hlt|[_ Hle]]; [|assumption].
  destruct (Rle_dec (c_dist c') (c_dist c)) as [Hok|Hno]; [assumption|exfalso].
  assert (H1 : c_ahead c' * c_ahead c' < c_ahead c * c_ahead c) by nra.
  assert (H2 : c_dist c * c_dist c < c_dist c' * c_dist c') by nra.
  rewrite Heq in Hp'. lra.
Qed.

(** The lane band holds the candidates of the pool whose lateral deviation is
    within 2.25 of every other one's. *)
Lemma laneBand_spec pool c :
  In c (laneBand pool) <->
  In c pool /\ forall c', In c' pool -> c_lateral c <= c_lateral c' + 2.25.
Proof.
  destruct pool as [|c0 cs] eqn:Ep.
  { unfold laneBand, bestLateral; simpl. tauto. }
  rewrite <- Ep.
  assert (Hne : pool <> []) by (rewrite Ep; discriminate).
  split.
  - intros H. apply (laneBand_in pool c Hne) in H.
    destruct H as (Hin & best & _ & Hleast & _ & Hb). split; [assumption|].
    intros c' Hc'. specialize (Hleast c' Hc'). lra.
  - intros [Hin Hall].
    destruct (laneBand pool) as [|x xs] eqn:Eb;
      [exfalso; now apply (laneBand_nonempty pool Hne)|].
    assert (Hx : In x (laneBand pool)) by (rewrite Eb; now left).
    apply (laneBand_in pool x Hne) in Hx.
    destruct Hx as (_ & best & E & Hleast & (cb & Hcb & Elat) & _).
    rewrite <- Eb. apply (laneBand_in pool c Hne). split; [assumption|].
    exists best. repeat split; eauto.
    specialize (Hall cb Hcb). lra.
Qed.

(** The release in the kick phase: the pass branch runs on the charge the
    tick's charge step leaves. *)
Lemma kickPhase_pass e input dtMs o :
  isHumanControlledOwner (e_match e) (Some o) = true ->
  actionReleased input = true ->
  kickPhase e input dtMs (Some o)
  = passKick
      (set_actionChargeMs
         (set_shootChargeMs e
            (chargeStep SHOOT_CHARGE_FULL_MS (shootDown input) (shootReleased input)
               dtMs (shootChargeMs e)))
         (chargeStep ACTION_CHARGE_FULL_MS (actionDown input) true dtMs (actionChargeMs e)))
      o (pickKickDir o (moveVec input)).
Proof.
  intros Hh Hr. unfold kickPhase. rewrite Hh, Hr. reflexivity.
Qed.

(** The pass branch kicks toward the target selected with the far preference
    exactly when the charge is strictly above the tap threshold. *)
Lemma passKick_release e o aimDir :
  let m := e_match e in
  let pick := pickBestPassTarget m (humanTeamId m) o aimDir in
  let toward := fun far : bool =>
    match pick far with
    | Some t => V.norm (V.sub (p_pos t) (p_pos o))
    | None => V.norm aimDir
    end in
  let reach := fun far : bool =>
    match pick far with
    | Some t => V.len (V.sub (p_pos t) (p_pos o))
    | None => 18
    end in
  (actionChargeMs e <= ACTION_TAP_THRESHOLD_MS ->
   e_match (passKick e o aimDir)
   = releaseBallWithKick m o (toward false)
       (p_kickPower o * (0.78 + 0.62 * 0.25) * (0.86 + 0.22 * clamp (reach false / 46) 0 1)))
  /\ (ACTION_TAP_THRESHOLD_MS < actionChargeMs e ->
      e_match (passKick e o aimDir)
      = releaseBallWithKick m o (toward true)
          (p_kickPower o
           * (0.78 + 0.62 * clamp (actionChargeMs e / ACTION_CHARGE_FULL_MS) 0 1)
           * (0.86 + 0.22 * clamp (reach true / 46) 0 1))).
Proof.
  cbv zeta. split; intros H; unfold passKick; cbv zeta.
  - assert (Hp : passPreferFar (actionChargeMs e) = false)
      by (unfold passPreferFar; apply Rltb_false; lra).
    rewrite Hp. reflexivity.
  - assert (Hp : passPreferFar (actionChargeMs e) = true)
      by (unfold passPreferFar; apply Rltb_true; lra).
    rewrite Hp. reflexivity.
Qed.

(** C4, amended.  On a pass release by the controlled owner the kick phase
    runs the pass branch on the charge left by the tick's charge step, and
    the pass branch kicks toward the target selected with the hold rule
    exactly when that charge is strictly above the tap threshold, and with
    the tap rule otherwise.  With a non-zero aim direction: the
    candidates are the team-mates other than the passer that are at least
    [minSelectableDist] away; the pool is the candidates more than one unit
    ahead of the aim when there is one, and all candidates otherwise; the lane
    band holds the candidates of the pool whose lateral deviation is within
    2.25 of the least one; when a candidate exists a target is selected, and
    it lies in the lane band.  A tap selects the candidate of the pool that is
    least by lateral deviation, then by projection on the aim, then by
    distance, which for a pool of candidates ahead of the aim is least by
    lateral deviation and then by distance.  A hold selects a candidate of
    the lane band such that no band candidate of the same lateral deviation
    lies further along the aim (or as far along it and further away); for a
    pool of candidates ahead of the aim it is the farthest of the band
    candidates of its lateral deviation, and the farthest of the whole band
    when the band candidates all have the same lateral deviation. *)
Theorem pass_target_selection (m : MatchState) (teamId : string) (kicker : Player)
    (aimDir : Vec2) :
  1e-6 <= V.lenSq (V.norm aimDir) ->
  let aim := V.norm aimDir in
  let cands := passCands kicker aim (getTeamPlayers m teamId) in
  let pool := passPool cands in
  let band := laneBand pool in
  let pick := pickBestPassTarget m teamId kicker aimDir in
  let toward := fun far : bool =>
    match pick far with
    | Some t => V.norm (V.sub (p_pos t) (p_pos kicker))
    | None => V.norm aimDir
    end in
  let reach := fun far : bool =>
    match pick far with
    | Some t => V.len (V.sub (p_pos t) (p_pos kicker))
    | None => 18
    end in
  (forall e input dtMs,
     e_match e = m -> humanTeamId m = teamId ->
     isHumanControlledOwner m (Some kicker) = true ->
     actionReleased input = true ->
     pickKickDir kicker (moveVec input) = aimDir ->
     let charge :=
       chargeStep ACTION_CHARGE_FULL_MS (actionDown input) true dtMs (actionChargeMs e) in
     (charge <= ACTION_TAP_THRESHOLD_MS ->
      e_match (kickPhase e input dtMs (Some kicker))
      = releaseBallWithKick m kicker (toward false)
          (p_kickPower kicker * (0.78 + 0.62 * 0.25)
           * (0.86 + 0.22 * clamp (reach false / 46) 0 1)))
     /\ (ACTION_TAP_THRESHOLD_MS < charge ->
         e_match (kickPhase e input dtMs (Some kicker))
         = releaseBallWithKick m kicker (toward true)
             (p_kickPower kicker
              * (0.78 + 0.62 * clamp (charge / ACTION_CHARGE_FULL_MS) 0 1)
              * (0.86 + 0.22 * clamp (reach true / 46) 0 1))))
  /\ (forall c, In c cands <->
        exists t, In t (getTeamPlayers m teamId)
          /\ p_id t <> p_id kicker
          /\ minSelectableDist <= V.len (V.sub (p_pos t) (p_pos kicker))
          /\ c = mkCand t (V.len (V.sub (p_pos t) (p_pos kicker)))
                   (V.dot (V.sub (p_pos t) (p_pos kicker)) aim)
                   (Rabs (vec_x (V.sub (p_pos t) (p_pos kicker)) * vec_y aim
                          - vec_y (V.sub (p_pos t) (p_pos kicker)) * vec_x aim)))
  /\ ((exists c, In c cands /\ 1 < c_ahead c) ->
      forall c, In c pool <-> In c cands /\ 1 < c_ahead c)
  /\ ((forall c, In c cands -> c_ahead c <= 1) -> pool = cands)
  /\ (forall c, In c band <->
        In c pool /\ forall c', In c' pool -> c_lateral c <= c_lateral c' + 2.25)
  /\ (cands <> [] ->
      forall preferFar, exists c,
        In c band /\ pick preferFar = Some (c_p c))
  /\ (forall t, pick false = Some t ->
      exists c, In c pool /\ c_p c = t
        /\ (forall c', In c' pool -> tapLe c c')
        /\ ((exists c0, In c0 cands /\ 1 < c_ahead c0) ->
            forall c', In c' pool ->
              c_lateral c < c_lateral c'
              \/ (c_lateral c = c_lateral c' /\ c_dist c <= c_dist c')))
  /\ (forall t, pick true = Some t ->
      exists c, In c band /\ c_p c = t
        /\ (forall c', In c' band -> c_lateral c' = c_lateral c ->
              c_ahead c' < c_ahead c
              \/ (c_ahead c' = c_ahead c /\ c_dist c' <= c_dist c))
        /\ ((exists c0, In c0 cands /\ 1 < c_ahead c0) ->
            (forall c', In c' band -> c_lateral c' = c_lateral c ->
               c_dist c' <= c_dist c)
            /\ ((forall c1 c2, In c1 band -> In c2 band -> c_lateral c1 = c_lateral c2) ->
                forall c', In c' band -> c_dist c' <= c_dist c))).
Proof.
  intros Haim. cbv zeta.
  pose proof (aim_unit _ Haim) as Hu.
  set (cands := passCands kicker (V.norm aimDir) (getTeamPlayers m teamId)).
  split.
  { intros e input dtMs Em Et Hh Hr Hd.
    rewrite <- Em in Hh. rewrite (kickPhase_pass e input dtMs kicker Hh Hr), Hd.
    set (e2 := set_actionChargeMs _ _).
    pose proof (passKick_release e2 kicker aimDir) as Hp. cbv zeta in Hp.
    change (e_match e2) with (e_match e) in Hp.
    change (actionChargeMs e2)
      with (chargeStep ACTION_CHARGE_FULL_MS (actionDown input) true dtMs (actionChargeMs e))
      in Hp.
    rewrite Em, Et in Hp. exact Hp. }
  split.
  { intros c. unfold cands. rewrite passCands_in. split.
    - intros (t & Hin & Hc). apply passCand_some in Hc. exists t. tauto.
    - intros (t & Hin & Hc). exists t. split; [assumption|]. apply passCand_some. exact Hc. }
  split; [apply passPool_forward|].
  split; [apply passPool_fallback|].
  split; [apply laneBand_spec|].
  split.
  { intros Hne preferFar. rewrite (pickBestPassTarget_aimed _ _ _ _ _ Haim).
    fold cands.
    destruct (sortBy_nonempty _ (if preferFar then cmpHold else cmpTap)
                (laneBand (passPool cands)))
      as [h Hh].
    { now apply laneBand_nonempty, passPool_nonempty. }
    exists h. rewrite Hh.
    split.
    - apply (sortBy_in _ (if preferFar then cmpHold else cmpTap)).
      destruct (sortBy _ (laneBand (passPool cands))) as [|x xs]; [discriminate|].
      inversion Hh. now left.
    - destruct cands; [congruence|reflexivity]. }
  split.
  { intros t Ht.
    destruct (pickBestPassTarget_aimed_some _ _ _ _ _ _ Haim Ht) as (c & Eh & Ec).
    fold cands in Eh. simpl in Eh.
    apply tap_head_least in Eh. destruct Eh as [Hin Hleast].
    exists c. split; [assumption|]. split; [assumption|]. split; [assumption|].
    intros Hfw c' Hc'.
    pose proof (passPool_forward cands Hfw) as Hpool.
    pose proof (Hleast c' Hc') as Hle.
    apply Hpool in Hin. apply Hpool in Hc'.
    destruct Hin as [Hin Ha]. destruct Hc' as [Hc' Ha'].
    apply (forward_tap_by_distance kicker (V.norm aimDir) (getTeamPlayers m teamId)); auto. }
  intros t Ht.
  destruct (pickBestPassTarget_aimed_some _ _ _ _ _ _ Haim Ht) as (c & Eh & Ec).
  fold cands in Eh. simpl in Eh.
  apply hold_head_deepest in Eh. destruct Eh as [Hin Hdeep].
  exists c. split; [assumption|]. split; [assumption|]. split; [assumption|].
  intros Hfw.
  pose proof (passPool_forward cands Hfw) as Hpool.
  assert (Hfar : forall c', In c' (laneBand (passPool cands)) ->
                   c_lateral c' = c_lateral c -> c_dist c' <= c_dist c).
  { intros c' Hc' Hlat.
    pose proof (Hdeep c' Hc' Hlat) as Hle.
    apply laneBand_sub, Hpool in Hin. apply laneBand_sub, Hpool in Hc'.
    destruct Hin as [Hin Ha]. destruct Hc' as [Hc' Ha'].
    apply (forward_hold_by_distance kicker (V.norm aimDir) (getTeamPlayers m teamId));
      auto. }
  split; [exact Hfar|].
  intros Hsame c' Hc'. apply Hfar; auto.
Qed.

Lemma aim_x_guard : 1e-6 <= V.lenSq (V.norm (mkVec2 1 0)).
Proof. rewrite norm_x_axis. unfold V.lenSq; simpl. lra. Qed.

Lemma passCand_on_axis (t : Player) (d : R) :
  p_id t <> p_id passerP -> p_pos t = mkVec2 d 0 -> 3 <= d ->
  passCand passerP (mkVec2 1 0) t = Some (mkCand t d d 0).
Proof.
  intros Hid Hpos Hd. apply passCand_some. split; [assumption|].
  assert (Hto : V.sub (p_pos t) (p_pos passerP) = mkVec2 d 0).
  { rewrite Hpos. unfold V.sub; simpl. f_equal; lra. }
  rewrite Hto, len_x_axis by lra. unfold minSelectableDist. split; [lra|].
  unfold V.dot; simpl. f_equal; [lra|].
  replace (d * 0 - 0 * 1) with 0 by lra. symmetry. apply Rabs_R0.
Qed.

Lemma matchPass_cands :
  passCands passerP (V.norm (mkVec2 1 0)) (getTeamPlayers matchPass "kilo")
  = [mkCand nearP 10 10 0; mkCand farP 30 30 0].
Proof.
  rewrite norm_x_axis.
  change (getTeamPlayers matchPass "kilo") with [passerP; nearP; farP].
  unfold passCands.
  assert (H0 : passCand passerP (mkVec2 1 0) passerP = None) by reflexivity.
  rewrite H0.
  rewrite (passCand_on_axis nearP 10) by (try reflexivity; try discriminate; lra).
  rewrite (passCand_on_axis farP 30) by (try reflexivity; try discriminate; lra).
  reflexivity.
Qed.

Lemma matchPass_band :
  laneBand (passPool [mkCand nearP 10 10 0; mkCand farP 30 30 0])
  = [mkCand nearP 10 10 0; mkCand farP 30 30 0].
Proof.
  assert (Hp : passPool [mkCand nearP 10 10 0; mkCand farP 30 30 0]
               = [mkCand nearP 10 10 0; mkCand farP 30 30 0]).
  { unfold passPool, filter; simpl c_ahead.
    assert (H1 : Rltb 1 10 = true) by (apply Rltb_true; lra).
    assert (H2 : Rltb 1 30 = true) by (apply Rltb_true; lra).
    now rewrite H1, H2. }
  rewrite Hp. unfold laneBand, bestLateral; simpl.
  assert (H : Rleb 0 (Rmin 0 0 + 2.25) = true).
  { apply Rleb_true. unfold Rmin. destruct (Rle_dec 0 0); lra. }
  now rewrite H.
Qed.

Lemma matchPass_tap :
  pickBestPassTarget matchPass "kilo" passerP (mkVec2 1 0) false = Some nearP.
Proof.
  rewrite (pickBestPassTarget_aimed _ _ _ _ _ aim_x_guard), matchPass_cands, matchPass_band.
  unfold sortBy; simpl.
  destruct (Rle_dec _ 0) as [H|H]; [reflexivity|].
  exfalso; apply H. apply cmpTap_le. unfold tapLe; simpl. lra.
Qed.

Lemma matchPass_hold :
  pickBestPassTarget matchPass "kilo" passerP (mkVec2 1 0) true = Some farP.
Proof.
  rewrite (pickBestPassTarget_aimed _ _ _ _ _ aim_x_guard), matchPass_cands, matchPass_band.
  unfold sortBy; simpl.
  destruct (Rle_dec _ 0) as [H|H]; [|reflexivity].
  exfalso. unfold cmpHold in H. apply orNum_le in H. simpl in H.
  destruct H as [H|[_ H]]; [lra|]. apply orNum_le in H. lra.
Qed.

Lemma matchPass_kick chargeMs :
  isHumanControlledOwner matchPass (Some passerP) = true
  /\ pickKickDir passerP (moveVec passRelease) = mkVec2 1 0
  /\ chargeStep ACTION_CHARGE_FULL_MS (actionDown passRelease) true (1000 / 60) chargeMs
     = chargeMs.
Proof.
  split; [reflexivity|]. split; [|reflexivity].
  unfold pickKickDir, passRelease. cbn [moveVec].
  destruct (Rlt_dec 0.04 _) as [_|H]; [apply norm_x_axis|].
  exfalso. apply H. unfold V.lenSq; simpl. lra.
Qed.

(** C4, as stated, fails at the threshold itself.  A hold of exactly
    [ACTION_TAP_THRESHOLD_MS] does not take the far preference: with two
    team-mates straight ahead on the aim ray, 10 and 30 units away and both in
    the lane band, the pass released at that charge is kicked to the near one
    with the strength of a tap, although the far preference on the same state
    reaches the far one. *)
Lemma pass_at_threshold_is_tap :
  passPreferFar ACTION_TAP_THRESHOLD_MS = false
  /\ In (mkCand nearP 10 10 0)
        (laneBand (passPool (passCands passerP (V.norm (mkVec2 1 0))
                               (getTeamPlayers matchPass "kilo"))))
  /\ In (mkCand farP 30 30 0)
        (laneBand (passPool (passCands passerP (V.norm (mkVec2 1 0))
                               (getTeamPlayers matchPass "kilo"))))
  /\ pickBestPassTarget matchPass "kilo" passerP (mkVec2 1 0)
       (passPreferFar ACTION_TAP_THRESHOLD_MS) = Some nearP
  /\ pickBestPassTarget matchPass "kilo" passerP (mkVec2 1 0) true = Some farP
  /\ e_match (kickPhase (enginePass ACTION_TAP_THRESHOLD_MS) passRelease (1000 / 60)
                (Some passerP))
     = releaseBallWithKick matchPass passerP
         (V.norm (V.sub (p_pos nearP) (p_pos passerP)))
         (p_kickPower passerP * (0.78 + 0.62 * 0.25)
          * (0.86 + 0.22 * clamp (V.len (V.sub (p_pos nearP) (p_pos passerP)) / 46) 0 1)).
Proof.
  assert (Hpf : passPreferFar ACTION_TAP_THRESHOLD_MS = false).
  { unfold passPreferFar. apply Rltb_false. lra. }
  rewrite Hpf, matchPass_cands, matchPass_band.
  split; [reflexivity|]. split; [now left|]. split; [right; now left|].
  split; [apply matchPass_tap|]. split; [apply matchPass_hold|].
  destruct (matchPass_kick ACTION_TAP_THRESHOLD_MS) as (Hh & Hd & Hc).
  rewrite (kickPhase_pass (enginePass ACTION_TAP_THRESHOLD_MS) passRelease (1000 / 60)
             passerP Hh eq_refl), Hd.
  set (e2 := set_actionChargeMs _ _).
  destruct (passKick_release e2 passerP (mkVec2 1 0)) as [Htap _].
  change (actionChargeMs e2)
    with (chargeStep ACTION_CHARGE_FULL_MS (actionDown passRelease) true (1000 / 60)
            ACTION_TAP_THRESHOLD_MS) in Htap.
  rewrite Hc in Htap. specialize (Htap (Rle_refl _)).
  change (e_match e2) with matchPass in Htap.
  change (humanTeamId matchPass) with "kilo"%string in Htap.
  rewrite matchPass_tap in Htap. exact Htap.
Qed.

Lemma pass_target_selection_witness :
  1e-6 <= V.lenSq (V.norm (mkVec2 1 0))
  /\ (exists c,
        In c (passPool (passCands passerP (V.norm (mkVec2 1 0))
                          (getTeamPlayers matchPass "kilo")))
        /\ c_p c = nearP
        /\ forall c', In c' (passPool (passCands passerP (V.norm (mkVec2 1 0))
                                         (getTeamPlayers matchPass "kilo"))) ->
                      tapLe c c')
  /\ (exists c,
        In c (laneBand (passPool (passCands passerP (V.norm (mkVec2 1 0))
                                    (getTeamPlayers matchPass "kilo"))))
        /\ c_p c = farP
        /\ forall c', In c' (laneBand (passPool (passCands passerP (V.norm (mkVec2 1 0))
                                                   (getTeamPlayers matchPass "kilo")))) ->
                      c_dist c' <= c_dist c)
  /\ e_match (kickPhase (enginePass 300) passRelease (1000 / 60) (Some passerP))
     = releaseBallWithKick matchPass passerP
         (V.norm (V.sub (p_pos farP) (p_pos passerP)))
         (p_kickPower passerP * (0.78 + 0.62 * clamp (300 / ACTION_CHARGE_FULL_MS) 0 1)
          * (0.86 + 0.22 * clamp (V.len (V.sub (p_pos farP) (p_pos passerP)) / 46) 0 1)).
Proof.
  split; [exact aim_x_guard|].
  destruct (pass_target_selection matchPass "kilo" passerP (mkVec2 1 0) aim_x_guard)
    as (Hkick & _ & _ & _ & _ & _ & Htap & Hhold).
  split.
  { destruct (Htap nearP matchPass_tap) as (c & Hin & Hp & Hleast & _).
    exists c. auto. }
  split.
  { destruct (Hhold farP matchPass_hold) as (c & Hin & Hp & _ & Hfw).
    exists c. split; [assumption|]. split; [assumption|].
    assert (Hex : exists c0,
               In c0 (passCands passerP (V.norm (mkVec2 1 0))
                        (getTeamPlayers matchPass "kilo")) /\ 1 < c_ahead c0).
    { rewrite matchPass_cands. exists (mkCand nearP 10 10 0).
      split; [now left|]. simpl. lra. }
    destruct (Hfw Hex) as [_ Hall]. apply Hall.
    rewrite matchPass_cands, matchPass_band.
    intros c1 c2 [<-|[<-|[]]] [<-|[<-|[]]]; reflexivity. }
  destruct (matchPass_kick 300) as (Hh & Hd & Hc).
  destruct (Hkick (enginePass 300) passRelease (1000 / 60) eq_refl eq_refl Hh eq_refl Hd)
    as [_ Hfar].
  change (actionChargeMs (enginePass 300)) with 300 in Hfar.
  rewrite Hc, matchPass_hold in Hfar. apply Hfar.
  unfold ACTION_TAP_THRESHOLD_MS. lra.
Defined.

(* ================================================================== *)
(** * Further properties of the simulation code *)


(* ------------------------------------------------------------------ *)
(** ** Vectors and clamping *)

Lemma clamp_cases x lo hi :
  (hi < lo /\ clamp x lo hi = lo)
  \/ (lo <= hi /\ x <= lo /\ clamp x lo hi = lo)
  \/ (lo <= hi /\ hi <= x /\ clamp x lo hi = hi)
  \/ (lo <= x <= hi /\ clamp x lo hi = x).
Proof.
  unfold clamp, Rmax, Rmin.
  destruct (Rle_dec hi x); destruct (Rle_dec lo _); destruct (Rle_dec lo hi);
    try lra; intuition lra.
Qed.

(** X1. [clamp] never returns less than the lower bound; with ordered bounds
    the result lies between them, is [x] itself when [x] does, and is the
    nearer bound otherwise; with inverted bounds the result is the lower
    bound whatever [x] is. *)
Theorem clamp_range x lo hi :
  lo <= clamp x lo hi
  /\ (lo <= hi ->
      clamp x lo hi <= hi
      /\ (lo <= x <= hi -> clamp x lo hi = x)
      /\ (x <= lo -> clamp x lo hi = lo)
      /\ (hi <= x -> clamp x lo hi = hi)
      /\ clamp (clamp x lo hi) lo hi = clamp x lo hi)
  /\ (hi < lo -> clamp x lo hi = lo).
Proof.
  pose proof (clamp_cases x lo hi) as H.
  split; [intuition lra|]. split.
  - intros Hb. split; [intuition lra|].
    split; [intros; intuition lra|]. split; [intros; intuition lra|].
    split; [intros; intuition lra|].
    pose proof (clamp_cases (clamp x lo hi) lo hi) as H2. intuition lra.
  - intros; intuition lra.
Qed.

Lemma Rabs_le_iff x b : Rabs x <= b <-> - b <= x <= b.
Proof. unfold Rabs. destruct (Rcase_abs x); split; intros; lra. Qed.

Lemma Rabs_lt_iff x b : Rabs x < b <-> - b < x < b.
Proof. unfold Rabs. destruct (Rcase_abs x); split; intros; lra. Qed.

Lemma len_mul a s : V.len (V.mul a s) = Rabs s * V.len a.
Proof.
  unfold V.len, V.mul, V.lenSq; simpl.
  replace (vec_x a * s * (vec_x a * s) + vec_y a * s * (vec_y a * s))
    with (s * s * (vec_x a * vec_x a + vec_y a * vec_y a)) by ring.
  rewrite sqrt_mult_alt by nra.
  f_equal. replace (s * s) with (Rsqr s) by (unfold Rsqr; ring). apply sqrt_Rsqr_abs.
Qed.

Lemma len_pos_of a : 0 < V.len a -> V.len a <> 0.
Proof. lra. Qed.

Lemma vec_eta (a : Vec2) : mkVec2 (vec_x a) (vec_y a) = a.
Proof. now destruct a. Qed.

Lemma len_norm_unit a : 1e-9 < V.len a -> V.len (V.norm a) = 1.
Proof. intros H. unfold V.len. rewrite (norm_unit _ H). apply sqrt_1. Qed.

Lemma clampLen_short a maxLen : V.len a <= maxLen -> V.clampLen a maxLen = a.
Proof.
  intros H. unfold V.clampLen. destruct (Rle_dec (V.len a) maxLen); [reflexivity|lra].
Qed.

Lemma clamp_ordered x lo hi :
  lo <= hi ->
  lo <= clamp x lo hi <= hi
  /\ (lo <= x <= hi -> clamp x lo hi = x)
  /\ (x <= lo -> clamp x lo hi = lo)
  /\ (hi <= x -> clamp x lo hi = hi)
  /\ clamp (clamp x lo hi) lo hi = clamp x lo hi.
Proof.
  intros Hb. pose proof (clamp_cases x lo hi) as H.
  split; [intuition lra|].
  split; [intros; intuition lra|]. split; [intros; intuition lra|].
  split; [intros; intuition lra|].
  pose proof (clamp_cases (clamp x lo hi) lo hi) as H2. intuition lra.
Qed.

Lemma norm_unit_or_zero_facts a :
  (V.len a <= 1e-9 -> V.norm a = mkVec2 0 0)
  /\ (1e-9 < V.len a ->
      V.len (V.norm a) = 1
      /\ V.mul (V.norm a) (V.len a) = a
      /\ V.norm (V.norm a) = V.norm a).
Proof.
  split; [apply norm_zero|]. intros H.
  assert (Hl : V.len (V.norm a) = 1).
  { unfold V.len. rewrite (norm_unit _ H). apply sqrt_1. }
  split; [exact Hl|]. split.
  - unfold V.norm. destruct (Rle_dec (V.len a) 1e-9); [lra|].
    set (l := V.len a) in *. destruct a as [x y]. unfold V.mul; simpl.
    f_equal; field; lra.
  - unfold V.norm at 1. rewrite Hl. destruct (Rle_dec 1 1e-9); [lra|].
    destruct (V.norm a) as [x y]; simpl. f_equal; field.
Qed.

(** X2. [V.norm] returns the zero vector for a vector no longer than 1e-9,
    and otherwise the unit vector of the same direction: its length is 1,
    scaling it by the length of the argument gives the argument back, and
    normalising it again changes nothing. *)
Theorem norm_unit_or_zero a :
  (V.len a <= 1e-9 -> V.norm a = mkVec2 0 0)
  /\ (1e-9 < V.len a ->
      V.len (V.norm a) = 1
      /\ V.mul (V.norm a) (V.len a) = a
      /\ V.norm (V.norm a) = V.norm a).
Proof. exact (norm_unit_or_zero_facts a). Qed.

Lemma clampLen_bound_facts a maxLen :
  (V.len a <= maxLen -> V.clampLen a maxLen = a)
  /\ (0 <= maxLen ->
      V.len (V.clampLen a maxLen) <= maxLen
      /\ (exists s, 0 <= s <= 1 /\ V.clampLen a maxLen = V.mul a s)
      /\ (maxLen < V.len a -> 1e-9 < V.len a -> V.len (V.clampLen a maxLen) = maxLen))
  /\ (maxLen < 0 -> 1e-9 < V.len a ->
      V.clampLen a maxLen = V.mul a (maxLen / V.len a)
      /\ maxLen / V.len a < 0
      /\ V.len (V.clampLen a maxLen) = - maxLen).
Proof.
  assert (Hscaled : ~ V.len a <= maxLen -> ~ V.len a <= 1e-9 ->
            V.clampLen a maxLen = V.mul a (maxLen / V.len a)).
  { intros H1 H2. unfold V.clampLen.
    destruct (Rle_dec (V.len a) maxLen); [lra|].
    destruct (Rle_dec (V.len a) 1e-9); [lra|]. reflexivity. }
  assert (Hzero : V.len (mkVec2 0 0) = 0).
  { unfold V.len, V.lenSq; simpl. replace (0 * 0 + 0 * 0) with 0 by lra. apply sqrt_0. }
  pose proof (len_nonneg a) as Hn.
  split.
  { intros H. unfold V.clampLen. destruct (Rle_dec (V.len a) maxLen); [reflexivity|lra]. }
  split.
  - intros Hm.
    destruct (Rle_dec (V.len a) maxLen) as [H1|H1].
    + assert (E : V.clampLen a maxLen = a).
      { unfold V.clampLen. destruct (Rle_dec (V.len a) maxLen); [reflexivity|lra]. }
      rewrite E. split; [lra|]. split; [|intros; lra].
      exists 1. split; [lra|]. destruct a; unfold V.mul; simpl. f_equal; lra.
    + destruct (Rle_dec (V.len a) 1e-9) as [H2|H2].
      * assert (E : V.clampLen a maxLen = mkVec2 0 0).
        { unfold V.clampLen. destruct (Rle_dec (V.len a) maxLen); [lra|].
          destruct (Rle_dec (V.len a) 1e-9); [reflexivity|lra]. }
        rewrite E, Hzero. split; [lra|]. split; [|intros; lra].
        exists 0. split; [lra|]. unfold V.mul; simpl. f_equal; lra.
      * rewrite (Hscaled H1 H2), len_mul.
        assert (Hs : 0 <= maxLen / V.len a <= 1).
        { split.
          - apply Rmult_le_pos; [lra|]. left. apply Rinv_0_lt_compat. lra.
          - apply Rmult_le_reg_r with (V.len a); [lra|]. field_simplify; lra. }
        rewrite Rabs_pos_eq by lra.
        assert (E : maxLen / V.len a * V.len a = maxLen) by (field; lra).
        rewrite E. split; [lra|]. split; [|intros; reflexivity].
        exists (maxLen / V.len a). auto.
  - intros Hm Hl.
    assert (H1 : ~ V.len a <= maxLen) by lra. assert (H2 : ~ V.len a <= 1e-9) by lra.
    rewrite (Hscaled H1 H2). split; [reflexivity|].
    assert (Hs : maxLen / V.len a < 0).
    { apply Ropp_lt_cancel. rewrite Ropp_0.
      replace (- (maxLen / V.len a)) with ((- maxLen) / V.len a) by (field; lra).
      apply Rdiv_lt_0_compat; lra. }
    split; [exact Hs|]. rewrite len_mul, Rabs_left by exact Hs. field. lra.
Qed.

(** X3. [V.clampLen] returns its argument when that is no longer than the
    bound.  With a non-negative bound the result is no longer than the bound
    and is the argument scaled by a factor in [0, 1]; an argument longer than
    both the bound and 1e-9 is cut to exactly the bound.  With a negative
    bound an argument longer than 1e-9 comes back reversed, as long as the
    bound's absolute value. *)
Theorem clampLen_bound a maxLen :
  (V.len a <= maxLen -> V.clampLen a maxLen = a)
  /\ (0 <= maxLen ->
      V.len (V.clampLen a maxLen) <= maxLen
      /\ (exists s, 0 <= s <= 1 /\ V.clampLen a maxLen = V.mul a s)
      /\ (maxLen < V.len a -> 1e-9 < V.len a -> V.len (V.clampLen a maxLen) = maxLen))
  /\ (maxLen < 0 -> 1e-9 < V.len a ->
      V.clampLen a maxLen = V.mul a (maxLen / V.len a)
      /\ maxLen / V.len a < 0
      /\ V.len (V.clampLen a maxLen) = - maxLen).
Proof. exact (clampLen_bound_facts a maxLen). Qed.

(* ------------------------------------------------------------------ *)
(** ** Player and ball kinematics *)

Lemma integratePlayer_core p desiredVel dt :
  p_core (integratePlayer p desiredVel dt) = p_core p.
Proof.
  unfold integratePlayer. cbv zeta.
  destruct (Rlt_dec 0.2 _); destruct (Rlt_dec _ _); reflexivity.
Qed.

Lemma integratePlayer_speed_cap_facts p desiredVel dt :
  let p' := integratePlayer p desiredVel dt in
  V.len (p_vel p') <= Rmax (p_maxSpeed p) (V.len desiredVel)
  /\ p_pos p' = V.add (p_pos p) (V.mul (p_vel p') dt)
  /\ (V.len (V.sub desiredVel (p_vel p)) <= p_accel p * dt -> p_vel p' = desiredVel)
  /\ (V.len (V.add (p_vel p) (V.clampLen (V.sub desiredVel (p_vel p)) (p_accel p * dt))) <= 0.2 ->
      p_facingRad p' = p_facingRad p)
  /\ p_core p' = p_core p
  /\ p_maxSpeed p' = p_maxSpeed p /\ p_accel p' = p_accel p /\ p_kickPower p' = p_kickPower p.
Proof.
  cbv zeta.
  set (vel1 := V.add (p_vel p) (V.clampLen (V.sub desiredVel (p_vel p)) (p_accel p * dt))).
  set (cap := Rmax (p_maxSpeed p) (V.len desiredVel)).
  assert (Hcap : 0 <= cap).
  { unfold cap. pose proof (len_nonneg desiredVel). pose proof (Rmax_r (p_maxSpeed p) (V.len desiredVel)). lra. }
  assert (Hvel : p_vel (integratePlayer p desiredVel dt)
                 = if Rlt_dec cap (V.len vel1) then V.mul vel1 (cap / V.len vel1) else vel1).
  { unfold integratePlayer. cbv zeta. fold cap. unfold V.add in vel1. fold vel1.
    destruct (Rlt_dec 0.2 (V.len vel1)); destruct (Rlt_dec cap (V.len vel1)); reflexivity. }
  split.
  { rewrite Hvel. destruct (Rlt_dec cap (V.len vel1)) as [H|H]; [|lra].
    rewrite len_mul.
    assert (Hs : 0 <= cap / V.len vel1).
    { apply Rmult_le_pos; [lra|]. left. apply Rinv_0_lt_compat. lra. }
    rewrite Rabs_pos_eq by exact Hs.
    right. field. lra. }
  split.
  { unfold integratePlayer. cbv zeta.
    destruct (Rlt_dec 0.2 _); destruct (Rlt_dec _ _); reflexivity. }
  split.
  { intros Hreach. rewrite Hvel.
    assert (E : vel1 = desiredVel).
    { unfold vel1. rewrite (clampLen_short _ _ Hreach). destruct desiredVel, (p_vel p); unfold V.add, V.sub; simpl.
      f_equal; lra. }
    rewrite E. destruct (Rlt_dec cap (V.len desiredVel)) as [H|H]; [|reflexivity].
    unfold cap in H. pose proof (Rmax_r (p_maxSpeed p) (V.len desiredVel)). lra. }
  split.
  { intros Hslow. unfold integratePlayer. cbv zeta. unfold V.add in vel1. fold vel1.
    destruct (Rlt_dec 0.2 (V.len vel1)); [lra|]. reflexivity. }
  split; [apply integratePlayer_core|].
  unfold integratePlayer. cbv zeta.
  destruct (Rlt_dec 0.2 _); destruct (Rlt_dec _ _); auto.
Qed.

(** X4. [integratePlayer] never leaves a player faster than the larger of the
    player's top speed and the desired speed, and moves the player by the new
    velocity times [dt].  A desired velocity within [accel * dt] of the
    current one is reached in this call.  The facing changes only when the
    speed after acceleration exceeds 0.2.  Identity, team, role and the
    ball flag are untouched. *)
Theorem integratePlayer_speed_cap p desiredVel dt :
  let p' := integratePlayer p desiredVel dt in
  V.len (p_vel p') <= Rmax (p_maxSpeed p) (V.len desiredVel)
  /\ p_pos p' = V.add (p_pos p) (V.mul (p_vel p') dt)
  /\ (V.len (V.sub desiredVel (p_vel p)) <= p_accel p * dt -> p_vel p' = desiredVel)
  /\ (V.len (V.add (p_vel p) (V.clampLen (V.sub desiredVel (p_vel p)) (p_accel p * dt))) <= 0.2 ->
      p_facingRad p' = p_facingRad p)
  /\ p_core p' = p_core p
  /\ p_maxSpeed p' = p_maxSpeed p /\ p_accel p' = p_accel p /\ p_kickPower p' = p_kickPower p.
Proof. exact (integratePlayer_speed_cap_facts p desiredVel dt). Qed.

Lemma containPlayerInPitch_inside_facts cfg p :
  2 * PLAYER_RADIUS <= pitchW cfg -> 2 * PLAYER_RADIUS <= pitchH cfg ->
  let p' := containPlayerInPitch cfg p in
  Rabs (vec_x (p_pos p')) <= pitchW cfg / 2 - PLAYER_RADIUS
  /\ Rabs (vec_y (p_pos p')) <= pitchH cfg / 2 - PLAYER_RADIUS
  /\ (Rabs (vec_x (p_pos p)) <= pitchW cfg / 2 - PLAYER_RADIUS ->
      Rabs (vec_y (p_pos p)) <= pitchH cfg / 2 - PLAYER_RADIUS -> p' = p)
  /\ containPlayerInPitch cfg p' = p'
  /\ p_vel p' = p_vel p /\ p_core p' = p_core p.
Proof.
  intros HW HH. cbv zeta. unfold containPlayerInPitch. cbv zeta.
  set (hw := pitchW cfg / 2) in *. set (hh := pitchH cfg / 2) in *.
  assert (Hw : - hw + PLAYER_RADIUS <= hw - PLAYER_RADIUS) by (unfold hw; lra).
  assert (Hh : - hh + PLAYER_RADIUS <= hh - PLAYER_RADIUS) by (unfold hh; lra).
  destruct (clamp_ordered (vec_x (p_pos p)) _ _ Hw) as (Hx3 & Hx4 & _ & _ & Hx5).
  destruct (clamp_ordered (vec_y (p_pos p)) _ _ Hh) as (Hy3 & Hy4 & _ & _ & Hy5).
  simpl.
  split; [apply Rabs_le_iff; lra|]. split; [apply Rabs_le_iff; lra|].
  split.
  { intros Hx Hy. apply Rabs_le_iff in Hx. apply Rabs_le_iff in Hy.
    rewrite Hx4 by lra. rewrite Hy4 by lra. destruct p as [? ? ? ? [x y] ? ? ? ? ? ? ?]. reflexivity. }
  split; [|split; reflexivity].
  unfold set_p_pos; simpl. rewrite Hx5, Hy5. reflexivity.
Qed.

(** X5. On a pitch at least two player radii wide and high,
    [containPlayerInPitch] puts the player's centre at least one radius
    inside every edge, leaves a player who is already there where the player
    is, and applying it twice is the same as applying it once. *)
Theorem containPlayerInPitch_inside cfg p :
  2 * PLAYER_RADIUS <= pitchW cfg -> 2 * PLAYER_RADIUS <= pitchH cfg ->
  let p' := containPlayerInPitch cfg p in
  Rabs (vec_x (p_pos p')) <= pitchW cfg / 2 - PLAYER_RADIUS
  /\ Rabs (vec_y (p_pos p')) <= pitchH cfg / 2 - PLAYER_RADIUS
  /\ (Rabs (vec_x (p_pos p)) <= pitchW cfg / 2 - PLAYER_RADIUS ->
      Rabs (vec_y (p_pos p)) <= pitchH cfg / 2 - PLAYER_RADIUS -> p' = p)
  /\ containPlayerInPitch cfg p' = p'
  /\ p_vel p' = p_vel p /\ p_core p' = p_core p.
Proof. exact (containPlayerInPitch_inside_facts cfg p). Qed.

Lemma containPlayerInPitch_inside_witness :
  2 * PLAYER_RADIUS <= pitchW DEFAULT_ENGINE_CONFIG
  /\ 2 * PLAYER_RADIUS <= pitchH DEFAULT_ENGINE_CONFIG
  /\ Rabs (vec_x (p_pos (containPlayerInPitch DEFAULT_ENGINE_CONFIG mfBackwards)))
     <= pitchW DEFAULT_ENGINE_CONFIG / 2 - PLAYER_RADIUS.
Proof.
  assert (HW : 2 * PLAYER_RADIUS <= pitchW DEFAULT_ENGINE_CONFIG)
    by (unfold PLAYER_RADIUS; simpl; lra).
  assert (HH : 2 * PLAYER_RADIUS <= pitchH DEFAULT_ENGINE_CONFIG)
    by (unfold PLAYER_RADIUS; simpl; lra).
  split; [exact HW|]. split; [exact HH|].
  exact (proj1 (containPlayerInPitch_inside DEFAULT_ENGINE_CONFIG mfBackwards HW HH)).
Defined.

(** X6. For a ball that fits in the pitch, [bounceBallOffPitch] always brings
    the ball back inside the top and bottom walls.  Outside the goal-mouth
    band it also brings the ball back inside the side walls; inside the band
    the side walls do nothing.  A wall that moves the ball turns its
    velocity component back into the pitch, and no velocity component grows.
    A ball inside all walls is returned as it is. *)
Theorem bounceBallOffPitch_contains cfg b :
  b_radius b <= pitchW cfg / 2 -> b_radius b <= pitchH cfg / 2 ->
  let b' := bounceBallOffPitch cfg b in
  Rabs (vec_y (b_pos b')) <= pitchH cfg / 2 - b_radius b
  /\ (goalHalfW cfg < Rabs (vec_y (b_pos b)) ->
      Rabs (vec_x (b_pos b')) <= pitchW cfg / 2 - b_radius b)
  /\ (Rabs (vec_y (b_pos b)) <= goalHalfW cfg ->
      vec_x (b_pos b') = vec_x (b_pos b) /\ vec_x (b_vel b') = vec_x (b_vel b))
  /\ (vec_x (b_pos b') <> vec_x (b_pos b) -> vec_x (b_vel b') * vec_x (b_pos b') <= 0)
  /\ (vec_y (b_pos b') <> vec_y (b_pos b) -> vec_y (b_vel b') * vec_y (b_pos b') <= 0)
  /\ Rabs (vec_x (b_vel b')) <= Rabs (vec_x (b_vel b))
  /\ Rabs (vec_y (b_vel b')) <= Rabs (vec_y (b_vel b))
  /\ (Rabs (vec_x (b_pos b)) <= pitchW cfg / 2 - b_radius b ->
      Rabs (vec_y (b_pos b)) <= pitchH cfg / 2 - b_radius b -> b' = b)
  /\ b_radius b' = b_radius b
  /\ b_ownerPlayerId b' = b_ownerPlayerId b
  /\ b_lastTouchTeamId b' = b_lastTouchTeamId b
  /\ b_lastKickPlayerId b' = b_lastKickPlayerId b
  /\ b_kickNoPickupMs b' = b_kickNoPickupMs b.
Proof.
  intros HW HH. cbv zeta. unfold bounceBallOffPitch. cbv zeta.
  set (hw := pitchW cfg / 2) in *. set (hh := pitchH cfg / 2) in *.
  rewrite !Rabs_le_iff.
  destruct b as [[px py] [vx vy] r o lt lk kn]; simpl in *.
  pose proof (Rabs_pos vx) as Px. pose proof (Rabs_pos vy) as Py.
  pose proof (proj1 (Rabs_le_iff vx (Rabs vx)) (Rle_refl _)) as Bx.
  pose proof (proj1 (Rabs_le_iff vy (Rabs vy)) (Rle_refl _)) as By.
  unfold BALL_RESTITUTION.
  unfold Rleb. destruct (Rle_dec (Rabs py) (goalHalfW cfg)) as [Hm|Hm]; simpl.
  - destruct (Rlt_dec py (- hh + r)); [|destruct (Rlt_dec (hh - r) py)]; simpl;
      repeat split; intros; try lra; try congruence; try nra.
  - destruct (Rlt_dec px (- hw + r)); [|destruct (Rlt_dec (hw - r) px)]; simpl;
      (destruct (Rlt_dec py (- hh + r)); [|destruct (Rlt_dec (hh - r) py)]); simpl;
      repeat split; intros; try lra; try congruence; try nra;
      exfalso; apply Hm; apply Rabs_le_iff; lra.
Qed.

Lemma friction_factor dt : 0 <= dt -> 0 < Rpower BALL_FRICTION_PER_SEC dt <= 1.
Proof.
  intros H. split; [apply exp_pos|].
  assert (E : Rpower 1 dt = 1).
  { unfold Rpower. rewrite ln_1, Rmult_0_r. apply exp_0. }
  rewrite <- E. apply Rle_Rpower_l; [exact H|]. unfold BALL_FRICTION_PER_SEC. lra.
Qed.

Lemma Rabs_scaled v f : 0 < f <= 1 -> Rabs (v * f) <= Rabs v.
Proof.
  intros Hf. rewrite Rabs_mult, (Rabs_pos_eq f) by lra.
  pose proof (Rabs_pos v). nra.
Qed.

Lemma tiny_zero_bound v f :
  0 < f <= 1 -> Rabs (if Rlt_dec (Rabs (v * f)) 0.05 then 0 else v * f) <= Rabs v.
Proof.
  intros Hf. destruct (Rlt_dec (Rabs (v * f)) 0.05); [|now apply Rabs_scaled].
  pose proof (Rabs_pos v). apply Rabs_le_iff. lra.
Qed.

Lemma len_le_of_components a b :
  Rabs (vec_x a) <= Rabs (vec_x b) -> Rabs (vec_y a) <= Rabs (vec_y b) -> V.len a <= V.len b.
Proof.
  intros Hx Hy. unfold V.len, V.lenSq. apply sqrt_le_1_alt.
  assert (S : forall u v, Rabs u <= Rabs v -> u * u <= v * v).
  { intros u v H. unfold Rabs in H.
    destruct (Rcase_abs u); destruct (Rcase_abs v); nra. }
  pose proof (S _ _ Hx). pose proof (S _ _ Hy). lra.
Qed.

Lemma bounce_frame cfg b :
  Rabs (vec_x (b_vel (bounceBallOffPitch cfg b))) <= Rabs (vec_x (b_vel b))
  /\ Rabs (vec_y (b_vel (bounceBallOffPitch cfg b))) <= Rabs (vec_y (b_vel b))
  /\ b_radius (bounceBallOffPitch cfg b) = b_radius b
  /\ b_ownerPlayerId (bounceBallOffPitch cfg b) = b_ownerPlayerId b
  /\ b_lastTouchTeamId (bounceBallOffPitch cfg b) = b_lastTouchTeamId b
  /\ b_lastKickPlayerId (bounceBallOffPitch cfg b) = b_lastKickPlayerId b
  /\ b_kickNoPickupMs (bounceBallOffPitch cfg b) = b_kickNoPickupMs b.
Proof.
  unfold bounceBallOffPitch. cbv zeta. rewrite !Rabs_le_iff.
  destruct b as [[px py] [vx vy] r o lt lk kn]; simpl in *.
  pose proof (Rabs_pos vx) as Px. pose proof (Rabs_pos vy) as Py.
  pose proof (proj1 (Rabs_le_iff vx (Rabs vx)) (Rle_refl _)) as Bx.
  pose proof (proj1 (Rabs_le_iff vy (Rabs vy)) (Rle_refl _)) as By.
  unfold BALL_RESTITUTION.
  destruct (negb _); [destruct (Rlt_dec px _); [|destruct (Rlt_dec _ px)]|]; simpl;
    (destruct (Rlt_dec py _); [|destruct (Rlt_dec _ py)]); simpl;
    repeat split; try reflexivity; lra.
Qed.

(** X7. Over a non-negative time step [integrateFreeBall] never makes a
    velocity component, nor the speed, of the ball larger.  When it reports a
    goal the ball has moved by its old velocity times [dt], has not been
    bounced, and the report is what [detectGoal] says of the returned ball;
    otherwise the report names no team.  Radius, owner, last touch and kick
    protection are untouched. *)
Theorem integrateFreeBall_slows m cfg b dt :
  0 <= dt ->
  let b' := fst (integrateFreeBall m cfg b dt) in
  let g := snd (integrateFreeBall m cfg b dt) in
  Rabs (vec_x (b_vel b')) <= Rabs (vec_x (b_vel b))
  /\ Rabs (vec_y (b_vel b')) <= Rabs (vec_y (b_vel b))
  /\ V.len (b_vel b') <= V.len (b_vel b)
  /\ (scored g = true ->
      b_pos b' = V.add (b_pos b) (V.mul (b_vel b) dt) /\ g = detectGoal m cfg b')
  /\ (scored g = false -> g = mkGoal false None)
  /\ b_radius b' = b_radius b
  /\ b_ownerPlayerId b' = b_ownerPlayerId b
  /\ b_lastTouchTeamId b' = b_lastTouchTeamId b
  /\ b_lastKickPlayerId b' = b_lastKickPlayerId b
  /\ b_kickNoPickupMs b' = b_kickNoPickupMs b.
Proof.
  intros Hdt. cbv zeta.
  pose proof (friction_factor dt Hdt) as Hf.
  set (f := Rpower BALL_FRICTION_PER_SEC dt) in *.
  set (vx := if Rlt_dec (Rabs (vec_x (b_vel b) * f)) 0.05 then 0 else vec_x (b_vel b) * f).
  set (vy := if Rlt_dec (Rabs (vec_y (b_vel b) * f)) 0.05 then 0 else vec_y (b_vel b) * f).
  set (b2 := set_b_vel (set_b_pos b (mkVec2 (vec_x (b_pos b) + vec_x (b_vel b) * dt)
                                             (vec_y (b_pos b) + vec_y (b_vel b) * dt)))
                       (mkVec2 vx vy)).
  assert (E : integrateFreeBall m cfg b dt =
              if scored (detectGoal m cfg b2) then (b2, detectGoal m cfg b2)
              else (bounceBallOffPitch cfg b2, mkGoal false None)) by reflexivity.
  assert (Hvx : Rabs vx <= Rabs (vec_x (b_vel b))).
  { apply tiny_zero_bound, Hf. }
  assert (Hvy : Rabs vy <= Rabs (vec_y (b_vel b))).
  { apply tiny_zero_bound, Hf. }
  pose proof (bounce_frame cfg b2) as (Bx & By & Br & Bo & Bt & Bk & Bn).
  assert (Hcomp : Rabs (vec_x (b_vel (fst (integrateFreeBall m cfg b dt)))) <= Rabs (vec_x (b_vel b))
                  /\ Rabs (vec_y (b_vel (fst (integrateFreeBall m cfg b dt)))) <= Rabs (vec_y (b_vel b))).
  { rewrite E. destruct (scored (detectGoal m cfg b2)); simpl; [split; assumption|].
    simpl in Bx, By. split; lra. }
  destruct Hcomp as [Hx Hy].
  split; [exact Hx|]. split; [exact Hy|]. split; [now apply len_le_of_components|].
  rewrite E. destruct (scored (detectGoal m cfg b2)) eqn:Es; simpl.
  - split; [intros _; split; reflexivity|]. split; [rewrite Es; discriminate|].
    repeat split; reflexivity.
  - split; [discriminate|]. split; [reflexivity|].
    rewrite Br, Bo, Bt, Bk, Bn. repeat split; reflexivity.
Qed.

(** X8. [attachBallToOwner] puts the ball on the owner's facing direction at
    distance [PLAYER_RADIUS + 0.85 * radius] from the owner's centre (for a
    radius that keeps this offset non-negative) and gives it the owner's
    velocity; the ball's other fields are untouched. *)
Theorem attachBallToOwner_in_front b owner :
  0 <= PLAYER_RADIUS + b_radius b * 0.85 ->
  let b' := attachBallToOwner b owner in
  V.dist (b_pos b') (p_pos owner) = PLAYER_RADIUS + b_radius b * 0.85
  /\ V.sub (b_pos b') (p_pos owner)
     = V.mul (facingVec owner) (PLAYER_RADIUS + b_radius b * 0.85)
  /\ b_vel b' = p_vel owner
  /\ b_radius b' = b_radius b
  /\ b_ownerPlayerId b' = b_ownerPlayerId b
  /\ b_lastTouchTeamId b' = b_lastTouchTeamId b
  /\ b_lastKickPlayerId b' = b_lastKickPlayerId b
  /\ b_kickNoPickupMs b' = b_kickNoPickupMs b.
Proof.
  intros Hoff. cbv zeta.
  set (off := PLAYER_RADIUS + b_radius b * 0.85) in *.
  assert (Hsub : V.sub (b_pos (attachBallToOwner b owner)) (p_pos owner)
                 = V.mul (facingVec owner) off).
  { unfold attachBallToOwner, facingVec, V.sub, V.mul; simpl. fold off. f_equal; ring. }
  split.
  { unfold V.dist, V.distSq. rewrite Hsub.
    change (sqrt (V.lenSq (V.mul (facingVec owner) off))) with (V.len (V.mul (facingVec owner) off)).
    rewrite len_mul, Rabs_pos_eq by exact Hoff.
    assert (Hf : V.len (facingVec owner) = 1).
    { unfold V.len, V.lenSq, facingVec; simpl.
      pose proof (sin2_cos2 (p_facingRad owner)) as H. unfold Rsqr in H.
      replace (cos (p_facingRad owner) * cos (p_facingRad owner)
               + sin (p_facingRad owner) * sin (p_facingRad owner)) with 1 by lra.
      apply sqrt_1. }
    rewrite Hf. ring. }
  split; [exact Hsub|].
  split; [unfold attachBallToOwner; simpl; apply vec_eta|].
  repeat split; reflexivity.
Qed.

(* ------------------------------------------------------------------ *)
(** ** Claiming and picking up a free ball *)

Lemma tryClaimBall_rule_facts m :
  (truthy (b_ownerPlayerId (ball m)) = true -> tryClaimBall m = (m, possession m))
  /\ (truthy (b_ownerPlayerId (ball m)) = false ->
      (BALL_CLAIM_SPEED_MAX < V.len (b_vel (ball m)) -> tryClaimBall m = (m, noPossession))
      /\ (forall p, In p (playersById m) -> kickImmune (ball m) p = false ->
            V.len (b_vel (ball m)) <= BALL_CLAIM_SPEED_MAX ->
            (forall q, In q (playersById m) -> kickImmune (ball m) q = false ->
               V.distSq (p_pos p) (b_pos (ball m)) <= V.distSq (p_pos q) (b_pos (ball m))) ->
            (V.distSq (p_pos p) (b_pos (ball m)) <= BALL_CLAIM_DIST * BALL_CLAIM_DIST ->
             exists w, pos_playerId (snd (tryClaimBall m)) = Some (p_id w)
                       /\ V.distSq (p_pos w) (b_pos (ball m)) = V.distSq (p_pos p) (b_pos (ball m)))
            /\ (BALL_CLAIM_DIST * BALL_CLAIM_DIST < V.distSq (p_pos p) (b_pos (ball m)) ->
                tryClaimBall m = (m, noPossession)))
      /\ (tryClaimBall m = (m, noPossession)
          \/ exists w,
               In w (playersById m)
               /\ kickImmune (ball m) w = false
               /\ V.len (b_vel (ball m)) <= BALL_CLAIM_SPEED_MAX
               /\ V.distSq (p_pos w) (b_pos (ball m)) <= BALL_CLAIM_DIST * BALL_CLAIM_DIST
               /\ (forall q, In q (playersById m) -> kickImmune (ball m) q = false ->
                     V.distSq (p_pos w) (b_pos (ball m)) <= V.distSq (p_pos q) (b_pos (ball m)))
               /\ snd (tryClaimBall m) = mkPossession (Some (p_teamId w)) (Some (p_id w))
               /\ b_ownerPlayerId (ball (fst (tryClaimBall m))) = Some (p_id w)
               /\ b_lastTouchTeamId (ball (fst (tryClaimBall m))) = Some (p_teamId w)
               /\ b_lastKickPlayerId (ball (fst (tryClaimBall m))) = None
               /\ b_kickNoPickupMs (ball (fst (tryClaimBall m))) = 0
               /\ b_pos (ball (fst (tryClaimBall m))) = b_pos (ball m)
               /\ b_vel (ball (fst (tryClaimBall m))) = b_vel (ball m))).
Proof.
  split.
  { intros H. unfold tryClaimBall. cbv zeta. now rewrite H. }
  intros Hfree. split; [|split].
  - intros Hfast. unfold tryClaimBall. cbv zeta. rewrite Hfree.
    destruct (Rlt_dec BALL_CLAIM_SPEED_MAX _); [reflexivity|lra].
  - intros p Hin Himm Hslow Hnear.
    unfold tryClaimBall. cbv zeta. rewrite Hfree.
    destruct (Rlt_dec BALL_CLAIM_SPEED_MAX _); [lra|].
    destruct (nearestBy _ _ (playersById m)) as [[w d]|] eqn:E.
    + apply nearestBy_some in E. destruct E as (Hw & He & -> & Hmin).
      apply negb_true_iff in He.
      assert (Hwp : V.distSq (p_pos w) (b_pos (ball m)) = V.distSq (p_pos p) (b_pos (ball m))).
      { apply Rle_antisym; [apply Hmin; [assumption|now rewrite Himm]|now apply Hnear]. }
      split; intros Hd.
      * destruct (Rle_dec _ _); [|lra]. exists w. simpl. auto.
      * destruct (Rle_dec _ _); [lra|reflexivity].
    + rewrite nearestBy_none in E. specialize (E p Hin). rewrite Himm in E. discriminate.
  - unfold tryClaimBall. cbv zeta. rewrite Hfree.
    destruct (Rlt_dec BALL_CLAIM_SPEED_MAX _); [now left|].
    destruct (nearestBy _ _ (playersById m)) as [[w d]|] eqn:E; [|now left].
    apply nearestBy_some in E. destruct E as (Hw & He & -> & Hmin).
    apply negb_true_iff in He.
    destruct (Rle_dec _ _); [|now left]. right. exists w. simpl.
    split; [assumption|]. split; [assumption|]. split; [lra|]. split; [assumption|].
    split.
    { intros q Hq Hqi. apply Hmin; [assumption|now rewrite Hqi]. }
    repeat split; reflexivity.
Qed.

(** X9. [tryClaimBall] leaves an owned ball alone and reports the stored
    possession.  A free ball faster than [BALL_CLAIM_SPEED_MAX] is never
    claimed.  A slow free ball is claimed exactly when the stored player
    nearest to it, the kick-immune last kicker not counted, is within
    [BALL_CLAIM_DIST]: that player becomes the owner and the team of the last
    touch, kick protection is cleared, and the ball keeps position and
    velocity; in every other case the match is returned unchanged with no
    possession. *)
Theorem tryClaimBall_rule m :
  (truthy (b_ownerPlayerId (ball m)) = true -> tryClaimBall m = (m, possession m))
  /\ (truthy (b_ownerPlayerId (ball m)) = false ->
      (BALL_CLAIM_SPEED_MAX < V.len (b_vel (ball m)) -> tryClaimBall m = (m, noPossession))
      /\ (forall p, In p (playersById m) -> kickImmune (ball m) p = false ->
            V.len (b_vel (ball m)) <= BALL_CLAIM_SPEED_MAX ->
            (forall q, In q (playersById m) -> kickImmune (ball m) q = false ->
               V.distSq (p_pos p) (b_pos (ball m)) <= V.distSq (p_pos q) (b_pos (ball m))) ->
            (V.distSq (p_pos p) (b_pos (ball m)) <= BALL_CLAIM_DIST * BALL_CLAIM_DIST ->
             exists w, pos_playerId (snd (tryClaimBall m)) = Some (p_id w)
                       /\ V.distSq (p_pos w) (b_pos (ball m)) = V.distSq (p_pos p) (b_pos (ball m)))
            /\ (BALL_CLAIM_DIST * BALL_CLAIM_DIST < V.distSq (p_pos p) (b_pos (ball m)) ->
                tryClaimBall m = (m, noPossession)))
      /\ (tryClaimBall m = (m, noPossession)
          \/ exists w,
               In w (playersById m)
               /\ kickImmune (ball m) w = false
               /\ V.len (b_vel (ball m)) <= BALL_CLAIM_SPEED_MAX
               /\ V.distSq (p_pos w) (b_pos (ball m)) <= BALL_CLAIM_DIST * BALL_CLAIM_DIST
               /\ (forall q, In q (playersById m) -> kickImmune (ball m) q = false ->
                     V.distSq (p_pos w) (b_pos (ball m)) <= V.distSq (p_pos q) (b_pos (ball m)))
               /\ snd (tryClaimBall m) = mkPossession (Some (p_teamId w)) (Some (p_id w))
               /\ b_ownerPlayerId (ball (fst (tryClaimBall m))) = Some (p_id w)
               /\ b_lastTouchTeamId (ball (fst (tryClaimBall m))) = Some (p_teamId w)
               /\ b_lastKickPlayerId (ball (fst (tryClaimBall m))) = None
               /\ b_kickNoPickupMs (ball (fst (tryClaimBall m))) = 0
               /\ b_pos (ball (fst (tryClaimBall m))) = b_pos (ball m)
               /\ b_vel (ball (fst (tryClaimBall m))) = b_vel (ball m))).
Proof. exact (tryClaimBall_rule_facts m). Qed.


(* ------------------------------------------------------------------ *)
(** ** Pick-up, switching and kicking helpers of the step *)

Lemma pickupEligible_spec b p :
  pickupEligible b p = true <->
  kickImmune b p = false
  /\ V.distSq (p_pos p) (b_pos b)
     <= (PLAYER_RADIUS + b_radius b + BALL_PICKUP_PAD)
        * (PLAYER_RADIUS + b_radius b + BALL_PICKUP_PAD).
Proof.
  unfold pickupEligible. cbv zeta.
  rewrite andb_true_iff, negb_true_iff, Rleb_true. tauto.
Qed.

Lemma tryImmediateBallPickup_rule_facts m :
  (truthy (b_ownerPlayerId (ball m)) = true -> tryImmediateBallPickup m = (m, None))
  /\ ((forall q, In q (playersById m) -> pickupEligible (ball m) q = false) ->
      tryImmediateBallPickup m = (m, None))
  /\ (truthy (b_ownerPlayerId (ball m)) = false ->
      forall p, In p (playersById m) ->
        kickImmune (ball m) p = false ->
        V.distSq (p_pos p) (b_pos (ball m))
        <= (PLAYER_RADIUS + b_radius (ball m) + BALL_PICKUP_PAD)
           * (PLAYER_RADIUS + b_radius (ball m) + BALL_PICKUP_PAD) ->
        exists w,
          tryImmediateBallPickup m = (setBallOwner m w, Some w)
          /\ In w (playersById m)
          /\ kickImmune (ball m) w = false
          /\ V.distSq (p_pos w) (b_pos (ball m)) <= V.distSq (p_pos p) (b_pos (ball m)))
  /\ (forall w,
        b_ownerPlayerId (ball (setBallOwner m w)) = Some (p_id w)
        /\ b_lastTouchTeamId (ball (setBallOwner m w)) = Some (p_teamId w)
        /\ possession (setBallOwner m w) = mkPossession (Some (p_teamId w)) (Some (p_id w))
        /\ b_lastKickPlayerId (ball (setBallOwner m w)) = b_lastKickPlayerId (ball m)
        /\ b_kickNoPickupMs (ball (setBallOwner m w)) = b_kickNoPickupMs (ball m)
        /\ b_pos (ball (setBallOwner m w)) = b_pos (ball m)
        /\ b_vel (ball (setBallOwner m w)) = b_vel (ball m)).
Proof.
  split; [|split; [|split]].
  - intros H. unfold tryImmediateBallPickup. cbv zeta. now rewrite H.
  - intros H. unfold tryImmediateBallPickup. cbv zeta.
    destruct (truthy _); [reflexivity|].
    destruct (nearestBy _ _ _) as [[w d]|] eqn:E; [|reflexivity].
    apply nearestBy_some in E. destruct E as (Hw & He & _).
    rewrite (H w Hw) in He. discriminate.
  - intros Hfree p Hin Himm Hd.
    assert (He : pickupEligible (ball m) p = true) by (apply pickupEligible_spec; auto).
    unfold tryImmediateBallPickup. cbv zeta. rewrite Hfree.
    destruct (nearestBy _ _ (playersById m)) as [[w d]|] eqn:E.
    + apply nearestBy_some in E. destruct E as (Hw & Hwe & -> & Hmin).
      exists w. split; [reflexivity|]. split; [assumption|].
      apply pickupEligible_spec in Hwe. split; [tauto|]. now apply Hmin.
    + rewrite nearestBy_none in E. rewrite (E p Hin) in He. discriminate.
  - intros w. repeat split; reflexivity.
Qed.

(** X10. [tryImmediateBallPickup] does nothing to an owned ball.  A free ball
    goes, whatever its speed, to the stored player nearest to it among those
    within the pick-up radius [PLAYER_RADIUS + radius + BALL_PICKUP_PAD] who
    are not the kick-immune last kicker; that player becomes owner, last
    touch and possession, and the kick protection fields, position and
    velocity of the ball stay as they are.  With no such player the match is
    returned unchanged. *)
Theorem tryImmediateBallPickup_rule m :
  (truthy (b_ownerPlayerId (ball m)) = true -> tryImmediateBallPickup m = (m, None))
  /\ ((forall q, In q (playersById m) -> pickupEligible (ball m) q = false) ->
      tryImmediateBallPickup m = (m, None))
  /\ (truthy (b_ownerPlayerId (ball m)) = false ->
      forall p, In p (playersById m) ->
        kickImmune (ball m) p = false ->
        V.distSq (p_pos p) (b_pos (ball m))
        <= (PLAYER_RADIUS + b_radius (ball m) + BALL_PICKUP_PAD)
           * (PLAYER_RADIUS + b_radius (ball m) + BALL_PICKUP_PAD) ->
        exists w,
          tryImmediateBallPickup m = (setBallOwner m w, Some w)
          /\ In w (playersById m)
          /\ kickImmune (ball m) w = false
          /\ V.distSq (p_pos w) (b_pos (ball m)) <= V.distSq (p_pos p) (b_pos (ball m)))
  /\ (forall w,
        b_ownerPlayerId (ball (setBallOwner m w)) = Some (p_id w)
        /\ b_lastTouchTeamId (ball (setBallOwner m w)) = Some (p_teamId w)
        /\ possession (setBallOwner m w) = mkPossession (Some (p_teamId w)) (Some (p_id w))
        /\ b_lastKickPlayerId (ball (setBallOwner m w)) = b_lastKickPlayerId (ball m)
        /\ b_kickNoPickupMs (ball (setBallOwner m w)) = b_kickNoPickupMs (ball m)
        /\ b_pos (ball (setBallOwner m w)) = b_pos (ball m)
        /\ b_vel (ball (setBallOwner m w)) = b_vel (ball m)).
Proof. exact (tryImmediateBallPickup_rule_facts m). Qed.

Lemma getTeamPlayers_nil_roles m teamId cur :
  (forall p, In p (getTeamPlayers m teamId) -> p_role p = GK) ->
  pickBestSwitchCandidate m teamId cur = cur.
Proof.
  intros H. unfold pickBestSwitchCandidate. cbv zeta.
  destruct (nearestBy _ _ _) as [[w d]|] eqn:E; [|reflexivity].
  apply nearestBy_some in E. destruct E as (Hw & He & _).
  unfold nonGK in He. rewrite (H w Hw) in He. discriminate.
Qed.

Lemma switch_candidate_is_outfield_facts m teamId cur aimDir :
  (pickBestSwitchCandidate m teamId cur = cur
   /\ (forall p, In p (getTeamPlayers m teamId) -> p_role p = GK)
   \/ exists p, In p (getTeamPlayers m teamId) /\ p_role p <> GK
        /\ pickBestSwitchCandidate m teamId cur = p_id p
        /\ forall q, In q (getTeamPlayers m teamId) -> p_role q <> GK ->
             V.distSq (p_pos p) (b_pos (ball m)) <= V.distSq (p_pos q) (b_pos (ball m)))
  /\ (pickDefensiveSwitchCandidate m teamId cur aimDir = cur
      \/ exists p, In p (getTeamPlayers m teamId) /\ p_role p <> GK
           /\ pickDefensiveSwitchCandidate m teamId cur aimDir = p_id p)
  /\ (V.lenSq (V.norm aimDir) < 1e-6 ->
      pickDefensiveSwitchCandidate m teamId cur aimDir = pickBestSwitchCandidate m teamId cur).
Proof.
  assert (Hng : forall p, nonGK p = true <-> p_role p <> GK).
  { intros p. unfold nonGK. destruct (p_role p); simpl; split; intros; congruence. }
  assert (Hbest : pickBestSwitchCandidate m teamId cur = cur
                  /\ (forall p, In p (getTeamPlayers m teamId) -> p_role p = GK)
                  \/ exists p, In p (getTeamPlayers m teamId) /\ p_role p <> GK
                       /\ pickBestSwitchCandidate m teamId cur = p_id p
                       /\ forall q, In q (getTeamPlayers m teamId) -> p_role q <> GK ->
                            V.distSq (p_pos p) (b_pos (ball m))
                            <= V.distSq (p_pos q) (b_pos (ball m))).
  { unfold pickBestSwitchCandidate. cbv zeta.
    destruct (nearestBy _ _ _) as [[w d]|] eqn:E.
    - right. apply nearestBy_some in E. destruct E as (Hw & He & -> & Hmin).
      exists w. split; [assumption|]. split; [now apply Hng|]. split; [reflexivity|].
      intros q Hq Hr. apply Hmin; [assumption|now apply Hng].
    - left. split; [reflexivity|]. rewrite nearestBy_none in E.
      intros p Hp. specialize (E p Hp). unfold nonGK in E.
      destruct (p_role p); simpl in E; congruence. }
  split; [exact Hbest|]. split.
  - unfold pickDefensiveSwitchCandidate. cbv zeta.
    assert (Hb' : pickBestSwitchCandidate m teamId cur = cur
                  \/ exists p, In p (getTeamPlayers m teamId) /\ p_role p <> GK
                       /\ pickBestSwitchCandidate m teamId cur = p_id p).
    { destruct Hbest as [[H _]|(p & H1 & H2 & H3 & _)]; [now left|right; eauto]. }
    destruct (Rlt_dec _ 1e-6); [exact Hb'|].
    destruct (nearestBy _ _ _) as [[w d]|] eqn:E.
    + apply nearestBy_some in E. destruct E as (Hw & He & _ & _).
      apply andb_true_iff in He. destruct He as [He _]. apply Hng in He.
      destruct (negb _); [|exact Hb']. right. exists w. auto.
    + rewrite String.eqb_refl. simpl. exact Hb'.
  - intros H. unfold pickDefensiveSwitchCandidate. cbv zeta.
    destruct (Rlt_dec _ 1e-6); [reflexivity|lra].
Qed.

(** X11. The two switch heuristics never hand control to a goalkeeper: each
    returns either the id it was given as current or the id of a team member
    who is not a goalkeeper.  [pickBestSwitchCandidate] returns the current
    id only when the team has no outfield member (a missing team included),
    and otherwise the outfield member nearest to the ball.
    [pickDefensiveSwitchCandidate] with no aim is [pickBestSwitchCandidate]. *)
Theorem switch_candidate_is_outfield m teamId cur aimDir :
  (pickBestSwitchCandidate m teamId cur = cur
   /\ (forall p, In p (getTeamPlayers m teamId) -> p_role p = GK)
   \/ exists p, In p (getTeamPlayers m teamId) /\ p_role p <> GK
        /\ pickBestSwitchCandidate m teamId cur = p_id p
        /\ forall q, In q (getTeamPlayers m teamId) -> p_role q <> GK ->
             V.distSq (p_pos p) (b_pos (ball m)) <= V.distSq (p_pos q) (b_pos (ball m)))
  /\ (pickDefensiveSwitchCandidate m teamId cur aimDir = cur
      \/ exists p, In p (getTeamPlayers m teamId) /\ p_role p <> GK
           /\ pickDefensiveSwitchCandidate m teamId cur aimDir = p_id p)
  /\ (V.lenSq (V.norm aimDir) < 1e-6 ->
      pickDefensiveSwitchCandidate m teamId cur aimDir = pickBestSwitchCandidate m teamId cur).
Proof. exact (switch_candidate_is_outfield_facts m teamId cur aimDir). Qed.

(** X12. [pickKickDir] always returns a unit vector: the normalised move
    vector when its squared length exceeds 0.04, the player's facing
    otherwise. *)
Theorem pickKickDir_unit p mv :
  V.len (pickKickDir p mv) = 1
  /\ (0.04 < V.lenSq mv -> pickKickDir p mv = V.norm mv)
  /\ (V.lenSq mv <= 0.04 -> pickKickDir p mv = facingVec p).
Proof.
  assert (Hf : V.len (facingVec p) = 1).
  { unfold V.len, V.lenSq, facingVec; simpl.
    pose proof (sin2_cos2 (p_facingRad p)) as H. unfold Rsqr in H.
    replace (cos (p_facingRad p) * cos (p_facingRad p)
             + sin (p_facingRad p) * sin (p_facingRad p)) with 1 by lra.
    apply sqrt_1. }
  assert (Hn : V.norm (facingVec p) = facingVec p).
  { unfold V.norm. rewrite Hf. destruct (Rle_dec 1 1e-9); [lra|].
    destruct (facingVec p); simpl. f_equal; field. }
  unfold pickKickDir. destruct (Rlt_dec 0.04 (V.lenSq mv)) as [H|H].
  - split; [|split; [reflexivity|lra]].
    apply len_norm_unit.
    assert (0.2 < V.len mv); [|lra].
    unfold V.len. rewrite <- (sqrt_square 0.2) by lra. apply sqrt_lt_1_alt. lra.
  - rewrite Hn. split; [exact Hf|]. split; [lra|reflexivity].
Qed.

Lemma clamp_unit x : 0 <= clamp x 0 1 <= 1.
Proof. apply clamp_ordered. lra. Qed.

(** X13. For a kicker of non-negative kick power, a released shot leaves at
    a nominal speed between 1.05 and 1.80 times the kick power (1.05 with no
    charge, 1.80 from a full charge on), and a released pass at a nominal
    speed between 0.78 * 0.86 and 1.40 * 1.08 times the kick power, a tap
    never above 0.935 * 1.08 times.  The ball velocity is the kick direction
    times the larger of that speed and the minimum kick speed, plus 35% of the
    kicker's velocity, and both charge counters are zero afterwards. *)
Theorem human_kick_speed e o aimDir :
  0 <= p_kickPower o ->
  (exists s,
      p_kickPower o * 1.05 <= s <= p_kickPower o * 1.80
      /\ b_vel (ball (e_match (shootKick e o aimDir)))
         = V.add (V.mul (V.norm aimDir) (Rmax s BALL_RELEASE_KICK_SPEED_MIN))
                 (V.mul (p_vel o) 0.35)
      /\ (shootChargeMs e <= 0 -> s = p_kickPower o * 1.05)
      /\ (SHOOT_CHARGE_FULL_MS <= shootChargeMs e -> s = p_kickPower o * 1.80))
  /\ (exists s dir,
        p_kickPower o * (0.78 * 0.86) <= s <= p_kickPower o * (1.40 * 1.08)
        /\ b_vel (ball (e_match (passKick e o aimDir)))
           = V.add (V.mul (V.norm dir) (Rmax s BALL_RELEASE_KICK_SPEED_MIN))
                   (V.mul (p_vel o) 0.35)
        /\ (actionChargeMs e <= ACTION_TAP_THRESHOLD_MS -> s <= p_kickPower o * (0.935 * 1.08)))
  /\ shootChargeMs (shootKick e o aimDir) = 0 /\ actionChargeMs (shootKick e o aimDir) = 0
  /\ shootChargeMs (passKick e o aimDir) = 0 /\ actionChargeMs (passKick e o aimDir) = 0.
Proof.
  intros Hk. split; [|split; [|repeat split; reflexivity]].
  - exists (p_kickPower o * (1.05 + 0.75 * clamp (shootChargeMs e / SHOOT_CHARGE_FULL_MS) 0 1)).
    pose proof (clamp_unit (shootChargeMs e / SHOOT_CHARGE_FULL_MS)) as Ht.
    split; [nra|]. split; [reflexivity|].
    destruct (clamp_ordered (shootChargeMs e / SHOOT_CHARGE_FULL_MS) 0 1) as (_ & _ & Hlo & Hhi & _);
      [lra|]. unfold SHOOT_CHARGE_FULL_MS in *.
    split; intros H.
    + rewrite Hlo by lra. lra.
    + rewrite Hhi by lra. lra.
  - assert (Hpass : forall target : option Player,
              pickBestPassTarget (e_match e) (humanTeamId (e_match e)) o aimDir
                (passPreferFar (actionChargeMs e)) = target ->
              exists s dir,
                p_kickPower o * (0.78 * 0.86) <= s <= p_kickPower o * (1.40 * 1.08)
                /\ b_vel (ball (e_match (passKick e o aimDir)))
                   = V.add (V.mul (V.norm dir) (Rmax s BALL_RELEASE_KICK_SPEED_MIN))
                           (V.mul (p_vel o) 0.35)
                /\ (actionChargeMs e <= ACTION_TAP_THRESHOLD_MS ->
                    s <= p_kickPower o * (0.935 * 1.08))); [|eauto].
    intros target Et.
    set (pf := passPreferFar (actionChargeMs e)) in *.
    set (dist := match target with
                 | Some t => V.len (V.sub (p_pos t) (p_pos o))
                 | None => 18
                 end).
    set (cf := if pf then clamp (actionChargeMs e / ACTION_CHARGE_FULL_MS) 0 1 else 0.25).
    set (A := 0.78 + 0.62 * cf). set (B := 0.86 + 0.22 * clamp (dist / 46) 0 1).
    exists (p_kickPower o * A * B).
    exists (match target with
            | Some t => V.norm (V.sub (p_pos t) (p_pos o))
            | None => V.norm aimDir
            end).
    pose proof (clamp_unit (dist / 46)) as Hd.
    assert (Hcf : 0 <= cf <= 1).
    { unfold cf. destruct pf; [apply clamp_unit|lra]. }
    assert (HA : 0.78 <= A <= 1.40) by (unfold A; lra).
    assert (HB : 0.86 <= B <= 1.08) by (unfold B; lra).
    assert (HAB : 0.78 * 0.86 <= A * B <= 1.40 * 1.08) by nra.
    split; [rewrite Rmult_assoc; nra|]. split.
    + unfold passKick. cbv zeta.
      unfold set_shootChargeMs, set_actionChargeMs, set_match. cbn [e_match].
      rewrite releaseBallWithKick_vel. fold pf. rewrite Et.
      unfold A, B, cf, dist. destruct target; reflexivity.
    + intros Htap. assert (E : pf = false).
      { unfold pf, passPreferFar. apply Rltb_false. exact Htap. }
      assert (EA : A = 0.935) by (unfold A, cf; rewrite E; lra).
      rewrite Rmult_assoc, EA. nra.
Qed.

Lemma human_kick_speed_witness :
  0 <= p_kickPower mfAtBall
  /\ shootChargeMs (shootKick engineOwned mfAtBall (mkVec2 1 0)) = 0.
Proof.
  assert (H : 0 <= p_kickPower mfAtBall) by (simpl; lra).
  split; [exact H|].
  exact (proj1 (proj2 (proj2 (human_kick_speed engineOwned mfAtBall (mkVec2 1 0) H)))).
Defined.

Lemma pushStep_separates_facts dt b p :
  (PLAYER_RADIUS + b_radius b <= V.dist (b_pos b) (p_pos p) -> pushStep dt b p = b)
  /\ (1e-6 < V.dist (b_pos b) (p_pos p) < PLAYER_RADIUS + b_radius b ->
      V.dist (b_pos (pushStep dt b p)) (p_pos p) = PLAYER_RADIUS + b_radius b
      /\ V.sub (b_pos (pushStep dt b p)) (p_pos p)
         = V.mul (V.sub (b_pos b) (p_pos p))
                 ((PLAYER_RADIUS + b_radius b) / V.dist (b_pos b) (p_pos p))
      /\ b_lastTouchTeamId (pushStep dt b p) = Some (p_teamId p))
  /\ (V.dist (b_pos b) (p_pos p) <= 1e-6 -> 0 < PLAYER_RADIUS + b_radius b - V.dist (b_pos b) (p_pos p) ->
      b_pos (pushStep dt b p)
      = V.add (b_pos b) (mkVec2 (PLAYER_RADIUS + b_radius b - V.dist (b_pos b) (p_pos p)) 0))
  /\ b_ownerPlayerId (pushStep dt b p) = b_ownerPlayerId b
  /\ b_radius (pushStep dt b p) = b_radius b
  /\ (forall m cfg, truthy (b_ownerPlayerId (ball m)) = true -> pushFreeBallByPlayers m cfg dt = m).
Proof.
  set (d := V.dist (b_pos b) (p_pos p)).
  assert (Hd : d = sqrt ((vec_x (b_pos b) - vec_x (p_pos p)) * (vec_x (b_pos b) - vec_x (p_pos p))
                         + (vec_y (b_pos b) - vec_y (p_pos p)) * (vec_y (b_pos b) - vec_y (p_pos p))))
    by reflexivity.
  assert (E : pushStep dt b p =
              if Rle_dec (PLAYER_RADIUS + b_radius b - d) 0 then b
              else
                let nx := if Rlt_dec 1e-6 d then (vec_x (b_pos b) - vec_x (p_pos p)) / d else 1 in
                let ny := if Rlt_dec 1e-6 d then (vec_y (b_pos b) - vec_y (p_pos p)) / d else 0 in
                set_b_lastTouchTeamId
                  (set_b_vel
                     (set_b_pos b (mkVec2 (vec_x (b_pos b) + nx * (PLAYER_RADIUS + b_radius b - d))
                                          (vec_y (b_pos b) + ny * (PLAYER_RADIUS + b_radius b - d))))
                     (mkVec2 (vec_x (b_vel b)
                              + (nx * ((PLAYER_RADIUS + b_radius b - d) / Rmax 1e-4 dt * 0.08)
                                 + vec_x (p_vel p) * 0.35))
                             (vec_y (b_vel b)
                              + (ny * ((PLAYER_RADIUS + b_radius b - d) / Rmax 1e-4 dt * 0.08)
                                 + vec_y (p_vel p) * 0.35))))
                  (Some (p_teamId p))) by reflexivity.
  split; [|split; [|split; [|split; [|split]]]].
  - intros H. rewrite E. destruct (Rle_dec _ 0); [reflexivity|lra].
  - intros [H1 H2].
    assert (Hsub : V.sub (b_pos (pushStep dt b p)) (p_pos p)
                   = V.mul (V.sub (b_pos b) (p_pos p)) ((PLAYER_RADIUS + b_radius b) / d)).
    { rewrite E. destruct (Rle_dec _ 0); [lra|]. cbv zeta.
      destruct (Rlt_dec 1e-6 d); [|lra]. unfold V.sub, V.mul; simpl. f_equal; field; lra. }
    split; [|split; [exact Hsub|]].
    + unfold V.dist, V.distSq. rewrite Hsub.
      change (sqrt (V.lenSq ?v)) with (V.len v). rewrite len_mul.
      change (V.len (V.sub (b_pos b) (p_pos p))) with d.
      rewrite Rabs_pos_eq; [field; lra|].
      apply Rmult_le_pos; [lra|]. left. apply Rinv_0_lt_compat. lra.
    + rewrite E. destruct (Rle_dec _ 0); [lra|]. reflexivity.
  - intros H1 H2. rewrite E. destruct (Rle_dec _ 0); [lra|]. cbv zeta.
    destruct (Rlt_dec 1e-6 d); [lra|]. unfold V.add; simpl. f_equal; lra.
  - rewrite E. destruct (Rle_dec _ 0); reflexivity.
  - rewrite E. destruct (Rle_dec _ 0); reflexivity.
  - intros m cfg H. unfold pushFreeBallByPlayers. now rewrite H.
Qed.

(** X14. One bump of [pushFreeBallByPlayers]: a player whose centre is at
    least [PLAYER_RADIUS + radius] from the ball leaves the ball as it is; a
    player closer than that (and farther than 1e-6) pushes the ball straight
    away from the player's centre to exactly that distance and becomes the
    last touch; a player sitting on the ball pushes it along +x.  An owned
    ball is not pushed at all. *)
Theorem pushStep_separates dt b p :
  (PLAYER_RADIUS + b_radius b <= V.dist (b_pos b) (p_pos p) -> pushStep dt b p = b)
  /\ (1e-6 < V.dist (b_pos b) (p_pos p) < PLAYER_RADIUS + b_radius b ->
      V.dist (b_pos (pushStep dt b p)) (p_pos p) = PLAYER_RADIUS + b_radius b
      /\ V.sub (b_pos (pushStep dt b p)) (p_pos p)
         = V.mul (V.sub (b_pos b) (p_pos p))
                 ((PLAYER_RADIUS + b_radius b) / V.dist (b_pos b) (p_pos p))
      /\ b_lastTouchTeamId (pushStep dt b p) = Some (p_teamId p))
  /\ (V.dist (b_pos b) (p_pos p) <= 1e-6 -> 0 < PLAYER_RADIUS + b_radius b - V.dist (b_pos b) (p_pos p) ->
      b_pos (pushStep dt b p)
      = V.add (b_pos b) (mkVec2 (PLAYER_RADIUS + b_radius b - V.dist (b_pos b) (p_pos p)) 0))
  /\ b_ownerPlayerId (pushStep dt b p) = b_ownerPlayerId b
  /\ b_radius (pushStep dt b p) = b_radius b
  /\ (forall m cfg, truthy (b_ownerPlayerId (ball m)) = true -> pushFreeBallByPlayers m cfg dt = m).
Proof. exact (pushStep_separates_facts dt b p). Qed.

Lemma computeNpcDesiredVel_speed_facts m cfg p teamId teamHasPossession isBallOwner isChaser :
  0 <= p_maxSpeed p ->
  let v := computeNpcDesiredVel m cfg p teamId teamHasPossession isBallOwner isChaser in
  (v = mkVec2 0 0 \/ V.len v = p_maxSpeed p * byRole (p_role p) 0.62 0.78 0.86 0.9)
  /\ V.len v <= 0.9 * p_maxSpeed p.
Proof.
  intros Hs. cbv zeta.
  assert (Hz : V.len (mkVec2 0 0) = 0).
  { unfold V.len, V.lenSq; simpl. replace (0 * 0 + 0 * 0) with 0 by lra. apply sqrt_0. }
  assert (Hr : 0 <= byRole (p_role p) 0.62 0.78 0.86 0.9 <= 0.9).
  { destruct (p_role p); simpl; lra. }
  unfold computeNpcDesiredVel. cbv zeta.
  match goal with
  | |- context [Rlt_dec (V.len ?t) 0.75] => set (to := t)
  end.
  destruct (Rlt_dec (V.len to) 0.75) as [H|H].
  - split; [now left|]. rewrite Hz. lra.
  - assert (Hn : V.len (V.norm to) = 1) by (apply len_norm_unit; lra).
    rewrite len_mul, Hn, Rabs_pos_eq by nra.
    split; [right; ring|]. nra.
Qed.

(** X15. The velocity [computeNpcDesiredVel] asks of a player of non-negative
    top speed is either zero (the target is closer than 0.75) or has the
    role's share of the top speed as its length: 62% for a goalkeeper, 78%
    for a defender, 86% for a midfielder, 90% for a forward.  So a player
    who is not controlled is never asked for more than 90% of top speed. *)
Theorem computeNpcDesiredVel_speed m cfg p teamId teamHasPossession isBallOwner isChaser :
  0 <= p_maxSpeed p ->
  let v := computeNpcDesiredVel m cfg p teamId teamHasPossession isBallOwner isChaser in
  (v = mkVec2 0 0 \/ V.len v = p_maxSpeed p * byRole (p_role p) 0.62 0.78 0.86 0.9)
  /\ V.len v <= 0.9 * p_maxSpeed p.
Proof. exact (computeNpcDesiredVel_speed_facts m cfg p teamId teamHasPossession isBallOwner isChaser). Qed.

Lemma computeNpcDesiredVel_speed_witness :
  0 <= p_maxSpeed mfAtBall
  /\ V.len (computeNpcDesiredVel match0 DEFAULT_ENGINE_CONFIG mfAtBall "kilo" false false false)
     <= 0.9 * p_maxSpeed mfAtBall.
Proof.
  assert (H : 0 <= p_maxSpeed mfAtBall) by (simpl; lra).
  split; [exact H|].
  exact (proj2 (computeNpcDesiredVel_speed match0 DEFAULT_ENGINE_CONFIG mfAtBall "kilo"
                  false false false H)).
Defined.


(* ------------------------------------------------------------------ *)
(** ** The opponent controller *)

Lemma distSq_along p a b s :
  V.distSq p (V.add a (V.mul (V.sub b a) s))
  = V.lenSq (V.sub p a) - 2 * s * V.dot (V.sub p a) (V.sub b a)
    + s * s * V.lenSq (V.sub b a).
Proof. unfold V.distSq, V.lenSq, V.dot, V.sub, V.add, V.mul; simpl. ring. Qed.

Lemma seg_quadratic A u L s q :
  0 < L -> 0 <= s <= 1 -> u = q * L ->
  A - 2 * clamp q 0 1 * u + clamp q 0 1 * clamp q 0 1 * L <= A - 2 * s * u + s * s * L.
Proof.
  intros HL Hs ->.
  assert (Hss : 0 <= s * s) by nra.
  assert (HsL : 0 <= s * s * L) by (apply Rmult_le_pos; lra).
  destruct (clamp_cases q 0 1) as [[H _]|[(_ & Hq & ->)|[(_ & Hq & ->)|(Hq & ->)]]];
    [lra| | |].
  - assert (Hw : q * L <= 0) by nra.
    assert (H1 : s * (q * L) <= 0) by nra.
    lra.
  - assert (Hw : 0 <= q * L - L) by nra.
    assert (H1 : 0 <= (1 - s) * (q * L - L)) by (apply Rmult_le_pos; lra).
    assert (H2 : 0 <= (1 - s) * ((1 - s) * L)).
    { apply Rmult_le_pos; [lra|]. apply Rmult_le_pos; lra. }
    replace (A - 2 * s * (q * L) + s * s * L)
      with (A - 2 * 1 * (q * L) + 1 * 1 * L
            + 2 * ((1 - s) * (q * L - L)) + (1 - s) * ((1 - s) * L)) by ring.
    lra.
  - assert (H2 : 0 <= (s - q) * ((s - q) * L)).
    { replace ((s - q) * ((s - q) * L)) with ((s - q) * (s - q) * L) by ring.
      apply Rmult_le_pos; [|lra]. pose proof (Rle_0_sqr (s - q)) as Hq2. exact Hq2. }
    replace (A - 2 * s * (q * L) + s * s * L)
      with (A - 2 * q * (q * L) + q * q * L + (s - q) * ((s - q) * L)) by ring.
    lra.
Qed.

(** X16. [pointSegDistSq p a b] is the squared distance from [p] to a point
    of the segment from [a] to [b], and for a segment whose squared length
    exceeds 1e-9 it is the least such: no point of the segment, the end
    points included, is closer to [p].  A shorter segment is treated as the
    point [a]. *)
Theorem pointSegDistSq_least p a b :
  0 <= pointSegDistSq p a b
  /\ (exists t, 0 <= t <= 1
        /\ pointSegDistSq p a b = V.distSq p (V.add a (V.mul (V.sub b a) t)))
  /\ (1e-9 < V.lenSq (V.sub b a) ->
      (forall s, 0 <= s <= 1 ->
         pointSegDistSq p a b <= V.distSq p (V.add a (V.mul (V.sub b a) s)))
      /\ pointSegDistSq p a b <= V.distSq p a
      /\ pointSegDistSq p a b <= V.distSq p b)
  /\ (V.lenSq (V.sub b a) <= 1e-9 -> pointSegDistSq p a b = V.distSq p a).
Proof.
  set (L := V.lenSq (V.sub b a)). set (u := V.dot (V.sub p a) (V.sub b a)).
  assert (E : pointSegDistSq p a b =
              if Rle_dec L 1e-9 then V.lenSq (V.sub p a)
              else V.distSq p (V.add a (V.mul (V.sub b a) (clamp (u / L) 0 1))))
    by reflexivity.
  assert (Hmin : 1e-9 < L -> forall s, 0 <= s <= 1 ->
            pointSegDistSq p a b <= V.distSq p (V.add a (V.mul (V.sub b a) s))).
  { intros HL s Hs. rewrite E. destruct (Rle_dec L 1e-9); [lra|].
    rewrite !distSq_along. fold L. fold u.
    apply seg_quadratic; [lra|exact Hs|field; lra]. }
  split.
  { rewrite E. destruct (Rle_dec L 1e-9); [apply lenSq_nonneg|].
    unfold V.distSq. apply lenSq_nonneg. }
  split.
  { rewrite E. destruct (Rle_dec L 1e-9).
    - exists 0. split; [lra|]. rewrite distSq_along. lra.
    - exists (clamp (u / L) 0 1). split; [apply clamp_unit|reflexivity]. }
  split.
  { intros HL. split; [now apply Hmin|]. split.
    - pose proof (Hmin HL 0) as H. rewrite distSq_along in H.
      unfold V.distSq. lra.
    - pose proof (Hmin HL 1) as H.
      replace (V.distSq p b) with (V.distSq p (V.add a (V.mul (V.sub b a) 1))); [apply H; lra|].
      unfold V.distSq, V.lenSq, V.sub, V.add, V.mul; simpl. ring. }
  intros HL. rewrite E. destruct (Rle_dec L 1e-9); [reflexivity|lra].
Qed.

Lemma minInf_fold ds : forall acc,
  match fold_left (fun best d => if ltInf d best then Some d else best) ds acc with
  | None => acc = None /\ ds = []
  | Some r =>
      (forall d, In d ds -> r <= d)
      /\ (forall a, acc = Some a -> r <= a)
      /\ (acc = Some r \/ In r ds)
  end.
Proof.
  induction ds as [|d ds IH]; simpl; intros acc.
  - destruct acc as [a|]; [|auto]. split; [tauto|]. split; [|now left].
    intros a' E; inversion E; lra.
  - specialize (IH (if ltInf d acc then Some d else acc)).
    destruct (fold_left _ ds _) as [r|].
    + destruct IH as (H1 & H2 & H3).
      destruct acc as [a|]; simpl in *.
      * unfold Rltb in *. destruct (Rlt_dec d a).
        -- pose proof (H2 _ eq_refl). split; [|split].
           ++ intros x [<-|Hx]; [lra|now apply H1].
           ++ intros a' E; inversion E; lra.
           ++ destruct H3 as [H3|H3]; [inversion H3; right; now left|right; now right].
        -- pose proof (H2 _ eq_refl). split; [|split].
           ++ intros x [<-|Hx]; [lra|now apply H1].
           ++ intros a' E; inversion E; lra.
           ++ destruct H3 as [H3|H3]; [now left|right; now right].
      * pose proof (H2 _ eq_refl). split; [|split].
        -- intros x [<-|Hx]; [lra|now apply H1].
        -- intros a' E; discriminate.
        -- destruct H3 as [H3|H3]; [inversion H3; right; now left|right; now right].
    + destruct IH as [IH _]. destruct acc; simpl in IH; [|discriminate].
      unfold Rltb in IH. destruct (Rlt_dec d r); discriminate.
Qed.

Lemma minInf_spec ds :
  match minInf ds with
  | None => ds = []
  | Some r => In r ds /\ forall d, In d ds -> r <= d
  end.
Proof.
  unfold minInf. pose proof (minInf_fold ds None) as H.
  destruct (fold_left _ ds None) as [r|]; [|tauto].
  destruct H as (H1 & _ & [H3|H3]); [discriminate|auto].
Qed.

Lemma infLt_false_bound v c : infLt v c = false -> forall r, v = Some r -> c <= r.
Proof. intros H r ->. simpl in H. now apply Rltb_false. Qed.

Section CpuPass.
Variable score : Player -> option R.

Lemma best_score_fold ts : forall acc,
  match fold_left (fun (best : option (Player * R)) (t : Player) =>
                     match score t with
                     | None => best
                     | Some sc =>
                         match best with
                         | None => Some (t, sc)
                         | Some (_, bs) => if Rlt_dec bs sc then Some (t, sc) else best
                         end
                     end) ts acc with
  | None => acc = None /\ forall t, In t ts -> score t = None
  | Some (w, sc) =>
      (acc = Some (w, sc) \/ (In w ts /\ score w = Some sc))
      /\ (forall t' sc', In t' ts -> score t' = Some sc' -> sc' <= sc)
      /\ (forall a sa, acc = Some (a, sa) -> sa <= sc)
  end.
Proof.
  induction ts as [|t ts IH]; simpl; intros acc.
  - destruct acc as [[a sa]|]; [|tauto].
    split; [now left|]. split; [tauto|]. intros a' sa' E; inversion E; lra.
  - match goal with
    | |- context [fold_left ?f ts (?x)] =>
        specialize (IH x); destruct (fold_left f ts x) as [[w sc]|]
    end.
    + destruct IH as (H1 & H2 & H3).
      destruct (score t) as [st|] eqn:Et.
      * destruct acc as [[a sa]|].
        -- destruct (Rlt_dec sa st) as [Hlt|Hlt].
           ++ pose proof (H3 _ _ eq_refl). split; [|split].
              ** destruct H1 as [H1|[H1 H1']]; [inversion H1; subst; right; auto|right; auto].
              ** intros t' sc' [<-|Hin] Hs; [rewrite Et in Hs; inversion Hs; lra|eauto].
              ** intros a' sa' E; inversion E; lra.
           ++ pose proof (H3 _ _ eq_refl). split; [|split].
              ** destruct H1 as [H1|[H1 H1']]; [now left|right; auto].
              ** intros t' sc' [<-|Hin] Hs; [rewrite Et in Hs; inversion Hs; lra|eauto].
              ** intros a' sa' E; inversion E; lra.
        -- pose proof (H3 _ _ eq_refl). split; [|split].
           ++ destruct H1 as [H1|[H1 H1']]; [inversion H1; subst; right; auto|right; auto].
           ++ intros t' sc' [<-|Hin] Hs; [rewrite Et in Hs; inversion Hs; lra|eauto].
           ++ intros a' sa' E; discriminate.
      * split; [|split].
        -- destruct H1 as [H1|[H1 H1']]; [now left|right; auto].
        -- intros t' sc' [<-|Hin] Hs; [congruence|eauto].
        -- exact H3.
    + destruct IH as [IH1 IH2].
      destruct (score t) as [st|] eqn:Et.
      * destruct acc as [[a sa]|]; [destruct (Rlt_dec sa st)|]; discriminate.
      * split; [exact IH1|]. intros t' [<-|Hin]; auto.
Qed.
End CpuPass.

Lemma cpuPassScore_some cfg m cpuTeam owner dir opp t sc :
  cpuPassScore cfg m cpuTeam owner dir opp t = Some sc ->
  p_role t <> GK /\ p_id t <> p_id owner
  /\ 8 <= V.len (V.sub (p_pos t) (p_pos owner))
  /\ 0.2 <= V.dot (V.norm (V.sub (p_pos t) (p_pos owner))) dir
  /\ (forall o, In o (getOppPlayers m (t_id cpuTeam)) -> 5.2 <= V.dist (p_pos o) (p_pos t)).
Proof.
  unfold cpuPassScore. cbv zeta.
  destruct (isGK (p_role t)) eqn:Eg; [discriminate|].
  destruct (String.eqb_spec (p_id t) (p_id owner)) as [Ei|Ei]; [discriminate|].
  destruct (Rlt_dec _ 8) as [Hd|Hd]; [discriminate|].
  destruct (Rlt_dec _ 0.2) as [Ha|Ha]; [discriminate|].
  destruct (infLt _ 5.2) eqn:Ec; [discriminate|]. intros _.
  split; [intros E; rewrite E in Eg; discriminate|]. split; [exact Ei|].
  split; [lra|]. split; [lra|].
  intros o Ho. unfold nearestOpponentDist in Ec.
  pose proof (minInf_spec (map (fun o0 => V.dist (p_pos o0) (p_pos t))
                             (getOppPlayers m (t_id cpuTeam)))) as Hm.
  destruct (minInf _) as [r|].
  - destruct Hm as [_ Hmin]. simpl in Ec. apply Rltb_false in Ec.
    assert (r <= V.dist (p_pos o) (p_pos t)); [|lra].
    apply Hmin. apply in_map_iff. exists o. auto.
  - apply map_eq_nil in Hm. rewrite Hm in Ho. contradiction.
Qed.

(** X17. A team-mate that [pickCpuPassTarget] selects is a member of the
    team who is not a goalkeeper and not the passer, is at least 8 away,
    lies at least 0.2 ahead along the given direction, has no opponent within
    5.2, and has the highest score of all members that pass these tests, a
    score of at least 0.35.  When no member passes the tests nobody is
    selected. *)
Theorem pickCpuPassTarget_guards cfg m cpuTeam owner dir :
  let team := resolve (playersById m) (t_players cpuTeam) in
  let opp := getOppPlayers m (t_id cpuTeam) in
  (forall t, pickCpuPassTarget cfg m cpuTeam owner dir = Some t ->
     In t team
     /\ p_role t <> GK /\ p_id t <> p_id owner
     /\ 8 <= V.len (V.sub (p_pos t) (p_pos owner))
     /\ 0.2 <= V.dot (V.norm (V.sub (p_pos t) (p_pos owner))) dir
     /\ (forall o, In o opp -> 5.2 <= V.dist (p_pos o) (p_pos t))
     /\ exists sc,
          cpuPassScore cfg m cpuTeam owner dir opp t = Some sc
          /\ 0.35 <= sc
          /\ forall t' sc', In t' team ->
               cpuPassScore cfg m cpuTeam owner dir opp t' = Some sc' -> sc' <= sc)
  /\ ((forall t, In t team -> cpuPassScore cfg m cpuTeam owner dir opp t = None) ->
      pickCpuPassTarget cfg m cpuTeam owner dir = None).
Proof.
  cbv zeta. unfold pickCpuPassTarget. cbv zeta.
  change (getTeamPlayers m (if String.eqb (t_id cpuTeam) (homeTeamId m)
                            then awayTeamId m else homeTeamId m))
    with (getOppPlayers m (t_id cpuTeam)).
  set (opp := getOppPlayers m (t_id cpuTeam)).
  set (team := resolve (playersById m) (t_players cpuTeam)).
  pose proof (best_score_fold (cpuPassScore cfg m cpuTeam owner dir opp) team None) as H.
  change (fold_left _ team None)
    with (fold_left (cpuPassStep cfg m cpuTeam owner dir opp) team None) in H.
  destruct (fold_left (cpuPassStep cfg m cpuTeam owner dir opp) team None) as [[w sc]|].
  - destruct H as ([H1|[Hin Hsc]] & Hmax & _); [discriminate|].
    split.
    + intros t Ht. destruct (Rlt_dec sc 0.35); [discriminate|]. inversion Ht; subst w.
      split; [exact Hin|].
      destruct (cpuPassScore_some _ _ _ _ _ _ _ _ Hsc) as (G1 & G2 & G3 & G4 & G5).
      repeat (split; [assumption|]).
      exists sc. split; [exact Hsc|]. split; [lra|exact Hmax].
    + intros Hnone. rewrite (Hnone w Hin) in Hsc. discriminate.
  - split; [discriminate|reflexivity].
Qed.

Lemma cpuDribbleAndShoot_kick cfg m cpuTeam owner ai rnd :
  let r := cpuDribbleAndShoot cfg m cpuTeam owner ai rnd in
  (ball (fst r) = ball m /\ snd r = ai)
  \/ (shootCooldownMs ai <= 0
      /\ b_ownerPlayerId (ball (fst r)) = None
      /\ b_lastKickPlayerId (ball (fst r)) = Some (p_id owner)
      /\ b_lastTouchTeamId (ball (fst r)) = Some (p_teamId owner)
      /\ b_kickNoPickupMs (ball (fst r)) = 220
      /\ (shootCooldownMs (snd r) = 900 + rnd 0%nat * 700
          \/ exists k, shootCooldownMs (snd r) = 650 + rnd k * 550)).
Proof.
  cbv zeta. unfold cpuDribbleAndShoot. cbv zeta.
  destruct (Rleb (shootCooldownMs ai) 0) eqn:Ecd.
  - apply Rleb_true in Ecd.
    rewrite andb_true_r. simpl negb. cbv iota.
    destruct (_ && _).
    + right. split; [exact Ecd|]. repeat split. now left.
    + match goal with
      | |- context [let '(wantsPass, n) := ?x in _] => destruct x as [wantsPass n]
      end.
      destruct wantsPass; [|left; split; reflexivity].
      destruct (pickCpuPassTarget _ _ _ _ _); [|left; split; reflexivity].
      right. split; [exact Ecd|]. repeat split. right. exists n. reflexivity.
  - rewrite andb_false_r. simpl. left. split; reflexivity.
Qed.

(** X18. The opponent controller kicks only for a ball owner of the away
    team and only once its kick cooldown has run out; such a kick frees the
    ball, records the owner as last kicker and last touch, arms the 220 ms
    kick protection and sets the cooldown to 900 ms plus up to 700 ms (a
    shot) or 650 ms plus up to 550 ms (a pass), as the random draw decides.
    Otherwise the ball is left as it is and the cooldown is lowered by
    [dtMs], not below zero.  Without an away team the controller does
    nothing. *)
Theorem stepCpuAi_kick_rule cfg m dtMs ai rnd :
  let m' := fst (stepCpuAi cfg m dtMs ai rnd) in
  let ai' := snd (stepCpuAi cfg m dtMs ai rnd) in
  (getTeam (teamsById m) (awayTeamId m) = None -> m' = m /\ ai' = ai)
  /\ (ball m' = ball m
      \/ exists owner,
           getPlayerOpt (playersById m) (b_ownerPlayerId (ball m)) = Some owner
           /\ p_teamId owner = awayTeamId m
           /\ shootCooldownMs ai <= dtMs
           /\ b_ownerPlayerId (ball m') = None
           /\ b_lastKickPlayerId (ball m') = Some (p_id owner)
           /\ b_lastTouchTeamId (ball m') = Some (p_teamId owner)
           /\ b_kickNoPickupMs (ball m') = 220
           /\ (shootCooldownMs ai' = 900 + rnd 0%nat * 700
               \/ exists k, shootCooldownMs ai' = 650 + rnd k * 550))
  /\ (forall team, getTeam (teamsById m) (awayTeamId m) = Some team ->
      b_ownerPlayerId (ball m') = b_ownerPlayerId (ball m) ->
      shootCooldownMs ai' = Rmax 0 (shootCooldownMs ai - dtMs)
      /\ dribbleJitterPhase ai' = dribbleJitterPhase ai + dtMs / 1000 * 1.4).
Proof.
  cbv zeta. unfold stepCpuAi.
  destruct (getTeam (teamsById m) (awayTeamId m)) as [team|] eqn:Et.
  2:{ split; [auto|]. split; [now left|]. intros team E; discriminate. }
  apply getTeam_some in Et. destruct Et as [_ Etid].
  split; [discriminate|].
  set (ai1 := mkCpuAi (Rmax 0 (shootCooldownMs ai - dtMs))
                (dribbleJitterPhase ai + dtMs / 1000 * 1.4) None).
  assert (Hchase : forall r : MatchState * CpuAiState,
            r = match pickCpuChaser m team with
                | Some chaser =>
                    (cpuChaseBall m chaser,
                     mkCpuAi (shootCooldownMs ai1) (dribbleJitterPhase ai1) (Some (p_id chaser)))
                | None => (m, ai1)
                end ->
            ball (fst r) = ball m
            /\ shootCooldownMs (snd r) = Rmax 0 (shootCooldownMs ai - dtMs)
            /\ dribbleJitterPhase (snd r) = dribbleJitterPhase ai + dtMs / 1000 * 1.4).
  { intros r ->. destruct (pickCpuChaser m team); repeat split. }
  destruct (getPlayerOpt (playersById m) (b_ownerPlayerId (ball m))) as [owner|] eqn:Eo.
  - destruct (String.eqb_spec (p_teamId owner) (t_id team)) as [Eteam|Eteam].
    + pose proof (cpuDribbleAndShoot_kick cfg m team owner ai1 rnd) as Hk. cbv zeta in Hk.
      destruct (cpuDribbleAndShoot cfg m team owner ai1 rnd) as [m2 ai2]. simpl in *.
      destruct Hk as [[Hb Ha]|(Hcd & H1 & H2 & H3 & H4 & H5)].
      * split; [now left|]. intros t _ _. subst ai2. split; reflexivity.
      * split.
        -- right. exists owner. split; [reflexivity|]. split; [congruence|].
           split.
           { unfold ai1 in Hcd. simpl in Hcd.
             pose proof (Rmax_r 0 (shootCooldownMs ai - dtMs)). lra. }
           repeat (split; [assumption|]). exact H5.
        -- intros t _ Hsame. rewrite H1 in Hsame.
           destruct (b_ownerPlayerId (ball m)); [discriminate|]. simpl in Eo. discriminate.
    + destruct (Hchase _ eq_refl) as (Hb & Hc & Hj).
      split; [now left|]. intros t _ _. split; assumption.
  - destruct (Hchase _ eq_refl) as (Hb & Hc & Hj).
    split; [now left|]. intros t _ _. split; assumption.
Qed.


(* ------------------------------------------------------------------ *)
(** ** Kickoff *)

Section Preserved.
Variable P : Player -> Prop.
Variable f : Player -> Player.
Hypothesis f_id : forall q, p_id (f q) = p_id q.
Hypothesis f_pres : forall q, P q -> P (f q).

Lemma updPlayer_origin k ps p' :
  In p' (updPlayer k f ps) ->
  exists q, In q ps /\ p_id q = p_id p' /\ (P q -> P p') /\ (p_id q = k -> p' = f q).
Proof.
  unfold updPlayer. intros H. apply in_map_iff in H. destruct H as (q & E & Hin).
  exists q. split; [exact Hin|]. unfold hasId in E.
  destruct (String.eqb_spec (p_id q) k) as [Ek|Ek]; subst p'.
  - split; [now rewrite f_id|]. split; [apply f_pres|reflexivity].
  - split; [reflexivity|]. split; [tauto|]. intros; contradiction.
Qed.

Lemma updPlayers_origin ks : forall ps p',
  In p' (updPlayers ks f ps) ->
  exists q, In q ps /\ p_id q = p_id p' /\ (P q -> P p').
Proof.
  induction ks as [|k ks IH]; simpl; intros ps p' H.
  - exists p'. auto.
  - apply IH in H. destruct H as (q1 & Hin1 & Hid1 & HP1).
    apply updPlayer_origin in Hin1. destruct Hin1 as (q & Hin & Hid & HP & _).
    exists q. split; [exact Hin|]. split; [congruence|tauto].
Qed.

Hypothesis f_sets : forall q, P (f q).

Lemma updPlayers_sets ks : forall ps p',
  In p' (updPlayers ks f ps) -> In (p_id p') ks -> P p'.
Proof.
  induction ks as [|k ks IH]; simpl; intros ps p' H Hk; [contradiction|].
  destruct (in_dec string_dec (p_id p') ks) as [Hin|Hnin]; [now apply (IH _ _ H)|].
  destruct Hk as [Hk|Hk]; [|contradiction].
  apply updPlayers_origin in H. destruct H as (q1 & Hin1 & Hid1 & HP1).
  apply updPlayer_origin in Hin1. destruct Hin1 as (q & Hin & Hid & _ & Hset).
  apply HP1. rewrite Hset by congruence. apply f_sets.
Qed.
End Preserved.

Lemma setPosOpt_origin (P : Player -> Prop) o x y ps p' :
  (forall q v, P q -> P (set_p_pos q v)) ->
  In p' (setPosOpt o x y ps) ->
  exists q, In q ps /\ p_id q = p_id p' /\ (P q -> P p').
Proof.
  intros HP H. destruct o as [o|]; simpl in H; [|exists p'; auto].
  apply (updPlayer_origin P (setPos x y)) in H.
  - destruct H as (q & H1 & H2 & H3 & _). eauto.
  - reflexivity.
  - intros q. apply HP.
Qed.

Lemma placeTeamKickoff_origin (P : Player -> Prop) cfg roster side ps p' :
  (forall q v, P q -> P (set_p_pos q v)) ->
  (forall q a, P q -> P (set_p_facingRad q a)) ->
  In p' (placeTeamKickoff cfg roster side ps) ->
  exists q, In q ps /\ p_id q = p_id p' /\ (P q -> P p').
Proof.
  intros HP HF H. unfold placeTeamKickoff in H. cbv zeta in H.
  apply (updPlayers_origin P) in H; [|reflexivity|intros q; apply HF].
  destruct H as (q5 & H5 & I5 & P5).
  apply (setPosOpt_origin P) in H5; [|exact HP]. destruct H5 as (q4 & H4 & I4 & P4).
  apply (setPosOpt_origin P) in H4; [|exact HP]. destruct H4 as (q3 & H3 & I3 & P3).
  apply (setPosOpt_origin P) in H3; [|exact HP]. destruct H3 as (q2 & H2 & I2 & P2).
  apply (setPosOpt_origin P) in H2; [|exact HP]. destruct H2 as (q1 & H1 & I1 & P1).
  apply (setPosOpt_origin P) in H1; [|exact HP]. destruct H1 as (q0 & H0 & I0 & P0).
  exists q0. split; [exact H0|]. split; [congruence|tauto].
Qed.

Lemma resolve_nil_static ps ps' ids :
  map p_static ps' = map p_static ps -> resolve ps' ids = [] -> resolve ps ids = [].
Proof.
  intros Hs. induction ids as [|k ids IH]; simpl; [auto|].
  pose proof (getPlayer_static ps ps' k Hs) as Hk.
  destruct (getPlayer ps' k); [discriminate|].
  destruct (getPlayer ps k); [discriminate|auto].
Qed.

Lemma resetToKickoff_post cfg m :
  (forall m', resetToKickoff cfg m = Some m' ->
     ball m' = mkBall (mkVec2 0 0) (mkVec2 0 0) (b_radius (ball m)) None None None 0
     /\ possession m' = noPossession
     /\ score m' = score m /\ clock m' = clock m
     /\ lastEventText m' = lastEventText m
     /\ frame m' = frame m
     /\ (forall homeT awayT p,
           getTeam (teamsById m) (homeTeamId m) = Some homeT ->
           getTeam (teamsById m) (awayTeamId m) = Some awayT ->
           In p (playersById m') -> In (p_id p) (t_players homeT ++ t_players awayT) ->
           p_vel p = mkVec2 0 0 /\ p_hasBall p = false))
  /\ (resetToKickoff cfg m = None ->
      getTeam (teamsById m) (homeTeamId m) = None
      \/ getTeam (teamsById m) (awayTeamId m) = None
      \/ getTeam (teamsById m) (humanTeamId m) = None
      \/ getTeamPlayers m (humanTeamId m) = []).
Proof.
  unfold resetToKickoff.
  destruct (getTeam (teamsById m) (homeTeamId m)) as [homeT|] eqn:Eh; [|split; [discriminate|auto]].
  destruct (getTeam (teamsById m) (awayTeamId m)) as [awayT|] eqn:Ea; [|split; [discriminate|auto]].
  set (ps1 := updPlayers _ _ _).
  set (ps3 := placeTeamKickoff _ _ _ (placeTeamKickoff _ _ _ ps1)).
  set (b0 := mkBall _ _ _ _ _ _ _).
  set (m1 := set_players (set_possession (set_ball m b0) noPossession) ps3).
  assert (Hcore3 : map p_core ps3 = map p_core ps1).
  { unfold ps3. now rewrite !placeTeamKickoff_core. }
  assert (Hstat3 : map p_static ps3 = map p_static (playersById m)).
  { rewrite (cores_statics _ _ Hcore3). unfold ps1. now apply updPlayers_static. }
  assert (Hstill : forall p, In p ps3 -> In (p_id p) (t_players homeT ++ t_players awayT) ->
            p_vel p = mkVec2 0 0 /\ p_hasBall p = false).
  { intros p Hp Hid. unfold ps3 in Hp.
    apply (placeTeamKickoff_origin (fun q => p_vel q = mkVec2 0 0 /\ p_hasBall q = false))
      in Hp; [|auto|auto].
    destruct Hp as (q2 & H2 & I2 & P2).
    apply (placeTeamKickoff_origin (fun q => p_vel q = mkVec2 0 0 /\ p_hasBall q = false))
      in H2; [|auto|auto].
    destruct H2 as (q1 & H1 & I1 & P1).
    apply P2, P1. unfold ps1 in H1.
    apply (updPlayers_sets (fun q => p_vel q = mkVec2 0 0 /\ p_hasBall q = false)) in H1; auto.
    congruence. }
  assert (Hall : forall m', m' = m1 \/ (exists k, m' = set_controlledPlayerId m1 k) ->
            ball m' = b0 /\ possession m' = noPossession
            /\ score m' = score m /\ clock m' = clock m
            /\ lastEventText m' = lastEventText m
            /\ frame m' = frame m
            /\ (forall homeT0 awayT0 p,
                  Some homeT = Some homeT0 -> Some awayT = Some awayT0 ->
                  In p (playersById m') -> In (p_id p) (t_players homeT0 ++ t_players awayT0) ->
                  p_vel p = mkVec2 0 0 /\ p_hasBall p = false)).
  { intros m' [->|[k ->]]; simpl;
      (repeat (split; [reflexivity|]));
      (split; [unfold frame, statics; simpl; now rewrite Hstat3|]);
      intros h a p Hh Ha; inversion Hh; inversion Ha; subst; apply Hstill. }
  split.
  - intros m' H. apply Hall.
    destruct (match getPlayer ps3 (controlledPlayerId m1) with
              | Some c => _ | None => false end); [inversion H; now left|].
    destruct (getTeam (teamsById m1) (humanTeamId m1)); [|discriminate].
    destruct (find (fun p => isMF (p_role p)) _); [inversion H; eauto|].
    destruct (find (fun p => negb (isGK (p_role p))) _); [inversion H; eauto|].
    destruct (resolve ps3 (t_players t)); [discriminate|inversion H; eauto].
  - intros H. right. right.
    destruct (match getPlayer ps3 (controlledPlayerId m1) with
              | Some c => _ | None => false end); [discriminate|].
    change (teamsById m1) with (teamsById m) in H.
    change (humanTeamId m1) with (humanTeamId m) in H.
    destruct (getTeam (teamsById m) (humanTeamId m)) as [t|] eqn:Et; [|now left].
    right.
    destruct (find (fun p => isMF (p_role p)) _); [discriminate|].
    destruct (find (fun p => negb (isGK (p_role p))) _); [discriminate|].
    destruct (resolve ps3 (t_players t)) eqn:Er; [|discriminate].
    unfold getTeamPlayers, getTeamPlayerIds. rewrite Et.
    eapply resolve_nil_static; eauto.
Qed.

(** X19. A [resetToKickoff] that returns puts the ball on the centre spot at
    rest, free, with no last touch and no kick protection, clears the
    possession, and leaves score, clock, teams, event text and the identity,
    team and role of every player as they were.  Every stored player named
    by the home or the away roster stands still and carries no ball flag.
    It fails only when the home or the away team is missing, or when a new
    controlled player is needed and the human team is missing or has no
    stored player. *)
Theorem resetToKickoff_kickoff cfg m :
  (forall m', resetToKickoff cfg m = Some m' ->
     ball m' = mkBall (mkVec2 0 0) (mkVec2 0 0) (b_radius (ball m)) None None None 0
     /\ possession m' = noPossession
     /\ score m' = score m /\ clock m' = clock m
     /\ lastEventText m' = lastEventText m
     /\ frame m' = frame m
     /\ (forall homeT awayT p,
           getTeam (teamsById m) (homeTeamId m) = Some homeT ->
           getTeam (teamsById m) (awayTeamId m) = Some awayT ->
           In p (playersById m') -> In (p_id p) (t_players homeT ++ t_players awayT) ->
           p_vel p = mkVec2 0 0 /\ p_hasBall p = false))
  /\ (resetToKickoff cfg m = None ->
      getTeam (teamsById m) (homeTeamId m) = None
      \/ getTeam (teamsById m) (awayTeamId m) = None
      \/ getTeam (teamsById m) (humanTeamId m) = None
      \/ getTeamPlayers m (humanTeamId m) = []).
Proof. exact (resetToKickoff_post cfg m). Qed.

Lemma resetToKickoff_keeps_control cfg m c homeT awayT :
  getTeam (teamsById m) (homeTeamId m) = Some homeT ->
  getTeam (teamsById m) (awayTeamId m) = Some awayT ->
  getPlayer (playersById m) (controlledPlayerId m) = Some c ->
  p_teamId c = humanTeamId m -> p_role c <> GK ->
  exists m', resetToKickoff cfg m = Some m' /\ controlledPlayerId m' = controlledPlayerId m.
Proof.
  intros Eh Ea Ec Ht Hr. unfold resetToKickoff. rewrite Eh, Ea.
  set (ps1 := updPlayers _ _ _).
  set (ps3 := placeTeamKickoff _ _ _ (placeTeamKickoff _ _ _ ps1)).
  assert (Hstat3 : map p_static ps3 = map p_static (playersById m)).
  { assert (Hcore3 : map p_core ps3 = map p_core ps1).
    { unfold ps3. now rewrite !placeTeamKickoff_core. }
    rewrite (cores_statics _ _ Hcore3). unfold ps1. now apply updPlayers_static. }
  cbn [controlledPlayerId set_players set_possession set_ball humanTeamId].
  pose proof (getPlayer_static _ _ (controlledPlayerId m) Hstat3) as Hc.
  rewrite Ec in Hc.
  destruct (getPlayer ps3 (controlledPlayerId m)) as [c3|]; [|discriminate].
  simpl in Hc. inversion Hc as [[Hi Hte Hro]].
  rewrite Hte, Ht, String.eqb_refl, Hro.
  destruct (p_role c); simpl; try congruence; eexists; split; reflexivity.
Qed.

(** X20. [createEngine] succeeds for every match setup, also when the
    opposing team is given the id of the home team.  The engine it returns
    has the default configuration, is not paused, has every timer, cooldown
    and charge at zero, a goalless score, the clock at zero of the configured
    total in the first half, the ball at rest, free and unprotected on the
    centre spot, no possession, and the home midfielder as controlled
    player.  With an opposing id other than the home id there are ten stored
    players in two teams; with the home id the opposing team replaces the
    home team and five players are left. *)
Theorem createEngine_initial setup jitter0 :
  exists e,
    createEngine setup jitter0 = Some e
    /\ config e = DEFAULT_ENGINE_CONFIG
    /\ paused e = false
    /\ kickoffHoldMs e = 0 /\ kickoffAwaitInput e = false /\ celebrationMs e = 0
    /\ switchCooldownMs e = 0 /\ stealCooldownMs e = 0
    /\ shootChargeMs e = 0 /\ actionChargeMs e = 0
    /\ shootCooldownMs (cpuAi e) = 0 /\ chaserPlayerId (cpuAi e) = None
    /\ score (e_match e) = mkScore 0 0
    /\ clock (e_match e) = mkClock 0 (matchMsTotal DEFAULT_ENGINE_CONFIG) FIRST_HALF
    /\ ball (e_match e) = mkBall (mkVec2 0 0) (mkVec2 0 0) 1.2 None None None 0
    /\ possession (e_match e) = noPossession
    /\ controlledPlayerId (e_match e) = "kilo:p3"%string
    /\ humanTeamId (e_match e) = "kilo"%string
    /\ homeTeamId (e_match e) = "kilo"%string
    /\ awayTeamId (e_match e) = setupAwayId setup
    /\ (setupAwayId setup <> "kilo"%string ->
        List.length (playersById (e_match e)) = 10%nat /\ List.length (teamsById (e_match e)) = 2%nat)
    /\ (setupAwayId setup = "kilo"%string ->
        List.length (playersById (e_match e)) = 5%nat /\ List.length (teamsById (e_match e)) = 1%nat).
Proof.
  set (m0 := createMatch DEFAULT_ENGINE_CONFIG setup).
  set (a := setupAwayId setup).
  assert (Ea : away_id match setup with Some s => s | None => mkSetup "cpu" "CPU" end = a).
  { destruct setup; reflexivity. }
  assert (Hteams : exists homeT awayT,
            getTeam (teamsById m0) (homeTeamId m0) = Some homeT
            /\ getTeam (teamsById m0) (awayTeamId m0) = Some awayT).
  { unfold m0, createMatch. cbv zeta. rewrite Ea.
    destruct (String.eqb_spec a "kilo") as [E|E].
    - rewrite E. do 2 eexists. split; reflexivity.
    - do 2 eexists. cbn [teamsById homeTeamId awayTeamId getTeam find t_id].
      rewrite String.eqb_refl. split; [reflexivity|].
      assert (Hka : String.eqb "kilo" a = false) by (apply String.eqb_neq; congruence).
      rewrite Hka, String.eqb_refl. reflexivity. }
  destruct Hteams as (homeT & awayT & Eh & Eaw).
  assert (Hctl : exists c, getPlayer (playersById m0) (controlledPlayerId m0) = Some c
                           /\ p_teamId c = humanTeamId m0 /\ p_role c <> GK).
  { unfold m0, createMatch. cbv zeta. rewrite Ea.
    destruct (String.eqb_spec a "kilo") as [E|E].
    - rewrite E. eexists. split; [reflexivity|]. split; [reflexivity|discriminate].
    - eexists. split; [reflexivity|]. split; [reflexivity|discriminate]. }
  destruct Hctl as (c & Ec & Hct & Hcr).
  destruct (resetToKickoff_keeps_control DEFAULT_ENGINE_CONFIG m0 c homeT awayT Eh Eaw Ec Hct Hcr)
    as (m & Er & Hkeep).
  destruct (resetToKickoff_post DEFAULT_ENGINE_CONFIG m0) as [Hpost _].
  destruct (Hpost m Er) as (Hb & Hp & Hs & Hcl & _ & Hf & _).
  unfold createEngine. fold m0. rewrite Er. eexists. split; [reflexivity|].
  cbn [config paused kickoffHoldMs kickoffAwaitInput celebrationMs switchCooldownMs
       stealCooldownMs shootChargeMs actionChargeMs cpuAi shootCooldownMs chaserPlayerId e_match].
  repeat (split; [reflexivity|]).
  split; [rewrite Hs; reflexivity|]. split; [rewrite Hcl; reflexivity|].
  split; [rewrite Hb; reflexivity|]. split; [exact Hp|].
  split; [rewrite Hkeep; reflexivity|].
  assert (Hh : homeTeamId m = homeTeamId m0)
    by exact (f_equal (fun f => fst (fst (fst (fst f)))) Hf).
  assert (Ha : awayTeamId m = awayTeamId m0)
    by exact (f_equal (fun f => snd (fst (fst (fst f)))) Hf).
  assert (Hhu : humanTeamId m = humanTeamId m0)
    by exact (f_equal (fun f => snd (fst (fst f))) Hf).
  assert (Hts : teamsById m = teamsById m0)
    by exact (f_equal (fun f => snd (fst f)) Hf).
  assert (Hst : statics m = statics m0)
    by exact (f_equal (fun f => snd f) Hf).
  split; [rewrite Hhu; reflexivity|]. split; [rewrite Hh; reflexivity|].
  split; [rewrite Ha; unfold m0, createMatch; cbv zeta; exact Ea|].
  assert (Hlen : List.length (playersById m) = List.length (playersById m0)).
  { unfold statics in Hst. apply (f_equal (@List.length _)) in Hst.
    now rewrite !length_map in Hst. }
  rewrite Hlen, Hts. unfold m0, createMatch. cbv zeta. rewrite Ea.
  split; intros E.
  - apply String.eqb_neq in E. rewrite E. split; reflexivity.
  - rewrite E. split; reflexivity.
Qed.

(* ------------------------------------------------------------------ *)
(** ** Instances on the initial match *)

Lemma bounceBallOffPitch_contains_witness :
  b_radius (ball match0) <= pitchW DEFAULT_ENGINE_CONFIG / 2
  /\ b_radius (ball match0) <= pitchH DEFAULT_ENGINE_CONFIG / 2
  /\ Rabs (vec_y (b_pos (bounceBallOffPitch DEFAULT_ENGINE_CONFIG (ball match0))))
     <= pitchH DEFAULT_ENGINE_CONFIG / 2 - b_radius (ball match0).
Proof.
  assert (HW : b_radius (ball match0) <= pitchW DEFAULT_ENGINE_CONFIG / 2) by (simpl; lra).
  assert (HH : b_radius (ball match0) <= pitchH DEFAULT_ENGINE_CONFIG / 2) by (simpl; lra).
  split; [exact HW|]. split; [exact HH|].
  exact (proj1 (bounceBallOffPitch_contains DEFAULT_ENGINE_CONFIG (ball match0) HW HH)).
Defined.

Lemma integrateFreeBall_slows_witness :
  0 <= 1 / 60
  /\ V.len (b_vel (fst (integrateFreeBall match0 DEFAULT_ENGINE_CONFIG (ball match0) (1 / 60))))
     <= V.len (b_vel (ball match0)).
Proof.
  assert (H : 0 <= 1 / 60) by lra.
  split; [exact H|].
  exact (proj1 (proj2 (proj2
           (integrateFreeBall_slows match0 DEFAULT_ENGINE_CONFIG (ball match0) (1 / 60) H)))).
Defined.

Lemma attachBallToOwner_in_front_witness :
  0 <= PLAYER_RADIUS + b_radius (ball match0) * 0.85
  /\ V.dist (b_pos (attachBallToOwner (ball match0) mfAtBall)) (p_pos mfAtBall)
     = PLAYER_RADIUS + b_radius (ball match0) * 0.85.
Proof.
  assert (H : 0 <= PLAYER_RADIUS + b_radius (ball match0) * 0.85)
    by (unfold PLAYER_RADIUS; simpl; lra).
  split; [exact H|].
  exact (proj1 (attachBallToOwner_in_front (ball match0) mfAtBall H)).
Defined.
